(** * NumGo: a shallow embedding of the tensor engine

    The Go sources of [tensor], [linalg] and [random] are embedded as Rocq
    functions.  Go's [int] is a 64-bit two's complement integer and is
    modelled as [Z] with the wrap-around written out; [float64] is the
    kernel's binary64 [float]; the byte buffers of the arrays live in an
    explicit store, so that aliasing between arrays is visible. *)

From Stdlib Require Import ZArith List Bool Lia Floats.
From Stdlib Require Import Strings.Byte.
Import ListNotations.

Open Scope Z_scope.

(** ** Go's [int] *)

Module GoInt.

Definition min_int : Z := - 2 ^ 63.
Definition max_int : Z := 2 ^ 63 - 1.

Definition in_range (z : Z) : Prop := min_int <= z <= max_int.

Definition wrap (z : Z) : Z := (z + 2 ^ 63) mod 2 ^ 64 - 2 ^ 63.

Definition add (a b : Z) : Z := wrap (a + b).
Definition sub (a b : Z) : Z := wrap (a - b).
Definition mul (a b : Z) : Z := wrap (a * b).

End GoInt.

(** ** Failures

    The Go code reports failures by [panic] with a formatted message or by
    returning an [error]; each kind of message is a constructor here, with
    the values the message prints. *)

Inductive error : Type :=
| ArityError (expected got : Z)            (* "expected %d indices, got %d" *)
| IndexError (idx axis extent : Z)         (* "index %d is out of bounds for axis %d with size %d" *)
| BroadcastError (shape1 shape2 : list Z)  (* "shapes %v and %v cannot be broadcast together" *)
| BroadcastToError (src target : list Z)   (* "cannot broadcast shape %v to %v" *)
| UnsupportedDTypeError                    (* "unsupported dtype for ..." *)
| DataLengthError (len sz : Z)             (* "data length %d does not match shape size %d" *)
| ReshapeError                             (* the four panics of Reshape *)
| AxisError                                (* "axis out of bounds", "repeated axis: ..." *)
| DimensionError                           (* "... requires a 2D array", "... requires a square matrix" *)
| SingularMatrixError                      (* "matrix is singular (not invertible)" *)
| RuntimePanic                             (* slice bounds, negative make, division by zero *)
| OutOfFuel.                               (* the model's bound on an unbounded loop was reached *)

Inductive result (A : Type) : Type :=
| Ok (a : A)
| Err (e : error).
Arguments Ok {A} a.
Arguments Err {A} e.

Definition rbind {A B} (r : result A) (f : A -> result B) : result B :=
  match r with
  | Ok a => f a
  | Err e => Err e
  end.

(** ** Shapes: [computeSize], [computeStrides], [broadcastShapes] *)

Definition len {A} (l : list A) : Z := Z.of_nat (length l).

(** [s[i] = v] on a slice, for an index inside it. *)
Fixpoint set_nth {A} (i : nat) (v : A) (l : list A) : list A :=
  match l, i with
  | [], _ => []
  | _ :: t, O => v :: t
  | h :: t, S k => h :: set_nth k v t
  end.

(** [copy(dst[off:], src)]: copies [min(len(dst)-off, len(src))] elements. *)
Definition copy_at {A} (off : nat) (dst src : list A) : list A :=
  firstn off dst
  ++ firstn (length dst - off) src
  ++ skipn (off + length src) dst.

Definition computeSize (shape : list Z) : Z :=
  match shape with
  | [] => 0
  | _ => fold_left GoInt.mul shape 1
  end.

(** The loop of [computeStrides] runs from the last axis to the first; the
    pair carries the strides already written and the running [stride]. *)
Definition computeStrides (shape : list Z) (itemsize : Z) : list Z :=
  fst (fold_right (fun d '(strides, stride) =>
                     (stride :: strides, GoInt.mul stride d))
                  ([], itemsize) shape).

Module Broadcast.

(** [for i := 0; i < offset; i++ { s[i] = 1 }] *)
Fixpoint fill_ones (i count : nat) (s : list Z) : list Z :=
  match count with
  | O => s
  | S k => fill_ones (S i) k (set_nth i 1 s)
  end.

Definition aligned (maxLen : nat) (shape : list Z) : list Z :=
  let s := repeat 0 maxLen in
  let offset := (maxLen - length shape)%nat in
  copy_at offset (fill_ones 0 offset s) shape.

(** The compatibility loop; [None] is the early [return nil, err]. *)
Fixpoint joint (i count : nat) (s1 s2 res : list Z) : option (list Z) :=
  match count with
  | O => Some res
  | S k =>
      let d1 := nth i s1 0 in
      let d2 := nth i s2 0 in
      if d1 =? d2 then joint (S i) k s1 s2 (set_nth i d1 res)
      else if d1 =? 1 then joint (S i) k s1 s2 (set_nth i d2 res)
      else if d2 =? 1 then joint (S i) k s1 s2 (set_nth i d1 res)
      else None
  end.

End Broadcast.

Definition broadcastShapes (shape1 shape2 : list Z) : result (list Z) :=
  let maxLen := Nat.max (length shape1) (length shape2) in
  let s1 := Broadcast.aligned maxLen shape1 in
  let s2 := Broadcast.aligned maxLen shape2 in
  match Broadcast.joint 0 maxLen s1 s2 (repeat 0 maxLen) with
  | Some res => Ok res
  | None => Err (BroadcastError shape1 shape2)
  end.


(** ** Bytes and the encodings of [encoding/binary] and [math] *)

Module Enc.

Definition byte_of_Z (z : Z) : byte :=
  match Byte.of_N (Z.to_N (z mod 256)) with
  | Some b => b
  | None => x00
  end.

Definition Z_of_byte (b : byte) : Z := Z.of_N (Byte.to_N b).

(** [binary.LittleEndian.PutUintN]: the low [n] bytes of [z], least
    significant first (a negative [z] gives its two's complement). *)
Fixpoint le_encode (n : nat) (z : Z) : list byte :=
  match n with
  | O => []
  | S k => byte_of_Z z :: le_encode k (z / 256)
  end.

(** [binary.LittleEndian.UintN] *)
Fixpoint le_decode (bs : list byte) : Z :=
  match bs with
  | [] => 0
  | b :: t => Z_of_byte b + 256 * le_decode t
  end.

(** [intN(u)] for an unsigned [u] of [w] bits. *)
Definition signed (w : Z) (u : Z) : Z :=
  if u <? 2 ^ (w - 1) then u else u - 2 ^ w.

Definition sign_bit (w : Z) (s : bool) : Z := if s then 2 ^ (w - 1) else 0.

(** The bits of a float of precision [p] (with the implicit bit) stored
    in [w] bits.  [spec_float] has one NaN; it is written as Go's
    [math.NaN()], the quiet NaN with payload 1. *)
Definition bits_of_SF (w p : Z) (x : spec_float) : Z :=
  let expmax := 2 ^ (w - p) - 1 in
  let bias := 2 ^ (w - p - 1) - 1 in
  match x with
  | S754_zero s => sign_bit w s
  | S754_infinity s => sign_bit w s + expmax * 2 ^ (p - 1)
  | S754_nan => expmax * 2 ^ (p - 1) + 2 ^ (p - 2) + 1
  | S754_finite s m e =>
      if Zpos m <? 2 ^ (p - 1)
      then sign_bit w s + Zpos m
      else sign_bit w s + (e + bias + p - 1) * 2 ^ (p - 1) + (Zpos m - 2 ^ (p - 1))
  end.

Definition SF_of_bits (w p : Z) (b : Z) : spec_float :=
  let expmax := 2 ^ (w - p) - 1 in
  let bias := 2 ^ (w - p - 1) - 1 in
  let s := 2 ^ (w - 1) <=? b in
  let ex := (b / 2 ^ (p - 1)) mod 2 ^ (w - p) in
  let fr := b mod 2 ^ (p - 1) in
  if ex =? 0 then
    if fr =? 0 then S754_zero s
    else S754_finite s (Z.to_pos fr) (2 - bias - p)
  else if ex =? expmax then
    if fr =? 0 then S754_infinity s else S754_nan
  else S754_finite s (Z.to_pos (fr + 2 ^ (p - 1))) (ex - bias - p + 1).

(** [math.Float64bits], [math.Float64frombits] *)
Definition Float64bits (x : float) : Z := bits_of_SF 64 53 (Prim2SF x).
Definition Float64frombits (b : Z) : float := SF2Prim (SF_of_bits 64 53 b).

(** [float32(x)] for a [float64] [x], as a binary32 [spec_float]:
    rounding to nearest, ties to even. *)
Definition to_float32 (x : float) : spec_float :=
  match Prim2SF x with
  | S754_finite s m e => binary_round 24 128 s m e
  | sf => sf
  end.

(** [math.Float32bits(float32(x))] and [float64(math.Float32frombits(b))] *)
Definition Float32bits (x : float) : Z := bits_of_SF 32 24 (to_float32 x).
Definition Float32frombits (b : Z) : float := SF2Prim (SF_of_bits 32 24 b).

(** [float64(z)] for an integer [z]. *)
Definition of_int (z : Z) : float := SF2Prim (binary_normalize prec emax z 0 false).

(** [float32(z)] for an integer [z], as its bits. *)
Definition Float32bits_of_int (z : Z) : Z :=
  bits_of_SF 32 24 (binary_normalize 24 128 z 0 false).

(** The integer part of a finite float (truncation toward zero). *)
Definition trunc (x : float) : option Z :=
  match Prim2SF x with
  | S754_zero _ => Some 0
  | S754_finite s m e =>
      let a := if 0 <=? e then Zpos m * 2 ^ e else Zpos m / 2 ^ (- e) in
      Some (if s then - a else a)
  | _ => None
  end.

(** [intN(x)] and [uintN(x)] for a [float64] [x].  Go truncates toward
    zero when the value fits the type; outside the range of the type
    (and for NaN and the infinities) the language leaves the result to
    the implementation, and the code the gc compiler emits on amd64 is
    taken here.  [cvt W] is its conversion instruction for [W] of 32
    and 64 ([CVTTSD2SL], [CVTTSD2SQ]): the truncation when it fits
    [intW], and [- 2 ^ (W - 1)] otherwise. *)
Definition cvt (W : Z) (x : float) : Z :=
  match trunc x with
  | Some z => if (- 2 ^ (W - 1) <=? z) && (z <? 2 ^ (W - 1)) then z else - 2 ^ (W - 1)
  | None => - 2 ^ (W - 1)
  end.

(** [int8] and [int16] are the low bits of the conversion to [int32];
    [int32] and [int64] are the instruction itself. *)
Definition to_signed (w : Z) (x : float) : Z :=
  if w <? 32 then signed w (cvt 32 x mod 2 ^ w) else cvt w x.

(** [uint8] and [uint16] are the low bits of the conversion to [int32],
    [uint32] the low bits of the conversion to [int64]; for [uint64] the
    compiler converts [x] itself below [2^63] and otherwise [x - 2^63],
    to which it adds the top bit again. *)
Definition to_unsigned (w : Z) (x : float) : Z :=
  if w <? 32 then cvt 32 x mod 2 ^ w
  else if w <? 64 then cvt 64 x mod 2 ^ w
  else if (x <? 0x1p63)%float then cvt 64 x mod 2 ^ 64
  else Z.lor (cvt 64 (x - 0x1p63)%float mod 2 ^ 64) (2 ^ 63).

(** The values of a [float64] that [intN] and [uintN] represent: those
    whose truncation toward zero is in the range of the type. *)
Definition in_signed (w : Z) (x : float) : bool :=
  match trunc x with
  | Some z => (- 2 ^ (w - 1) <=? z) && (z <? 2 ^ (w - 1))
  | None => false
  end.

Definition in_unsigned (w : Z) (x : float) : bool :=
  match trunc x with
  | Some z => (0 <=? z) && (z <? 2 ^ w)
  | None => false
  end.

End Enc.

(** ** The store

    Every [[]byte] made by the code is a cell of the store; an array holds
    the address of its buffer.  An operation is a function from the store
    to a result and the new store, or to the failure that stopped it. *)

Definition buffer : Type := list byte.
Definition heap : Type := list buffer.

Definition M (A : Type) : Type := heap -> result (A * heap).

Definition ret {A} (a : A) : M A := fun h => Ok (a, h).

Definition bind {A B} (m : M A) (f : A -> M B) : M B :=
  fun h =>
    match m h with
    | Ok (a, h') => f a h'
    | Err e => Err e
    end.

Definition fail {A} (e : error) : M A := fun _ => Err e.

Definition lift {A} (r : result A) : M A :=
  match r with
  | Ok a => ret a
  | Err e => fail e
  end.

Declare Scope go_scope.
Delimit Scope go_scope with go.
Notation "x <- c1 ;; c2" := (bind c1 (fun x => c2))
  (at level 61, c1 at next level, right associativity) : go_scope.
Notation "' pat <- c1 ;; c2" :=
  (bind c1 (fun x => match x with pat => c2 end))
  (at level 61, pat pattern, c1 at next level, right associativity) : go_scope.
Notation "c1 ;; c2" := (bind c1 (fun _ => c2))
  (at level 61, right associativity) : go_scope.
Open Scope go_scope.

(** [for i := start; i < start+count; i++ { s = body(i, s) }] *)
Fixpoint for_range {S} (i : Z) (count : nat) (body : Z -> S -> M S) (s : S) : M S :=
  match count with
  | O => ret s
  | S k => s' <- body i s ;; for_range (i + 1) k body s'
  end.

(** [for i := 0; i < n; i++] with the variables the body updates. *)
Definition for_upto {S} (n : Z) (body : Z -> S -> M S) (s : S) : M S :=
  for_range 0 (Z.to_nat n) body s.

(** The same loop when the body only writes to the store. *)
Definition for_each (n : Z) (body : Z -> M unit) : M unit :=
  for_upto n (fun i _ => body i) tt.

Module Store.

(** [make([]byte, n)]; a negative length panics. *)
Definition make (n : Z) : M nat :=
  fun h =>
    if n <? 0 then Err RuntimePanic
    else Ok (length h, h ++ [repeat x00 (Z.to_nat n)]).

(** A fresh buffer with the given contents. *)
Definition alloc (bs : buffer) : M nat :=
  fun h => Ok (length h, h ++ [bs]).

Definition get (l : nat) : M buffer :=
  fun h =>
    match nth_error h l with
    | Some b => Ok (b, h)
    | None => Err RuntimePanic
    end.

(** [0 <= off <= off+n <= len(b)], the run-time check of [b[off:off+n]]. *)
Definition in_bounds (b : buffer) (off n : Z) : bool :=
  (0 <=? off) && (off <=? GoInt.add off n) && (GoInt.add off n <=? len b).

(** Reading [data[off : off+n]]. *)
Definition load (l : nat) (off n : Z) : M (list byte) :=
  b <- get l ;;
  if in_bounds b off n
  then ret (firstn (Z.to_nat n) (skipn (Z.to_nat off) b))
  else fail RuntimePanic.

(** Writing the [n] bytes [bs] into [data[off : off+n]]. *)
Definition store (l : nat) (off : Z) (bs : list byte) : M unit :=
  fun h =>
    match nth_error h l with
    | Some b =>
        if in_bounds b off (len bs)
        then Ok (tt, set_nth l (copy_at (Z.to_nat off) b bs) h)
        else Err RuntimePanic
    | None => Err RuntimePanic
    end.

End Store.

(** ** [DType] and [NDArray] *)

Inductive DType : Type :=
| Bool | Int8 | Int16 | Int32 | Int64
| Uint8 | Uint16 | Uint32 | Uint64
| Float32 | Float64 | Complex64 | Complex128.

Definition ItemSize (dt : DType) : Z :=
  match dt with
  | Bool | Int8 | Uint8 => 1
  | Int16 | Uint16 => 2
  | Int32 | Uint32 | Float32 => 4
  | Int64 | Uint64 | Float64 | Complex64 => 8
  | Complex128 => 16
  end.

Definition DType_eqb (a b : DType) : bool :=
  match a, b with
  | Bool, Bool | Int8, Int8 | Int16, Int16 | Int32, Int32 | Int64, Int64
  | Uint8, Uint8 | Uint16, Uint16 | Uint32, Uint32 | Uint64, Uint64
  | Float32, Float32 | Float64, Float64
  | Complex64, Complex64 | Complex128, Complex128 => true
  | _, _ => false
  end.

Record NDArray : Type := mkNDArray {
  data : nat;            (* the address of the underlying buffer *)
  shape : list Z;
  strides : list Z;      (* in bytes *)
  dtype : DType;
  size : Z;
  ndim : Z
}.

(** The accessors of [tensor.go]; [Shape] returns a copy of the slice. *)
Definition Shape (a : NDArray) : list Z := shape a.
Definition Size (a : NDArray) : Z := size a.
Definition Ndim (a : NDArray) : Z := ndim a.

(** ** Indexing ([indexing.go]) *)

(** The loop of [flatIndex], at axis [i] with the offset so far. *)
Fixpoint flatIndex_from (a : NDArray) (i : nat) (indices : list Z) (offset : Z)
  : result Z :=
  match indices with
  | [] => Ok offset
  | idx :: rest =>
      match nth_error (shape a) i, nth_error (strides a) i with
      | Some n, Some st =>
          let idx := if idx <? 0 then GoInt.add n idx else idx in
          if (idx <? 0) || (idx >=? n)
          then Err (IndexError idx (Z.of_nat i) n)
          else flatIndex_from a (S i) rest (GoInt.add offset (GoInt.mul idx st))
      | Some n, None =>
          let idx := if idx <? 0 then GoInt.add n idx else idx in
          if (idx <? 0) || (idx >=? n)
          then Err (IndexError idx (Z.of_nat i) n)
          else Err RuntimePanic
      | None, _ => Err RuntimePanic
      end
  end.

Definition flatIndex (a : NDArray) (indices : list Z) : result Z :=
  if len indices =? ndim a
  then flatIndex_from a 0 indices 0
  else Err (ArityError (ndim a) (len indices)).

(** The loop of [unravelIndex], from axis [count - 1] down to 0. *)
Fixpoint unravel_from (a : NDArray) (count : nat) (remaining : Z) (indices : list Z)
  : result (list Z) :=
  match count with
  | O => Ok indices
  | S i =>
      match nth_error (shape a) i with
      | Some d =>
          if d =? 0 then Err RuntimePanic
          else unravel_from a i (GoInt.wrap (Z.quot remaining d))
                 (set_nth i (Z.rem remaining d) indices)
      | None => Err RuntimePanic
      end
  end.

Definition unravelIndex (a : NDArray) (flatIdx : Z) : result (list Z) :=
  if ndim a <? 0 then Err RuntimePanic
  else unravel_from a (Z.to_nat (ndim a)) flatIdx (repeat 0 (Z.to_nat (ndim a))).

Definition float_of_bool (b : bool) : float := if b then 1%float else 0%float.

Definition GetFloat64 (a : NDArray) (indices : list Z) : M float :=
  offset <- lift (flatIndex a indices) ;;
  match dtype a with
  | Float64 => bs <- Store.load (data a) offset 8 ;; ret (Enc.Float64frombits (Enc.le_decode bs))
  | Float32 => bs <- Store.load (data a) offset 4 ;; ret (Enc.Float32frombits (Enc.le_decode bs))
  | Int64 => bs <- Store.load (data a) offset 8 ;; ret (Enc.of_int (Enc.signed 64 (Enc.le_decode bs)))
  | Int32 => bs <- Store.load (data a) offset 4 ;; ret (Enc.of_int (Enc.signed 32 (Enc.le_decode bs)))
  | Int16 => bs <- Store.load (data a) offset 2 ;; ret (Enc.of_int (Enc.signed 16 (Enc.le_decode bs)))
  | Int8 => bs <- Store.load (data a) offset 1 ;; ret (Enc.of_int (Enc.signed 8 (Enc.le_decode bs)))
  | Uint64 => bs <- Store.load (data a) offset 8 ;; ret (Enc.of_int (Enc.le_decode bs))
  | Uint32 => bs <- Store.load (data a) offset 4 ;; ret (Enc.of_int (Enc.le_decode bs))
  | Uint16 => bs <- Store.load (data a) offset 2 ;; ret (Enc.of_int (Enc.le_decode bs))
  | Uint8 => bs <- Store.load (data a) offset 1 ;; ret (Enc.of_int (Enc.le_decode bs))
  | Bool => bs <- Store.load (data a) offset 1 ;; ret (float_of_bool (negb (Enc.le_decode bs =? 0)))
  | Complex64 | Complex128 => fail UnsupportedDTypeError
  end.

Definition GetInt64 (a : NDArray) (indices : list Z) : M Z :=
  offset <- lift (flatIndex a indices) ;;
  match dtype a with
  | Int64 => bs <- Store.load (data a) offset 8 ;; ret (Enc.signed 64 (Enc.le_decode bs))
  | Int32 => bs <- Store.load (data a) offset 4 ;; ret (Enc.signed 32 (Enc.le_decode bs))
  | Int16 => bs <- Store.load (data a) offset 2 ;; ret (Enc.signed 16 (Enc.le_decode bs))
  | Int8 => bs <- Store.load (data a) offset 1 ;; ret (Enc.signed 8 (Enc.le_decode bs))
  | Uint64 => bs <- Store.load (data a) offset 8 ;; ret (Enc.signed 64 (Enc.le_decode bs))
  | Uint32 => bs <- Store.load (data a) offset 4 ;; ret (Enc.le_decode bs)
  | Uint16 => bs <- Store.load (data a) offset 2 ;; ret (Enc.le_decode bs)
  | Uint8 => bs <- Store.load (data a) offset 1 ;; ret (Enc.le_decode bs)
  | Bool => bs <- Store.load (data a) offset 1 ;; ret (if Enc.le_decode bs =? 0 then 0 else 1)
  | Float64 => bs <- Store.load (data a) offset 8 ;;
               ret (Enc.to_signed 64 (Enc.Float64frombits (Enc.le_decode bs)))
  | Float32 => bs <- Store.load (data a) offset 4 ;;
               ret (Enc.to_signed 64 (Enc.Float32frombits (Enc.le_decode bs)))
  | Complex64 | Complex128 => fail UnsupportedDTypeError
  end.

(** The bytes [SetFloat64] writes for [value] in an array of each dtype. *)
Definition encode_float (dt : DType) (value : float) : option (list byte) :=
  match dt with
  | Float64 => Some (Enc.le_encode 8 (Enc.Float64bits value))
  | Float32 => Some (Enc.le_encode 4 (Enc.Float32bits value))
  | Int64 => Some (Enc.le_encode 8 (Enc.to_signed 64 value))
  | Int32 => Some (Enc.le_encode 4 (Enc.to_signed 32 value))
  | Int16 => Some (Enc.le_encode 2 (Enc.to_signed 16 value))
  | Int8 => Some (Enc.le_encode 1 (Enc.to_signed 8 value))
  | Uint64 => Some (Enc.le_encode 8 (Enc.to_unsigned 64 value))
  | Uint32 => Some (Enc.le_encode 4 (Enc.to_unsigned 32 value))
  | Uint16 => Some (Enc.le_encode 2 (Enc.to_unsigned 16 value))
  | Uint8 => Some (Enc.le_encode 1 (Enc.to_unsigned 8 value))
  | Bool => Some [if (value =? 0)%float then x00 else x01]
  | Complex64 | Complex128 => None
  end.

Definition SetFloat64 (a : NDArray) (value : float) (indices : list Z) : M unit :=
  offset <- lift (flatIndex a indices) ;;
  match encode_float (dtype a) value with
  | Some bs => Store.store (data a) offset bs
  | None => fail UnsupportedDTypeError
  end.

(** The bytes [SetInt64] writes for [value] in an array of each dtype. *)
Definition encode_int (dt : DType) (value : Z) : option (list byte) :=
  match dt with
  | Int64 | Uint64 => Some (Enc.le_encode 8 value)
  | Int32 | Uint32 => Some (Enc.le_encode 4 value)
  | Int16 | Uint16 => Some (Enc.le_encode 2 value)
  | Int8 | Uint8 => Some (Enc.le_encode 1 value)
  | Bool => Some [if value =? 0 then x00 else x01]
  | Float64 => Some (Enc.le_encode 8 (Enc.Float64bits (Enc.of_int value)))
  | Float32 => Some (Enc.le_encode 4 (Enc.Float32bits_of_int value))
  | Complex64 | Complex128 => None
  end.

Definition SetInt64 (a : NDArray) (value : Z) (indices : list Z) : M unit :=
  offset <- lift (flatIndex a indices) ;;
  match encode_int (dtype a) value with
  | Some bs => Store.store (data a) offset bs
  | None => fail UnsupportedDTypeError
  end.

(** [for i, v := range l { body(i, v) }] *)
Fixpoint for_list {A} (i : Z) (l : list A) (body : Z -> A -> M unit) : M unit :=
  match l with
  | [] => ret tt
  | v :: t => body i v ;; for_list (i + 1) t body
  end.

(** [s := make([]int, n); for j := 0; j < n; j++ { s[j] = f(j) }] *)
Definition tabulate (n : Z) (f : nat -> Z) : list Z :=
  map f (seq 0 (Z.to_nat n)).

(** [Copy]: [make] and [copy] of the whole buffer, and copies of the
    shape and strides slices. *)
Definition Copy (a : NDArray) : M NDArray :=
  b <- Store.get (data a) ;;
  newData <- Store.alloc b ;;
  ret {| data := newData; shape := shape a; strides := strides a;
         dtype := dtype a; size := size a; ndim := ndim a |}.

(** ** Creation ([creation.go]) *)

Definition Zeros (shape : list Z) (dtype : DType) : M NDArray :=
  let size := computeSize shape in
  let itemsize := ItemSize dtype in
  data <- Store.make (GoInt.mul size itemsize) ;;
  let strides := computeStrides shape itemsize in
  ret {| data := data; shape := shape; strides := strides;
         dtype := dtype; size := size; ndim := len shape |}.

Definition FromSliceFloat64 (data : list float) (shape : list Z) : M NDArray :=
  let size := computeSize shape in
  if negb (len data =? size) then fail (DataLengthError (len data) size)
  else
    let itemsize := ItemSize Float64 in
    byteData <- Store.make (GoInt.mul size itemsize) ;;
    for_list 0 data (fun i val =>
      let offset := GoInt.mul i 8 in
      Store.store byteData offset (Enc.le_encode 8 (Enc.Float64bits val))) ;;
    let strides := computeStrides shape itemsize in
    ret {| data := byteData; shape := shape; strides := strides;
           dtype := Float64; size := size; ndim := len shape |}.

Definition FromSliceInt64 (data : list Z) (shape : list Z) : M NDArray :=
  let size := computeSize shape in
  if negb (len data =? size) then fail (DataLengthError (len data) size)
  else
    let itemsize := ItemSize Int64 in
    byteData <- Store.make (GoInt.mul size itemsize) ;;
    for_list 0 data (fun i val =>
      let offset := GoInt.mul i 8 in
      Store.store byteData offset (Enc.le_encode 8 val)) ;;
    let strides := computeStrides shape itemsize in
    ret {| data := byteData; shape := shape; strides := strides;
           dtype := Int64; size := size; ndim := len shape |}.

Definition Full (shape : list Z) (value : float) (dtype : DType) : M NDArray :=
  arr <- Zeros shape dtype ;;
  match dtype with
  | Float64 =>
      for_each (size arr) (fun i =>
        let offset := GoInt.mul i 8 in
        Store.store (data arr) offset (Enc.le_encode 8 (Enc.Float64bits value))) ;;
      ret arr
  | Float32 =>
      for_each (size arr) (fun i =>
        let offset := GoInt.mul i 4 in
        Store.store (data arr) offset (Enc.le_encode 4 (Enc.Float32bits value))) ;;
      ret arr
  | Int64 =>
      for_each (size arr) (fun i =>
        let offset := GoInt.mul i 8 in
        Store.store (data arr) offset (Enc.le_encode 8 (Enc.to_signed 64 value))) ;;
      ret arr
  | Int32 =>
      for_each (size arr) (fun i =>
        let offset := GoInt.mul i 4 in
        Store.store (data arr) offset (Enc.le_encode 4 (Enc.to_signed 32 value))) ;;
      ret arr
  | _ => ret arr
  end.

(** ** Shape transforms *)

Module ReshapeLoop.

(** The scan of [newShape] for the [-1] placeholder: the state is
    [(inferIdx, knownSize)]. *)
Fixpoint scan (i : Z) (newShape : list Z) (inferIdx knownSize : Z) : result (Z * Z) :=
  match newShape with
  | [] => Ok (inferIdx, knownSize)
  | dim :: rest =>
      if dim =? -1 then
        if negb (inferIdx =? -1) then Err ReshapeError
        else scan (i + 1) rest i knownSize
      else if dim <? 0 then Err ReshapeError
      else scan (i + 1) rest inferIdx (GoInt.mul knownSize dim)
  end.

End ReshapeLoop.

Definition Reshape (a : NDArray) (newShape : list Z) : M NDArray :=
  let newSize := computeSize newShape in
  '(inferIdx, knownSize) <- lift (ReshapeLoop.scan 0 newShape (-1) 1) ;;
  '(newShape, newSize) <-
    (if negb (inferIdx =? -1) then
       if knownSize =? 0 then fail RuntimePanic
       else if negb (Z.rem (size a) knownSize =? 0) then fail ReshapeError
       else ret (set_nth (Z.to_nat inferIdx) (GoInt.wrap (Z.quot (size a) knownSize)) newShape,
                 size a)
     else ret (newShape, newSize)) ;;
  if negb (newSize =? size a) then fail ReshapeError
  else
    let newStrides := computeStrides newShape (ItemSize (dtype a)) in
    b <- Store.get (data a) ;;
    newData <- Store.alloc b ;;
    ret {| data := newData; shape := newShape; strides := newStrides;
           dtype := dtype a; size := newSize; ndim := len newShape |}.

Module TransposeLoop.

(** The validation of [axes] with the [seen] set. *)
Fixpoint validate (nd : Z) (axes seen : list Z) : result unit :=
  match axes with
  | [] => Ok tt
  | axis :: rest =>
      if (axis <? 0) || (axis >=? nd) then Err AxisError
      else if existsb (Z.eqb axis) seen then Err AxisError
      else validate nd rest (axis :: seen)
  end.

End TransposeLoop.

Definition Transpose (a : NDArray) (axes : list Z) : M NDArray :=
  let axes :=
    match axes with
    | [] => tabulate (ndim a) (fun i => GoInt.sub (GoInt.sub (ndim a) 1) (Z.of_nat i))
    | _ => axes
    end in
  if negb (len axes =? ndim a) then fail AxisError
  else
    lift (TransposeLoop.validate (ndim a) axes []) ;;
    let newShape := map (fun axis => nth (Z.to_nat axis) (shape a) 0) axes in
    b <- Store.get (data a) ;;
    newData <- Store.make (len b) ;;
    let newArr := {| data := newData; shape := newShape;
                     strides := computeStrides newShape (ItemSize (dtype a));
                     dtype := dtype a; size := size a; ndim := ndim a |} in
    for_each (size a) (fun i =>
      srcIndices <- lift (unravelIndex a i) ;;
      let dstIndices := map (fun axis => nth (Z.to_nat axis) srcIndices 0) axes in
      srcOffset <- lift (flatIndex a srcIndices) ;;
      dstOffset <- lift (flatIndex newArr dstIndices) ;;
      let itemsize := ItemSize (dtype a) in
      src <- Store.load (data a) srcOffset itemsize ;;
      Store.store (data newArr) dstOffset src) ;;
    ret newArr.

(** ** Broadcasting and elementwise operators *)

Module BroadcastTo.

(** The validity check of [broadcastTo]: every source axis is 1 or equal
    to the right-aligned target axis. *)
Fixpoint check (i count offset : nat) (src target : list Z) : bool :=
  match count with
  | O => true
  | S k =>
      if negb (nth i src 0 =? 1) && negb (nth i src 0 =? nth (offset + i) target 0)
      then false
      else check (S i) k offset src target
  end.

End BroadcastTo.

Definition broadcastTo (a : NDArray) (targetShape : list Z) : M NDArray :=
  if len targetShape <? len (shape a)
  then fail (BroadcastToError (shape a) targetShape)
  else
    let offset := (length targetShape - length (shape a))%nat in
    if negb (BroadcastTo.check 0 (length (shape a)) offset (shape a) targetShape)
    then fail (BroadcastToError (shape a) targetShape)
    else
      result <- Zeros targetShape (dtype a) ;;
      for_each (size result) (fun i =>
        dstIndices <- lift (unravelIndex result i) ;;
        let srcIndices :=
          tabulate (ndim a) (fun j =>
            if nth j (shape a) 0 =? 1 then 0 else nth (offset + j) dstIndices 0) in
        val <- GetFloat64 a srcIndices ;;
        SetFloat64 result val dstIndices) ;;
      ret result.

(** The common body of [Add], [Sub], [Mul] and [Div], which differ in the
    operator applied to [valA] and [valB] only. *)
Definition arith (op : float -> float -> float) (a b : NDArray) : M NDArray :=
  targetShape <- lift (broadcastShapes (shape a) (shape b)) ;;
  aBroad <- broadcastTo a targetShape ;;
  bBroad <- broadcastTo b targetShape ;;
  result <- Zeros targetShape (dtype a) ;;
  for_each (size result) (fun i =>
    indices <- lift (unravelIndex result i) ;;
    valA <- GetFloat64 aBroad indices ;;
    valB <- GetFloat64 bBroad indices ;;
    SetFloat64 result (op valA valB) indices) ;;
  ret result.

Definition Add : NDArray -> NDArray -> M NDArray := arith PrimFloat.add.
Definition Sub : NDArray -> NDArray -> M NDArray := arith PrimFloat.sub.
Definition Mul : NDArray -> NDArray -> M NDArray := arith PrimFloat.mul.
Definition Div : NDArray -> NDArray -> M NDArray := arith PrimFloat.div.

(** The common body of [Gt] and [Lt]: the result is a [Bool] array, set to
    1 where the comparison holds. *)
Definition compare (test : float -> float -> bool) (a b : NDArray) : M NDArray :=
  targetShape <- lift (broadcastShapes (shape a) (shape b)) ;;
  aBroad <- broadcastTo a targetShape ;;
  bBroad <- broadcastTo b targetShape ;;
  result <- Zeros targetShape Bool ;;
  for_each (size result) (fun i =>
    indices <- lift (unravelIndex result i) ;;
    valA <- GetFloat64 aBroad indices ;;
    valB <- GetFloat64 bBroad indices ;;
    if test valA valB then SetFloat64 result 1 indices else ret tt) ;;
  ret result.

Definition Gt : NDArray -> NDArray -> M NDArray := compare (fun x y => PrimFloat.ltb y x).
Definition Lt : NDArray -> NDArray -> M NDArray := compare PrimFloat.ltb.

(** The common body of [AddScalar] and [MulScalar]: a loop over a copy. *)
Definition scalar_op (op : float -> float) (a : NDArray) : M NDArray :=
  result <- Copy a ;;
  for_each (size result) (fun i =>
    indices <- lift (unravelIndex result i) ;;
    val <- GetFloat64 result indices ;;
    SetFloat64 result (op val) indices) ;;
  ret result.

Definition AddScalar (a : NDArray) (scalar : float) : M NDArray :=
  scalar_op (fun val => (val + scalar)%float) a.

Definition MulScalar (a : NDArray) (scalar : float) : M NDArray :=
  scalar_op (fun val => (val * scalar)%float) a.

(** ** Reductions ([reductions.go]) *)

Definition Sum (a : NDArray) : M float :=
  for_upto (size a) (fun i sum =>
    indices <- lift (unravelIndex a i) ;;
    v <- GetFloat64 a indices ;;
    ret (sum + v)%float) 0%float.

(** The entries of [l] at the axes other than [axis], in order. *)
Definition drop_axis (n : Z) (axis : Z) (l : list Z) : list Z :=
  flat_map (fun j => if Z.of_nat j =? axis then [] else [nth j l 0])
           (seq 0 (Z.to_nat n)).

Definition SumAxis (a : NDArray) (axis : Z) : M NDArray :=
  let axis := if axis <? 0 then GoInt.add (ndim a) axis else axis in
  if (axis <? 0) || (axis >=? ndim a) then fail AxisError
  else
    let resultShape := drop_axis (ndim a) axis (shape a) in
    match resultShape with
    | [] => s <- Sum a ;; FromSliceFloat64 [s] [1]
    | _ =>
        result <- Zeros resultShape (dtype a) ;;
        for_each (size a) (fun i =>
          srcIndices <- lift (unravelIndex a i) ;;
          let dstIndices := drop_axis (ndim a) axis srcIndices in
          val <- GetFloat64 a srcIndices ;;
          currentSum <- GetFloat64 result dstIndices ;;
          SetFloat64 result (currentSum + val)%float dstIndices) ;;
        ret result
    end.

(** [ToSliceFloat64]: the elements in row-major order. *)
Definition ToSliceFloat64 (a : NDArray) : M (list float) :=
  for_upto (size a) (fun i result =>
    indices <- lift (unravelIndex a i) ;;
    v <- GetFloat64 a indices ;;
    ret (set_nth (Z.to_nat i) v result)) (repeat 0%float (Z.to_nat (size a))).

(** ** Linear algebra ([linalg.go]) *)

Module Linalg.

Definition getMinor (a : NDArray) (row col : Z) : M NDArray :=
  let n := nth 0%nat (shape a) 0 in
  data <- for_upto n (fun i data =>
            if i =? row then ret data
            else for_upto n (fun j data =>
                   if j =? col then ret data
                   else v <- GetFloat64 a [i; j] ;; ret (data ++ [v])) data) [] ;;
  FromSliceFloat64 data [GoInt.sub n 1; GoInt.sub n 1].

(** [Det] calls itself on the minors; [fuel] bounds the depth of the
    recursion, and [Det] below supplies the size of the matrix. *)
Fixpoint Det_rec (fuel : nat) (a : NDArray) : M float :=
  match fuel with
  | O => fail OutOfFuel
  | S fuel' =>
      if negb (ndim a =? 2) then fail DimensionError
      else
        let n0 := nth 0%nat (shape a) 0 in
        let n1 := nth 1%nat (shape a) 0 in
        if negb (n0 =? n1) then fail DimensionError
        else
          let n := n0 in
          if n =? 1 then GetFloat64 a [0; 0]
          else if n =? 2 then
            a00 <- GetFloat64 a [0; 0] ;;
            a11 <- GetFloat64 a [1; 1] ;;
            a01 <- GetFloat64 a [0; 1] ;;
            a10 <- GetFloat64 a [1; 0] ;;
            ret (a00 * a11 - a01 * a10)%float
          else
            for_upto n (fun j det =>
              minor <- getMinor a 0 j ;;
              a0j <- GetFloat64 a [0; j] ;;
              d <- Det_rec fuel' minor ;;
              let cofactor := (a0j * d)%float in
              if Z.rem j 2 =? 0 then ret (det + cofactor)%float
              else ret (det - cofactor)%float) 0%float
  end.

Definition Det (a : NDArray) : M float :=
  Det_rec (S (Z.to_nat (nth 0%nat (shape a) 0))) a.

(** The constant [1e-10] as the [float64] nearest to it. *)
Definition pivot_eps : float := 0x1.b7cdfd9d7bdbbp-34%float.

(** One pivot step of the elimination loop of [Inv], on row [i]. *)
Definition pivot_step (aug : NDArray) (n : Z) (i : Z) : M unit :=
  pivot <- GetFloat64 aug [i; i] ;;
  if (abs pivot <? pivot_eps)%float then fail SingularMatrixError
  else
    for_each (GoInt.mul 2 n) (fun j =>
      v <- GetFloat64 aug [i; j] ;;
      SetFloat64 aug (v / pivot)%float [i; j]) ;;
    for_each n (fun k =>
      if k =? i then ret tt
      else
        factor <- GetFloat64 aug [k; i] ;;
        for_each (GoInt.mul 2 n) (fun j =>
          akj <- GetFloat64 aug [k; j] ;;
          aij <- GetFloat64 aug [i; j] ;;
          let val := (akj - factor * aij)%float in
          SetFloat64 aug val [k; j])).

Definition Inv (a : NDArray) : M NDArray :=
  if negb (ndim a =? 2) then fail DimensionError
  else
    let n0 := nth 0%nat (shape a) 0 in
    let n1 := nth 1%nat (shape a) 0 in
    if negb (n0 =? n1) then fail DimensionError
    else
      let n := n0 in
      aug <- Zeros [n; GoInt.mul 2 n] Float64 ;;
      for_each n (fun i =>
        for_each n (fun j =>
          v <- GetFloat64 a [i; j] ;;
          SetFloat64 aug v [i; j]) ;;
        SetFloat64 aug 1 [i; GoInt.add i n]) ;;
      for_each n (fun i => pivot_step aug n i) ;;
      result <- Zeros [n; n] Float64 ;;
      for_each n (fun i =>
        for_each n (fun j =>
          v <- GetFloat64 aug [i; GoInt.add j n] ;;
          SetFloat64 result v [i; j])) ;;
      ret result.

End Linalg.

(** ** Random sampling ([random.go])

    [math/rand] and the transcendental functions of [math] are outside
    the repository: the state of a [*rand.Rand], its constructor from a
    seed and its draws are parameters of the development, and so are
    [math.Exp] and [math.Log].  The rejection loops of [Poisson] and
    [Gamma] have no bound in the code; [fuel] bounds them here. *)

Section RandomEngine.

Variable Source : Type.
Variable NewSource : Z -> Source.
Variable rand_Float64 : Source -> float * Source.
Variable rand_NormFloat64 : Source -> float * Source.
Variable rand_Intn : Z -> Source -> Z * Source.
Variable math_Exp : float -> float.
Variable math_Log : float -> float.
Variable fuel : nat.

Record RNG : Type := mkRNG { source : Source }.

Definition New (seed : Z) : RNG := {| source := NewSource seed |}.

(** [rng.source = rand.New(rand.NewSource(seed))] *)
Definition Seed (rng : RNG) (seed : Z) : RNG := {| source := NewSource seed |}.

(** [Intn] panics when its argument is not positive. *)
Definition Intn (n : Z) (src : Source) : result (Z * Source) :=
  if n <=? 0 then Err RuntimePanic else Ok (rand_Intn n src).

(** [size := 1; for _, dim := range shape { size *= dim }] *)
Definition shape_size (shape : list Z) : Z := fold_left GoInt.mul shape 1.

(** [for i := 0; i < count; i++ { data[i] = draw() }] *)
Fixpoint sample {A} (count : nat) (draw : Source -> result (A * Source)) (src : Source)
  : result (list A * Source) :=
  match count with
  | O => Ok ([], src)
  | S k =>
      match draw src with
      | Ok (x, src') =>
          match sample k draw src' with
          | Ok (xs, src'') => Ok (x :: xs, src'')
          | Err e => Err e
          end
      | Err e => Err e
      end
  end.

(** [data := make([]T, size)] followed by the filling loop. *)
Definition fill {A} (size : Z) (draw : Source -> result (A * Source)) (src : Source)
  : result (list A * Source) :=
  if size <? 0 then Err RuntimePanic else sample (Z.to_nat size) draw src.

Definition Uniform (rng : RNG) (low high : float) (shape : list Z) : M (NDArray * RNG) :=
  '(data, src) <- lift (fill (shape_size shape)
                          (fun s => let (u, s') := rand_Float64 s in
                                    Ok ((low + (high - low) * u)%float, s'))
                          (source rng)) ;;
  arr <- FromSliceFloat64 data shape ;;
  ret (arr, {| source := src |}).

Definition Normal (rng : RNG) (mean std : float) (shape : list Z) : M (NDArray * RNG) :=
  '(data, src) <- lift (fill (shape_size shape)
                          (fun s => let (z, s') := rand_NormFloat64 s in
                                    Ok ((mean + std * z)%float, s'))
                          (source rng)) ;;
  arr <- FromSliceFloat64 data shape ;;
  ret (arr, {| source := src |}).

Definition StandardNormal (rng : RNG) (shape : list Z) : M (NDArray * RNG) :=
  Normal rng 0 1 shape.

(** The inner loop of [Binomial]: [n] draws, counting those below [p]. *)
Fixpoint bernoulli_count (n : nat) (p : float) (count : Z) (src : Source) : Z * Source :=
  match n with
  | O => (count, src)
  | S k =>
      let (u, src') := rand_Float64 src in
      bernoulli_count k p (if (u <? p)%float then GoInt.add count 1 else count) src'
  end.

Definition Binomial (rng : RNG) (n : Z) (p : float) (shape : list Z) : M (NDArray * RNG) :=
  '(data, src) <- lift (fill (shape_size shape)
                          (fun s => let (count, s') := bernoulli_count (Z.to_nat n) p 0 s in
                                    Ok (Enc.of_int count, s'))
                          (source rng)) ;;
  arr <- FromSliceFloat64 data shape ;;
  ret (arr, {| source := src |}).

(** [for p > L { k++; p *= rng.source.Float64() }] *)
Fixpoint poisson_loop (gas : nat) (L : float) (k : Z) (p : float) (src : Source)
  : result (Z * Source) :=
  if (L <? p)%float then
    match gas with
    | O => Err OutOfFuel
    | S g =>
        let (u, src') := rand_Float64 src in
        poisson_loop g L (GoInt.add k 1) (p * u)%float src'
    end
  else Ok (k, src).

Definition Poisson (rng : RNG) (lambda : float) (shape : list Z) : M (NDArray * RNG) :=
  let L := math_Exp (- lambda)%float in
  '(data, src) <- lift (fill (shape_size shape)
                          (fun s => match poisson_loop fuel L 0 1 s with
                                    | Ok (k, s') => Ok (Enc.of_int (GoInt.sub k 1), s')
                                    | Err e => Err e
                                    end)
                          (source rng)) ;;
  arr <- FromSliceFloat64 data shape ;;
  ret (arr, {| source := src |}).

Definition Exponential (rng : RNG) (scale : float) (shape : list Z) : M (NDArray * RNG) :=
  '(data, src) <- lift (fill (shape_size shape)
                          (fun s => let (u, s') := rand_Float64 s in
                                    Ok ((- scale * math_Log u)%float, s'))
                          (source rng)) ;;
  arr <- FromSliceFloat64 data shape ;;
  ret (arr, {| source := src |}).

(** The rejection loop of [Gamma] for one element. *)
Fixpoint gamma_loop (gas : nat) (scale d c : float) (src : Source)
  : result (float * Source) :=
  match gas with
  | O => Err OutOfFuel
  | S g =>
      let (x, src1) := rand_NormFloat64 src in
      let v := (1 + c * x)%float in
      if (v <=? 0)%float then gamma_loop g scale d c src1
      else
        let v := (v * v * v)%float in
        let (u, src2) := rand_Float64 src1 in
        if (u <? 1 - 0x1.0f27bb2fec56dp-5 * (x * x) * (x * x))%float
        then Ok ((scale * d * v)%float, src2)
        else if (math_Log u <? 0.5 * x * x + d * (1 - v + math_Log v))%float
        then Ok ((scale * d * v)%float, src2)
        else gamma_loop g scale d c src2
  end.

(** [Gamma(shape, scale, size...)]; the constant [0.0331] is written as
    the [float64] nearest to it, and [1.0/3.0] likewise. *)
Definition Gamma (rng : RNG) (shape scale : float) (size : list Z) : M (NDArray * RNG) :=
  let n := shape_size size in
  let d := (shape - 0x1.5555555555555p-2)%float in
  let c := (1 / sqrt (9 * d))%float in
  '(data, src) <- lift (fill n (gamma_loop fuel scale d c) (source rng)) ;;
  arr <- FromSliceFloat64 data size ;;
  ret (arr, {| source := src |}).

Definition Beta (rng : RNG) (alpha beta : float) (shape : list Z) : M (NDArray * RNG) :=
  let size := shape_size shape in
  if size <? 0 then fail RuntimePanic
  else
    '(gammaAlpha, rng) <- Gamma rng alpha 1 [size] ;;
    '(gammaBeta, rng) <- Gamma rng beta 1 [size] ;;
    data <- for_upto size (fun i data =>
              x <- GetFloat64 gammaAlpha [i] ;;
              y <- GetFloat64 gammaBeta [i] ;;
              ret (data ++ [(x / (x + y))%float])) [] ;;
    arr <- FromSliceFloat64 data shape ;;
    ret (arr, rng).

Definition Rand (rng : RNG) (shape : list Z) : M (NDArray * RNG) :=
  Uniform rng 0 1 shape.

Definition Randint (rng : RNG) (low high : Z) (shape : list Z) : M (NDArray * RNG) :=
  let span := GoInt.sub high low in
  '(data, src) <- lift (fill (shape_size shape)
                          (fun s => match Intn span s with
                                    | Ok (r, s') => Ok (GoInt.add low r, s')
                                    | Err e => Err e
                                    end)
                          (source rng)) ;;
  arr <- FromSliceInt64 data shape ;;
  ret (arr, {| source := src |}).

(** [for i := k; i > 0; i-- { s = body(i, s) }] *)
Fixpoint for_down {S} (k : nat) (body : Z -> S -> M S) (s : S) : M S :=
  match k with
  | O => ret s
  | S k' => s' <- body (Z.of_nat k) s ;; for_down k' body s'
  end.

(** [Choice]: the inline decoding of [idx] is the loop of [unravelIndex]. *)
Definition Choice (rng : RNG) (arr : NDArray) (size : Z) : M (NDArray * RNG) :=
  let n := Size arr in
  if size <? 0 then fail RuntimePanic
  else
    '(data, src) <- for_upto size (fun i '(data, src) =>
                      '(idx, src') <- lift (Intn n src) ;;
                      indices <- lift (unravelIndex arr idx) ;;
                      v <- GetFloat64 arr indices ;;
                      ret (data ++ [v], src')) ([], source rng) ;;
    out <- FromSliceFloat64 data [size] ;;
    ret (out, {| source := src |}).

Definition swap (i j : nat) (l : list Z) : list Z :=
  set_nth j (nth i l 0) (set_nth i (nth j l 0) l).

Definition Permutation (rng : RNG) (n : Z) : M (NDArray * RNG) :=
  if n <? 0 then fail RuntimePanic
  else
    let data := tabulate n (fun i => Z.of_nat i) in
    '(data, src) <- for_down (Z.to_nat (GoInt.sub n 1)) (fun i '(data, src) =>
                      '(j, src') <- lift (Intn (GoInt.add i 1) src) ;;
                      ret (swap (Z.to_nat i) (Z.to_nat j) data, src')) (data, source rng) ;;
    arr <- FromSliceInt64 data [n] ;;
    ret (arr, {| source := src |}).

(** [Shuffle] swaps decoded values of [arr] in place. *)
Definition Shuffle (rng : RNG) (arr : NDArray) : M RNG :=
  let n := Size arr in
  src <- for_down (Z.to_nat (GoInt.sub n 1)) (fun i src =>
           '(j, src') <- lift (Intn (GoInt.add i 1) src) ;;
           indicesI <- lift (unravelIndex arr i) ;;
           indicesJ <- lift (unravelIndex arr j) ;;
           valI <- GetFloat64 arr indicesI ;;
           valJ <- GetFloat64 arr indicesJ ;;
           SetFloat64 arr valJ indicesI ;;
           SetFloat64 arr valI indicesJ ;;
           ret src') (source rng) ;;
  ret {| source := src |}.

End RandomEngine.

(** * Properties *)

(** ** Lists and machine integers *)

Lemma wrap_small z : GoInt.in_range z -> GoInt.wrap z = z.
Proof.
  unfold GoInt.in_range, GoInt.min_int, GoInt.max_int, GoInt.wrap. intros H.
  rewrite Z.mod_small; lia.
Qed.

Lemma wrap_in_range z : GoInt.in_range (GoInt.wrap z).
Proof.
  unfold GoInt.in_range, GoInt.min_int, GoInt.max_int, GoInt.wrap.
  pose proof (Z.mod_pos_bound (z + 2 ^ 63) (2 ^ 64)). lia.
Qed.

Lemma set_nth_length {A} i (v : A) l : length (set_nth i v l) = length l.
Proof.
  revert i; induction l as [|h t IH]; intros [|i]; simpl; auto.
Qed.

Lemma set_nth_split {A} i (v : A) l :
  (i < length l)%nat -> set_nth i v l = firstn i l ++ v :: skipn (S i) l.
Proof.
  revert i; induction l as [|h t IH]; intros [|i] Hi; simpl in *; try lia; auto.
  f_equal. apply IH. lia.
Qed.

Lemma set_nth_same {A} i (v d : A) l :
  (i < length l)%nat -> nth i (set_nth i v l) d = v.
Proof.
  revert i; induction l as [|h t IH]; intros [|i] Hi; simpl in *; try lia; auto.
  apply IH. lia.
Qed.

Lemma set_nth_other {A} i j (v d : A) l :
  i <> j -> nth j (set_nth i v l) d = nth j l d.
Proof.
  revert i j; induction l as [|h t IH]; intros [|i] [|j] Hij; simpl; auto; try lia.
Qed.

Lemma set_nth_nth_error_same {A} i (v : A) l :
  (i < length l)%nat -> nth_error (set_nth i v l) i = Some v.
Proof.
  revert i; induction l as [|h t IH]; intros [|i] Hi; simpl in *; try lia; auto.
  apply IH. lia.
Qed.

Lemma set_nth_nth_error_other {A} i j (v : A) l :
  i <> j -> nth_error (set_nth i v l) j = nth_error l j.
Proof.
  revert i j; induction l as [|h t IH]; intros [|i] [|j] Hij; simpl; auto; try lia.
Qed.

Lemma set_nth_out {A} i (v : A) l : (length l <= i)%nat -> set_nth i v l = l.
Proof.
  revert i; induction l as [|h t IH]; intros [|i] Hi; simpl in *; auto; try lia.
  f_equal. apply IH. lia.
Qed.

Lemma skipn_cons_nth {A} i (l : list A) d :
  (i < length l)%nat -> skipn i l = nth i l d :: skipn (S i) l.
Proof.
  revert i; induction l as [|h t IH]; intros [|i] Hi; simpl in *; try lia; auto.
  apply IH. lia.
Qed.

Lemma firstn_succ_set_nth {A} i (v : A) l :
  (i < length l)%nat -> firstn (S i) (set_nth i v l) = firstn i l ++ [v].
Proof.
  revert i; induction l as [|h t IH]; intros [|i] Hi; simpl in *; try lia; auto.
  f_equal. apply IH. lia.
Qed.

(** ** C1: [broadcastShapes] *)

Module BroadcastSpec.

(** The rule as the specification words it: both shapes right-aligned,
    the shorter padded on the left with 1s up to the longer length, and
    the joint extent taken axis by axis. *)
Definition pad_left (n : nat) (s : list Z) : list Z :=
  repeat 1 (n - length s) ++ s.

Definition joint_extent (dA dB : Z) : option Z :=
  if dA =? dB then Some dA
  else if dA =? 1 then Some dB
  else if dB =? 1 then Some dA
  else None.

Fixpoint join_axes (sA sB : list Z) : option (list Z) :=
  match sA, sB with
  | dA :: tA, dB :: tB =>
      match joint_extent dA dB, join_axes tA tB with
      | Some d, Some r => Some (d :: r)
      | _, _ => None
      end
  | _, _ => Some []
  end.

Definition broadcast (S1 S2 : list Z) : result (list Z) :=
  let n := Nat.max (length S1) (length S2) in
  match join_axes (pad_left n S1) (pad_left n S2) with
  | Some r => Ok r
  | None => Err (BroadcastError S1 S2)
  end.

(** Two aligned extents that neither match nor contain a 1. *)
Definition clash (dA dB : Z) : Prop := dA <> dB /\ dA <> 1 /\ dB <> 1.

End BroadcastSpec.

Lemma fill_ones_repeat k : forall i n,
  (i + k <= n)%nat ->
  Broadcast.fill_ones i k (repeat 1 i ++ repeat 0 (n - i))
  = repeat 1 (i + k) ++ repeat 0 (n - (i + k)).
Proof.
  induction k as [|k IH]; intros i n H; simpl.
  - now rewrite Nat.add_0_r.
  - rewrite set_nth_split by (rewrite length_app, !repeat_length; lia).
    rewrite firstn_app, repeat_length, Nat.sub_diag, firstn_O, app_nil_r.
    rewrite firstn_all2 by (rewrite repeat_length; lia).
    rewrite skipn_app, repeat_length.
    rewrite skipn_all2 by (rewrite repeat_length; lia).
    replace (S i - i)%nat with 1%nat by lia.
    replace (n - i)%nat with (S (n - S i)) by lia. simpl.
    replace (repeat 1 i ++ 1 :: repeat 0 (n - S i))
      with (repeat 1 (S i) ++ repeat 0 (n - S i)).
    + rewrite IH by lia. now replace (S i + k)%nat with (i + S k)%nat by lia.
    + replace (S i) with (i + 1)%nat by lia.
      rewrite repeat_app, <- app_assoc. reflexivity.
Qed.

Lemma aligned_pad_left n s :
  (length s <= n)%nat -> Broadcast.aligned n s = BroadcastSpec.pad_left n s.
Proof.
  intros H. unfold Broadcast.aligned, BroadcastSpec.pad_left.
  pose proof (fill_ones_repeat (n - length s) 0 n) as F.
  simpl in F. rewrite Nat.sub_0_r in F. rewrite F by lia. clear F.
  unfold copy_at.
  rewrite firstn_app, repeat_length, Nat.sub_diag, firstn_O, app_nil_r.
  rewrite firstn_all2 by (rewrite repeat_length; lia).
  rewrite length_app, !repeat_length.
  rewrite firstn_all2 by lia.
  rewrite skipn_all2 by (rewrite length_app, !repeat_length; lia).
  now rewrite app_nil_r.
Qed.

Lemma pad_left_length n s : (length s <= n)%nat -> length (BroadcastSpec.pad_left n s) = n.
Proof.
  intros H. unfold BroadcastSpec.pad_left. rewrite length_app, repeat_length. lia.
Qed.

Lemma joint_join_axes k : forall i s1 s2 res,
  length s1 = (i + k)%nat -> length s2 = (i + k)%nat -> length res = (i + k)%nat ->
  Broadcast.joint i k s1 s2 res
  = option_map (fun r => firstn i res ++ r)
      (BroadcastSpec.join_axes (skipn i s1) (skipn i s2)).
Proof.
  induction k as [|k IH]; intros i s1 s2 res H1 H2 Hr; simpl.
  - rewrite !skipn_all2 by lia. simpl.
    rewrite firstn_all2 by lia. now rewrite app_nil_r.
  - rewrite (skipn_cons_nth i s1 0), (skipn_cons_nth i s2 0) by lia.
    simpl. unfold BroadcastSpec.joint_extent.
    assert (P : forall v,
      Broadcast.joint (S i) k s1 s2 (set_nth i v res)
      = option_map (fun r => firstn i res ++ r)
          match BroadcastSpec.join_axes (skipn (S i) s1) (skipn (S i) s2) with
          | Some r => Some (v :: r)
          | None => None
          end).
    { intros v. rewrite IH by (rewrite ?set_nth_length; lia).
      destruct (BroadcastSpec.join_axes _ _) as [r|]; cbn [option_map]; auto.
      rewrite firstn_succ_set_nth by lia.
      rewrite <- app_assoc. reflexivity. }
    destruct (nth i s1 0 =? nth i s2 0); [apply P|].
    destruct (nth i s1 0 =? 1); [apply P|].
    destruct (nth i s2 0 =? 1); [apply P|]. reflexivity.
Qed.

Lemma broadcastShapes_refines S1 S2 :
  broadcastShapes S1 S2 = BroadcastSpec.broadcast S1 S2.
Proof.
  unfold broadcastShapes, BroadcastSpec.broadcast.
  set (n := Nat.max (length S1) (length S2)).
  rewrite !aligned_pad_left by lia.
  rewrite joint_join_axes by (rewrite ?pad_left_length, ?repeat_length; lia).
  simpl. destruct (BroadcastSpec.join_axes _ _); reflexivity.
Qed.

Lemma joint_extent_some dA dB d :
  BroadcastSpec.joint_extent dA dB = Some d ->
  d = (if dA =? dB then dA else if dA =? 1 then dB else dA)
  /\ ~ BroadcastSpec.clash dA dB.
Proof.
  unfold BroadcastSpec.joint_extent, BroadcastSpec.clash.
  destruct (dA =? dB) eqn:E1; [intros [= <-]; split; [auto | lia]|].
  destruct (dA =? 1) eqn:E2; [intros [= <-]; split; [auto | lia]|].
  destruct (dB =? 1) eqn:E3; [intros [= <-]; split; [auto | lia]|].
  discriminate.
Qed.

Lemma joint_extent_none dA dB :
  BroadcastSpec.joint_extent dA dB = None <-> BroadcastSpec.clash dA dB.
Proof.
  unfold BroadcastSpec.joint_extent, BroadcastSpec.clash.
  destruct (dA =? dB) eqn:E1; [split; [discriminate | lia]|].
  destruct (dA =? 1) eqn:E2; [split; [discriminate | lia]|].
  destruct (dB =? 1) eqn:E3; [split; [discriminate | lia]|].
  split; auto; lia.
Qed.

Lemma join_axes_some sA : forall sB r,
  length sA = length sB ->
  BroadcastSpec.join_axes sA sB = Some r ->
  length r = length sA
  /\ forall i, (i < length sA)%nat ->
       nth i r 0 = (if nth i sA 0 =? nth i sB 0 then nth i sA 0
                    else if nth i sA 0 =? 1 then nth i sB 0 else nth i sA 0)
       /\ ~ BroadcastSpec.clash (nth i sA 0) (nth i sB 0).
Proof.
  induction sA as [|a tA IH]; intros [|b tB] r HL H; simpl in *; try discriminate.
  - injection H as <-. split; auto. intros i Hi; lia.
  - destruct (BroadcastSpec.joint_extent a b) as [d|] eqn:E; [|discriminate].
    destruct (BroadcastSpec.join_axes tA tB) as [r'|] eqn:E'; [|discriminate].
    injection H as <-. apply joint_extent_some in E.
    destruct (IH tB r' ltac:(lia) E') as [L P].
    split; [simpl; lia|]. intros [|i] Hi; simpl; [exact E | apply P; lia].
Qed.

Lemma join_axes_none sA : forall sB,
  length sA = length sB ->
  (BroadcastSpec.join_axes sA sB = None
   <-> exists i, (i < length sA)%nat /\ BroadcastSpec.clash (nth i sA 0) (nth i sB 0)).
Proof.
  induction sA as [|a tA IH]; intros [|b tB] HL; simpl in *; try discriminate.
  - split; [discriminate | intros (i & Hi & _); lia].
  - specialize (IH tB ltac:(lia)).
    destruct (BroadcastSpec.joint_extent a b) as [d|] eqn:E.
    + destruct (BroadcastSpec.join_axes tA tB) as [r'|] eqn:E'.
      * split; [discriminate|]. intros ([|i] & Hi & C); simpl in C.
        -- apply joint_extent_none in C. congruence.
        -- assert (X : @None (list Z) = None) by reflexivity.
           destruct IH as [_ IH]. discriminate IH. exists i. split; [lia | exact C].
      * split; auto. intros _. destruct IH as [IH _].
        destruct (IH eq_refl) as (i & Hi & C). exists (S i). split; [lia | exact C].
    + split; auto. intros _. exists 0%nat. split; [lia|]. simpl.
      now apply joint_extent_none.
Qed.

(** C1.  For every two shapes, [broadcastShapes] is the rule of the
    specification: both shapes are right-aligned, the shorter is padded on
    the left with 1s up to the longer length, each aligned axis yields
    [dA] when [dA = dB] and otherwise the extent that is not 1, and the call
    fails, with a [BroadcastError] naming both shapes, exactly when some
    aligned axis has extents that neither match nor contain a 1; in
    particular [(2,3)] and [(4,5)] do not broadcast. *)
Theorem broadcastShapes_rule :
  forall S1 S2 : list Z,
    let n := Nat.max (length S1) (length S2) in
    let sA := BroadcastSpec.pad_left n S1 in
    let sB := BroadcastSpec.pad_left n S2 in
    broadcastShapes S1 S2 = BroadcastSpec.broadcast S1 S2
    /\ length sA = n /\ length sB = n
    /\ (forall r, broadcastShapes S1 S2 = Ok r ->
          length r = n
          /\ forall i, (i < n)%nat ->
               nth i r 0 = (if nth i sA 0 =? nth i sB 0 then nth i sA 0
                            else if nth i sA 0 =? 1 then nth i sB 0
                            else nth i sA 0))
    /\ ((exists i, (i < n)%nat /\ BroadcastSpec.clash (nth i sA 0) (nth i sB 0))
        <-> broadcastShapes S1 S2 = Err (BroadcastError S1 S2))
    /\ ((forall i, (i < n)%nat -> ~ BroadcastSpec.clash (nth i sA 0) (nth i sB 0))
        <-> exists r, broadcastShapes S1 S2 = Ok r)
    /\ broadcastShapes [2; 3] [4; 5] = Err (BroadcastError [2; 3] [4; 5]).
Proof.
  intros S1 S2 n sA sB.
  assert (LA : length sA = n) by (apply pad_left_length; lia).
  assert (LB : length sB = n) by (apply pad_left_length; lia).
  rewrite broadcastShapes_refines. unfold BroadcastSpec.broadcast.
  fold n. fold sA. fold sB.
  pose proof (join_axes_none sA sB ltac:(lia)) as N.
  pose proof (join_axes_some sA sB) as S. rewrite LA in N, S.
  repeat split; auto.
  - destruct (BroadcastSpec.join_axes sA sB) as [r'|] eqn:E; [|discriminate].
    injection H as <-. apply (S r' ltac:(lia) eq_refl).
  - destruct (BroadcastSpec.join_axes sA sB) as [r'|] eqn:E; [|discriminate].
    injection H as <-. intros i Hi. apply (S r' ltac:(lia) eq_refl); auto.
  - intros X. apply N in X. now rewrite X.
  - destruct (BroadcastSpec.join_axes sA sB) as [r'|] eqn:E; [discriminate|].
    intros _. now apply N.
  - intros X. destruct (BroadcastSpec.join_axes sA sB) as [r'|] eqn:E; [eauto|].
    destruct N as [N _]. destruct (N eq_refl) as (i & Hi & C). now apply X in C.
  - intros [r X] i Hi C.
    destruct (BroadcastSpec.join_axes sA sB) as [r'|] eqn:E; [|discriminate].
    destruct N as [_ N]. discriminate N. eauto.
Qed.

(** ** C2: index normalization in [flatIndex] *)

Module IndexSpec.

(** The rule of the specification: a negative index [i] on an axis of
    extent [n] stands for [n + i]. *)
Definition normalized (n i : Z) : Z := if i <? 0 then n + i else i.

Definition inside (n i : Z) : Prop := 0 <= normalized n i < n.

Definition insideb (n i : Z) : bool := (0 <=? normalized n i) && (normalized n i <? n).

(** The first axis whose normalized index is outside [[0, n)]. *)
Fixpoint first_outside (k : nat) (shape indices : list Z) : option nat :=
  match shape, indices with
  | n :: tn, i :: ti => if insideb n i then first_outside (S k) tn ti else Some k
  | _, _ => None
  end.

(** The byte offset: the sum of normalized index times stride. *)
Fixpoint offset (shape strides indices : list Z) (acc : Z) : Z :=
  match shape, strides, indices with
  | n :: tn, s :: ts, i :: ti =>
      offset tn ts ti (GoInt.add acc (GoInt.mul (normalized n i) s))
  | _, _, _ => acc
  end.

(** What [flatIndex] returns on a multi-index with one index per axis. *)
Definition outcome (shape strides indices : list Z) : result Z :=
  match first_outside 0 shape indices with
  | Some k =>
      Err (IndexError (normalized (nth k shape 0) (nth k indices 0)) (Z.of_nat k) (nth k shape 0))
  | None => Ok (offset shape strides indices 0)
  end.

Definition is_IndexError {A} (r : result A) : Prop :=
  exists idx axis extent, r = Err (IndexError idx axis extent).

End IndexSpec.

Lemma insideb_spec n i : IndexSpec.insideb n i = true <-> IndexSpec.inside n i.
Proof. unfold IndexSpec.insideb, IndexSpec.inside. lia. Qed.

Lemma first_outside_none shape : forall k indices,
  length shape = length indices ->
  (IndexSpec.first_outside k shape indices = None <-> Forall2 IndexSpec.inside shape indices).
Proof.
  induction shape as [|n tn IH]; intros k [|i ti] HL; simpl in *; try discriminate.
  - split; auto.
  - destruct (IndexSpec.insideb n i) eqn:E.
    + rewrite IH by lia. apply insideb_spec in E. split.
      * intros X. constructor; auto.
      * intros X. now inversion X.
    + split; [discriminate|]. intros X. inversion X; subst.
      apply insideb_spec in H2. congruence.
Qed.

Lemma first_outside_some shape : forall k indices j,
  IndexSpec.first_outside k shape indices = Some j ->
  (k <= j)%nat /\ (j - k < length shape)%nat /\ (j - k < length indices)%nat
  /\ ~ IndexSpec.inside (nth (j - k) shape 0) (nth (j - k) indices 0)
  /\ forall m, (m < j - k)%nat -> IndexSpec.inside (nth m shape 0) (nth m indices 0).
Proof.
  induction shape as [|n tn IH]; intros k [|i ti] j H; simpl in *; try discriminate.
  destruct (IndexSpec.insideb n i) eqn:E.
  - apply IH in H. destruct H as (H1 & H2 & H3 & H4 & H5).
    replace (j - k)%nat with (S (j - S k)) by lia. simpl.
    split; [lia|]. split; [lia|]. split; [lia|]. split; [exact H4|].
    intros [|m] Hm; [now apply insideb_spec | apply H5; lia].
  - injection H as <-. rewrite Nat.sub_diag. simpl.
    split; [lia|]. split; [lia|]. split; [lia|]. split.
    + rewrite <- insideb_spec. congruence.
    + intros m Hm; lia.
Qed.

Lemma normalized_code n idx :
  0 <= n <= GoInt.max_int -> GoInt.in_range idx ->
  (if idx <? 0 then GoInt.add n idx else idx) = IndexSpec.normalized n idx.
Proof.
  unfold IndexSpec.normalized, GoInt.add, GoInt.in_range, GoInt.max_int, GoInt.min_int.
  intros Hn Hi. destruct (idx <? 0) eqn:E; auto.
  apply wrap_small. unfold GoInt.in_range, GoInt.max_int, GoInt.min_int. lia.
Qed.

Lemma flatIndex_from_outcome a : forall indices i off,
  length (shape a) = (i + length indices)%nat ->
  length (strides a) = (i + length indices)%nat ->
  Forall (fun n => 0 <= n <= GoInt.max_int) (shape a) ->
  Forall GoInt.in_range indices ->
  flatIndex_from a i indices off
  = match IndexSpec.first_outside i (skipn i (shape a)) indices with
    | Some k =>
        Err (IndexError (IndexSpec.normalized (nth k (shape a) 0) (nth (k - i) indices 0))
               (Z.of_nat k) (nth k (shape a) 0))
    | None => Ok (IndexSpec.offset (skipn i (shape a)) (skipn i (strides a)) indices off)
    end.
Proof.
  induction indices as [|idx rest IH]; intros i off HS HT FS FI.
  - simpl. destruct (skipn i (shape a)); [|destruct (skipn i (strides a))]; reflexivity.
  - simpl in HS, HT. cbn [flatIndex_from].
    rewrite (skipn_cons_nth i (shape a) 0), (skipn_cons_nth i (strides a) 0) by lia.
    rewrite (nth_error_nth' (shape a) 0), (nth_error_nth' (strides a) 0) by lia.
    cbn [IndexSpec.first_outside IndexSpec.offset].
    assert (Hn : 0 <= nth i (shape a) 0 <= GoInt.max_int).
    { rewrite Forall_forall in FS. apply FS, nth_In. lia. }
    pose proof (Forall_inv FI) as Hidx. pose proof (Forall_inv_tail FI) as FI'.
    rewrite normalized_code by auto.
    destruct (IndexSpec.insideb (nth i (shape a) 0) idx) eqn:E.
    + assert (X : (IndexSpec.normalized (nth i (shape a) 0) idx <? 0)
                  || (IndexSpec.normalized (nth i (shape a) 0) idx >=? nth i (shape a) 0)
                  = false) by (unfold IndexSpec.insideb in E; lia).
      rewrite X. rewrite IH by (auto; lia).
      destruct (IndexSpec.first_outside (S i) (skipn (S i) (shape a)) rest) as [k|] eqn:E3;
        auto.
      apply first_outside_some in E3. destruct E3 as (K & _).
      replace (k - i)%nat with (S (k - S i)) by lia. reflexivity.
    + assert (X : (IndexSpec.normalized (nth i (shape a) 0) idx <? 0)
                  || (IndexSpec.normalized (nth i (shape a) 0) idx >=? nth i (shape a) 0)
                  = true) by (unfold IndexSpec.insideb in E; lia).
      rewrite X. now rewrite Nat.sub_diag.
Qed.

Lemma flatIndex_outcome a indices :
  len indices = ndim a ->
  length (shape a) = length indices ->
  length (strides a) = length indices ->
  Forall (fun n => 0 <= n <= GoInt.max_int) (shape a) ->
  Forall GoInt.in_range indices ->
  flatIndex a indices = IndexSpec.outcome (shape a) (strides a) indices.
Proof.
  intros HN HS HT FS FI. unfold flatIndex, IndexSpec.outcome.
  rewrite HN, Z.eqb_refl.
  rewrite flatIndex_from_outcome by auto. simpl.
  destruct (IndexSpec.first_outside 0 (shape a) indices) as [k|]; auto.
  now rewrite Nat.sub_0_r.
Qed.

Lemma first_outside_exists shape indices :
  length shape = length indices ->
  ((exists k, (k < length indices)%nat
              /\ ~ IndexSpec.inside (nth k shape 0) (nth k indices 0))
   <-> exists j, IndexSpec.first_outside 0 shape indices = Some j).
Proof.
  intros HL. split.
  - intros (k & Hk & Hout).
    destruct (IndexSpec.first_outside 0 shape indices) as [j|] eqn:E; [eauto|].
    apply first_outside_none in E; auto. exfalso. apply Hout. clear Hout HL.
    revert k Hk. induction E; intros [|k] Hk; simpl in *; try lia; auto.
    apply IHE. lia.
  - intros (j & E). apply first_outside_some in E.
    rewrite Nat.sub_0_r in E. destruct E as (_ & _ & H3 & H4 & _). eauto.
Qed.

Lemma load_outcome l off n h :
  (exists bs, Store.load l off n h = Ok (bs, h)) \/ Store.load l off n h = Err RuntimePanic.
Proof.
  unfold Store.load, Store.get, bind, ret, fail.
  destruct (nth_error h l) as [b|]; auto.
  destruct (Store.in_bounds b off n); eauto.
Qed.

Lemma store_outcome l off bs h :
  (exists h', Store.store l off bs h = Ok (tt, h')) \/ Store.store l off bs h = Err RuntimePanic.
Proof.
  unfold Store.store.
  destruct (nth_error h l) as [b|]; auto.
  destruct (Store.in_bounds b off (len bs)); eauto.
Qed.

Ltac not_index_error :=
  match goal with
  | |- ~ IndexSpec.is_IndexError _ =>
      let H := fresh in intros (? & ? & ? & H); try discriminate H
  end.

Ltac after_load l off n h :=
  let bs := fresh "bs" in let E := fresh "E" in
  destruct (load_outcome l off n h) as [[bs E]|E]; rewrite E;
  not_index_error.

Lemma GetFloat64_not_index a indices h off :
  flatIndex a indices = Ok off -> ~ IndexSpec.is_IndexError (GetFloat64 a indices h).
Proof.
  intros F. unfold GetFloat64, bind at 1. rewrite F. cbn [lift ret].
  destruct (dtype a); unfold bind, ret, fail;
    try (match goal with |- context [Store.load ?l ?o ?n ?h] => after_load l o n h end);
    not_index_error.
Qed.

Lemma GetInt64_not_index a indices h off :
  flatIndex a indices = Ok off -> ~ IndexSpec.is_IndexError (GetInt64 a indices h).
Proof.
  intros F. unfold GetInt64, bind at 1. rewrite F. cbn [lift ret].
  destruct (dtype a); unfold bind, ret, fail;
    try (match goal with |- context [Store.load ?l ?o ?n ?h] => after_load l o n h end);
    not_index_error.
Qed.

Lemma SetFloat64_not_index a v indices h off :
  flatIndex a indices = Ok off -> ~ IndexSpec.is_IndexError (SetFloat64 a v indices h).
Proof.
  intros F. unfold SetFloat64, bind at 1. rewrite F. cbn [lift ret].
  destruct (encode_float (dtype a) v) as [bs|]; [|unfold fail; not_index_error].
  destruct (store_outcome (data a) off bs h) as [[h' E]|E]; rewrite E; not_index_error.
Qed.

Lemma SetInt64_not_index a v indices h off :
  flatIndex a indices = Ok off -> ~ IndexSpec.is_IndexError (SetInt64 a v indices h).
Proof.
  intros F. unfold SetInt64, bind at 1. rewrite F. cbn [lift ret].
  destruct (encode_int (dtype a) v) as [bs|]; [|unfold fail; not_index_error].
  destruct (store_outcome (data a) off bs h) as [[h' E]|E]; rewrite E; not_index_error.
Qed.

Lemma access_flatIndex_error a indices e :
  flatIndex a indices = Err e ->
  forall h v z,
    GetFloat64 a indices h = Err e /\ GetInt64 a indices h = Err e
    /\ SetFloat64 a v indices h = Err e /\ SetInt64 a z indices h = Err e.
Proof.
  intros F h v z.
  unfold GetFloat64, GetInt64, SetFloat64, SetInt64, bind. rewrite F. cbn. auto.
Qed.

(** C2.  On a multi-index with one index per axis, [flatIndex] replaces a
    negative index [i] on an axis of extent [n] by [n + i] and fails with
    the [IndexError] of the first axis whose normalized index is outside
    [[0, n)], and only then; the four element accessors fail with an
    [IndexError] in exactly the same cases.  On the 2x2 array [1,2,3,4],
    [GetFloat64(-1,-1)] is 4 and [GetFloat64(-2,-2)] is 1. *)
Theorem flatIndex_normalization :
  forall (a : NDArray) (indices : list Z),
    len indices = ndim a ->
    length (shape a) = length indices ->
    length (strides a) = length indices ->
    Forall (fun n => 0 <= n <= GoInt.max_int) (shape a) ->
    Forall GoInt.in_range indices ->
    flatIndex a indices = IndexSpec.outcome (shape a) (strides a) indices
    /\ ((exists k, (k < length indices)%nat
                  /\ ~ IndexSpec.inside (nth k (shape a) 0) (nth k indices 0))
        <-> IndexSpec.is_IndexError (flatIndex a indices))
    /\ (Forall2 IndexSpec.inside (shape a) indices
        <-> flatIndex a indices = Ok (IndexSpec.offset (shape a) (strides a) indices 0))
    /\ (forall h v z,
          (IndexSpec.is_IndexError (GetFloat64 a indices h)
           <-> IndexSpec.is_IndexError (flatIndex a indices))
          /\ (IndexSpec.is_IndexError (GetInt64 a indices h)
              <-> IndexSpec.is_IndexError (flatIndex a indices))
          /\ (IndexSpec.is_IndexError (SetFloat64 a v indices h)
              <-> IndexSpec.is_IndexError (flatIndex a indices))
          /\ (IndexSpec.is_IndexError (SetInt64 a z indices h)
              <-> IndexSpec.is_IndexError (flatIndex a indices)))
    /\ (exists h,
          (m <- FromSliceFloat64 [1; 2; 3; 4]%float [2; 2] ;;
           x <- GetFloat64 m [-1; -1] ;;
           y <- GetFloat64 m [-2; -2] ;;
           ret (x, y)) [] = Ok ((4%float, 1%float), h)).
Proof.
  intros a indices HN HS HT FS FI.
  pose proof (flatIndex_outcome a indices HN HS HT FS FI) as O.
  split; [exact O|]. split; [|split; [|split]].
  - rewrite first_outside_exists by auto. rewrite O. unfold IndexSpec.outcome. split.
    + intros (j & E). rewrite E. unfold IndexSpec.is_IndexError. eauto.
    + destruct (IndexSpec.first_outside 0 (shape a) indices) as [j|]; [eauto|].
      intros (? & ? & ? & X). discriminate X.
  - rewrite <- (first_outside_none (shape a) 0 indices) by auto.
    rewrite O. unfold IndexSpec.outcome.
    destruct (IndexSpec.first_outside 0 (shape a) indices) as [j|];
      split; auto; discriminate.
  - intros h v z.
    destruct (flatIndex a indices) as [off|e] eqn:F.
    + pose proof (GetFloat64_not_index a indices h off F).
      pose proof (GetInt64_not_index a indices h off F).
      pose proof (SetFloat64_not_index a v indices h off F).
      pose proof (SetInt64_not_index a z indices h off F).
      assert (N : ~ IndexSpec.is_IndexError (@Ok Z off))
        by (intros (? & ? & ? & X); discriminate X).
      tauto.
    + destruct (access_flatIndex_error a indices e F h v z) as (E1 & E2 & E3 & E4).
      rewrite E1, E2, E3, E4. unfold IndexSpec.is_IndexError.
      repeat split; intros (i & k & n & X); injection X as ->; eauto.
  - eexists. vm_compute. reflexivity.
Qed.

Lemma flatIndex_normalization_witness :
  flatIndex (mkNDArray 0 [2; 2] [16; 8] Float64 4 2) [-1; -1]
  = IndexSpec.outcome [2; 2] [16; 8] [-1; -1].
Proof.
  apply (flatIndex_normalization (mkNDArray 0 [2; 2] [16; 8] Float64 4 2) [-1; -1]);
    try reflexivity;
    repeat constructor; vm_compute; congruence.
Defined.

(** ** Reasoning about operations on the store *)

Lemma bind_ok {A B} (m : M A) (f : A -> M B) h r h' :
  bind m f h = Ok (r, h') ->
  exists a h1, m h = Ok (a, h1) /\ f a h1 = Ok (r, h').
Proof.
  unfold bind. destruct (m h) as [[a h1]|e]; [eauto | discriminate].
Qed.

Lemma bind_ok_intro {A B} (m : M A) (f : A -> M B) h a h1 :
  m h = Ok (a, h1) -> bind m f h = f a h1.
Proof. intros E. unfold bind. now rewrite E. Qed.

Lemma bind_err {A B} (m : M A) (f : A -> M B) h e :
  m h = Err e -> bind m f h = Err e.
Proof. intros E. unfold bind. now rewrite E. Qed.

Lemma lift_ok {A} (r : result A) h a h' :
  lift r h = Ok (a, h') -> r = Ok a /\ h' = h.
Proof.
  destruct r; cbn; [intros [= -> ->]; auto | discriminate].
Qed.

Lemma ret_ok {A} (x : A) h a h' : ret x h = Ok (a, h') -> a = x /\ h' = h.
Proof. cbn. intros [= -> ->]. auto. Qed.

Lemma get_ok l h b h' : Store.get l h = Ok (b, h') -> nth_error h l = Some b /\ h' = h.
Proof.
  unfold Store.get. destruct (nth_error h l); [intros [= -> ->]; auto | discriminate].
Qed.

Lemma alloc_ok bs h l h' : Store.alloc bs h = Ok (l, h') -> l = length h /\ h' = h ++ [bs].
Proof. unfold Store.alloc. intros [= <- <-]. auto. Qed.

Lemma make_ok n h l h' :
  Store.make n h = Ok (l, h') ->
  0 <= n /\ l = length h /\ h' = h ++ [repeat x00 (Z.to_nat n)].
Proof.
  unfold Store.make. destruct (n <? 0) eqn:E; [discriminate|].
  intros [= <- <-]. repeat split; auto. lia.
Qed.

(** Inversion of a successful run, one [bind] at a time. *)
Ltac inv_run H :=
  lazymatch type of H with
  | bind _ _ _ = Ok _ =>
      let a := fresh "a" in let h := fresh "h" in
      let H1 := fresh "R" in let H2 := fresh "R" in
      apply bind_ok in H; destruct H as (a & h & H1 & H2);
      try inv_run H1; try inv_run H2
  | lift _ _ = Ok _ =>
      let E := fresh "E" in
      apply lift_ok in H; destruct H as [E ->]
  | ret _ _ = Ok _ =>
      let E := fresh "E" in
      apply ret_ok in H; destruct H as [E ->]; try subst
  | fail _ _ = Ok _ => discriminate H
  | Store.get _ _ = Ok _ =>
      let E := fresh "G" in
      apply get_ok in H; destruct H as [E ->]
  | Store.alloc _ _ = Ok _ =>
      let E := fresh "L" in
      apply alloc_ok in H; destruct H as [E ->]
  | Store.make _ _ = Ok _ =>
      let E := fresh "L" in let N := fresh "N" in
      apply make_ok in H; destruct H as (N & E & ->)
  | _ => idtac
  end.

Lemma Reshape_ok a S h b h1 :
  Reshape a S h = Ok (b, h1) ->
  exists buf,
    nth_error h (data a) = Some buf /\ h1 = h ++ [buf] /\ data b = length h
    /\ strides b = computeStrides (shape b) (ItemSize (dtype a))
    /\ dtype b = dtype a /\ size b = size a /\ ndim b = len (shape b).
Proof.
  unfold Reshape. intros H. inv_run H. destruct a0 as [inferIdx knownSize].
  inv_run R0. destruct a0 as [newShape newSize].
  destruct (negb (newSize =? size a)) eqn:EN; [discriminate|].
  inv_run R1.
  assert (h0 = h) as ->.
  { destruct (negb (inferIdx =? -1)).
    - destruct (knownSize =? 0); [discriminate|].
      destruct (negb _); [discriminate|]. now inv_run R.
    - now inv_run R. }
  exists a0. cbn. repeat split; auto.
  apply negb_false_iff in EN. lia.
Qed.

Lemma scan_nonneg S : forall i inferIdx knownSize,
  Forall (fun d => 0 <= d) S ->
  ReshapeLoop.scan i S inferIdx knownSize = Ok (inferIdx, fold_left GoInt.mul S knownSize).
Proof.
  induction S as [|d t IH]; intros i inferIdx knownSize F; simpl; auto.
  pose proof (Forall_inv F) as Hd. pose proof (Forall_inv_tail F) as Ft. cbv beta in Hd.
  replace (d =? -1) with false by lia. replace (d <? 0) with false by lia.
  now apply IH.
Qed.

Lemma scan_placeholder pre : forall post i knownSize,
  Forall (fun d => 0 <= d) pre -> Forall (fun d => 0 <= d) post ->
  ReshapeLoop.scan i (pre ++ -1 :: post) (-1) knownSize
  = Ok (i + len pre, fold_left GoInt.mul (pre ++ post) knownSize).
Proof.
  induction pre as [|d t IH]; intros post i knownSize Fp Fq; simpl.
  - rewrite scan_nonneg by auto. unfold len. simpl. f_equal. f_equal. lia.
  - pose proof (Forall_inv Fp) as Hd. pose proof (Forall_inv_tail Fp) as Ft. cbv beta in Hd.
    replace (d =? -1) with false by lia. replace (d <? 0) with false by lia.
    rewrite IH by auto. unfold len. simpl length. f_equal. f_equal. lia.
Qed.

(** The value an operation returns, without the store. *)
Definition get_value {A} (r : result (A * heap)) : result A :=
  match r with Ok (x, _) => Ok x | Err e => Err e end.

Lemma load_ext l off n h l' h' :
  nth_error h l = nth_error h' l' ->
  get_value (Store.load l off n h) = get_value (Store.load l' off n h').
Proof.
  intros E. unfold Store.load, Store.get, bind. rewrite E.
  destruct (nth_error h' l') as [b|]; auto.
  destruct (Store.in_bounds b off n); reflexivity.
Qed.


Lemma bind_load_ext {A} l off n h l' h' (f : list byte -> A) :
  nth_error h l = nth_error h' l' ->
  get_value ((bs <- Store.load l off n ;; ret (f bs)) h)
  = get_value ((bs <- Store.load l' off n ;; ret (f bs)) h').
Proof.
  intros E. unfold Store.load, Store.get, bind. rewrite E.
  destruct (nth_error h' l') as [b|]; auto.
  destruct (Store.in_bounds b off n); reflexivity.
Qed.

Lemma flatIndex_from_ext a c indices :
  shape a = shape c -> strides a = strides c ->
  forall k off, flatIndex_from a k indices off = flatIndex_from c k indices off.
Proof.
  intros E1 E2.
  induction indices as [|i t IH]; intros k off; simpl; auto.
  rewrite E1, E2. destruct (nth_error (shape c) k); auto.
  destruct (nth_error (strides c) k); auto.
  destruct (_ || _); auto.
Qed.

Lemma flatIndex_ext a c indices :
  shape a = shape c -> strides a = strides c -> ndim a = ndim c ->
  flatIndex a indices = flatIndex c indices.
Proof.
  intros E1 E2 E3. unfold flatIndex. rewrite E3.
  destruct (len indices =? ndim c); auto using flatIndex_from_ext.
Qed.

Lemma GetFloat64_ext a c indices h h' :
  shape a = shape c -> strides a = strides c -> ndim a = ndim c -> dtype a = dtype c ->
  nth_error h (data a) = nth_error h' (data c) ->
  get_value (GetFloat64 a indices h) = get_value (GetFloat64 c indices h').
Proof.
  intros E1 E2 E3 E4 E5. unfold GetFloat64.
  rewrite (flatIndex_ext a c) by auto. rewrite E4.
  unfold bind at 1 3.
  destruct (flatIndex c indices) as [off|e]; cbn [lift ret fail]; auto.
  destruct (dtype c); try apply bind_load_ext; auto.
Qed.

(** ** C6: [Reshape] and back *)

(** The invariants of the data model that the creation functions
    establish: the rank and size are those of the shape, the strides are
    C-contiguous, and no extent is negative. *)
Module Wf.
Definition meta (a : NDArray) : Prop :=
  ndim a = len (shape a)
  /\ size a = computeSize (shape a)
  /\ strides a = computeStrides (shape a) (ItemSize (dtype a))
  /\ Forall (fun d => 0 <= d) (shape a).
End Wf.

(** A valid argument of [Reshape] for an array of [sz] elements. *)
Module ReshapeSpec.
Definition valid (sz : Z) (S : list Z) : Prop :=
  (Forall (fun d => 0 <= d) S /\ computeSize S = sz)
  \/ (exists pre post,
        S = pre ++ -1 :: post
        /\ Forall (fun d => 0 <= d) pre /\ Forall (fun d => 0 <= d) post
        /\ fold_left GoInt.mul (pre ++ post) 1 <> 0
        /\ Z.rem sz (fold_left GoInt.mul (pre ++ post) 1) = 0).
End ReshapeSpec.

Lemma Reshape_valid a S h :
  (data a < length h)%nat -> ReshapeSpec.valid (size a) S ->
  exists b h1, Reshape a S h = Ok (b, h1).
Proof.
  intros HA V. unfold Reshape.
  destruct (nth_error h (data a)) as [buf|] eqn:G;
    [|apply nth_error_None in G; lia].
  assert (GG : Store.get (data a) h = Ok (buf, h)) by (unfold Store.get; now rewrite G).
  destruct V as [[F E]|(pre & post & -> & Fp & Fq & K0 & KR)].
  - rewrite (bind_ok_intro _ _ _ (-1, fold_left GoInt.mul S 1) h)
      by (rewrite scan_nonneg by auto; reflexivity).
    cbn [negb Z.eqb]. simpl (negb (-1 =? -1)). cbv iota.
    rewrite (bind_ok_intro _ _ _ (S, computeSize S) h) by reflexivity.
    rewrite E, Z.eqb_refl. cbn [negb].
    rewrite (bind_ok_intro _ _ _ buf h) by exact GG.
    unfold bind, Store.alloc, ret. eauto.
  - rewrite (bind_ok_intro _ _ _ (0 + len pre, fold_left GoInt.mul (pre ++ post) 1) h)
      by (rewrite scan_placeholder by auto; reflexivity).
    cbv iota beta.
    assert (LP : 0 <= len pre) by (unfold len; apply Nat2Z.is_nonneg).
    destruct (0 + len pre =? -1) eqn:X; [apply Z.eqb_eq in X; exfalso; clear - X LP; lia|].
    cbn [negb].
    apply Z.eqb_neq in K0. rewrite K0. rewrite KR. cbn [Z.eqb negb].
    unfold bind at 1. cbn [ret]. rewrite Z.eqb_refl. cbn [negb].
    rewrite (bind_ok_intro _ _ _ buf h) by exact GG.
    unfold bind, Store.alloc, ret. eauto.
Qed.

Lemma Reshape_back a b h1 buf :
  Wf.meta a ->
  nth_error h1 (data b) = Some buf -> dtype b = dtype a -> size b = size a ->
  Reshape b (Shape a) h1
  = Ok ({| data := length h1; shape := shape a; strides := strides a;
           dtype := dtype a; size := size a; ndim := ndim a |}, h1 ++ [buf]).
Proof.
  intros (W1 & W2 & W3 & W4) G ED ES. unfold Reshape, Shape.
  rewrite (bind_ok_intro _ _ _ (-1, fold_left GoInt.mul (shape a) 1) h1)
    by (rewrite scan_nonneg by auto; reflexivity).
  simpl (negb (-1 =? -1)). cbv iota.
  rewrite (bind_ok_intro _ _ _ (shape a, computeSize (shape a)) h1) by reflexivity.
  rewrite ES, <- W2, Z.eqb_refl. cbn [negb].
  rewrite (bind_ok_intro _ _ _ buf h1) by (unfold Store.get; now rewrite G).
  unfold bind, Store.alloc, ret. rewrite ED, <- W3, <- W1. reflexivity.
Qed.

(** C6.  For every array that satisfies the invariants of the data model
    and every new shape, a [Reshape] to that shape succeeds when the shape
    is valid (the same element count, or one [-1] placeholder that divides
    the size), and reshaping its result back to the original shape always
    succeeds and yields a fresh array with the shape, strides, dtype and
    size of the original and a byte-identical buffer: every element read
    gives the same value as in the original. *)
Theorem Reshape_round_trip :
  forall (a : NDArray) (S : list Z) (h : heap),
    Wf.meta a ->
    (data a < length h)%nat ->
    (ReshapeSpec.valid (size a) S -> exists b h1, Reshape a S h = Ok (b, h1))
    /\ (forall b h1,
          Reshape a S h = Ok (b, h1) ->
          exists c h2,
            Reshape b (Shape a) h1 = Ok (c, h2)
            /\ shape c = shape a /\ strides c = strides a /\ dtype c = dtype a
            /\ size c = size a /\ ndim c = ndim a
            /\ nth_error h2 (data c) = nth_error h (data a)
            /\ nth_error h2 (data a) = nth_error h (data a)
            /\ forall indices,
                 get_value (GetFloat64 c indices h2) = get_value (GetFloat64 a indices h)).
Proof.
  intros a S h W HA. split; [now apply Reshape_valid|].
  intros b h1 R. apply Reshape_ok in R.
  destruct R as (buf & G & -> & DB & _ & ED & ES & _).
  assert (GB : nth_error (h ++ [buf]) (data b) = Some buf).
  { rewrite DB, nth_error_app2, Nat.sub_diag by lia. reflexivity. }
  eexists. eexists. split; [apply (Reshape_back a b _ buf W GB ED ES)|].
  cbn [data shape strides dtype size ndim].
  assert (GC : nth_error ((h ++ [buf]) ++ [buf]) (length (h ++ [buf])) = nth_error h (data a)).
  { rewrite nth_error_app2, Nat.sub_diag by lia. now rewrite G. }
  repeat split; auto.
  - rewrite !nth_error_app1; auto; rewrite ?length_app; simpl; lia.
  - intros indices. apply GetFloat64_ext; auto.
Qed.

Lemma Reshape_round_trip_witness :
  let a := mkNDArray 0 [2; 3] [24; 8] Float64 6 2 in
  let h := [repeat x00 48] in
  Wf.meta a /\ (data a < length h)%nat
  /\ exists c h2,
       (b <- Reshape a [3; -1] ;; Reshape b (Shape a)) h = Ok (c, h2)
       /\ shape c = [2; 3] /\ nth_error h2 (data c) = Some (repeat x00 48).
Proof.
  intros a h.
  assert (W : Wf.meta a) by (repeat split; repeat constructor; lia).
  assert (HA : (data a < length h)%nat) by (simpl; lia).
  split; [exact W|]. split; [exact HA|].
  destruct (Reshape_round_trip a [3; -1] h W HA) as [V RT].
  destruct V as (b & h1 & R).
  { right. exists [3], []. repeat split; repeat constructor; try lia.
    vm_compute. discriminate. }
  destruct (RT b h1 R) as (c & h2 & R2 & Es & _ & _ & _ & _ & Ed & _).
  exists c, h2. split; [|split; [exact Es | exact Ed]].
  unfold bind. rewrite R. exact R2.
Defined.

(** ** C10: [Full] on a dtype without a branch *)

Lemma Zeros_run shape dt h :
  Zeros shape dt h
  = if GoInt.mul (computeSize shape) (ItemSize dt) <? 0 then Err RuntimePanic
    else Ok ({| data := length h; shape := shape;
                strides := computeStrides shape (ItemSize dt);
                dtype := dt; size := computeSize shape; ndim := len shape |},
             h ++ [repeat x00 (Z.to_nat (GoInt.mul (computeSize shape) (ItemSize dt)))]).
Proof.
  unfold Zeros, bind, Store.make.
  destruct (GoInt.mul (computeSize shape) (ItemSize dt) <? 0); reflexivity.
Qed.

(** C10.  For a dtype outside Float64, Float32, Int64 and Int32, [Full]
    is [Zeros]: whatever the fill value, it returns the zero-filled array
    and raises no error of its own (it succeeds exactly when the
    allocation of [Zeros] does), so the buffer consists of zero bytes only
    and the fill value is ignored. *)
Theorem Full_unsupported_dtype_is_zero :
  forall (shape : list Z) (value : float) (dt : DType) (h : heap),
    dt <> Float64 -> dt <> Float32 -> dt <> Int64 -> dt <> Int32 ->
    Full shape value dt h = Zeros shape dt h
    /\ (forall value', Full shape value' dt h = Full shape value dt h)
    /\ ((exists arr h', Full shape value dt h = Ok (arr, h'))
        <-> 0 <= GoInt.mul (computeSize shape) (ItemSize dt))
    /\ (forall arr h',
          Full shape value dt h = Ok (arr, h') ->
          exists buf,
            nth_error h' (data arr) = Some buf
            /\ len buf = GoInt.mul (size arr) (ItemSize dt)
            /\ Forall (fun b => b = x00) buf).
Proof.
  intros shape value dt h N1 N2 N3 N4.
  assert (E : forall v, Full shape v dt h = Zeros shape dt h).
  { intros v. unfold Full, bind.
    destruct (Zeros shape dt h) as [[arr h1]|e]; auto.
    destruct dt; try congruence; reflexivity. }
  split; [apply E|]. split; [intros v; now rewrite !E|].
  rewrite E, Zeros_run.
  destruct (GoInt.mul (computeSize shape) (ItemSize dt) <? 0) eqn:L.
  - split; [|intros arr h' X; discriminate X].
    split; [intros (arr & h' & X); discriminate X | lia].
  - split; [split; [lia | eauto]|].
    intros arr h' [= <- <-]. cbn [data size].
    eexists. split; [|split].
    + rewrite nth_error_app2, Nat.sub_diag by lia. reflexivity.
    + unfold len. rewrite repeat_length. lia.
    + apply Forall_forall. intros b Hb. now apply repeat_spec in Hb.
Qed.

Lemma Full_unsupported_dtype_is_zero_witness :
  Full [2; 2] 7 Int16 [] = Zeros [2; 2] Int16 []
  /\ exists arr h', Full [2; 2] 7 Int16 [] = Ok (arr, h')
                    /\ nth_error h' (data arr) = Some (repeat x00 8).
Proof.
  destruct (Full_unsupported_dtype_is_zero [2; 2] 7 Int16 [])
    as (E & _ & _ & _); try discriminate.
  split; [exact E|]. rewrite E. vm_compute. eauto.
Defined.

(** ** C9: what an operation leaves unchanged *)

Module Frame.

(** Running [m] from [h] changes no cell below address [n] and frees
    none. *)
Definition keeps_at {A} (n : nat) (m : M A) (h : heap) : Prop :=
  forall r h', m h = Ok (r, h') -> (n <= length h)%nat ->
               firstn n h' = firstn n h /\ (length h <= length h')%nat.

Definition keeps {A} (n : nat) (m : M A) : Prop := forall h, keeps_at n m h.

(** The store [h'] extends [h]: every buffer of [h] is in [h'], at the
    same address and with the same contents. *)
Definition extends (h h' : heap) : Prop := firstn (length h) h' = h.

(** The array [r] was allocated between [h] and [h']. *)
Definition fresh (h : heap) (r : NDArray) (h' : heap) : Prop :=
  (length h <= data r < length h')%nat.

End Frame.

Lemma firstn_set_nth_above {A} n l (v : A) h :
  (n <= l)%nat -> firstn n (set_nth l v h) = firstn n h.
Proof.
  revert n l; induction h as [|x t IH]; intros [|n] [|l] H; simpl; auto; try lia.
  f_equal. apply IH. lia.
Qed.

Lemma firstn_app_below {A} n (h x : list A) :
  (n <= length h)%nat -> firstn n (h ++ x) = firstn n h.
Proof.
  intros H. rewrite firstn_app. replace (n - length h)%nat with 0%nat by lia.
  simpl. apply app_nil_r.
Qed.

Lemma keeps_ret {A} n (x : A) : Frame.keeps n (ret x).
Proof. intros h r h' E _. inv_run E. auto. Qed.

Lemma keeps_fail {A} n e : Frame.keeps n (@fail A e).
Proof. intros h r h' E. discriminate E. Qed.

Lemma keeps_lift {A} n (x : result A) : Frame.keeps n (lift x).
Proof. intros h r h' E _. inv_run E. auto. Qed.

Lemma keeps_bind {A B} n (m : M A) (f : A -> M B) h :
  Frame.keeps_at n m h ->
  (forall a h1, m h = Ok (a, h1) -> Frame.keeps_at n (f a) h1) ->
  Frame.keeps_at n (bind m f) h.
Proof.
  intros Km Kf r h' E Hn. apply bind_ok in E. destruct E as (a & h1 & E1 & E2).
  destruct (Km a h1 E1 Hn) as [F1 L1].
  destruct (Kf a h1 E1 r h' E2 ltac:(lia)) as [F2 L2].
  split; [congruence | lia].
Qed.

Lemma keeps_for_range {S} n (body : Z -> S -> M S) :
  (forall i s, Frame.keeps n (body i s)) ->
  forall count i s, Frame.keeps n (for_range i count body s).
Proof.
  intros Kb. induction count as [|c IH]; intros i s h; simpl.
  - apply keeps_ret.
  - apply keeps_bind; [apply Kb|]. intros s' h1 _. apply IH.
Qed.

Lemma keeps_for_upto {S} n (body : Z -> S -> M S) k s :
  (forall i s, Frame.keeps n (body i s)) -> Frame.keeps n (for_upto k body s).
Proof. intros Kb. apply keeps_for_range, Kb. Qed.

Lemma keeps_for_each n (body : Z -> M unit) k :
  (forall i, Frame.keeps n (body i)) -> Frame.keeps n (for_each k body).
Proof. intros Kb. apply keeps_for_upto. intros i _. apply Kb. Qed.

Lemma keeps_for_list {A} n (body : Z -> A -> M unit) :
  (forall i v, Frame.keeps n (body i v)) ->
  forall l i, Frame.keeps n (for_list i l body).
Proof.
  intros Kb. induction l as [|v t IH]; intros i h; simpl.
  - apply keeps_ret.
  - apply keeps_bind; [apply Kb|]. intros ? h1 _. apply IH.
Qed.

Lemma keeps_for_down {S} n (body : Z -> S -> M S) :
  (forall i s, Frame.keeps n (body i s)) ->
  forall k s, Frame.keeps n (for_down k body s).
Proof.
  intros Kb. induction k as [|k IH]; intros s h.
  - apply keeps_ret.
  - cbn [for_down]. apply keeps_bind; [apply Kb|]. intros s' h1 _. apply IH.
Qed.

Lemma keeps_get n l : Frame.keeps n (Store.get l).
Proof. intros h r h' E _. inv_run E. auto. Qed.

Lemma keeps_load n l off k : Frame.keeps n (Store.load l off k).
Proof.
  intros h r h' E _.
  destruct (load_outcome l off k h) as [[bs X]|X]; rewrite X in E; [|discriminate].
  injection E as _ <-. auto.
Qed.

Lemma keeps_alloc n bs : Frame.keeps n (Store.alloc bs).
Proof.
  intros h r h' E Hn. inv_run E.
  split; [now apply firstn_app_below | rewrite length_app; lia].
Qed.

Lemma keeps_make n k : Frame.keeps n (Store.make k).
Proof.
  intros h r h' E Hn. inv_run E.
  split; [now apply firstn_app_below | rewrite length_app; lia].
Qed.

Lemma keeps_store n l off bs : (n <= l)%nat -> Frame.keeps n (Store.store l off bs).
Proof.
  intros Hl h r h' E Hn. unfold Store.store in E.
  destruct (nth_error h l) as [b|]; [|discriminate].
  destruct (Store.in_bounds b off (len bs)); [|discriminate].
  injection E as _ <-.
  split; [now apply firstn_set_nth_above | now rewrite set_nth_length].
Qed.

Lemma keeps_GetFloat64 n a indices : Frame.keeps n (GetFloat64 a indices).
Proof.
  intros h. unfold GetFloat64. apply keeps_bind; [apply keeps_lift|].
  intros off h1 _.
  destruct (dtype a); try apply keeps_fail;
    (apply keeps_bind; [apply keeps_load | intros; apply keeps_ret]).
Qed.

Lemma keeps_GetInt64 n a indices : Frame.keeps n (GetInt64 a indices).
Proof.
  intros h. unfold GetInt64. apply keeps_bind; [apply keeps_lift|].
  intros off h1 _.
  destruct (dtype a); try apply keeps_fail;
    (apply keeps_bind; [apply keeps_load | intros; apply keeps_ret]).
Qed.

Lemma keeps_SetFloat64 n a v indices :
  (n <= data a)%nat -> Frame.keeps n (SetFloat64 a v indices).
Proof.
  intros Hl h. unfold SetFloat64. apply keeps_bind; [apply keeps_lift|].
  intros off h1 _.
  destruct (encode_float (dtype a) v); [now apply keeps_store | apply keeps_fail].
Qed.

Lemma keeps_SetInt64 n a v indices :
  (n <= data a)%nat -> Frame.keeps n (SetInt64 a v indices).
Proof.
  intros Hl h. unfold SetInt64. apply keeps_bind; [apply keeps_lift|].
  intros off h1 _.
  destruct (encode_int (dtype a) v); [now apply keeps_store | apply keeps_fail].
Qed.

Lemma keeps_bind_alloc {A B} n (m : M A) (f : A -> M B) h :
  Frame.keeps_at n m h ->
  (forall a h1, (n <= length h)%nat -> m h = Ok (a, h1) -> Frame.keeps_at n (f a) h1) ->
  Frame.keeps_at n (bind m f) h.
Proof.
  intros Km Kf r h' E Hn. apply bind_ok in E. destruct E as (a & h1 & E1 & E2).
  destruct (Km a h1 E1 Hn) as [F1 L1].
  destruct (Kf a h1 Hn E1 r h' E2 ltac:(lia)) as [F2 L2].
  split; [congruence | lia].
Qed.

Lemma Zeros_ok shp dt h r h' :
  Zeros shp dt h = Ok (r, h') ->
  data r = length h /\ shape r = shp /\ dtype r = dt
  /\ size r = computeSize shp /\ ndim r = len shp
  /\ strides r = computeStrides shp (ItemSize dt)
  /\ h' = h ++ [repeat x00 (Z.to_nat (GoInt.mul (computeSize shp) (ItemSize dt)))].
Proof.
  rewrite Zeros_run. destruct (_ <? 0); [discriminate|].
  intros [= <- <-]. cbn. repeat split; auto.
Qed.

Lemma keeps_Zeros n shp dt : Frame.keeps n (Zeros shp dt).
Proof.
  intros h r h' E Hn. apply Zeros_ok in E. destruct E as (_ & _ & _ & _ & _ & _ & ->).
  split; [now apply firstn_app_below | rewrite length_app; lia].
Qed.

Ltac keeps_leaf :=
  first [ apply keeps_ret | apply keeps_fail | apply keeps_lift | apply keeps_load
        | apply keeps_get | apply keeps_alloc | apply keeps_make | apply keeps_Zeros
        | apply keeps_GetFloat64 | apply keeps_GetInt64
        | apply keeps_SetFloat64; cbn [data]; lia
        | apply keeps_SetInt64; cbn [data]; lia
        | apply keeps_store; cbn [data]; lia ].

Ltac keeps_loop :=
  first [ apply keeps_for_each; intros ?
        | apply keeps_for_upto; intros ? ?
        | apply keeps_for_list; intros ? ?
        | apply keeps_for_down; intros ? ? ].

Ltac keeps_go :=
  repeat first
    [ keeps_leaf
    | keeps_loop; intros ?
    | apply keeps_bind; [|intros ? ? _]
    | match goal with
      | |- Frame.keeps_at _ (match ?x with _ => _ end) _ => destruct x
      | |- Frame.keeps_at _ (if ?x then _ else _) _ => destruct x
      end ].



Lemma keeps_FromSliceFloat64 n xs shp : Frame.keeps n (FromSliceFloat64 xs shp).
Proof.
  intros h. unfold FromSliceFloat64.
  destruct (negb _); [apply keeps_fail|].
  apply keeps_bind_alloc; [keeps_leaf|]. intros l h1 Hn E. inv_run E.
  keeps_go.
Qed.










Lemma keeps_ToSliceFloat64 n a : Frame.keeps n (ToSliceFloat64 a).
Proof. intros h. unfold ToSliceFloat64. keeps_go. Qed.


Lemma keeps_getMinor n a row col : Frame.keeps n (Linalg.getMinor a row col).
Proof.
  intros h. unfold Linalg.getMinor.
  apply keeps_bind; [|intros; apply keeps_FromSliceFloat64].
  keeps_go.
Qed.

Lemma keeps_Det_rec n fuel : forall a, Frame.keeps n (Linalg.Det_rec fuel a).
Proof.
  induction fuel as [|f IH]; intros a h; cbn [Linalg.Det_rec]; [apply keeps_fail|].
  destruct (negb _); [apply keeps_fail|].
  destruct (negb _); [apply keeps_fail|].
  destruct (_ =? 1); [keeps_leaf|].
  destruct (_ =? 2); [keeps_go|].
  apply keeps_for_upto. intros j det h0.
  apply keeps_bind; [apply keeps_getMinor|]. intros minor h1 _.
  apply keeps_bind; [keeps_leaf|]. intros a0j h2 _.
  apply keeps_bind; [apply IH|]. intros d h3 _.
  keeps_go.
Qed.

Lemma keeps_Det n a : Frame.keeps n (Linalg.Det a).
Proof. apply keeps_Det_rec. Qed.



















Module Mutation.




End Mutation.




















(** ** Byte encodings *)

Lemma Z_of_byte_range b : 0 <= Enc.Z_of_byte b < 256.
Proof.
  unfold Enc.Z_of_byte. pose proof (Byte.to_N_bounded b). lia.
Qed.

Lemma Z_of_byte_of_Z z : Enc.Z_of_byte (Enc.byte_of_Z z) = z mod 256.
Proof.
  unfold Enc.Z_of_byte, Enc.byte_of_Z.
  pose proof (Z.mod_pos_bound z 256 ltac:(lia)) as B.
  destruct (Byte.of_N (Z.to_N (z mod 256))) as [b|] eqn:E.
  - apply Byte.to_of_N in E. rewrite E. lia.
  - apply Byte.of_N_None_iff in E. lia.
Qed.

Lemma le_encode_length n : forall z, length (Enc.le_encode n z) = n.
Proof. induction n as [|n IH]; intros z; simpl; auto. Qed.

Lemma le_decode_encode n : forall z,
  Enc.le_decode (Enc.le_encode n z) = z mod 2 ^ (8 * Z.of_nat n).
Proof.
  induction n as [|n IH]; intros z.
  - simpl. now rewrite Z.mod_1_r.
  - cbn [Enc.le_encode Enc.le_decode]. rewrite IH, Z_of_byte_of_Z.
    replace (8 * Z.of_nat (S n)) with (8 + 8 * Z.of_nat n) by lia.
    rewrite Z.pow_add_r by lia. change (2 ^ 8) with 256.
    rewrite Z.rem_mul_r by lia. reflexivity.
Qed.

Lemma le_decode_range bs : 0 <= Enc.le_decode bs < 2 ^ (8 * Z.of_nat (length bs)).
Proof.
  induction bs as [|b t IH].
  - simpl. lia.
  - cbn [Enc.le_decode length]. pose proof (Z_of_byte_range b).
    replace (8 * Z.of_nat (S (length t))) with (8 + 8 * Z.of_nat (length t)) by lia.
    rewrite Z.pow_add_r by lia. change (2 ^ 8) with 256. nia.
Qed.

(** ** The bits of a [float64] *)

Lemma digits2_pos_bounds m :
  2 ^ (Zpos (digits2_pos m) - 1) <= Zpos m < 2 ^ Zpos (digits2_pos m).
Proof.
  induction m as [m IH|m IH|]; cbn [digits2_pos].
  - rewrite Pos2Z.inj_succ.
    replace (Z.succ (Zpos (digits2_pos m)) - 1) with (1 + (Zpos (digits2_pos m) - 1)) by lia.
    rewrite Z.pow_succ_r by lia. rewrite Z.pow_add_r by lia. lia.
  - rewrite Pos2Z.inj_succ.
    replace (Z.succ (Zpos (digits2_pos m)) - 1) with (1 + (Zpos (digits2_pos m) - 1)) by lia.
    rewrite Z.pow_succ_r by lia. rewrite Z.pow_add_r by lia. lia.
  - simpl. lia.
Qed.

Lemma valid_finite_cases s m e :
  SpecFloat.valid_binary prec emax (S754_finite s m e) = true ->
  (Zpos m < 2 ^ 52 /\ e = -1074)
  \/ (2 ^ 52 <= Zpos m < 2 ^ 53 /\ -1074 <= e <= 971).
Proof.
  unfold SpecFloat.valid_binary, bounded, canonical_mantissa, fexp, SpecFloat.emin, prec, emax.
  intros H. apply andb_true_iff in H. destruct H as [C B].
  apply Z.eqb_eq in C. apply Z.leb_le in B.
  pose proof (digits2_pos_bounds m) as D.
  set (d := Zpos (digits2_pos m)) in *.
  assert (Hd : 0 < d) by (unfold d; lia).
  destruct (Z.le_gt_cases 53 d) as [L|L].
  - right. assert (d = 53) by lia. subst d.
    replace (Zpos (digits2_pos m)) with 53 in D by lia.
    change (53 - 1) with 52 in D. lia.
  - left. assert (e = -1074) by lia. split; auto.
    assert (2 ^ d <= 2 ^ 52) by (apply Z.pow_le_mono_r; lia). lia.
Qed.

Lemma split_bits sgn ex fr :
  0 <= sgn <= 1 -> 0 <= ex < 2048 -> 0 <= fr < 2 ^ 52 ->
  let b := sgn * 2 ^ 63 + ex * 2 ^ 52 + fr in
  (2 ^ 63 <=? b) = (sgn =? 1)
  /\ (b / 2 ^ 52) mod 2 ^ 11 = ex
  /\ b mod 2 ^ 52 = fr
  /\ 0 <= b < 2 ^ 64.
Proof.
  intros Hs He Hf b.
  assert (E1 : b = (sgn * 2048 + ex) * 2 ^ 52 + fr) by (unfold b; lia).
  assert (D : b / 2 ^ 52 = sgn * 2048 + ex).
  { rewrite E1. rewrite Z.div_add_l by lia. rewrite Z.div_small by lia. lia. }
  assert (M : b mod 2 ^ 52 = fr).
  { rewrite E1. rewrite Z.add_comm, Z.mod_add by lia. apply Z.mod_small. lia. }
  split; [|split; [|split]]; auto.
  - unfold b. change (2 ^ 63) with 9223372036854775808 in *.
    change (2 ^ 52) with 4503599627370496 in *. lia.
  - rewrite D. change (2 ^ 11) with 2048.
    rewrite Z.add_comm, Z.mod_add by lia. apply Z.mod_small. lia.
  - unfold b. change (2 ^ 63) with 9223372036854775808 in *.
    change (2 ^ 64) with 18446744073709551616.
    change (2 ^ 52) with 4503599627370496 in *. lia.
Qed.

Lemma SF_of_bits_of_SF sf :
  SpecFloat.valid_binary prec emax sf = true ->
  Enc.SF_of_bits 64 53 (Enc.bits_of_SF 64 53 sf) = sf
  /\ 0 <= Enc.bits_of_SF 64 53 sf < 2 ^ 64.
Proof.
  intros V. unfold Enc.SF_of_bits, Enc.bits_of_SF, Enc.sign_bit.
  change (64 - 53 - 1) with 10. change (64 - 53) with 11. change (53 - 1) with 52.
  change (53 - 2) with 51. change (64 - 1) with 63.
  change (2 ^ 11 - 1) with 2047. change (2 ^ 10 - 1) with 1023.
  destruct sf as [s|s| |s m e].
  - destruct (split_bits (if s then 1 else 0) 0 0) as (A & B & C & R);
      try (destruct s; lia); try lia.
    replace (if s then 2 ^ 63 else 0) with ((if s then 1 else 0) * 2 ^ 63 + 0 * 2 ^ 52 + 0)
      by (destruct s; lia).
    rewrite A, B, C. split; [destruct s; reflexivity | exact R].
  - destruct (split_bits (if s then 1 else 0) 2047 0) as (A & B & C & R);
      try (destruct s; lia); try lia.
    replace ((if s then 2 ^ 63 else 0) + 2047 * 2 ^ 52)
      with ((if s then 1 else 0) * 2 ^ 63 + 2047 * 2 ^ 52 + 0) by (destruct s; lia).
    rewrite A, B, C. split; [destruct s; reflexivity | exact R].
  - vm_compute. split; [reflexivity | split; congruence].
  - apply valid_finite_cases in V. destruct V as [[Hm He]|[Hm He]].
    + replace (Zpos m <? 2 ^ 52) with true by lia.
      destruct (split_bits (if s then 1 else 0) 0 (Zpos m)) as (A & B & C & R);
        try (destruct s; lia); try lia.
      replace ((if s then 2 ^ 63 else 0) + Zpos m)
        with ((if s then 1 else 0) * 2 ^ 63 + 0 * 2 ^ 52 + Zpos m) by (destruct s; lia).
      rewrite A, B, C. cbn [Z.eqb].
      replace (Zpos m =? 0) with false by lia.
      split; [|exact R]. subst e. destruct s; reflexivity.
    + replace (Zpos m <? 2 ^ 52) with false by lia.
      destruct (split_bits (if s then 1 else 0) (e + 1023 + 53 - 1) (Zpos m - 2 ^ 52))
        as (A & B & C & R); try (destruct s; lia); try lia.
      replace ((if s then 2 ^ 63 else 0) + (e + 1023 + 53 - 1) * 2 ^ 52 + (Zpos m - 2 ^ 52))
        with ((if s then 1 else 0) * 2 ^ 63 + (e + 1023 + 53 - 1) * 2 ^ 52 + (Zpos m - 2 ^ 52))
        by (destruct s; lia).
      rewrite A, B, C.
      replace (e + 1023 + 53 - 1 =? 0) with false by lia.
      replace (e + 1023 + 53 - 1 =? 2047) with false by lia.
      split; [|exact R].
      replace (Zpos m - 2 ^ 52 + 2 ^ 52) with (Zpos m) by lia.
      replace (e + 1023 + 53 - 1 - 1023 - 53 + 1) with e by lia.
      destruct s; reflexivity.
Qed.

Lemma Float64_round_trip x :
  Enc.Float64frombits (Enc.le_decode (Enc.le_encode 8 (Enc.Float64bits x))) = x.
Proof.
  unfold Enc.Float64frombits, Enc.Float64bits.
  destruct (SF_of_bits_of_SF (Prim2SF x) (Prim2SF_valid x)) as [E R].
  rewrite le_decode_encode. change (8 * Z.of_nat 8) with 64.
  rewrite Z.mod_small by exact R. rewrite E. apply SF2Prim_Prim2SF.
Qed.
(** ** Row-major layout *)

Module Layout.

Definition prodZ (l : list Z) : Z := fold_right Z.mul 1 l.

(** The row-major position of a multi-index. *)
Fixpoint ravel (shape indices : list Z) : Z :=
  match shape, indices with
  | _ :: ds, i :: rest => i * prodZ ds + ravel ds rest
  | _, _ => 0
  end.

(** One non-negative index per axis, below the extent of the axis. *)
Definition in_shape (shape indices : list Z) : Prop :=
  Forall2 (fun d i => 0 <= i < d) shape indices.

(** C-contiguous strides for elements of [w] bytes. *)
Fixpoint strides_of (shape : list Z) (w : Z) : list Z :=
  match shape with
  | [] => []
  | _ :: ds => w * prodZ ds :: strides_of ds w
  end.

(** The digits of [k] in the mixed radix given by the reversed shape,
    least significant first. *)
Fixpoint digits (rshape : list Z) (k : Z) : list Z :=
  match rshape with
  | [] => []
  | d :: t => k mod d :: digits t (k / d)
  end.

Definition unravel (shape : list Z) (k : Z) : list Z :=
  rev (digits (rev shape) k).

(** A shape of positive extents whose buffer of [w]-byte elements has a
    length that fits Go's [int]. *)
Definition fits (shape : list Z) (w : Z) : Prop :=
  Forall (fun d => 0 < d) shape /\ 0 < w /\ w * prodZ shape <= GoInt.max_int.

End Layout.

Lemma prodZ_cons d l : Layout.prodZ (d :: l) = d * Layout.prodZ l.
Proof. reflexivity. Qed.

Lemma prodZ_pos l : Forall (fun d => 0 < d) l -> 0 < Layout.prodZ l.
Proof.
  induction l as [|d t IH]; intros F; unfold Layout.prodZ in *; simpl.
  - reflexivity.
  - pose proof (Forall_inv F) as Hd. cbv beta in Hd.
    specialize (IH (Forall_inv_tail F)). nia.
Qed.

Lemma prodZ_app l1 l2 : Layout.prodZ (l1 ++ l2) = Layout.prodZ l1 * Layout.prodZ l2.
Proof.
  induction l1 as [|d t IH].
  - change (Layout.prodZ ([] ++ l2)) with (Layout.prodZ l2).
    change (Layout.prodZ []) with 1. lia.
  - change ((d :: t) ++ l2) with (d :: (t ++ l2)). rewrite !prodZ_cons, IH. lia.
Qed.

Lemma fits_tail d ds w : Layout.fits (d :: ds) w -> Layout.fits ds w.
Proof.
  intros (F & W & B). pose proof (Forall_inv F) as Hd. cbv beta in Hd.
  pose proof (Forall_inv_tail F) as Ft. pose proof (prodZ_pos ds Ft).
  repeat split; auto. rewrite prodZ_cons in B. nia.
Qed.

Lemma mul_small a b : 0 <= a * b <= GoInt.max_int -> GoInt.mul a b = a * b.
Proof.
  intros H. apply wrap_small. unfold GoInt.in_range, GoInt.min_int, GoInt.max_int in *. lia.
Qed.

Lemma add_small a b : 0 <= a + b <= GoInt.max_int -> GoInt.add a b = a + b.
Proof.
  intros H. apply wrap_small. unfold GoInt.in_range, GoInt.min_int, GoInt.max_int in *. lia.
Qed.

Lemma computeStrides_fold shp w :
  Layout.fits shp w ->
  fold_right (fun d '(strides, stride) => (stride :: strides, GoInt.mul stride d))
    ([], w) shp
  = (Layout.strides_of shp w, w * Layout.prodZ shp).
Proof.
  induction shp as [|d ds IH]; intros F.
  - change (Layout.prodZ []) with 1. simpl. f_equal. lia.
  - cbn [fold_right]. rewrite IH by (eapply fits_tail; eauto).
    cbn [Layout.strides_of]. rewrite prodZ_cons. f_equal.
    destruct F as (F & W & B). rewrite prodZ_cons in B.
    pose proof (Forall_inv F) as Hd. cbv beta in Hd.
    pose proof (prodZ_pos ds (Forall_inv_tail F)).
    rewrite mul_small; [lia|]. split; [nia|]. 
    replace (w * Layout.prodZ ds * d) with (w * (d * Layout.prodZ ds)) by lia. exact B.
Qed.

Lemma computeStrides_fits shp w :
  Layout.fits shp w -> computeStrides shp w = Layout.strides_of shp w.
Proof.
  intros F. unfold computeStrides. now rewrite computeStrides_fold.
Qed.

Lemma fold_left_mul_fits shp : forall acc,
  Forall (fun d => 0 < d) shp -> 0 < acc -> acc * Layout.prodZ shp <= GoInt.max_int ->
  fold_left GoInt.mul shp acc = acc * Layout.prodZ shp.
Proof.
  induction shp as [|d ds IH]; intros acc F A B.
  - change (Layout.prodZ []) with 1. simpl. lia.
  - cbn [fold_left]. rewrite prodZ_cons in *.
    pose proof (Forall_inv F) as Hd. cbv beta in Hd.
    pose proof (prodZ_pos ds (Forall_inv_tail F)).
    rewrite mul_small by (split; nia).
    rewrite IH; [lia | exact (Forall_inv_tail F) | nia | ].
    replace (acc * d * Layout.prodZ ds) with (acc * (d * Layout.prodZ ds)) by lia. exact B.
Qed.

Lemma computeSize_fits shp w :
  shp <> [] -> Layout.fits shp w -> computeSize shp = Layout.prodZ shp.
Proof.
  intros N (F & W & B). destruct shp as [|d ds]; [congruence|].
  unfold computeSize. rewrite fold_left_mul_fits; auto; try lia.
  pose proof (prodZ_pos (d :: ds) F). nia.
Qed.

Lemma in_shape_cons_inv d ds idx :
  Layout.in_shape (d :: ds) idx ->
  exists i rest, idx = i :: rest /\ 0 <= i < d /\ Layout.in_shape ds rest.
Proof. intros H. inversion H; subst. eauto. Qed.

Lemma in_shape_nil_inv idx : Layout.in_shape [] idx -> idx = [].
Proof. intros H. now inversion H. Qed.

Lemma ravel_bounds shp : forall idx,
  Layout.in_shape shp idx -> 0 <= Layout.ravel shp idx < Layout.prodZ shp.
Proof.
  induction shp as [|d ds IH]; intros idx H.
  - apply in_shape_nil_inv in H. subst. change (Layout.prodZ []) with 1. simpl. lia.
  - apply in_shape_cons_inv in H. destruct H as (i & rest & -> & Hi & H).
    cbn [Layout.ravel]. rewrite prodZ_cons.
    specialize (IH _ H). nia.
Qed.

Lemma in_shape_length shp idx : Layout.in_shape shp idx -> length shp = length idx.
Proof. apply Forall2_length. Qed.

Lemma offset_ravel shp : forall idx w acc,
  Layout.fits shp w -> Layout.in_shape shp idx ->
  0 <= acc -> acc + w * Layout.prodZ shp <= GoInt.max_int ->
  IndexSpec.offset shp (Layout.strides_of shp w) idx acc = acc + w * Layout.ravel shp idx.
Proof.
  induction shp as [|d ds IH]; intros idx w acc F H A B.
  - apply in_shape_nil_inv in H. subst. simpl. lia.
  - apply in_shape_cons_inv in H. destruct H as (y & rest & -> & Hi & H).
    cbn [IndexSpec.offset Layout.strides_of Layout.ravel].
    rewrite prodZ_cons in B.
    pose proof (fits_tail _ _ _ F) as Ft. destruct F as (F & W & _).
    pose proof (prodZ_pos ds (Forall_inv_tail F)) as P.
    pose proof (ravel_bounds ds _ H) as RB.
    unfold IndexSpec.normalized. replace (y <? 0) with false by lia.
    replace (w * (d * Layout.prodZ ds)) with (d * (w * Layout.prodZ ds)) in B by lia.
    assert (WP : 0 < w * Layout.prodZ ds) by nia.
    set (wp := w * Layout.prodZ ds) in *.
    assert (Y : 0 <= y * wp <= (d - 1) * wp) by nia.
    rewrite mul_small by lia.
    rewrite add_small by lia.
    rewrite IH; auto; lia.
Qed.

Lemma in_shape_inside shp idx :
  Layout.in_shape shp idx -> Forall2 IndexSpec.inside shp idx.
Proof.
  induction 1 as [|d i ds rest H _ IH]; constructor; auto.
  cbv beta in H.
  unfold IndexSpec.inside, IndexSpec.normalized. destruct (i <? 0) eqn:E; lia.
Qed.

Lemma fits_extent_range shp w :
  Layout.fits shp w -> Forall (fun n => 0 <= n <= GoInt.max_int) shp.
Proof.
  induction shp as [|d ds IH]; intros F; constructor.
  - destruct F as (F & W & B). rewrite prodZ_cons in B.
    pose proof (Forall_inv F) as Hd. cbv beta in Hd.
    pose proof (prodZ_pos ds (Forall_inv_tail F)) as P.
    assert (X1 : d * 1 <= d * Layout.prodZ ds) by (apply Z.mul_le_mono_nonneg_l; lia).
    assert (X2 : 1 * (d * Layout.prodZ ds) <= w * (d * Layout.prodZ ds))
      by (apply Z.mul_le_mono_nonneg_r; lia).
    lia.
  - apply IH. eapply fits_tail; eauto.
Qed.

Lemma in_shape_range shp w idx :
  Layout.fits shp w -> Layout.in_shape shp idx -> Forall GoInt.in_range idx.
Proof.
  intros F H. pose proof (fits_extent_range _ _ F) as R. clear F.
  induction H as [|d i ds rest Hi _ IH]; constructor.
  - pose proof (Forall_inv R) as Hd. cbv beta in Hd, Hi.
    unfold GoInt.in_range, GoInt.min_int, GoInt.max_int in *. lia.
  - apply IH. exact (Forall_inv_tail R).
Qed.

(** The byte offset of an in-range multi-index in a C-contiguous array. *)
Lemma flatIndex_ravel a w idx :
  ndim a = len (shape a) ->
  strides a = Layout.strides_of (shape a) w ->
  Layout.fits (shape a) w -> Layout.in_shape (shape a) idx ->
  flatIndex a idx = Ok (w * Layout.ravel (shape a) idx).
Proof.
  intros N S F H.
  pose proof (in_shape_length _ _ H) as L.
  assert (LS : length (strides a) = length idx).
  { rewrite S, <- L. clear. induction (shape a); simpl; auto. }
  rewrite flatIndex_outcome; auto.
  - unfold IndexSpec.outcome.
    pose proof (proj2 (first_outside_none (shape a) 0 idx L) (in_shape_inside _ _ H)) as O.
    rewrite O, S. rewrite offset_ravel; auto; try lia.
    destruct F as (_ & _ & B). lia.
  - rewrite N. unfold len. now rewrite L.
  - eapply fits_extent_range; eauto.
  - eapply in_shape_range; eauto.
Qed.

Lemma unravel_snoc ds d k :
  Layout.unravel (ds ++ [d]) k = Layout.unravel ds (k / d) ++ [k mod d].
Proof.
  unfold Layout.unravel. rewrite rev_app_distr. simpl. reflexivity.
Qed.

Lemma unravel_length shp : forall k, length (Layout.unravel shp k) = length shp.
Proof.
  induction shp as [|d ds IH] using rev_ind; intros k; [reflexivity|].
  rewrite unravel_snoc, !length_app, IH. reflexivity.
Qed.

Lemma ravel_snoc ds : forall d idx x,
  length ds = length idx ->
  Layout.ravel (ds ++ [d]) (idx ++ [x]) = Layout.ravel ds idx * d + x.
Proof.
  induction ds as [|e ds IH]; intros d [|i idx] x L; simpl in L; try discriminate.
  - simpl. change (Layout.prodZ []) with 1. lia.
  - change ((e :: ds) ++ [d]) with (e :: (ds ++ [d])).
    change ((i :: idx) ++ [x]) with (i :: (idx ++ [x])).
    cbn [Layout.ravel]. rewrite IH by lia. rewrite prodZ_app.
    change (Layout.prodZ [d]) with (d * 1). lia.
Qed.

Lemma unravel_in_shape shp : forall k,
  Forall (fun d => 0 < d) shp -> Layout.in_shape shp (Layout.unravel shp k).
Proof.
  induction shp as [|d ds IH] using rev_ind; intros k F; [constructor|].
  rewrite unravel_snoc. apply Forall_app in F. destruct F as [F1 F2].
  apply Forall2_app; [now apply IH|].
  constructor; [|constructor]. pose proof (Forall_inv F2) as Hd. cbv beta in Hd.
  apply Z.mod_pos_bound. lia.
Qed.

Lemma ravel_unravel shp : forall k,
  Forall (fun d => 0 < d) shp ->
  Layout.ravel shp (Layout.unravel shp k) = k mod Layout.prodZ shp.
Proof.
  induction shp as [|d ds IH] using rev_ind; intros k F.
  - change (Layout.prodZ []) with 1. rewrite Z.mod_1_r. reflexivity.
  - apply Forall_app in F. destruct F as [F1 F2].
    pose proof (Forall_inv F2) as Hd. cbv beta in Hd.
    pose proof (prodZ_pos ds F1) as P.
    rewrite unravel_snoc, ravel_snoc by (now rewrite unravel_length).
    rewrite IH by auto. rewrite prodZ_app. change (Layout.prodZ [d]) with (d * 1).
    rewrite Z.mul_1_r. rewrite (Z.mul_comm (Layout.prodZ ds) d).
    rewrite Z.rem_mul_r by lia. lia.
Qed.

Lemma unravel_from_spec a : forall count remaining indices,
  (count <= length (shape a))%nat ->
  length indices = length (shape a) ->
  Forall (fun d => 0 < d) (shape a) ->
  0 <= remaining <= GoInt.max_int ->
  unravel_from a count remaining indices
  = Ok (Layout.unravel (firstn count (shape a)) remaining ++ skipn count indices).
Proof.
  induction count as [|i IH]; intros remaining indices C L F R.
  - reflexivity.
  - cbn [unravel_from].
    destruct (nth_error (shape a) i) as [d|] eqn:E;
      [|apply nth_error_None in E; lia].
    assert (Hd : 0 < d).
    { rewrite Forall_forall in F. apply F. eapply nth_error_In; eauto. }
    replace (d =? 0) with false by lia.
    rewrite Z.quot_div_nonneg, Z.rem_mod_nonneg by lia.
    assert (Q : 0 <= remaining / d <= remaining).
    { split; [apply Z.div_pos; lia|]. apply Z.div_le_upper_bound; nia. }
    rewrite wrap_small
      by (unfold GoInt.in_range, GoInt.min_int, GoInt.max_int in *; lia).
    rewrite IH; try lia; auto; [|now rewrite set_nth_length].
    f_equal.
    assert (S1 : firstn (S i) (shape a) = firstn i (shape a) ++ [d]).
    { clear - E. revert i E. induction (shape a) as [|x t IHt]; intros [|i] E;
        simpl in *; try discriminate.
      - now injection E as ->.
      - f_equal. now apply IHt. }
    rewrite S1, unravel_snoc, <- app_assoc. f_equal.
    rewrite set_nth_split by lia.
    rewrite skipn_app, length_firstn, Nat.min_l, Nat.sub_diag by lia.
    rewrite skipn_all2 by (rewrite length_firstn; lia). reflexivity.
Qed.

Lemma unravelIndex_spec a k :
  ndim a = len (shape a) -> Forall (fun d => 0 < d) (shape a) ->
  0 <= k <= GoInt.max_int ->
  unravelIndex a k = Ok (Layout.unravel (shape a) k).
Proof.
  intros N F K. unfold unravelIndex. rewrite N. unfold len.
  rewrite (proj2 (Z.ltb_ge _ _)) by apply Nat2Z.is_nonneg.
  rewrite Nat2Z.id.
  rewrite unravel_from_spec; auto; [|now rewrite repeat_length].
  rewrite firstn_all, skipn_all2 by (rewrite repeat_length; lia).
  now rewrite app_nil_r.
Qed.

(** ** Elements of a buffer *)

Module Elem.

Definition supported (dt : DType) : bool :=
  match dt with
  | Complex64 | Complex128 => false
  | _ => true
  end.

(** The value [GetFloat64] decodes from the bytes of one element. *)
Definition dec (dt : DType) (bs : list byte) : float :=
  match dt with
  | Float64 => Enc.Float64frombits (Enc.le_decode bs)
  | Float32 => Enc.Float32frombits (Enc.le_decode bs)
  | Int64 => Enc.of_int (Enc.signed 64 (Enc.le_decode bs))
  | Int32 => Enc.of_int (Enc.signed 32 (Enc.le_decode bs))
  | Int16 => Enc.of_int (Enc.signed 16 (Enc.le_decode bs))
  | Int8 => Enc.of_int (Enc.signed 8 (Enc.le_decode bs))
  | Uint64 | Uint32 | Uint16 | Uint8 => Enc.of_int (Enc.le_decode bs)
  | Bool => float_of_bool (negb (Enc.le_decode bs =? 0))
  | Complex64 | Complex128 => 0%float
  end.

(** The bytes of element [k] of a buffer of [w]-byte elements. *)
Definition chunk (w : Z) (buf : buffer) (k : Z) : list byte :=
  firstn (Z.to_nat w) (skipn (Z.to_nat (k * w)) buf).

Definition get (dt : DType) (buf : buffer) (k : Z) : float :=
  dec dt (chunk (ItemSize dt) buf k).

(** The buffer after [SetFloat64] wrote [v] to element [k]. *)
Definition put (dt : DType) (buf : buffer) (k : Z) (v : float) : buffer :=
  match encode_float dt v with
  | Some bs => copy_at (Z.to_nat (k * ItemSize dt)) buf bs
  | None => buf
  end.

(** The value read back from an element after [v] was written to it. *)
Definition conv (dt : DType) (v : float) : float :=
  match encode_float dt v with
  | Some bs => dec dt bs
  | None => 0%float
  end.

(** The values an element of type [dt] holds: for an integer type those
    whose truncation toward zero is in the range of the type, where Go
    defines the conversion [SetFloat64] makes; every value for the float
    types (rounded to the type) and for [Bool] (tested against zero). *)
Definition held (dt : DType) (v : float) : bool :=
  match dt with
  | Float64 | Float32 | Bool => true
  | Int64 => Enc.in_signed 64 v
  | Int32 => Enc.in_signed 32 v
  | Int16 => Enc.in_signed 16 v
  | Int8 => Enc.in_signed 8 v
  | Uint64 => Enc.in_unsigned 64 v
  | Uint32 => Enc.in_unsigned 32 v
  | Uint16 => Enc.in_unsigned 16 v
  | Uint8 => Enc.in_unsigned 8 v
  | Complex64 | Complex128 => false
  end.

(** The elements of a buffer of [n] elements, in order. *)
Definition all (dt : DType) (buf : buffer) (n : Z) : list float :=
  map (fun k => get dt buf (Z.of_nat k)) (seq 0 (Z.to_nat n)).

End Elem.

Lemma encode_float_length dt v bs :
  encode_float dt v = Some bs -> len bs = ItemSize dt.
Proof.
  unfold len. destruct dt; cbn; intros [= <-]; rewrite ?le_encode_length; reflexivity.
Qed.

Lemma encode_float_supported dt v :
  Elem.supported dt = true -> exists bs, encode_float dt v = Some bs.
Proof. destruct dt; cbn; intros; try discriminate; eauto. Qed.

Lemma ItemSize_pos dt : 0 < ItemSize dt.
Proof. destruct dt; cbn; lia. Qed.

Lemma conv_Float64 v : Elem.conv Float64 v = v.
Proof. unfold Elem.conv. cbn. apply Float64_round_trip. Qed.

Lemma nth_error_copy_at {A} off (dst src : list A) j :
  (off + length src <= length dst)%nat ->
  nth_error (copy_at off dst src) j
  = if (off <=? j)%nat && (j <? off + length src)%nat
    then nth_error src (j - off) else nth_error dst j.
Proof.
  intros H. unfold copy_at.
  rewrite (firstn_all2 (n := length dst - off) src) by lia.
  rewrite nth_error_app, length_firstn, Nat.min_l by lia.
  destruct (Nat.ltb_spec j off) as [L|L].
  - replace (off <=? j)%nat with false by (symmetry; apply Nat.leb_gt; lia).
    cbn [andb]. rewrite nth_error_firstn.
    replace (j <? off)%nat with true by (symmetry; apply Nat.ltb_lt; lia). reflexivity.
  - replace (off <=? j)%nat with true by (symmetry; apply Nat.leb_le; lia).
    cbn [andb]. rewrite nth_error_app.
    destruct (Nat.ltb_spec (j - off) (length src)) as [M|M].
    + replace (j <? off + length src)%nat with true
        by (symmetry; apply Nat.ltb_lt; lia). reflexivity.
    + replace (j <? off + length src)%nat with false
        by (symmetry; apply Nat.ltb_ge; lia).
      rewrite nth_error_skipn. f_equal. lia.
Qed.

Lemma copy_at_length {A} off (dst src : list A) :
  (off + length src <= length dst)%nat -> length (copy_at off dst src) = length dst.
Proof.
  intros H. unfold copy_at.
  rewrite !length_app, !length_firstn, length_skipn. lia.
Qed.

Lemma nth_error_slice {A} n x (l : list A) i :
  nth_error (firstn n (skipn x l)) i = if (i <? n)%nat then nth_error l (x + i) else None.
Proof. rewrite nth_error_firstn, nth_error_skipn. reflexivity. Qed.

Lemma chunk_put_same dt buf k v :
  Elem.supported dt = true -> 0 <= k ->
  (k + 1) * ItemSize dt <= len buf ->
  Elem.chunk (ItemSize dt) (Elem.put dt buf k v) k
  = match encode_float dt v with Some bs => bs | None => [] end.
Proof.
  intros S K B. unfold Elem.chunk, Elem.put.
  destruct (encode_float_supported dt v S) as [bs E]. rewrite E.
  pose proof (encode_float_length _ _ _ E) as L. pose proof (ItemSize_pos dt) as W.
  unfold len in *.
  apply nth_error_ext. intros i. rewrite nth_error_slice.
  rewrite nth_error_copy_at by nia.
  destruct (Nat.ltb_spec i (Z.to_nat (ItemSize dt))) as [I|I].
  - replace (Z.to_nat (k * ItemSize dt) <=? Z.to_nat (k * ItemSize dt) + i)%nat with true
      by (symmetry; apply Nat.leb_le; lia).
    replace (Z.to_nat (k * ItemSize dt) + i <? Z.to_nat (k * ItemSize dt) + length bs)%nat
      with true by (symmetry; apply Nat.ltb_lt; lia).
    cbn [andb]. f_equal. lia.
  - symmetry. apply nth_error_None. lia.
Qed.

Lemma chunk_put_other dt buf k k' v :
  0 <= k -> 0 <= k' -> k <> k' ->
  (k + 1) * ItemSize dt <= len buf ->
  Elem.chunk (ItemSize dt) (Elem.put dt buf k v) k' = Elem.chunk (ItemSize dt) buf k'.
Proof.
  intros K K' N B. unfold Elem.chunk, Elem.put.
  destruct (encode_float dt v) as [bs|] eqn:E; auto.
  pose proof (encode_float_length _ _ _ E) as L. pose proof (ItemSize_pos dt) as W.
  unfold len in *.
  apply nth_error_ext. intros i. rewrite !nth_error_slice.
  destruct (Nat.ltb_spec i (Z.to_nat (ItemSize dt))) as [I|I]; auto.
  rewrite nth_error_copy_at by nia.
  assert (X : ((Z.to_nat (k * ItemSize dt) <=? Z.to_nat (k' * ItemSize dt) + i)%nat
               && (Z.to_nat (k' * ItemSize dt) + i
                   <? Z.to_nat (k * ItemSize dt) + length bs)%nat) = false).
  { apply andb_false_iff.
    destruct (Z.lt_ge_cases k' k) as [C|C].
    - left. apply Nat.leb_gt. nia.
    - right. apply Nat.ltb_ge. nia. }
  now rewrite X.
Qed.

Lemma put_length dt buf k v :
  0 <= k -> (k + 1) * ItemSize dt <= len buf -> len (Elem.put dt buf k v) = len buf.
Proof.
  intros K B. unfold Elem.put.
  destruct (encode_float dt v) as [bs|] eqn:E; auto.
  pose proof (encode_float_length _ _ _ E) as L. pose proof (ItemSize_pos dt) as W.
  unfold len in *. rewrite copy_at_length; auto. nia.
Qed.

Lemma get_put_same dt buf k v :
  Elem.supported dt = true -> 0 <= k -> (k + 1) * ItemSize dt <= len buf ->
  Elem.get dt (Elem.put dt buf k v) k = Elem.conv dt v.
Proof.
  intros S K B. unfold Elem.get, Elem.conv. rewrite chunk_put_same by auto.
  destruct (encode_float_supported dt v S) as [bs E]. now rewrite E.
Qed.

Lemma get_put_other dt buf k k' v :
  0 <= k -> 0 <= k' -> k <> k' -> (k + 1) * ItemSize dt <= len buf ->
  Elem.get dt (Elem.put dt buf k v) k' = Elem.get dt buf k'.
Proof.
  intros. unfold Elem.get. now rewrite chunk_put_other.
Qed.

(** ** Reading and writing the elements of an array *)

Module View.

(** The array [a] is backed in [h] by the buffer [buf], with a
    C-contiguous layout of positive extents and a supported dtype. *)
Definition backs (h : heap) (a : NDArray) (buf : buffer) : Prop :=
  Elem.supported (dtype a) = true
  /\ ndim a = len (shape a)
  /\ size a = Layout.prodZ (shape a)
  /\ strides a = Layout.strides_of (shape a) (ItemSize (dtype a))
  /\ Layout.fits (shape a) (ItemSize (dtype a))
  /\ nth_error h (data a) = Some buf
  /\ len buf = ItemSize (dtype a) * Layout.prodZ (shape a).

End View.

Lemma in_bounds_elem buf w k :
  0 < w -> 0 <= k -> (k + 1) * w <= len buf -> len buf <= GoInt.max_int ->
  Store.in_bounds buf (w * k) w = true.
Proof.
  intros W K B M. unfold Store.in_bounds.
  rewrite add_small by nia.
  apply andb_true_iff. split; [apply andb_true_iff; split|]; apply Z.leb_le; nia.
Qed.

Lemma load_chunk (h : heap) l (buf : buffer) w k :
  nth_error h l = Some buf ->
  0 < w -> 0 <= k -> (k + 1) * w <= len buf -> len buf <= GoInt.max_int ->
  Store.load l (w * k) w h = Ok (Elem.chunk w buf k, h).
Proof.
  intros G W K B M. unfold Store.load, Store.get, bind. cbv beta. rewrite G.
  rewrite in_bounds_elem by auto. unfold ret, Elem.chunk.
  now rewrite (Z.mul_comm w k).
Qed.

Lemma store_chunk (h : heap) l (buf : buffer) w k bs :
  nth_error h l = Some buf -> len bs = w ->
  0 < w -> 0 <= k -> (k + 1) * w <= len buf -> len buf <= GoInt.max_int ->
  Store.store l (w * k) bs h = Ok (tt, set_nth l (copy_at (Z.to_nat (k * w)) buf bs) h).
Proof.
  intros G L W K B M. unfold Store.store. rewrite G, L.
  rewrite in_bounds_elem by auto. now rewrite (Z.mul_comm w k).
Qed.

Lemma GetFloat64_load a idx h off bs :
  Elem.supported (dtype a) = true ->
  flatIndex a idx = Ok off ->
  Store.load (data a) off (ItemSize (dtype a)) h = Ok (bs, h) ->
  GetFloat64 a idx h = Ok (Elem.dec (dtype a) bs, h).
Proof.
  intros S F L. unfold GetFloat64, bind at 1. rewrite F. cbn [lift ret].
  destruct (dtype a); try discriminate; cbn [ItemSize Elem.dec] in *;
    unfold bind; rewrite L; reflexivity.
Qed.

Lemma backs_bounds h a buf idx :
  View.backs h a buf -> Layout.in_shape (shape a) idx ->
  0 <= Layout.ravel (shape a) idx
  /\ (Layout.ravel (shape a) idx + 1) * ItemSize (dtype a) <= len buf
  /\ len buf <= GoInt.max_int.
Proof.
  intros (S & N & Z & T & F & G & L) I.
  pose proof (ravel_bounds _ _ I). pose proof (ItemSize_pos (dtype a)).
  destruct F as (_ & _ & B). rewrite L. split; [lia|]. split; [nia | lia].
Qed.

(** Reading an in-range element of a backed array. *)
Lemma GetFloat64_elem h a buf idx :
  View.backs h a buf -> Layout.in_shape (shape a) idx ->
  GetFloat64 a idx h = Ok (Elem.get (dtype a) buf (Layout.ravel (shape a) idx), h).
Proof.
  intros V I. destruct (backs_bounds h a buf idx V I) as (K & B & M).
  destruct V as (S & N & Z & T & F & G & L).
  apply (GetFloat64_load a idx h (ItemSize (dtype a) * Layout.ravel (shape a) idx)); auto.
  - now apply flatIndex_ravel.
  - apply load_chunk; auto. apply ItemSize_pos.
Qed.

(** Writing an in-range element of a backed array. *)
Lemma SetFloat64_elem h a buf idx v :
  View.backs h a buf -> Layout.in_shape (shape a) idx ->
  SetFloat64 a v idx h
  = Ok (tt, set_nth (data a)
              (Elem.put (dtype a) buf (Layout.ravel (shape a) idx) v) h).
Proof.
  intros V I. destruct (backs_bounds h a buf idx V I) as (K & B & M).
  destruct V as (S & N & Z & T & F & G & L).
  unfold SetFloat64, bind. rewrite (flatIndex_ravel a (ItemSize (dtype a))) by auto.
  cbn [lift ret]. unfold Elem.put.
  destruct (encode_float_supported (dtype a) v S) as [bs E]. rewrite E.
  apply store_chunk; auto.
  - eapply encode_float_length; eauto.
  - apply ItemSize_pos.
Qed.

Lemma backs_set h a buf buf' :
  View.backs h a buf -> len buf' = len buf ->
  View.backs (set_nth (data a) buf' h) a buf'.
Proof.
  intros (S & N & Z & T & F & G & L) E.
  repeat split; auto; try apply F; [|congruence].
  apply set_nth_nth_error_same. apply nth_error_Some. congruence.
Qed.

Lemma backs_other h a buf l buf' :
  View.backs h a buf -> l <> data a -> View.backs (set_nth l buf' h) a buf.
Proof.
  intros (S & N & Z & T & F & G & L) E.
  repeat split; auto; try apply F.
  rewrite set_nth_nth_error_other; auto.
Qed.

Lemma backs_grow h a buf x :
  View.backs h a buf -> View.backs (h ++ x) a buf.
Proof.
  intros (S & N & Z & T & F & G & L).
  repeat split; auto; try apply F.
  rewrite nth_error_app1; auto. apply nth_error_Some. congruence.
Qed.

(** ** Loops *)

(** A loop on a value without the store. *)
Fixpoint iter_range {T} (i : Z) (count : nat) (step : Z -> T -> result T) (t : T)
  : result T :=
  match count with
  | O => Ok t
  | S k =>
      match step i t with
      | Ok t' => iter_range (i + 1) k step t'
      | Err e => Err e
      end
  end.

(** A loop of the code follows the loop [step] on the value [t] that the
    relation [R] reads off the store: they fail together, with the same
    error, or they both run to the end. *)
Lemma for_range_sim {St T} (R : T -> St -> heap -> Prop)
      (step : Z -> T -> result T) (body : Z -> St -> M St) :
  forall count i t s h,
    R t s h ->
    (forall j t s h, i <= j < i + Z.of_nat count -> R t s h ->
       match step j t with
       | Ok t' => exists s' h', body j s h = Ok (s', h') /\ R t' s' h'
       | Err e => body j s h = Err e
       end) ->
    match iter_range i count step t with
    | Ok t' => exists s' h', for_range i count body s h = Ok (s', h') /\ R t' s' h'
    | Err e => for_range i count body s h = Err e
    end.
Proof.
  induction count as [|c IH]; intros i t s h HR Hstep.
  - cbn. exists s, h. auto.
  - cbn [iter_range for_range].
    pose proof (Hstep i t s h ltac:(lia) HR) as B.
    destruct (step i t) as [t'|e].
    + destruct B as (s' & h' & B & HR').
      unfold bind. rewrite B.
      apply IH; auto. intros j t0 s0 h0 Hj. apply Hstep. lia.
    + unfold bind. now rewrite B.
Qed.

(** The same for a loop that cannot fail: an invariant. *)
Lemma for_range_inv {St} (I : Z -> St -> heap -> Prop) (body : Z -> St -> M St) :
  forall count i s h,
    I i s h ->
    (forall j s h, i <= j < i + Z.of_nat count -> I j s h ->
       exists s' h', body j s h = Ok (s', h') /\ I (j + 1) s' h') ->
    exists s' h', for_range i count body s h = Ok (s', h') /\ I (i + Z.of_nat count) s' h'.
Proof.
  induction count as [|c IH]; intros i s h HI Hstep.
  - cbn. rewrite Z.add_0_r. exists s, h. auto.
  - cbn [for_range].
    destruct (Hstep i s h ltac:(lia) HI) as (s' & h' & B & HI').
    unfold bind. rewrite B.
    replace (i + Z.of_nat (S c)) with (i + 1 + Z.of_nat c) by lia.
    apply IH; auto. intros j s0 h0 Hj. apply Hstep. lia.
Qed.

Lemma for_upto_inv {St} (I : Z -> St -> heap -> Prop) (body : Z -> St -> M St) n s h :
  0 <= n ->
  I 0 s h ->
  (forall j s h, 0 <= j < n -> I j s h ->
     exists s' h', body j s h = Ok (s', h') /\ I (j + 1) s' h') ->
  exists s' h', for_upto n body s h = Ok (s', h') /\ I n s' h'.
Proof.
  intros N HI Hstep. unfold for_upto.
  destruct (for_range_inv I body (Z.to_nat n) 0 s h HI) as (s' & h' & E & HI').
  - intros j s0 h0 Hj. apply Hstep. lia.
  - exists s', h'. split; auto. now replace n with (0 + Z.of_nat (Z.to_nat n)) by lia.
Qed.

Lemma for_each_inv (I : Z -> heap -> Prop) (body : Z -> M unit) n h :
  0 <= n ->
  I 0 h ->
  (forall j h, 0 <= j < n -> I j h -> exists h', body j h = Ok (tt, h') /\ I (j + 1) h') ->
  exists h', for_each n body h = Ok (tt, h') /\ I n h'.
Proof.
  intros N HI Hstep. unfold for_each.
  destruct (for_upto_inv (fun j _ h => I j h) (fun i _ => body i) n tt h N HI)
    as ([] & h' & E & HI').
  - intros j [] h0 Hj HI0. destruct (Hstep j h0 Hj HI0) as (h' & B & HI').
    exists tt, h'. auto.
  - exists h'. auto.
Qed.

Lemma for_list_inv {A} (I : Z -> heap -> Prop) (body : Z -> A -> M unit) :
  forall (l : list A) i h,
    I i h ->
    (forall k v h, (k < length l)%nat -> nth_error l k = Some v -> I (i + Z.of_nat k) h ->
       exists h', body (i + Z.of_nat k) v h = Ok (tt, h') /\ I (i + Z.of_nat k + 1) h') ->
    exists h', for_list i l body h = Ok (tt, h') /\ I (i + len l) h'.
Proof.
  induction l as [|v t IH]; intros i h HI Hstep.
  - cbn. unfold len. simpl. rewrite Z.add_0_r. exists h. auto.
  - cbn [for_list].
    destruct (Hstep 0%nat v h ltac:(simpl; lia) eq_refl) as (h' & B & HI').
    { now rewrite Z.add_0_r. }
    rewrite Z.add_0_r in B, HI'. unfold bind. rewrite B.
    destruct (IH (i + 1) h' HI') as (h'' & E & HI'').
    + intros k v0 h0 Hk Hn HI0.
      replace (i + 1 + Z.of_nat k) with (i + Z.of_nat (S k)) in * by lia.
      apply (Hstep (S k) v0 h0); auto. simpl. lia.
    + exists h''. split; auto.
      unfold len in *. cbn [length].
      now replace (i + Z.of_nat (S (length t))) with (i + 1 + Z.of_nat (length t)) by lia.
Qed.

(** ** Fresh arrays *)

Lemma chunk_zeros w n k :
  0 < w -> 0 <= k -> (k + 1) * w <= n ->
  Elem.chunk w (repeat x00 (Z.to_nat n)) k = repeat x00 (Z.to_nat w).
Proof.
  intros W K B. unfold Elem.chunk. apply nth_error_ext. intros i.
  rewrite nth_error_slice.
  destruct (Nat.ltb_spec i (Z.to_nat w)) as [I|I].
  - rewrite !nth_error_repeat by nia. reflexivity.
  - symmetry. apply nth_error_None. rewrite repeat_length. lia.
Qed.

Lemma get_zeros dt n k :
  Elem.supported dt = true -> 0 <= k -> (k + 1) * ItemSize dt <= n ->
  Elem.get dt (repeat x00 (Z.to_nat n)) k = 0%float.
Proof.
  intros S K B. unfold Elem.get. rewrite chunk_zeros; auto using ItemSize_pos.
  destruct dt; try discriminate; vm_compute; reflexivity.
Qed.

Lemma set_nth_last {A} (h : list A) x y : set_nth (length h) y (h ++ [x]) = h ++ [y].
Proof. induction h as [|a t IH]; simpl; [reflexivity | now rewrite IH]. Qed.

Lemma nth_error_last {A} (h : list A) x : nth_error (h ++ [x]) (length h) = Some x.
Proof. rewrite nth_error_app2, Nat.sub_diag by lia. reflexivity. Qed.

Lemma Zeros_backs shp dt h :
  shp <> [] -> Elem.supported dt = true -> Layout.fits shp (ItemSize dt) ->
  let buf := repeat x00 (Z.to_nat (ItemSize dt * Layout.prodZ shp)) in
  let r := mkNDArray (length h) shp (Layout.strides_of shp (ItemSize dt)) dt
             (Layout.prodZ shp) (len shp) in
  Zeros shp dt h = Ok (r, h ++ [buf]) /\ View.backs (h ++ [buf]) r buf.
Proof.
  intros N S F buf r. pose proof F as (Fp & W & B).
  pose proof (prodZ_pos shp Fp) as P.
  rewrite Zeros_run, (computeSize_fits shp (ItemSize dt)), computeStrides_fits by auto.
  rewrite mul_small by nia.
  replace (Layout.prodZ shp * ItemSize dt <? 0) with false by nia.
  rewrite (Z.mul_comm (Layout.prodZ shp)). split; [reflexivity|].
  unfold View.backs, r. cbn [dtype ndim size strides shape data].
  repeat split; auto.
  - apply nth_error_last.
  - unfold buf, len. rewrite repeat_length. nia.
Qed.

Lemma FromSliceFloat64_backs xs shp h :
  shp <> [] -> Layout.fits shp 8 -> len xs = Layout.prodZ shp ->
  exists buf,
    let r := mkNDArray (length h) shp (Layout.strides_of shp 8) Float64
               (Layout.prodZ shp) (len shp) in
    FromSliceFloat64 xs shp h = Ok (r, h ++ [buf])
    /\ View.backs (h ++ [buf]) r buf
    /\ forall k, 0 <= k < len xs -> Elem.get Float64 buf k = nth (Z.to_nat k) xs 0%float.
Proof.
  intros N F L. pose proof F as (Fp & W & B).
  pose proof (prodZ_pos shp Fp) as P.
  unfold FromSliceFloat64.
  rewrite (computeSize_fits shp 8), computeStrides_fits by auto.
  rewrite L, Z.eqb_refl. cbn [negb ItemSize].
  rewrite mul_small by nia.
  unfold bind at 1. unfold Store.make.
  replace (Layout.prodZ shp * 8 <? 0) with false by nia.
  set (z := repeat x00 (Z.to_nat (Layout.prodZ shp * 8))).
  destruct (for_list_inv
              (fun i h' => exists buf, h' = h ++ [buf] /\ len buf = 8 * Layout.prodZ shp
                 /\ forall k, 0 <= k < i ->
                      Elem.get Float64 buf k = nth (Z.to_nat k) xs 0%float)
              (fun i val => Store.store (length h) (GoInt.mul i 8)
                              (Enc.le_encode 8 (Enc.Float64bits val)))
              xs 0 (h ++ [z])) as (h' & E & buf & -> & LB & G).
  - exists z. split; [reflexivity|]. split; [|intros k Hk; lia].
    unfold z, len. rewrite repeat_length. lia.
  - intros k v h0 Hk Hv (buf & -> & LB & G). rewrite Z.add_0_l.
    assert (K : Z.of_nat k < Layout.prodZ shp) by (unfold len in L; lia).
    rewrite mul_small by nia. rewrite (Z.mul_comm (Z.of_nat k) 8).
    assert (ST : Store.store (length h) (8 * Z.of_nat k)
                   (Enc.le_encode 8 (Enc.Float64bits v)) (h ++ [buf])
                 = Ok (tt, set_nth (length h)
                             (copy_at (Z.to_nat (Z.of_nat k * 8)) buf
                                (Enc.le_encode 8 (Enc.Float64bits v))) (h ++ [buf]))).
    { apply store_chunk; try lia.
      - apply nth_error_last.
      - unfold len. now rewrite le_encode_length. }
    rewrite ST, set_nth_last. eexists. split; [reflexivity|].
    exists (Elem.put Float64 buf (Z.of_nat k) v).
    split; [reflexivity|]. split.
    + rewrite put_length; auto; cbn [ItemSize]; nia.
    + intros j Hj. destruct (Z.eq_dec j (Z.of_nat k)) as [->|D].
      * rewrite get_put_same by (auto; cbn [ItemSize]; nia).
        rewrite conv_Float64, Nat2Z.id. symmetry. now apply nth_error_nth.
      * rewrite get_put_other by (auto; cbn [ItemSize]; nia). apply G. lia.
  - rewrite Z.add_0_l in G. exists buf. cbv zeta.
    unfold bind. rewrite E. unfold ret. split; [reflexivity|]. split; auto.
    unfold View.backs. cbn [dtype ndim size strides shape data ItemSize].
    repeat split; auto; try apply nth_error_last.
    intros k Hk. apply G. now rewrite L.
Qed.


(** ** Matrices *)

Module Mat.

(** Entry [(i, j)] of a buffer read as a matrix with [m] columns. *)
Definition entry (dt : DType) (buf : buffer) (m : Z) (i j : Z) : float :=
  Elem.get dt buf (i * m + j).

(** The [n] rows of [m] entries of a buffer. *)
Definition rows (dt : DType) (buf : buffer) (n m : Z) : list (list float) :=
  map (fun i => map (fun j => entry dt buf m (Z.of_nat i) (Z.of_nat j))
                    (seq 0 (Z.to_nat m)))
      (seq 0 (Z.to_nat n)).

(** Entry [(i, j)] of a matrix given by its rows. *)
Definition at_ (A : list (list float)) (i j : nat) : float :=
  nth j (nth i A []) 0%float.

End Mat.

Lemma nth_error_tabulate {A} (f : nat -> A) n i :
  (i < n)%nat -> nth_error (map f (seq 0 n)) i = Some (f i).
Proof.
  intros H. rewrite nth_error_map, nth_error_seq.
  destruct (Nat.ltb_spec i n); [reflexivity | lia].
Qed.

Lemma nth_tabulate {A} (f : nat -> A) n i d :
  (i < n)%nat -> nth i (map f (seq 0 n)) d = f i.
Proof. intros H. apply nth_error_nth. now apply nth_error_tabulate. Qed.

Lemma rows_at dt buf n m i j :
  (i < Z.to_nat n)%nat -> (j < Z.to_nat m)%nat ->
  Mat.at_ (Mat.rows dt buf n m) i j = Mat.entry dt buf m (Z.of_nat i) (Z.of_nat j).
Proof.
  intros Hi Hj. unfold Mat.at_, Mat.rows.
  rewrite nth_tabulate by auto. now rewrite nth_tabulate by auto.
Qed.

Lemma in_shape_2 n m i j :
  0 <= i < n -> 0 <= j < m -> Layout.in_shape [n; m] [i; j].
Proof. intros. repeat constructor; lia. Qed.

Lemma ravel_2 n m i j : Layout.ravel [n; m] [i; j] = i * m + j.
Proof.
  cbn [Layout.ravel]. change (Layout.prodZ [m]) with (m * 1).
  change (Layout.prodZ []) with 1. lia.
Qed.

(** Reading an entry of a backed matrix. *)
Lemma GetFloat64_entry h a buf n m i j :
  View.backs h a buf -> shape a = [n; m] -> 0 <= i < n -> 0 <= j < m ->
  GetFloat64 a [i; j] h = Ok (Mat.entry (dtype a) buf m i j, h).
Proof.
  intros V S Hi Hj.
  rewrite (GetFloat64_elem h a buf) by (auto; rewrite S; now apply in_shape_2).
  rewrite S, ravel_2. reflexivity.
Qed.

Lemma backs_extends h h' a buf :
  View.backs h a buf -> Frame.extends h h' -> View.backs h' a buf.
Proof.
  intros (S & N & Z & T & F & G & L) E.
  repeat split; auto; try apply F.
  unfold Frame.extends in E.
  assert (D : (data a < length h)%nat) by (apply nth_error_Some; congruence).
  rewrite <- G. rewrite <- E at 1. rewrite nth_error_firstn.
  destruct (Nat.ltb_spec (data a) (length h)); [reflexivity | lia].
Qed.

(** ** C5: the determinant *)

Module DetSpec.

(** The list without its element at position [k]. *)
Definition delete {X} (k : nat) (l : list X) : list X :=
  firstn k l ++ skipn (S k) l.

(** The minor: row [row] and column [col] removed. *)
Definition minor (A : list (list float)) (row col : nat) : list (list float) :=
  map (delete col) (delete row A).

(** The determinant of the specification, for a matrix of size [n]:
    closed forms for sizes 1 and 2 and the cofactor expansion along row
    0 from size 3 on, the sign alternating with the parity of the
    column. *)
Fixpoint det (n : nat) (A : list (list float)) : float :=
  match n with
  | 0%nat => 0
  | 1%nat => Mat.at_ A 0 0
  | 2%nat => Mat.at_ A 0 0 * Mat.at_ A 1 1 - Mat.at_ A 0 1 * Mat.at_ A 1 0
  | S n' =>
      fold_left
        (fun acc j =>
           let cofactor := Mat.at_ A 0 j * det n' (minor A 0 j) in
           if Nat.even j then acc + cofactor else acc - cofactor)
        (seq 0 n) 0
  end%float.

End DetSpec.

Lemma delete_length {X} k (l : list X) :
  (k < length l)%nat -> length (DetSpec.delete k l) = (length l - 1)%nat.
Proof.
  intros H. unfold DetSpec.delete.
  rewrite length_app, length_firstn, length_skipn. lia.
Qed.

Lemma delete_map {X Y} (f : X -> Y) k l :
  DetSpec.delete k (map f l) = map f (DetSpec.delete k l).
Proof.
  unfold DetSpec.delete. now rewrite map_app, firstn_map, skipn_map.
Qed.

Lemma flat_map_skip {X} (f : nat -> X) c l :
  ~ In c l ->
  flat_map (fun j => if Z.of_nat j =? Z.of_nat c then [] else [f j]) l = map f l.
Proof.
  induction l as [|x t IH]; intros N; simpl; auto.
  replace (Z.of_nat x =? Z.of_nat c) with false
    by (symmetry; apply Z.eqb_neq; intros E; apply N; left; lia).
  simpl. f_equal. apply IH. intros I. apply N. now right.
Qed.

Lemma seq_split3 n c :
  (c < n)%nat -> seq 0 n = seq 0 c ++ [c] ++ seq (S c) (n - S c).
Proof.
  intros H. replace n with (c + (1 + (n - S c)))%nat at 1 by lia.
  rewrite seq_app. reflexivity.
Qed.

Lemma delete_seq n c :
  (c < n)%nat -> DetSpec.delete c (seq 0 n) = seq 0 c ++ seq (S c) (n - S c).
Proof.
  intros H. unfold DetSpec.delete. rewrite (seq_split3 n c) at 1 2 by auto.
  rewrite firstn_app, length_seq, Nat.sub_diag, firstn_O, app_nil_r.
  rewrite firstn_all2 by (rewrite length_seq; lia).
  rewrite skipn_app, length_seq.
  rewrite skipn_all2 by (rewrite length_seq; lia).
  replace (S c - c)%nat with 1%nat by lia. reflexivity.
Qed.

Lemma flat_map_delete {X} (f : nat -> X) n c :
  (c < n)%nat ->
  flat_map (fun j => if Z.of_nat j =? Z.of_nat c then [] else [f j]) (seq 0 n)
  = map f (DetSpec.delete c (seq 0 n)).
Proof.
  intros H. rewrite delete_seq by auto. rewrite (seq_split3 n c) by auto.
  rewrite !flat_map_app, map_app. cbn [flat_map].
  rewrite Z.eqb_refl. cbn [app].
  rewrite !flat_map_skip; auto; rewrite in_seq; lia.
Qed.

Lemma flat_map_rows_delete {X} (g : nat -> list X) n r :
  (r < n)%nat ->
  flat_map (fun i => if Z.of_nat i =? Z.of_nat r then [] else g i) (seq 0 n)
  = concat (map g (DetSpec.delete r (seq 0 n))).
Proof.
  intros H. rewrite delete_seq by auto. rewrite (seq_split3 n r) by auto.
  rewrite !flat_map_app, map_app, concat_app. cbn [flat_map].
  rewrite Z.eqb_refl. cbn [app].
  assert (S1 : forall l, ~ In r l ->
            flat_map (fun i => if Z.of_nat i =? Z.of_nat r then [] else g i) l
            = concat (map g l)).
  { induction l as [|x t IH]; intros N; simpl; auto.
    replace (Z.of_nat x =? Z.of_nat r) with false
      by (symmetry; apply Z.eqb_neq; intros E; apply N; left; lia).
    f_equal. apply IH. intros I. apply N. now right. }
  rewrite !S1; auto; rewrite in_seq; lia.
Qed.

Lemma nth_concat_uniform {X} (m : nat) (d : X) : forall (A : list (list X)) i j,
  Forall (fun row => length row = m) A -> (i < length A)%nat -> (j < m)%nat ->
  nth (i * m + j) (concat A) d = nth j (nth i A []) d.
Proof.
  induction A as [|row t IH]; intros i j F Hi Hj; simpl in Hi; [lia|].
  pose proof (Forall_inv F) as L. cbv beta in L.
  cbn [concat]. destruct i as [|i].
  - cbn [Nat.mul Nat.add nth]. rewrite app_nth1 by lia. reflexivity.
  - rewrite app_nth2 by (rewrite L; nia).
    replace (S i * m + j - length row)%nat with (i * m + j)%nat by (rewrite L; nia).
    cbn [nth]. apply IH; auto; [exact (Forall_inv_tail F) | lia].
Qed.

Lemma concat_uniform_length {X} (m : nat) (A : list (list X)) :
  Forall (fun row => length row = m) A -> length (concat A) = (length A * m)%nat.
Proof.
  induction A as [|row t IH]; intros F; [reflexivity|].
  cbn [concat length]. rewrite length_app, IH by exact (Forall_inv_tail F).
  pose proof (Forall_inv F) as L. cbv beta in L. lia.
Qed.

Lemma seq_snoc_to_nat j :
  0 <= j -> seq 0 (Z.to_nat (j + 1)) = seq 0 (Z.to_nat j) ++ [Z.to_nat j].
Proof.
  intros H. replace (Z.to_nat (j + 1)) with (S (Z.to_nat j)) by lia.
  rewrite seq_S. reflexivity.
Qed.

Lemma getMinor_data h a buf n r c :
  View.backs h a buf -> shape a = [n; n] ->
  let entry i j := Mat.entry (dtype a) buf n (Z.of_nat i) (Z.of_nat j) in
  let colf i j := if Z.of_nat j =? Z.of_nat c then [] else [entry i j] in
  let rowf i := if Z.of_nat i =? Z.of_nat r then []
                else flat_map (colf i) (seq 0 (Z.to_nat n)) in
  for_upto n (fun i data =>
     if i =? Z.of_nat r then ret data
     else for_upto n (fun j data =>
            if j =? Z.of_nat c then ret data
            else v <- GetFloat64 a [i; j] ;; ret (data ++ [v])) data) [] h
  = Ok (flat_map rowf (seq 0 (Z.to_nat n)), h).
Proof.
  intros V S entry colf rowf.
  assert (N : 0 < n).
  { destruct V as (_ & _ & _ & _ & (F & _) & _). rewrite S in F.
    pose proof (Forall_inv F) as X. exact X. }
  match goal with |- for_upto n ?body [] h = _ =>
    destruct (for_upto_inv
      (fun i data h' => h' = h /\ data = flat_map rowf (seq 0 (Z.to_nat i)))
      body n [] h) as (data & h' & E & -> & ->)
  end; try lia; auto.
  intros i data h0 Hi [-> ->].
  rewrite seq_snoc_to_nat, flat_map_app by lia. cbn [flat_map]. rewrite app_nil_r.
  change (rowf (Z.to_nat i))
    with (if Z.of_nat (Z.to_nat i) =? Z.of_nat r then []
          else flat_map (colf (Z.to_nat i)) (seq 0 (Z.to_nat n))).
  rewrite Z2Nat.id by lia.
  destruct (i =? Z.of_nat r) eqn:Er.
  - exists (flat_map rowf (seq 0 (Z.to_nat i))), h. rewrite app_nil_r. auto.
  - match goal with |- exists s' h', for_upto n ?body ?d h = _ /\ _ =>
      destruct (for_upto_inv
        (fun j data h' => h' = h
           /\ data = d ++ flat_map (colf (Z.to_nat i)) (seq 0 (Z.to_nat j)))
        body n d h) as (data & h' & E & -> & ->)
    end; try lia.
    + split; auto. now rewrite app_nil_r.
    + intros j data h0 Hj [-> ->].
      rewrite seq_snoc_to_nat, flat_map_app by lia. cbn [flat_map]. rewrite app_nil_r.
      change (colf (Z.to_nat i) (Z.to_nat j))
        with (if Z.of_nat (Z.to_nat j) =? Z.of_nat c then []
              else [entry (Z.to_nat i) (Z.to_nat j)]).
      rewrite Z2Nat.id by lia.
      destruct (j =? Z.of_nat c) eqn:Ec.
      * eexists. exists h. split; [reflexivity|]. rewrite app_nil_r. auto.
      * unfold bind. rewrite (GetFloat64_entry h a buf n n) by (auto; lia).
        eexists. exists h. split; [reflexivity|]. split; auto.
        rewrite <- app_assoc. unfold entry. now rewrite !Z2Nat.id by lia.
    + exists (flat_map rowf (seq 0 (Z.to_nat i))
              ++ flat_map (colf (Z.to_nat i)) (seq 0 (Z.to_nat n))), h. auto.
Qed.

Lemma rows_length dt buf n m : length (Mat.rows dt buf n m) = Z.to_nat n.
Proof. unfold Mat.rows. now rewrite length_map, length_seq. Qed.

Lemma rows_uniform dt buf n m :
  Forall (fun row => length row = Z.to_nat m) (Mat.rows dt buf n m).
Proof.
  unfold Mat.rows. apply Forall_forall. intros row H.
  apply in_map_iff in H. destruct H as (i & <- & _).
  now rewrite length_map, length_seq.
Qed.

(** A matrix is determined by its dimensions and its entries. *)
Lemma rows_ext dt buf n m (A : list (list float)) :
  length A = Z.to_nat n ->
  Forall (fun row => length row = Z.to_nat m) A ->
  (forall i j, (i < Z.to_nat n)%nat -> (j < Z.to_nat m)%nat ->
     Mat.entry dt buf m (Z.of_nat i) (Z.of_nat j) = Mat.at_ A i j) ->
  Mat.rows dt buf n m = A.
Proof.
  intros LA FA E.
  apply (nth_ext _ _ [] []); [now rewrite rows_length|].
  intros i Hi. rewrite rows_length in Hi.
  assert (LR : length (nth i A []) = Z.to_nat m).
  { rewrite Forall_forall in FA. apply FA, nth_In. lia. }
  unfold Mat.rows. rewrite nth_tabulate by auto.
  apply (nth_ext _ _ 0%float 0%float); [now rewrite length_map, length_seq|].
  intros j Hj. rewrite length_map, length_seq in Hj.
  rewrite nth_tabulate by auto. now apply E.
Qed.

Lemma getMinor_spec h a buf n r c :
  View.backs h a buf -> shape a = [n; n] ->
  2 <= n -> 8 * (n * n) <= GoInt.max_int ->
  (r < Z.to_nat n)%nat -> (c < Z.to_nat n)%nat ->
  exists m buf',
    Linalg.getMinor a (Z.of_nat r) (Z.of_nat c) h = Ok (m, h ++ [buf'])
    /\ View.backs (h ++ [buf']) m buf'
    /\ shape m = [n - 1; n - 1] /\ dtype m = Float64
    /\ Mat.rows Float64 buf' (n - 1) (n - 1)
       = DetSpec.minor (Mat.rows (dtype a) buf n n) r c.
Proof.
  intros V S N Big R C.
  set (A := Mat.rows (dtype a) buf n n).
  set (entry i j := Mat.entry (dtype a) buf n (Z.of_nat i) (Z.of_nat j)).
  assert (MA : DetSpec.minor A r c
               = map (fun i => map (entry i) (DetSpec.delete c (seq 0 (Z.to_nat n))))
                     (DetSpec.delete r (seq 0 (Z.to_nat n)))).
  { unfold DetSpec.minor, A, Mat.rows. rewrite delete_map, map_map.
    apply map_ext. intros i. now rewrite delete_map. }
  assert (LM : length (DetSpec.minor A r c) = Z.to_nat (n - 1)).
  { rewrite MA, length_map, delete_length by (rewrite length_seq; lia).
    rewrite length_seq. lia. }
  assert (UM : Forall (fun row => length row = Z.to_nat (n - 1)) (DetSpec.minor A r c)).
  { rewrite MA. apply Forall_forall. intros row H.
    apply in_map_iff in H. destruct H as (i & <- & _).
    rewrite length_map, delete_length by (rewrite length_seq; lia).
    rewrite length_seq. lia. }
  assert (tail_fits : Layout.fits [n - 1; n - 1] 8).
  { split; [|split]; [repeat constructor; lia | lia |].
    change (Layout.prodZ [n - 1; n - 1]) with ((n - 1) * ((n - 1) * 1)). nia. }
  unfold Linalg.getMinor. rewrite S. cbn [nth].
  pose proof (getMinor_data h a buf n r c V S) as D. cbv zeta in D.
  rewrite (bind_ok_intro _ _ _ _ _ D). clear D.
  match goal with |- context [FromSliceFloat64 ?d _] =>
    replace d with (concat (DetSpec.minor A r c))
  end.
  2:{ rewrite MA, flat_map_rows_delete by auto. f_equal.
      apply map_ext. intros i. symmetry. apply (flat_map_delete (entry i)). auto. }
  replace (GoInt.sub n 1) with (n - 1)
    by (symmetry; apply wrap_small;
        destruct V as (_ & _ & _ & _ & F & _); rewrite S in F;
        pose proof (fits_extent_range _ _ F) as X; pose proof (Forall_inv X) as Y;
        cbv beta in Y; unfold GoInt.in_range, GoInt.min_int, GoInt.max_int in *; lia).
  destruct (FromSliceFloat64_backs (concat (DetSpec.minor A r c)) [n - 1; n - 1] h)
    as (buf' & E & B & G); auto; try discriminate.
  { unfold len. rewrite (concat_uniform_length (Z.to_nat (n - 1))), LM by auto.
    change (Layout.prodZ [n - 1; n - 1]) with ((n - 1) * ((n - 1) * 1)). nia. }
  cbv zeta in E, B. rewrite E. eexists. exists buf'.
  split; [reflexivity|]. split; [exact B|]. split; [reflexivity|]. split; [reflexivity|].
  apply rows_ext; auto.
  intros i j Hi Hj. unfold Mat.entry. rewrite G.
  - replace (Z.to_nat (Z.of_nat i * (n - 1) + Z.of_nat j))
      with (i * Z.to_nat (n - 1) + j)%nat by nia.
    unfold Mat.at_. apply nth_concat_uniform; auto. lia.
  - unfold len. rewrite (concat_uniform_length (Z.to_nat (n - 1))), LM by auto. nia.
Qed.

Lemma extends_refl h : Frame.extends h h.
Proof. unfold Frame.extends. apply firstn_all. Qed.

Lemma extends_app h x : Frame.extends h (h ++ x).
Proof.
  unfold Frame.extends. rewrite firstn_app, Nat.sub_diag, firstn_O, app_nil_r.
  apply firstn_all.
Qed.

Lemma extends_length h h' : Frame.extends h h' -> (length h <= length h')%nat.
Proof.
  unfold Frame.extends. intros E. rewrite <- E at 1. rewrite length_firstn. lia.
Qed.

Lemma extends_trans h1 h2 h3 :
  Frame.extends h1 h2 -> Frame.extends h2 h3 -> Frame.extends h1 h3.
Proof.
  intros E1 E2. pose proof (extends_length _ _ E1) as L.
  unfold Frame.extends in *.
  transitivity (firstn (length h1) (firstn (length h2) h3)).
  - rewrite firstn_firstn, Nat.min_l by lia. reflexivity.
  - rewrite E2. exact E1.
Qed.

Lemma even_of_nat k : Z.even (Z.of_nat k) = Nat.even k.
Proof.
  enough (H : Z.even (Z.of_nat k) = Nat.even k
              /\ Z.even (Z.of_nat (S k)) = Nat.even (S k)) by apply H.
  induction k as [|k [IH1 IH2]]; [split; reflexivity|].
  split; [exact IH2|].
  replace (Z.of_nat (S (S k))) with (Z.of_nat k + 2) by lia.
  rewrite Z.even_add, IH1. cbn [Nat.even]. now destruct (Nat.even k).
Qed.

Lemma even_rem j : 0 <= j -> (Z.rem j 2 =? 0) = Nat.even (Z.to_nat j).
Proof.
  intros H. rewrite Z.rem_mod_nonneg by lia.
  rewrite <- Zeven_mod, <- even_of_nat, Z2Nat.id by lia. reflexivity.
Qed.

Lemma Det_rec_spec : forall (k : nat) fuel a h buf,
  (1 <= k)%nat -> (k <= fuel)%nat ->
  View.backs h a buf -> shape a = [Z.of_nat k; Z.of_nat k] ->
  8 * (Z.of_nat k * Z.of_nat k) <= GoInt.max_int ->
  exists h', Linalg.Det_rec fuel a h
             = Ok (DetSpec.det k (Mat.rows (dtype a) buf (Z.of_nat k) (Z.of_nat k)), h')
             /\ Frame.extends h h'.
Proof.
  induction k as [|k0 IH]; intros fuel a h buf K1 KF V SH Big; [lia|].
  destruct fuel as [|fuel']; [lia|].
  set (n := Z.of_nat (S k0)) in *.
  set (A := Mat.rows (dtype a) buf n n).
  assert (ND : ndim a = 2).
  { destruct V as (_ & N & _). rewrite N, SH. reflexivity. }
  assert (AT : forall i j, 0 <= i < n -> 0 <= j < n ->
            Mat.entry (dtype a) buf n i j = Mat.at_ A (Z.to_nat i) (Z.to_nat j)).
  { intros i j Hi Hj. unfold A. rewrite rows_at by lia. now rewrite !Z2Nat.id by lia. }
  cbn [Linalg.Det_rec]. rewrite ND, SH. cbn [nth negb Z.eqb Pos.eqb]. rewrite Z.eqb_refl.
  cbn [negb].
  destruct k0 as [|[|k1]].
  - (* size 1 *)
    change (n =? 1) with true. cbv iota.
    rewrite (GetFloat64_entry h a buf n n) by (auto; unfold n; lia).
    exists h. split; [|apply extends_refl].
    rewrite AT by (unfold n; lia). reflexivity.
  - (* size 2 *)
    change (n =? 1) with false. change (n =? 2) with true. cbv iota.
    unfold bind.
    rewrite !(GetFloat64_entry h a buf n n) by (auto; unfold n; lia).
    exists h. split; [|apply extends_refl].
    rewrite !AT by (unfold n; lia). reflexivity.
  - (* cofactor expansion *)
    rewrite (proj2 (Z.eqb_neq n 1)) by (unfold n; lia).
    rewrite (proj2 (Z.eqb_neq n 2)) by (unfold n; lia).
    set (m := S (S k1)) in *.
    set (f := fun (acc : float) (j : nat) =>
                let cofactor := (Mat.at_ A 0 j * DetSpec.det m (DetSpec.minor A 0 j))%float in
                if Nat.even j then (acc + cofactor)%float else (acc - cofactor)%float).
    change (DetSpec.det (S m) A) with (fold_left f (seq 0 (S m)) 0%float).
    match goal with |- exists h', for_upto n ?body _ h = _ /\ _ =>
      destruct (for_upto_inv
        (fun j det h' => Frame.extends h h'
                         /\ det = fold_left f (seq 0 (Z.to_nat j)) 0%float)
        body n 0%float h) as (det & h' & E & X & ->)
    end; try (unfold n; lia).
    + split; [apply extends_refl | reflexivity].
    + intros j det h0 Hj [X ->].
      pose proof (backs_extends _ _ _ _ V X) as V0.
      destruct (getMinor_spec h0 a buf n 0 (Z.to_nat j) V0 SH)
        as (mn & buf' & GM & VM & SM & DM & RM); try (unfold n; lia); auto.
      rewrite Z2Nat.id in GM by lia.
      change (Z.of_nat 0) with 0 in GM.
      rewrite (bind_ok_intro _ _ _ _ _ GM).
      rewrite (bind_ok_intro _ _ _ (Mat.entry (dtype a) buf n 0 j) (h0 ++ [buf']))
        by (apply (GetFloat64_entry _ a buf n n); auto using backs_grow; unfold n; lia).
      replace (n - 1) with (Z.of_nat m) in SM, RM by (unfold n, m; lia).
      destruct (IH fuel' mn (h0 ++ [buf']) buf') as (h2 & DR & X2);
        auto; try (unfold m; lia); try (unfold n, m in *; lia).
      rewrite (bind_ok_intro _ _ _ _ _ DR).
      exists (f (fold_left f (seq 0 (Z.to_nat j)) 0%float) (Z.to_nat j)), h2.
      split; [|split].
      * rewrite even_rem by lia.
        rewrite DM, RM, AT by lia. change (Z.to_nat 0) with 0%nat. fold A.
        unfold f, ret.
        destruct (Nat.even (Z.to_nat j)); reflexivity.
      * eapply extends_trans; [exact X|]. eapply extends_trans; [apply extends_app|exact X2].
      * rewrite seq_snoc_to_nat by lia. rewrite fold_left_app. reflexivity.
    + exists h'. split; auto. rewrite E. do 2 f_equal.
      unfold n. now rewrite Nat2Z.id.
Qed.

Lemma det_size_1 A : DetSpec.det 1 A = Mat.at_ A 0 0.
Proof. reflexivity. Qed.

Lemma det_size_2 A :
  DetSpec.det 2 A
  = (Mat.at_ A 0 0 * Mat.at_ A 1 1 - Mat.at_ A 0 1 * Mat.at_ A 1 0)%float.
Proof. reflexivity. Qed.

Lemma det_expansion n A :
  (3 <= n)%nat ->
  DetSpec.det n A
  = fold_left
      (fun acc j =>
         let cofactor := (Mat.at_ A 0 j * DetSpec.det (n - 1) (DetSpec.minor A 0 j))%float in
         if Nat.even j then (acc + cofactor)%float else (acc - cofactor)%float)
      (seq 0 n) 0%float.
Proof.
  intros H. destruct n as [|[|[|k]]]; try lia.
  replace (S (S (S k)) - 1)%nat with (S (S k)) by lia. reflexivity.
Qed.

Lemma Det_example :
  exists m h1 h2,
    FromSliceFloat64 [1; 2; 3; 0; 1; 4; 5; 6; 0]%float [3; 3] [] = Ok (m, h1)
    /\ Linalg.Det m h1 = Ok (1%float, h2).
Proof.
  eexists _, _, _. split; [vm_compute; reflexivity|].
  vm_compute. reflexivity.
Qed.

(** C5.  For a square matrix [a] of size [n >= 1] backed by a buffer of
    the store, with [A] the rows that [GetFloat64] reads from it, [Det]
    returns [DetSpec.det n A] and changes no existing buffer; that value
    is [A[0,0]] for [n = 1], [A[0,0]*A[1,1] - A[0,1]*A[1,0]] for
    [n = 2], and for [n >= 3] the sum over the columns [j] of row 0,
    taken from left to right, of [A[0,j]] times the determinant of the
    minor without row 0 and column [j], added for even [j] and
    subtracted for odd [j].  [Det] of [[1,2,3],[0,1,4],[5,6,0]] is 1. *)
Theorem Det_cofactor_expansion (a : NDArray) (h : heap) (buf : buffer) (n : nat) :
  View.backs h a buf ->
  shape a = [Z.of_nat n; Z.of_nat n] ->
  (1 <= n)%nat ->
  8 * (Z.of_nat n * Z.of_nat n) <= GoInt.max_int ->
  let A := Mat.rows (dtype a) buf (Z.of_nat n) (Z.of_nat n) in
  (forall i j, (i < n)%nat -> (j < n)%nat ->
     GetFloat64 a [Z.of_nat i; Z.of_nat j] h = Ok (Mat.at_ A i j, h))
  /\ (exists h', Linalg.Det a h = Ok (DetSpec.det n A, h') /\ Frame.extends h h')
  /\ (n = 1%nat -> DetSpec.det n A = Mat.at_ A 0 0)
  /\ (n = 2%nat ->
      DetSpec.det n A
      = (Mat.at_ A 0 0 * Mat.at_ A 1 1 - Mat.at_ A 0 1 * Mat.at_ A 1 0)%float)
  /\ ((3 <= n)%nat ->
      DetSpec.det n A
      = fold_left
          (fun acc j =>
             let cofactor :=
               (Mat.at_ A 0 j * DetSpec.det (n - 1) (DetSpec.minor A 0 j))%float in
             if Nat.even j then (acc + cofactor)%float else (acc - cofactor)%float)
          (seq 0 n) 0%float)
  /\ (exists m h1 h2,
        FromSliceFloat64 [1; 2; 3; 0; 1; 4; 5; 6; 0]%float [3; 3] [] = Ok (m, h1)
        /\ Linalg.Det m h1 = Ok (1%float, h2)).
Proof.
  intros V SH N Big A.
  split; [|split; [|split; [|split; [|split]]]].
  - intros i j Hi Hj.
    rewrite (GetFloat64_entry h a buf (Z.of_nat n) (Z.of_nat n)) by (auto; lia).
    unfold A. now rewrite rows_at by lia.
  - unfold Linalg.Det. rewrite SH. cbn [nth]. rewrite Nat2Z.id.
    apply Det_rec_spec; auto.
  - intros ->. apply det_size_1.
  - intros ->. apply det_size_2.
  - apply det_expansion.
  - exact Det_example.
Qed.

Lemma Det_cofactor_expansion_witness :
  let xs := [1; 2; 3; 0; 1; 4; 5; 6; 0]%float in
  let buf := flat_map (fun v => Enc.le_encode 8 (Enc.Float64bits v)) xs in
  let a := mkNDArray 0 [3; 3] [24; 8] Float64 9 2 in
  View.backs [buf] a buf
  /\ exists h', Linalg.Det a [buf] = Ok (1%float, h').
Proof.
  intros xs buf a.
  assert (V : View.backs [buf] a buf).
  { repeat split; try reflexivity; repeat constructor; vm_compute; congruence. }
  split; [exact V|].
  destruct (Det_cofactor_expansion a [buf] buf 3 V) as (_ & (h' & D & _) & _);
    [reflexivity | lia | vm_compute; congruence |].
  exists h'. rewrite D. vm_compute. reflexivity.
Defined.


(** ** C7: sums along an axis *)

Module SumAxisSpec.

(** The axis a possibly negative [axis] names in an array of [nd] axes. *)
Definition axis_of (nd axis : Z) : nat :=
  Z.to_nat (if axis <? 0 then nd + axis else axis).

(** The shape, or the multi-index, without its entry at [axis]. *)
Definition drop (axis : nat) (l : list Z) : list Z := DetSpec.delete axis l.

(** The destination slot, in row-major order, of the source element at
    row-major position [i]. *)
Definition dest (shp : list Z) (axis : nat) (i : Z) : Z :=
  Layout.ravel (drop axis shp) (drop axis (Layout.unravel shp i)).

(** Slot [k] after the first [i] source elements, [src] giving them in
    row-major order, were added to it; every addition is stored in an
    element of type [dt]. *)
Fixpoint slot (dt : DType) (src : Z -> float) (shp : list Z) (axis : nat)
    (k : Z) (i : nat) : float :=
  match i with
  | O => 0%float
  | S i' =>
      let s := slot dt src shp axis k i' in
      if dest shp axis (Z.of_nat i') =? k
      then Elem.conv dt (s + src (Z.of_nat i'))%float
      else s
  end.

(** The sum over the source elements whose destination is slot [k]. *)
Definition total (dt : DType) (src : Z -> float) (shp : list Z) (axis : nat)
    (k : Z) : float :=
  slot dt src shp axis k (Z.to_nat (Layout.prodZ shp)).

(** Every addition made to slot [k] among the first [i] source elements
    gave a value an element of type [dt] holds. *)
Fixpoint held_upto (dt : DType) (src : Z -> float) (shp : list Z) (axis : nat)
    (k : Z) (i : nat) : bool :=
  match i with
  | O => true
  | S i' =>
      held_upto dt src shp axis k i'
      && (if dest shp axis (Z.of_nat i') =? k
          then Elem.held dt (slot dt src shp axis k i' + src (Z.of_nat i'))%float
          else true)
  end.

Definition held (dt : DType) (src : Z -> float) (shp : list Z) (axis : nat)
    (k : Z) : bool :=
  held_upto dt src shp axis k (Z.to_nat (Layout.prodZ shp)).

End SumAxisSpec.

Lemma map_nth_seq (l : list Z) : map (fun j => nth j l 0) (seq 0 (length l)) = l.
Proof.
  apply (nth_ext _ _ 0 0).
  - now rewrite length_map, length_seq.
  - intros n Hn. rewrite length_map, length_seq in Hn.
    rewrite (nth_indep _ 0 (nth 0%nat l 0)) by now rewrite length_map, length_seq.
    rewrite (map_nth (fun j => nth j l 0)), seq_nth by lia. reflexivity.
Qed.

Lemma drop_axis_delete n axis l :
  n = len l -> 0 <= axis < n ->
  drop_axis n axis l = SumAxisSpec.drop (Z.to_nat axis) l.
Proof.
  intros -> H. unfold drop_axis, SumAxisSpec.drop, len in *.
  rewrite Nat2Z.id. remember (Z.to_nat axis) as c eqn:Ec.
  replace axis with (Z.of_nat c) by lia.
  rewrite (flat_map_delete (fun j => nth j l 0)) by lia.
  rewrite <- delete_map, map_nth_seq. reflexivity.
Qed.

Lemma Forall2_firstn {A B} (R : A -> B -> Prop) n : forall l l',
  Forall2 R l l' -> Forall2 R (firstn n l) (firstn n l').
Proof.
  induction n as [|n IH]; intros l l' H; [constructor|].
  destruct H; simpl; constructor; auto.
Qed.

Lemma Forall2_skipn {A B} (R : A -> B -> Prop) n : forall l l',
  Forall2 R l l' -> Forall2 R (skipn n l) (skipn n l').
Proof.
  induction n as [|n IH]; intros l l' H; [exact H|].
  destruct H; simpl; [constructor|auto].
Qed.

Lemma in_shape_drop c shp idx :
  Layout.in_shape shp idx ->
  Layout.in_shape (SumAxisSpec.drop c shp) (SumAxisSpec.drop c idx).
Proof.
  intros H. unfold Layout.in_shape, SumAxisSpec.drop, DetSpec.delete.
  apply Forall2_app; [now apply Forall2_firstn | now apply Forall2_skipn].
Qed.

Lemma prodZ_drop c : forall shp,
  Forall (fun d => 0 < d) shp ->
  0 < Layout.prodZ (SumAxisSpec.drop c shp) <= Layout.prodZ shp.
Proof.
  unfold SumAxisSpec.drop, DetSpec.delete.
  induction c as [|c IH]; intros [|d ds] F.
  - simpl. lia.
  - cbn [firstn skipn app]. rewrite prodZ_cons.
    pose proof (prodZ_pos ds (Forall_inv_tail F)). pose proof (Forall_inv F) as D.
    cbv beta in D. nia.
  - simpl. lia.
  - change (firstn (S c) (d :: ds) ++ skipn (S (S c)) (d :: ds))
      with (d :: (firstn c ds ++ skipn (S c) ds)).
    rewrite !prodZ_cons.
    pose proof (IH ds (Forall_inv_tail F)). pose proof (Forall_inv F) as D.
    cbv beta in D. nia.
Qed.

Lemma Forall_drop {P : Z -> Prop} c : forall l,
  Forall P l -> Forall P (SumAxisSpec.drop c l).
Proof.
  unfold SumAxisSpec.drop, DetSpec.delete.
  induction c as [|c IH]; intros [|d ds] F; try (simpl; constructor).
  - exact (Forall_inv_tail F).
  - exact (Forall_inv F).
  - exact (IH ds (Forall_inv_tail F)).
Qed.

Lemma fits_drop c shp w : Layout.fits shp w -> Layout.fits (SumAxisSpec.drop c shp) w.
Proof.
  intros (F & W & B). pose proof (prodZ_drop c shp F).
  split; [now apply Forall_drop|]. split; [exact W|]. nia.
Qed.

Lemma drop_not_nil c (l : list Z) : (2 <= length l)%nat -> SumAxisSpec.drop c l <> [].
Proof.
  intros H E. apply (f_equal (@length Z)) in E.
  unfold SumAxisSpec.drop, DetSpec.delete in E.
  rewrite length_app, length_firstn, length_skipn in E. simpl in E. lia.
Qed.

Lemma axis_of_normal nd axis :
  0 <= nd <= GoInt.max_int -> - nd <= axis < nd ->
  (if axis <? 0 then GoInt.add nd axis else axis)
  = Z.of_nat (SumAxisSpec.axis_of nd axis)
  /\ (SumAxisSpec.axis_of nd axis < Z.to_nat nd)%nat.
Proof.
  intros N A. unfold SumAxisSpec.axis_of, GoInt.add.
  destruct (axis <? 0) eqn:E.
  - apply Z.ltb_lt in E. rewrite wrap_small by (unfold GoInt.in_range, GoInt.min_int, GoInt.max_int in *; lia).
    lia.
  - apply Z.ltb_ge in E. lia.
Qed.

Lemma slot_step dt src shp c k j :
  0 <= j ->
  SumAxisSpec.slot dt src shp c k (Z.to_nat (j + 1))
  = let s := SumAxisSpec.slot dt src shp c k (Z.to_nat j) in
    if SumAxisSpec.dest shp c j =? k
    then Elem.conv dt (s + src j)%float else s.
Proof.
  intros J. replace (Z.to_nat (j + 1)) with (S (Z.to_nat j)) by lia.
  cbn [SumAxisSpec.slot]. now rewrite Z2Nat.id by lia.
Qed.

Lemma match_not_nil {A B} (l : list A) (x y : B) :
  l <> [] -> match l with [] => x | _ :: _ => y end = y.
Proof. destruct l; congruence. Qed.

Lemma SumAxis_spec h a buf axis :
  View.backs h a buf ->
  2 <= ndim a <= GoInt.max_int ->
  - ndim a <= axis < ndim a ->
  let c := SumAxisSpec.axis_of (ndim a) axis in
  let rshape := SumAxisSpec.drop c (shape a) in
  let r := mkNDArray (length h) rshape (Layout.strides_of rshape (ItemSize (dtype a)))
             (dtype a) (Layout.prodZ rshape) (len rshape) in
  exists buf',
    SumAxis a axis h = Ok (r, h ++ [buf'])
    /\ View.backs (h ++ [buf']) r buf'
    /\ forall k, 0 <= k < Layout.prodZ rshape ->
         Elem.get (dtype a) buf' k = SumAxisSpec.total (dtype a) (Elem.get (dtype a) buf) (shape a) c k.
Proof.
  intros V N AX c rshape r.
  pose proof V as (Sup & ND & SZ & ST & F & NE & LB).
  pose proof F as (Fp & W & B).
  destruct (axis_of_normal (ndim a) axis) as [EA CL]; [lia | lia |]. fold c in EA, CL.
  pose proof (prodZ_pos _ Fp) as PP.
  pose proof (prodZ_drop c _ Fp) as PR. fold rshape in PR.
  pose proof (fits_drop c _ _ F) as FR. fold rshape in FR.
  assert (NN : rshape <> []).
  { apply drop_not_nil. unfold len in ND. lia. }
  unfold SumAxis. rewrite EA.
  replace ((Z.of_nat c <? 0) || (Z.of_nat c >=? ndim a)) with false
    by (symmetry; apply orb_false_iff; split;
        [apply Z.ltb_ge | rewrite Z.geb_leb; apply Z.leb_gt]; lia).
  rewrite drop_axis_delete by (auto; lia). rewrite Nat2Z.id. fold rshape.
  destruct (Zeros_backs rshape (dtype a) h NN Sup FR) as [ZE ZB]. fold r in ZE, ZB.
  set (zeros := repeat x00 (Z.to_nat (ItemSize (dtype a) * Layout.prodZ rshape))) in *.
  assert (LZ : len zeros = ItemSize (dtype a) * Layout.prodZ rshape).
  { unfold zeros, len. rewrite repeat_length. nia. }
  destruct (for_each_inv
    (fun j hj => exists bufj, hj = h ++ [bufj] /\ len bufj = len zeros
       /\ forall k, 0 <= k < Layout.prodZ rshape ->
            Elem.get (dtype a) bufj k
            = SumAxisSpec.slot (dtype a) (Elem.get (dtype a) buf) (shape a) c k (Z.to_nat j))
    (fun i =>
       srcIndices <- lift (unravelIndex a i) ;;
       (let dstIndices := drop_axis (ndim a) (Z.of_nat c) srcIndices in
        val <- GetFloat64 a srcIndices ;;
        currentSum <- GetFloat64 r dstIndices ;;
        SetFloat64 r (currentSum + val)%float dstIndices))
    (size a) (h ++ [zeros])) as (h' & E & bufn & -> & LN & G).
  - lia.
  - exists zeros. split; [reflexivity|]. split; [reflexivity|].
    intros k Hk. cbn [Z.to_nat SumAxisSpec.slot].
    apply get_zeros; auto; nia.
  - intros j hj Hj (bufj & -> & LJ & GJ).
    assert (U : unravelIndex a j = Ok (Layout.unravel (shape a) j))
      by (apply unravelIndex_spec; auto; nia).
    rewrite (bind_ok_intro _ _ _ (Layout.unravel (shape a) j) (h ++ [bufj]))
      by (rewrite U; reflexivity).
    cbv zeta.
    rewrite drop_axis_delete
      by (unfold len in *; rewrite ?unravel_length; auto; lia).
    rewrite Nat2Z.id.
    pose proof (unravel_in_shape (shape a) j Fp) as IS.
    pose proof (in_shape_drop c _ _ IS) as ID. fold rshape in ID.
    assert (VJ : View.backs (h ++ [bufj]) r bufj).
    { rewrite <- (set_nth_last h zeros bufj). apply (backs_set _ r zeros); auto. }
    rewrite (bind_ok_intro _ _ _ _ _
               (GetFloat64_elem _ a buf _ (backs_grow _ _ _ [bufj] V) IS)).
    rewrite (bind_ok_intro _ _ _ _ _ (GetFloat64_elem _ r bufj _ VJ ID)).
    rewrite (SetFloat64_elem _ r bufj _ _ VJ ID).
    cbn [data shape dtype r]. rewrite set_nth_last.
    rewrite ravel_unravel, Z.mod_small by (auto; lia).
    destruct (backs_bounds _ r bufj _ VJ ID) as (B0 & B1 & B2).
    cbn [shape dtype r] in B0, B1.
    change (Layout.ravel rshape (SumAxisSpec.drop c (Layout.unravel (shape a) j)))
      with (SumAxisSpec.dest (shape a) c j) in *.
    eexists. split; [reflexivity|]. eexists. split; [reflexivity|].
    split; [rewrite put_length by auto; exact LJ|].
    intros k Hk. rewrite slot_step by lia. cbv zeta.
    destruct (Z.eqb_spec (SumAxisSpec.dest (shape a) c j) k) as [EK|NE'].
    + rewrite EK in *. rewrite get_put_same by (auto; lia). now rewrite GJ by lia.
    + rewrite get_put_other by (auto; lia). now apply GJ.
  - exists bufn. rewrite match_not_nil by exact NN.
    rewrite (bind_ok_intro _ _ _ _ _ ZE).
    rewrite (bind_ok_intro _ _ _ _ _ E).
    split; [reflexivity|]. split.
    + rewrite <- (set_nth_last h zeros bufn). apply (backs_set _ r zeros); auto.
    + intros k Hk. rewrite G by auto. unfold SumAxisSpec.total. now rewrite SZ.
Qed.

Lemma slot_ext dt src src' shp c k : forall n,
  (forall i, 0 <= i < Z.of_nat n -> src i = src' i) ->
  SumAxisSpec.slot dt src shp c k n = SumAxisSpec.slot dt src' shp c k n.
Proof.
  induction n as [|n IH]; intros H; [reflexivity|].
  cbn [SumAxisSpec.slot]. rewrite IH by (intros; apply H; lia).
  now rewrite H by lia.
Qed.

Lemma total_ext dt src src' shp c k :
  (forall i, 0 <= i < Layout.prodZ shp -> src i = src' i) ->
  SumAxisSpec.total dt src shp c k = SumAxisSpec.total dt src' shp c k.
Proof.
  intros H. unfold SumAxisSpec.total. apply slot_ext. intros i Hi. apply H. lia.
Qed.

Lemma SumAxis_reads h a buf axis :
  View.backs h a buf ->
  2 <= ndim a <= GoInt.max_int ->
  - ndim a <= axis < ndim a ->
  let c := SumAxisSpec.axis_of (ndim a) axis in
  exists r buf',
    SumAxis a axis h = Ok (r, h ++ [buf'])
    /\ data r = length h
    /\ shape r = SumAxisSpec.drop c (shape a)
    /\ ndim r = ndim a - 1
    /\ dtype r = dtype a
    /\ View.backs (h ++ [buf']) r buf'
    /\ forall dst, Layout.in_shape (shape r) dst ->
         GetFloat64 r dst (h ++ [buf'])
         = Ok (SumAxisSpec.total (dtype a) (Elem.get (dtype a) buf) (shape a) c
                 (Layout.ravel (shape r) dst), h ++ [buf']).
Proof.
  intros V N AX c.
  destruct (SumAxis_spec h a buf axis V N AX) as (buf' & E & V' & G).
  fold c in E, V', G.
  eexists _, buf'. split; [exact E|]. cbn [data shape dtype ndim].
  split; [reflexivity|]. split; [reflexivity|]. split.
  - destruct V as (_ & ND & _ & _ & (Fp & _) & _).
    destruct (axis_of_normal (ndim a) axis) as [_ CL]; [lia | lia |]. fold c in CL.
    unfold len, SumAxisSpec.drop. rewrite delete_length by (unfold len in ND; lia).
    unfold len in ND. lia.
  - split; [reflexivity|]. split; [exact V'|].
    intros dst D. rewrite (GetFloat64_elem _ _ buf' dst V' D).
    cbn [shape dtype]. rewrite G; [reflexivity|].
    apply (ravel_bounds _ _ D).
Qed.

Lemma SumAxis_example h0 :
  exists m h1,
    FromSliceFloat64 [1; 2; 3; 4; 5; 6]%float [2; 3] h0 = Ok (m, h1)
    /\ (exists r h2,
          SumAxis m 0 h1 = Ok (r, h2) /\ shape r = [3] /\ ndim r = 1
          /\ map (fun k => GetFloat64 r [k] h2) [0; 1; 2]
             = map (fun v => Ok (v, h2)) [5; 7; 9]%float)
    /\ (exists r h2,
          SumAxis m 1 h1 = Ok (r, h2) /\ shape r = [2] /\ ndim r = 1
          /\ map (fun k => GetFloat64 r [k] h2) [0; 1]
             = map (fun v => Ok (v, h2)) [6; 15]%float).
Proof.
  set (xs := [1; 2; 3; 4; 5; 6]%float).
  destruct (FromSliceFloat64_backs xs [2; 3] h0) as (buf & E & V & G).
  { discriminate. }
  { split; [repeat constructor; lia|]. split; [lia|]. vm_compute. discriminate. }
  { reflexivity. }
  set (m := mkNDArray (length h0) [2; 3] (Layout.strides_of [2; 3] 8) Float64
              (Layout.prodZ [2; 3]) (len [2; 3])) in *.
  assert (N : 2 <= ndim m <= GoInt.max_int) by (vm_compute; split; discriminate).
  assert (T : forall c k,
            SumAxisSpec.total Float64 (Elem.get Float64 buf) [2; 3] c k
            = SumAxisSpec.total Float64 (fun i => nth (Z.to_nat i) xs 0%float) [2; 3] c k).
  { intros c k. apply total_ext. intros i Hi. apply G. exact Hi. }
  exists m, (h0 ++ [buf]). split; [exact E|]. split.
  - destruct (SumAxis_reads _ m buf 0 V N) as (r & buf' & S0 & _ & SH & ND & _ & _ & R).
    { change (- 2 <= 0 < 2). lia. }
    change (shape r = [3]) in SH. change (ndim r = 1) in ND.
    exists r, ((h0 ++ [buf]) ++ [buf']). split; [exact S0|]. split; [exact SH|].
    split; [exact ND|]. cbn [map].
    rewrite !R by (rewrite SH; repeat constructor; lia).
    rewrite SH. cbn [dtype shape m]. rewrite !T. reflexivity.
  - destruct (SumAxis_reads _ m buf 1 V N) as (r & buf' & S0 & _ & SH & ND & _ & _ & R).
    { change (- 2 <= 1 < 2). lia. }
    change (shape r = [2]) in SH. change (ndim r = 1) in ND.
    exists r, ((h0 ++ [buf]) ++ [buf']). split; [exact S0|]. split; [exact SH|].
    split; [exact ND|]. cbn [map].
    rewrite !R by (rewrite SH; repeat constructor; lia).
    rewrite SH. cbn [dtype shape m]. rewrite !T. reflexivity.
Qed.

(** C7.  For an array [a] of at least two axes backed by a buffer of the
    store and an axis [axis] (negative values count from the last
    axis), [SumAxis] returns a fresh array of the dtype of [a] whose
    shape is the shape of [a] without the extent at that axis, and
    whose element at a destination index is the sum, in row-major
    order of the source and starting from 0, of the source elements
    whose index without the reduced coordinate is that destination
    index, provided every partial sum of that slot is a value the dtype
    holds (always so for the float types).  On the (2,3) array holding
    [1,2,3,4,5,6], in any store, axis 0 gives shape (3,) with elements
    5, 7, 9 and axis 1 gives shape (2,) with elements 6, 15. *)
Theorem SumAxis_drops_axis (h : heap) (a : NDArray) (buf : buffer) (axis : Z) :
  View.backs h a buf ->
  2 <= ndim a <= GoInt.max_int ->
  - ndim a <= axis < ndim a ->
  let c := SumAxisSpec.axis_of (ndim a) axis in
  (exists r buf',
     SumAxis a axis h = Ok (r, h ++ [buf'])
     /\ data r = length h
     /\ shape r = SumAxisSpec.drop c (shape a)
     /\ ndim r = ndim a - 1
     /\ dtype r = dtype a
     /\ forall dst, Layout.in_shape (shape r) dst ->
          SumAxisSpec.held (dtype a) (Elem.get (dtype a) buf) (shape a) c
            (Layout.ravel (shape r) dst) = true ->
          GetFloat64 r dst (h ++ [buf'])
          = Ok (SumAxisSpec.total (dtype a) (Elem.get (dtype a) buf) (shape a) c
                  (Layout.ravel (shape r) dst), h ++ [buf']))
  /\ (forall h0, exists m h1,
        FromSliceFloat64 [1; 2; 3; 4; 5; 6]%float [2; 3] h0 = Ok (m, h1)
        /\ (exists r h2,
              SumAxis m 0 h1 = Ok (r, h2) /\ shape r = [3] /\ ndim r = 1
              /\ map (fun k => GetFloat64 r [k] h2) [0; 1; 2]
                 = map (fun v => Ok (v, h2)) [5; 7; 9]%float)
        /\ (exists r h2,
              SumAxis m 1 h1 = Ok (r, h2) /\ shape r = [2] /\ ndim r = 1
              /\ map (fun k => GetFloat64 r [k] h2) [0; 1]
                 = map (fun v => Ok (v, h2)) [6; 15]%float)).
Proof.
  intros V N AX c. split.
  - destruct (SumAxis_reads h a buf axis V N AX)
      as (r & buf' & E & D & SH & ND & DT & _ & R).
    exists r, buf'. repeat (split; [assumption|]). intros dst I _. exact (R dst I).
  - exact SumAxis_example.
Qed.

Lemma SumAxis_drops_axis_witness :
  let buf := flat_map (Enc.le_encode 1) [1; 2; 3; 4; 5; 6] in
  let a := mkNDArray 0 [2; 3] [3; 1] Int8 6 2 in
  View.backs [buf] a buf
  /\ exists r buf',
       SumAxis a (-1) [buf] = Ok (r, [buf; buf']) /\ shape r = [2]
       /\ GetFloat64 r [1] [buf; buf'] = Ok (15%float, [buf; buf']).
Proof.
  intros buf a.
  assert (V : View.backs [buf] a buf).
  { repeat split; try reflexivity; repeat constructor; vm_compute; congruence. }
  split; [exact V|].
  destruct (SumAxis_drops_axis [buf] a buf (-1) V)
    as ((r & buf' & E & _ & SH & _ & _ & R) & _).
  { vm_compute. split; discriminate. }
  { change (- 2 <= -1 < 2). lia. }
  exists r, buf'. split; [exact E|]. split; [exact SH|].
  rewrite SH in R.
  assert (H : SumAxisSpec.held Int8 (Elem.get Int8 buf) [2; 3]
                (SumAxisSpec.axis_of 2 (-1)) (Layout.ravel [2] [1]) = true)
    by (vm_compute; reflexivity).
  assert (C : SumAxisSpec.total Int8 (Elem.get Int8 buf) [2; 3]
                (SumAxisSpec.axis_of 2 (-1)) (Layout.ravel [2] [1]) = 15%float)
    by (vm_compute; reflexivity).
  rewrite <- C. apply (R [1]); [repeat constructor; lia | exact H].
Defined.


(** ** C4: elementwise operators *)

Module ElementwiseSpec.

(** The index an operand of shape [src] is read at for the index [dst]
    of a target with [offset] more leading axes: 0 on an axis of extent
    1, the right-aligned coordinate of [dst] otherwise. *)
Definition source (src : list Z) (offset : nat) (dst : list Z) : list Z :=
  map (fun j => if nth j src 0 =? 1 then 0 else nth (offset + j) dst 0)
      (seq 0 (length src)).

(** Element [k], in row-major order, of the operand with elements [elems]
    and shape [src] once materialised at shape [target] in an array of
    type [dt]. *)
Definition lifted (dt : DType) (elems : Z -> float) (src target : list Z) (k : Z) : float :=
  Elem.conv dt
    (elems (Layout.ravel src
              (source src (length target - length src) (Layout.unravel target k)))).

End ElementwiseSpec.

Lemma nth_pad_left_old n s j :
  (length s <= n)%nat -> (j < length s)%nat ->
  nth (n - length s + j) (BroadcastSpec.pad_left n s) 0 = nth j s 0.
Proof.
  intros L J. unfold BroadcastSpec.pad_left.
  rewrite app_nth2; rewrite repeat_length; [|lia]. f_equal. lia.
Qed.

Lemma nth_pad_left_new n s i :
  (i < n - length s)%nat -> nth i (BroadcastSpec.pad_left n s) 0 = 1.
Proof.
  intros I. unfold BroadcastSpec.pad_left.
  rewrite app_nth1 by (rewrite repeat_length; lia).
  rewrite (nth_indep _ 0 1) by (rewrite repeat_length; lia). apply nth_repeat.
Qed.

Lemma broadcast_target S1 S2 t :
  broadcastShapes S1 S2 = Ok t ->
  let n := Nat.max (length S1) (length S2) in
  let sA := BroadcastSpec.pad_left n S1 in
  let sB := BroadcastSpec.pad_left n S2 in
  length t = n
  /\ forall i, (i < n)%nat ->
       nth i t 0 = (if nth i sA 0 =? nth i sB 0 then nth i sA 0
                    else if nth i sA 0 =? 1 then nth i sB 0 else nth i sA 0)
       /\ ~ BroadcastSpec.clash (nth i sA 0) (nth i sB 0).
Proof.
  intros E n sA sB. rewrite broadcastShapes_refines in E.
  unfold BroadcastSpec.broadcast in E. fold n sA sB in E.
  assert (LA : length sA = n) by (apply pad_left_length; lia).
  assert (LB : length sB = n) by (apply pad_left_length; lia).
  destruct (BroadcastSpec.join_axes sA sB) as [r|] eqn:J; [|discriminate].
  injection E as <-.
  destruct (join_axes_some sA sB r ltac:(lia) J) as [L R].
  split; [lia|]. intros i Hi. apply R. lia.
Qed.

Lemma check_intro src target offset : forall count i,
  (forall j, (i <= j < i + count)%nat ->
     nth j src 0 = 1 \/ nth j src 0 = nth (offset + j) target 0) ->
  BroadcastTo.check i count offset src target = true.
Proof.
  induction count as [|count IH]; intros i H; [reflexivity|].
  cbn [BroadcastTo.check].
  destruct (H i ltac:(lia)) as [E|E].
  - rewrite E at 1. cbn. apply IH. intros j Hj. apply H. lia.
  - rewrite <- E, Z.eqb_refl, andb_false_r. apply IH. intros j Hj. apply H. lia.
Qed.

Lemma check_elim src target offset : forall count i,
  BroadcastTo.check i count offset src target = true ->
  forall j, (i <= j < i + count)%nat ->
    nth j src 0 = 1 \/ nth j src 0 = nth (offset + j) target 0.
Proof.
  induction count as [|count IH]; intros i H j Hj; [lia|].
  cbn [BroadcastTo.check] in H.
  destruct (Z.eqb_spec (nth i src 0) 1) as [E1|E1];
    destruct (Z.eqb_spec (nth i src 0) (nth (offset + i) target 0)) as [E2|E2];
    cbn in H; try discriminate;
    (destruct (Nat.eq_dec j i) as [->|]; [auto | apply (IH (S i) H); lia]).
Qed.

Lemma broadcast_check_left S1 S2 t :
  broadcastShapes S1 S2 = Ok t ->
  (length S1 <= length t)%nat
  /\ BroadcastTo.check 0 (length S1) (length t - length S1) S1 t = true.
Proof.
  intros E. destruct (broadcast_target _ _ _ E) as [L R]. cbv zeta in R.
  split; [lia|]. apply check_intro. intros j Hj.
  destruct (R (length t - length S1 + j)%nat ltac:(lia)) as [V _].
  rewrite L in *. rewrite nth_pad_left_old in V by lia.
  destruct (Z.eqb_spec (nth j S1 0) 1) as [E1|E1]; [now left|right].
  rewrite V. destruct (_ =? _); reflexivity.
Qed.

Lemma broadcast_check_right S1 S2 t :
  broadcastShapes S1 S2 = Ok t ->
  (length S2 <= length t)%nat
  /\ BroadcastTo.check 0 (length S2) (length t - length S2) S2 t = true.
Proof.
  intros E. destruct (broadcast_target _ _ _ E) as [L R]. cbv zeta in R.
  split; [lia|]. apply check_intro. intros j Hj.
  destruct (R (length t - length S2 + j)%nat ltac:(lia)) as [V C].
  rewrite L in *. rewrite (nth_pad_left_old _ S2) in V, C by lia.
  destruct (Z.eqb_spec (nth j S2 0) 1) as [E1|E1]; [now left|right].
  rewrite V.
  set (x := nth (Nat.max (length S1) (length S2) - length S2 + j)
              (BroadcastSpec.pad_left (Nat.max (length S1) (length S2)) S1) 0) in *.
  destruct (Z.eqb_spec x (nth j S2 0)) as [E2|E2]; [auto|].
  destruct (Z.eqb_spec x 1) as [E3|E3]; [auto|].
  exfalso. apply C. repeat split; auto.
Qed.

Lemma pad_left_positive n s :
  Forall (fun d => 0 < d) s -> Forall (fun d => 0 < d) (BroadcastSpec.pad_left n s).
Proof.
  intros F. unfold BroadcastSpec.pad_left. apply Forall_app. split; [|exact F].
  apply Forall_forall. intros x Hx. apply repeat_spec in Hx. lia.
Qed.

Lemma broadcast_positive S1 S2 t :
  Forall (fun d => 0 < d) S1 -> Forall (fun d => 0 < d) S2 ->
  broadcastShapes S1 S2 = Ok t -> Forall (fun d => 0 < d) t.
Proof.
  intros F1 F2 E. destruct (broadcast_target _ _ _ E) as [L R]. cbv zeta in R.
  set (n := Nat.max (length S1) (length S2)) in *.
  pose proof (pad_left_positive n _ F1) as P1.
  pose proof (pad_left_positive n _ F2) as P2.
  assert (LA : length (BroadcastSpec.pad_left n S1) = n) by (apply pad_left_length; lia).
  assert (LB : length (BroadcastSpec.pad_left n S2) = n) by (apply pad_left_length; lia).
  apply (Forall_nth _ t). intros i d Hi. rewrite (nth_indep _ d 0) by lia.
  destruct (R i ltac:(lia)) as [-> _].
  pose proof (proj1 (Forall_nth _ _) P1 i 0 ltac:(lia)) as X1.
  pose proof (proj1 (Forall_nth _ _) P2 i 0 ltac:(lia)) as X2.
  cbv beta in X1, X2.
  destruct (_ =? _); [exact X1|]. destruct (_ =? _); [exact X2 | exact X1].
Qed.

Lemma Forall2_nth_intro {A B} (R : A -> B -> Prop) d d' : forall l l',
  length l = length l' ->
  (forall i, (i < length l)%nat -> R (nth i l d) (nth i l' d')) ->
  Forall2 R l l'.
Proof.
  induction l as [|x l IH]; intros [|y l'] L H; try discriminate; constructor.
  - apply (H 0%nat). simpl. lia.
  - apply IH; [simpl in L; lia|]. intros i Hi. apply (H (S i)). simpl. lia.
Qed.

Lemma Forall2_nth_elim {A B} (R : A -> B -> Prop) d d' l l' :
  Forall2 R l l' -> forall i, (i < length l)%nat -> R (nth i l d) (nth i l' d').
Proof.
  induction 1 as [|x y l l' HR HF IH]; intros i Hi; [simpl in Hi; lia|].
  destruct i as [|i]; [exact HR|]. apply IH. simpl in Hi. lia.
Qed.

Lemma source_in_shape src target dst :
  Forall (fun d => 0 < d) src ->
  (length src <= length target)%nat ->
  BroadcastTo.check 0 (length src) (length target - length src) src target = true ->
  Layout.in_shape target dst ->
  Layout.in_shape src (ElementwiseSpec.source src (length target - length src) dst).
Proof.
  intros P L C D. unfold Layout.in_shape, ElementwiseSpec.source.
  apply (Forall2_nth_intro _ 0 0).
  - now rewrite length_map, length_seq.
  - intros i Hi. rewrite nth_tabulate by lia.
    pose proof (proj1 (Forall_nth _ _) P i 0 Hi) as Pi. cbv beta in Pi.
    destruct (Z.eqb_spec (nth i src 0) 1) as [E|E]; [lia|].
    destruct (check_elim _ _ _ _ _ C i ltac:(lia)) as [E'|E']; [contradiction|].
    rewrite E'.
    apply (Forall2_nth_elim _ 0 0 _ _ D). lia.
Qed.

Lemma tabulate_source (nd : Z) src offset dst :
  nd = len src ->
  tabulate nd (fun j => if nth j src 0 =? 1 then 0 else nth (offset + j) dst 0)
  = ElementwiseSpec.source src offset dst.
Proof.
  intros ->. unfold tabulate, ElementwiseSpec.source, len. now rewrite Nat2Z.id.
Qed.

(** A loop over the elements of a fresh array [r] that writes [v j] to
    element [j], or leaves it when [v j] is [None]. *)
Lemma fill_inv (h : heap) (r : NDArray) (zeros : buffer) (body : Z -> M unit)
    (v : Z -> option float) :
  View.backs (h ++ [zeros]) r zeros -> data r = length h ->
  (forall j (bufj : buffer), 0 <= j < Layout.prodZ (shape r) ->
     View.backs (h ++ [bufj]) r bufj ->
     body j (h ++ [bufj])
     = Ok (tt, h ++ [match v j with
                     | Some x => Elem.put (dtype r) bufj j x
                     | None => bufj
                     end])) ->
  exists bufn : buffer,
    for_each (Layout.prodZ (shape r)) body (h ++ [zeros]) = Ok (tt, h ++ [bufn])
    /\ View.backs (h ++ [bufn]) r bufn
    /\ forall k, 0 <= k < Layout.prodZ (shape r) ->
         Elem.get (dtype r) bufn k
         = match v k with
           | Some x => Elem.conv (dtype r) x
           | None => Elem.get (dtype r) zeros k
           end.
Proof.
  intros V D Hbody.
  pose proof V as (Sup & _ & _ & _ & (Fp & W & B) & _ & LB).
  pose proof (prodZ_pos _ Fp) as PP.
  destruct (for_each_inv
    (fun j hj => exists bufj : buffer, hj = h ++ [bufj]
       /\ View.backs (h ++ [bufj]) r bufj
       /\ (forall k, 0 <= k < j ->
             Elem.get (dtype r) bufj k
             = match v k with
               | Some x => Elem.conv (dtype r) x
               | None => Elem.get (dtype r) zeros k
               end)
       /\ (forall k, j <= k < Layout.prodZ (shape r) ->
             Elem.get (dtype r) bufj k = Elem.get (dtype r) zeros k))
    body (Layout.prodZ (shape r)) (h ++ [zeros])) as (h' & E & bufn & -> & VN & G & _).
  - lia.
  - exists zeros. split; [reflexivity|]. split; [exact V|]. split; [intros; lia | reflexivity].
  - intros j hj Hj (bufj & -> & VJ & Done & Rest).
    rewrite (Hbody j bufj Hj VJ).
    pose proof VJ as (_ & _ & _ & _ & _ & _ & LJ).
    eexists. split; [reflexivity|]. eexists. split; [reflexivity|].
    destruct (v j) as [x|] eqn:EV.
    + split; [|split].
      * rewrite <- (set_nth_last h bufj). rewrite <- D. apply (backs_set _ r bufj).
        -- exact VJ.
        -- apply put_length; nia.
      * intros k Hk. destruct (Z.eq_dec k j) as [->|NE].
        -- rewrite EV. apply get_put_same; auto; nia.
        -- rewrite get_put_other by (try nia; auto). apply Done. lia.
      * intros k Hk. rewrite get_put_other by (try nia; auto). apply Rest. lia.
    + split; [exact VJ|]. split.
      * intros k Hk. destruct (Z.eq_dec k j) as [->|NE].
        -- rewrite EV. apply Rest. lia.
        -- apply Done. lia.
      * intros k Hk. apply Rest. lia.
  - exists bufn. split; [exact E|]. split; [exact VN|].
    intros k Hk. apply G. lia.
Qed.

Lemma unravel_of_fresh (r : NDArray) h (bufj : buffer) j :
  View.backs h r bufj -> 0 <= j < Layout.prodZ (shape r) ->
  unravelIndex r j = Ok (Layout.unravel (shape r) j)
  /\ Layout.in_shape (shape r) (Layout.unravel (shape r) j)
  /\ Layout.ravel (shape r) (Layout.unravel (shape r) j) = j.
Proof.
  intros (_ & ND & _ & _ & (Fp & W & B) & _) Hj.
  split; [apply unravelIndex_spec; auto; nia|].
  split; [now apply unravel_in_shape|].
  rewrite ravel_unravel by auto. apply Z.mod_small. lia.
Qed.

Lemma broadcastTo_spec h a buf target :
  View.backs h a buf -> target <> [] ->
  (length (shape a) <= length target)%nat ->
  BroadcastTo.check 0 (length (shape a)) (length target - length (shape a))
    (shape a) target = true ->
  Layout.fits target (ItemSize (dtype a)) ->
  let r := mkNDArray (length h) target (Layout.strides_of target (ItemSize (dtype a)))
             (dtype a) (Layout.prodZ target) (len target) in
  exists buf' : buffer,
    broadcastTo a target h = Ok (r, h ++ [buf'])
    /\ View.backs (h ++ [buf']) r buf'
    /\ forall k, 0 <= k < Layout.prodZ target ->
         Elem.get (dtype a) buf' k
         = ElementwiseSpec.lifted (dtype a) (Elem.get (dtype a) buf) (shape a) target k.
Proof.
  intros V NN L C F r.
  pose proof V as (Sup & ND & _ & _ & (Fp & _) & _).
  destruct (Zeros_backs target (dtype a) h NN Sup F) as [ZE ZB]. fold r in ZE, ZB.
  set (zeros := repeat x00 (Z.to_nat (ItemSize (dtype a) * Layout.prodZ target))) in *.
  unfold broadcastTo.
  replace (len target <? len (shape a)) with false
    by (symmetry; apply Z.ltb_ge; unfold len; lia).
  rewrite C. cbn [negb].
  rewrite (bind_ok_intro _ _ _ _ _ ZE).
  destruct (fill_inv h r zeros
    (fun i =>
       dstIndices <- lift (unravelIndex r i) ;;
       (let srcIndices :=
          tabulate (ndim a) (fun j =>
            if nth j (shape a) 0 =? 1 then 0
            else nth ((length target - length (shape a)) + j) dstIndices 0) in
        val <- GetFloat64 a srcIndices ;;
        SetFloat64 r val dstIndices))
    (fun k => Some (Elem.get (dtype a) buf
                      (Layout.ravel (shape a)
                         (ElementwiseSpec.source (shape a)
                            (length target - length (shape a))
                            (Layout.unravel target k))))))
    as (bufn & E & VN & G); auto.
  - intros j bufj Hj VJ.
    destruct (unravel_of_fresh r _ bufj j VJ Hj) as (U & IS & RV).
    cbn [shape r] in U, IS, RV.
    rewrite (bind_ok_intro _ _ _ (Layout.unravel target j) (h ++ [bufj]))
      by (rewrite U; reflexivity).
    cbv zeta. rewrite tabulate_source by exact ND.
    pose proof (source_in_shape _ _ _ Fp L C IS) as SI.
    rewrite (bind_ok_intro _ _ _ _ _
               (GetFloat64_elem _ a buf _ (backs_grow _ _ _ [bufj] V) SI)).
    rewrite (SetFloat64_elem _ r bufj _ _ VJ IS).
    cbn [data shape dtype r]. rewrite set_nth_last, RV. reflexivity.
  - exists bufn. cbn [size shape r] in *.
    rewrite (bind_ok_intro _ _ _ _ _ E).
    split; [reflexivity|]. split; [exact VN|].
    intros k Hk. exact (G k Hk).
Qed.

Lemma broadcast_not_nil S1 S2 t :
  S1 <> [] -> broadcastShapes S1 S2 = Ok t -> t <> [].
Proof.
  intros N E. destruct (broadcast_target _ _ _ E) as [L _].
  destruct S1; [congruence|]. destruct t; [cbn [length] in L; lia | discriminate].
Qed.

(** The two operands materialised at the target shape, as [Add], [Sub],
    [Mul], [Div], [Gt] and [Lt] do before their loop. *)
Lemma operands_lifted h a b (bufa bufb : buffer) target :
  View.backs h a bufa -> View.backs h b bufb -> shape a <> [] ->
  broadcastShapes (shape a) (shape b) = Ok target ->
  ItemSize (dtype a) * Layout.prodZ target <= GoInt.max_int ->
  ItemSize (dtype b) * Layout.prodZ target <= GoInt.max_int ->
  target <> [] /\ Forall (fun d => 0 < d) target
  /\ exists (aBroad bBroad : NDArray) (bufA bufB : buffer),
       broadcastTo a target h = Ok (aBroad, h ++ [bufA])
       /\ broadcastTo b target (h ++ [bufA]) = Ok (bBroad, (h ++ [bufA]) ++ [bufB])
       /\ View.backs ((h ++ [bufA]) ++ [bufB]) aBroad bufA
       /\ View.backs ((h ++ [bufA]) ++ [bufB]) bBroad bufB
       /\ shape aBroad = target /\ shape bBroad = target
       /\ dtype aBroad = dtype a /\ dtype bBroad = dtype b
       /\ forall k, 0 <= k < Layout.prodZ target ->
            Elem.get (dtype a) bufA k
            = ElementwiseSpec.lifted (dtype a) (Elem.get (dtype a) bufa) (shape a) target k
            /\ Elem.get (dtype b) bufB k
               = ElementwiseSpec.lifted (dtype b) (Elem.get (dtype b) bufb) (shape b) target k.
Proof.
  intros Va Vb NA BS Ba Bb.
  pose proof Va as (_ & _ & _ & _ & (Fa & Wa & _) & _).
  pose proof Vb as (_ & _ & _ & _ & (Fb & Wb & _) & _).
  pose proof (broadcast_not_nil _ _ _ NA BS) as NN.
  pose proof (broadcast_positive _ _ _ Fa Fb BS) as Fp.
  destruct (broadcast_check_left _ _ _ BS) as [La Ca].
  destruct (broadcast_check_right _ _ _ BS) as [Lb Cb].
  split; [exact NN|]. split; [exact Fp|].
  destruct (broadcastTo_spec h a bufa target Va NN La Ca) as (bufA & EA & VA & GA).
  { repeat split; auto. }
  destruct (broadcastTo_spec (h ++ [bufA]) b bufb target
              (backs_grow _ _ _ [bufA] Vb) NN Lb Cb) as (bufB & EB & VB & GB).
  { repeat split; auto. }
  eexists _, _, bufA, bufB. split; [exact EA|]. split; [exact EB|].
  split; [apply backs_grow; exact VA|]. split; [exact VB|].
  cbn [shape dtype]. repeat (split; [reflexivity|]).
  intros k Hk. split; [now apply GA | now apply GB].
Qed.

Lemma arith_spec op h a b (bufa bufb : buffer) target :
  View.backs h a bufa -> View.backs h b bufb -> shape a <> [] ->
  broadcastShapes (shape a) (shape b) = Ok target ->
  ItemSize (dtype a) * Layout.prodZ target <= GoInt.max_int ->
  ItemSize (dtype b) * Layout.prodZ target <= GoInt.max_int ->
  exists (bufA bufB bufR : buffer),
    let h2 := (h ++ [bufA]) ++ [bufB] in
    let r := mkNDArray (length h2) target
               (Layout.strides_of target (ItemSize (dtype a)))
               (dtype a) (Layout.prodZ target) (len target) in
    arith op a b h = Ok (r, h2 ++ [bufR])
    /\ View.backs (h2 ++ [bufR]) r bufR
    /\ forall k, 0 <= k < Layout.prodZ target ->
         Elem.get (dtype a) bufR k
         = Elem.conv (dtype a)
             (op (ElementwiseSpec.lifted (dtype a) (Elem.get (dtype a) bufa)
                    (shape a) target k)
                 (ElementwiseSpec.lifted (dtype b) (Elem.get (dtype b) bufb)
                    (shape b) target k)).
Proof.
  intros Va Vb NA BS Ba Bb.
  pose proof Va as (Sup & _ & _ & _ & (_ & Wa & _) & _).
  destruct (operands_lifted h a b bufa bufb target Va Vb NA BS Ba Bb)
    as (NN & Fp & aBroad & bBroad & bufA & bufB & EA & EB & VA & VB
        & SA & SB & DA & DB & G).
  exists bufA, bufB.
  set (h2 := (h ++ [bufA]) ++ [bufB]) in *.
  assert (F : Layout.fits target (ItemSize (dtype a))) by (repeat split; auto).
  destruct (Zeros_backs target (dtype a) h2 NN Sup F) as [ZE ZB].
  set (r := mkNDArray (length h2) target
              (Layout.strides_of target (ItemSize (dtype a)))
              (dtype a) (Layout.prodZ target) (len target)) in *.
  set (zeros := repeat x00 (Z.to_nat (ItemSize (dtype a) * Layout.prodZ target))) in *.
  destruct (fill_inv h2 r zeros
    (fun i =>
       indices <- lift (unravelIndex r i) ;;
       valA <- GetFloat64 aBroad indices ;;
       valB <- GetFloat64 bBroad indices ;;
       SetFloat64 r (op valA valB) indices)
    (fun k => Some (op (Elem.get (dtype a) bufA k) (Elem.get (dtype b) bufB k))))
    as (bufR & E & VR & GR); auto.
  - intros j bufj Hj VJ.
    destruct (unravel_of_fresh r _ bufj j VJ Hj) as (U & IS & RV).
    cbn [shape r] in U, IS, RV.
    rewrite (bind_ok_intro _ _ _ (Layout.unravel target j) (h2 ++ [bufj]))
      by (rewrite U; reflexivity).
    assert (ISA : Layout.in_shape (shape aBroad) (Layout.unravel target j))
      by now rewrite SA.
    assert (ISB : Layout.in_shape (shape bBroad) (Layout.unravel target j))
      by now rewrite SB.
    rewrite (bind_ok_intro _ _ _ _ _
               (GetFloat64_elem _ aBroad bufA _ (backs_grow _ _ _ [bufj] VA) ISA)).
    rewrite (bind_ok_intro _ _ _ _ _
               (GetFloat64_elem _ bBroad bufB _ (backs_grow _ _ _ [bufj] VB) ISB)).
    rewrite (SetFloat64_elem _ r bufj _ _ VJ IS).
    cbn [data shape dtype r]. rewrite set_nth_last, SA, SB, DA, DB, RV. reflexivity.
  - exists bufR. cbv zeta. unfold arith.
    rewrite (bind_ok_intro _ _ _ target h) by (rewrite BS; reflexivity).
    rewrite (bind_ok_intro _ _ _ _ _ EA), (bind_ok_intro _ _ _ _ _ EB).
    fold h2. rewrite (bind_ok_intro _ _ _ _ _ ZE).
    cbn [size shape r] in *. rewrite (bind_ok_intro _ _ _ _ _ E).
    split; [reflexivity|]. split; [exact VR|].
    intros k Hk. pose proof (GR k Hk) as GK. cbn [dtype r] in GK. rewrite GK.
    destruct (G k Hk) as [G1 G2]. rewrite G1, G2. reflexivity.
Qed.

Lemma conv_Bool_one : Elem.conv Bool 1%float = 1%float.
Proof. vm_compute. reflexivity. Qed.

Lemma compare_spec test h a b (bufa bufb : buffer) target :
  View.backs h a bufa -> View.backs h b bufb -> shape a <> [] ->
  broadcastShapes (shape a) (shape b) = Ok target ->
  ItemSize (dtype a) * Layout.prodZ target <= GoInt.max_int ->
  ItemSize (dtype b) * Layout.prodZ target <= GoInt.max_int ->
  exists (bufA bufB bufR : buffer),
    let h2 := (h ++ [bufA]) ++ [bufB] in
    let r := mkNDArray (length h2) target (Layout.strides_of target 1)
               Bool (Layout.prodZ target) (len target) in
    compare test a b h = Ok (r, h2 ++ [bufR])
    /\ View.backs (h2 ++ [bufR]) r bufR
    /\ forall k, 0 <= k < Layout.prodZ target ->
         Elem.get Bool bufR k
         = float_of_bool
             (test (ElementwiseSpec.lifted (dtype a) (Elem.get (dtype a) bufa)
                      (shape a) target k)
                   (ElementwiseSpec.lifted (dtype b) (Elem.get (dtype b) bufb)
                      (shape b) target k)).
Proof.
  intros Va Vb NA BS Ba Bb.
  pose proof Va as (Sup & _ & _ & _ & (_ & Wa & _) & _).
  destruct (operands_lifted h a b bufa bufb target Va Vb NA BS Ba Bb)
    as (NN & Fp & aBroad & bBroad & bufA & bufB & EA & EB & VA & VB
        & SA & SB & DA & DB & G).
  exists bufA, bufB.
  set (h2 := (h ++ [bufA]) ++ [bufB]) in *.
  pose proof (prodZ_pos _ Fp) as PP.
  assert (F : Layout.fits target (ItemSize Bool)).
  { split; [exact Fp|]. split; [reflexivity|]. change (ItemSize Bool) with 1. nia. }
  destruct (Zeros_backs target Bool h2 NN eq_refl F) as [ZE ZB].
  change (ItemSize Bool) with 1 in *.
  set (r := mkNDArray (length h2) target (Layout.strides_of target 1)
              Bool (Layout.prodZ target) (len target)) in *.
  set (zeros := repeat x00 (Z.to_nat (1 * Layout.prodZ target))) in *.
  destruct (fill_inv h2 r zeros
    (fun i =>
       indices <- lift (unravelIndex r i) ;;
       valA <- GetFloat64 aBroad indices ;;
       valB <- GetFloat64 bBroad indices ;;
       if test valA valB then SetFloat64 r 1 indices else ret tt)
    (fun k => if test (Elem.get (dtype a) bufA k) (Elem.get (dtype b) bufB k)
              then Some 1%float else None))
    as (bufR & E & VR & GR); auto.
  - intros j bufj Hj VJ.
    destruct (unravel_of_fresh r _ bufj j VJ Hj) as (U & IS & RV).
    cbn [shape r] in U, IS, RV.
    rewrite (bind_ok_intro _ _ _ (Layout.unravel target j) (h2 ++ [bufj]))
      by (rewrite U; reflexivity).
    assert (ISA : Layout.in_shape (shape aBroad) (Layout.unravel target j))
      by now rewrite SA.
    assert (ISB : Layout.in_shape (shape bBroad) (Layout.unravel target j))
      by now rewrite SB.
    rewrite (bind_ok_intro _ _ _ _ _
               (GetFloat64_elem _ aBroad bufA _ (backs_grow _ _ _ [bufj] VA) ISA)).
    rewrite (bind_ok_intro _ _ _ _ _
               (GetFloat64_elem _ bBroad bufB _ (backs_grow _ _ _ [bufj] VB) ISB)).
    rewrite SA, SB, DA, DB, RV.
    destruct (test _ _); [|reflexivity].
    rewrite (SetFloat64_elem _ r bufj _ _ VJ IS).
    cbn [data shape dtype r]. rewrite set_nth_last, RV. reflexivity.
  - exists bufR. cbv zeta. unfold compare.
    rewrite (bind_ok_intro _ _ _ target h) by (rewrite BS; reflexivity).
    rewrite (bind_ok_intro _ _ _ _ _ EA), (bind_ok_intro _ _ _ _ _ EB).
    fold h2. rewrite (bind_ok_intro _ _ _ _ _ ZE).
    cbn [size shape r] in *. rewrite (bind_ok_intro _ _ _ _ _ E).
    split; [reflexivity|]. split; [exact VR|].
    intros k Hk. pose proof (GR k Hk) as GK. cbn [dtype r] in GK. rewrite GK.
    destruct (G k Hk) as [G1 G2]. rewrite G1, G2.
    match goal with |- context [float_of_bool ?t] => destruct t end;
      cbn [float_of_bool]; [apply conv_Bool_one|].
    apply get_zeros; [reflexivity | lia | change (ItemSize Bool) with 1; lia].
Qed.

Lemma app3 {A} (h : list A) x y z : ((h ++ [x]) ++ [y]) ++ [z] = h ++ [x; y; z].
Proof. now rewrite <- !app_assoc. Qed.

Lemma Add_example h0 :
  exists a h1 b h2 r h3,
    FromSliceFloat64 [1; 2; 3; 4; 5; 6]%float [2; 3] h0 = Ok (a, h1)
    /\ FromSliceFloat64 [10; 20; 30]%float [1; 3] h1 = Ok (b, h2)
    /\ Add a b h2 = Ok (r, h3)
    /\ shape r = [2; 3] /\ dtype r = Float64
    /\ map (fun idx => GetFloat64 r idx h3)
           [[0; 0]; [0; 1]; [0; 2]; [1; 0]; [1; 1]; [1; 2]]
       = map (fun v => Ok (v, h3)) [11; 22; 33; 14; 25; 36]%float.
Proof.
  set (xs := [1; 2; 3; 4; 5; 6]%float). set (ys := [10; 20; 30]%float).
  destruct (FromSliceFloat64_backs xs [2; 3] h0) as (bufa & Ea & Va & Ga).
  { discriminate. }
  { split; [repeat constructor; lia|]. split; [lia|]. vm_compute. discriminate. }
  { reflexivity. }
  destruct (FromSliceFloat64_backs ys [1; 3] (h0 ++ [bufa])) as (bufb & Eb & Vb & Gb).
  { discriminate. }
  { split; [repeat constructor; lia|]. split; [lia|]. vm_compute. discriminate. }
  { reflexivity. }
  cbv zeta in *.
  set (a := mkNDArray (length h0) [2; 3] (Layout.strides_of [2; 3] 8) Float64
              (Layout.prodZ [2; 3]) (len [2; 3])) in *.
  set (b := mkNDArray (length (h0 ++ [bufa])) [1; 3] (Layout.strides_of [1; 3] 8) Float64
              (Layout.prodZ [1; 3]) (len [1; 3])) in *.
  set (h2 := (h0 ++ [bufa]) ++ [bufb]) in *.
  destruct (arith_spec PrimFloat.add h2 a b bufa bufb [2; 3])
    as (bufA & bufB & bufR & E & V & G).
  { apply backs_grow. exact Va. }
  { exact Vb. }
  { discriminate. }
  { reflexivity. }
  { vm_compute. discriminate. }
  { vm_compute. discriminate. }
  cbv zeta in E, V.
  eexists a, _, b, _, _, _. split; [exact Ea|]. split; [exact Eb|].
  split; [exact E|]. split; [reflexivity|]. split; [reflexivity|].
  cbn [map].
  rewrite !(GetFloat64_elem _ _ bufR _ V) by (repeat constructor; lia).
  cbn [dtype shape a].
  rewrite !G by (vm_compute; split; congruence).
  unfold ElementwiseSpec.lifted. cbn [dtype shape a b]. rewrite !conv_Float64.
  rewrite !Ga, !Gb by (vm_compute; split; congruence).
  reflexivity.
Qed.

(** The original wording gives every binary elementwise operator a
    result of the left operand's dtype; [Gt] on two [Float64] arrays
    returns a [Bool] array. *)
Lemma Gt_result_dtype_counterexample :
  exists a h1 b h2 r h3,
    FromSliceFloat64 [3; 1; 2]%float [3] [] = Ok (a, h1)
    /\ FromSliceFloat64 [2; 2; 2]%float [3] h1 = Ok (b, h2)
    /\ Gt a b h2 = Ok (r, h3)
    /\ dtype a = Float64 /\ dtype r = Bool /\ dtype r <> dtype a.
Proof.
  eexists _, _, _, _, _, _.
  split; [vm_compute; reflexivity|].
  split; [vm_compute; reflexivity|].
  split; [vm_compute; reflexivity|].
  split; [reflexivity|]. split; [reflexivity|]. discriminate.
Qed.

(** C4 (amended).  [Add] of the (2,3) array [1..6] and the (1,3) array
    [10,20,30] is the (2,3) array [[11,22,33],[14,25,36]], in any store.
    For operands backed by buffers of the store whose shapes broadcast
    to [target], both are materialised at [target] by [broadcastTo],
    each in its own dtype; [Add], [Sub], [Mul] and [Div] return a fresh
    array of shape [target] and of the dtype of the left operand whose
    element at an index is the operator applied to the two materialised
    elements, stored at that dtype, wherever that result is a value the
    dtype holds (always so for the float types); [Gt] and [Lt] return a
    fresh array of shape [target] and of dtype [Bool], 1 where the
    comparison of the two materialised elements holds and 0 elsewhere. *)
Theorem elementwise_operators_broadcast
    (h : heap) (a b : NDArray) (bufa bufb : buffer) (target : list Z) :
  View.backs h a bufa -> View.backs h b bufb -> shape a <> [] ->
  broadcastShapes (shape a) (shape b) = Ok target ->
  ItemSize (dtype a) * Layout.prodZ target <= GoInt.max_int ->
  ItemSize (dtype b) * Layout.prodZ target <= GoInt.max_int ->
  let A := ElementwiseSpec.lifted (dtype a) (Elem.get (dtype a) bufa) (shape a) target in
  let B := ElementwiseSpec.lifted (dtype b) (Elem.get (dtype b) bufb) (shape b) target in
  (exists aBroad bBroad bufA bufB,
     broadcastTo a target h = Ok (aBroad, h ++ [bufA])
     /\ broadcastTo b target (h ++ [bufA]) = Ok (bBroad, h ++ [bufA; bufB])
     /\ shape aBroad = target /\ shape bBroad = target
     /\ dtype aBroad = dtype a /\ dtype bBroad = dtype b
     /\ forall idx, Layout.in_shape target idx ->
          GetFloat64 aBroad idx (h ++ [bufA; bufB])
          = Ok (A (Layout.ravel target idx), h ++ [bufA; bufB])
          /\ GetFloat64 bBroad idx (h ++ [bufA; bufB])
             = Ok (B (Layout.ravel target idx), h ++ [bufA; bufB]))
  /\ (forall f op,
        In (f, op) [(Add, PrimFloat.add); (Sub, PrimFloat.sub);
                    (Mul, PrimFloat.mul); (Div, PrimFloat.div)] ->
        exists r bufA bufB bufR,
          f a b h = Ok (r, h ++ [bufA; bufB; bufR])
          /\ data r = (length h + 2)%nat
          /\ shape r = target /\ dtype r = dtype a
          /\ forall idx, Layout.in_shape target idx ->
               Elem.held (dtype a)
                 (op (A (Layout.ravel target idx)) (B (Layout.ravel target idx))) = true ->
               GetFloat64 r idx (h ++ [bufA; bufB; bufR])
               = Ok (Elem.conv (dtype a)
                       (op (A (Layout.ravel target idx)) (B (Layout.ravel target idx))),
                     h ++ [bufA; bufB; bufR]))
  /\ (forall f test,
        In (f, test) [(Gt, fun x y => PrimFloat.ltb y x); (Lt, PrimFloat.ltb)] ->
        exists r bufA bufB bufR,
          f a b h = Ok (r, h ++ [bufA; bufB; bufR])
          /\ data r = (length h + 2)%nat
          /\ shape r = target /\ dtype r = Bool
          /\ forall idx, Layout.in_shape target idx ->
               GetFloat64 r idx (h ++ [bufA; bufB; bufR])
               = Ok (float_of_bool
                       (test (A (Layout.ravel target idx)) (B (Layout.ravel target idx))),
                     h ++ [bufA; bufB; bufR]))
  /\ (forall h0, exists x h1 y h2 r h3,
        FromSliceFloat64 [1; 2; 3; 4; 5; 6]%float [2; 3] h0 = Ok (x, h1)
        /\ FromSliceFloat64 [10; 20; 30]%float [1; 3] h1 = Ok (y, h2)
        /\ Add x y h2 = Ok (r, h3)
        /\ shape r = [2; 3] /\ dtype r = Float64
        /\ map (fun idx => GetFloat64 r idx h3)
               [[0; 0]; [0; 1]; [0; 2]; [1; 0]; [1; 1]; [1; 2]]
           = map (fun v => Ok (v, h3)) [11; 22; 33; 14; 25; 36]%float).
Proof.
  intros Va Vb NA BS Ba Bb A B.
  assert (AR : forall f op, f = arith op ->
            exists r bufA bufB bufR,
              f a b h = Ok (r, h ++ [bufA; bufB; bufR])
              /\ data r = (length h + 2)%nat
              /\ shape r = target /\ dtype r = dtype a
              /\ forall idx, Layout.in_shape target idx ->
                   GetFloat64 r idx (h ++ [bufA; bufB; bufR])
                   = Ok (Elem.conv (dtype a)
                           (op (A (Layout.ravel target idx))
                               (B (Layout.ravel target idx))),
                         h ++ [bufA; bufB; bufR])).
  { intros f op ->.
    destruct (arith_spec op h a b bufa bufb target Va Vb NA BS Ba Bb)
      as (bufA & bufB & bufR & E & V & G). cbv zeta in E, V.
    rewrite app3 in E, V.
    eexists _, bufA, bufB, bufR. split; [exact E|]. cbn [data shape dtype].
    split; [rewrite !length_app; simpl; lia|].
    split; [reflexivity|]. split; [reflexivity|].
    intros idx D. rewrite (GetFloat64_elem _ _ bufR idx V) by exact D.
    cbn [shape dtype]. rewrite G by (apply (ravel_bounds _ _ D)). reflexivity. }
  assert (CR : forall f test, f = compare test ->
            exists r bufA bufB bufR,
              f a b h = Ok (r, h ++ [bufA; bufB; bufR])
              /\ data r = (length h + 2)%nat
              /\ shape r = target /\ dtype r = Bool
              /\ forall idx, Layout.in_shape target idx ->
                   GetFloat64 r idx (h ++ [bufA; bufB; bufR])
                   = Ok (float_of_bool
                           (test (A (Layout.ravel target idx))
                                 (B (Layout.ravel target idx))),
                         h ++ [bufA; bufB; bufR])).
  { intros f test ->.
    destruct (compare_spec test h a b bufa bufb target Va Vb NA BS Ba Bb)
      as (bufA & bufB & bufR & E & V & G). cbv zeta in E, V.
    rewrite app3 in E, V.
    eexists _, bufA, bufB, bufR. split; [exact E|]. cbn [data shape dtype].
    split; [rewrite !length_app; simpl; lia|].
    split; [reflexivity|]. split; [reflexivity|].
    intros idx D. rewrite (GetFloat64_elem _ _ bufR idx V) by exact D.
    cbn [shape dtype]. rewrite G by (apply (ravel_bounds _ _ D)). reflexivity. }
  split; [|split; [|split; [|exact Add_example]]].
  - destruct (operands_lifted h a b bufa bufb target Va Vb NA BS Ba Bb)
      as (_ & _ & aBroad & bBroad & bufA & bufB & EA & EB & VA & VB
          & SA & SB & DA & DB & G).
    replace ((h ++ [bufA]) ++ [bufB]) with (h ++ [bufA; bufB]) in *
      by now rewrite <- app_assoc.
    exists aBroad, bBroad, bufA, bufB.
    repeat (split; [assumption|]).
    intros idx D. pose proof (ravel_bounds _ _ D) as RB.
    destruct (G _ RB) as [G1 G2].
    rewrite (GetFloat64_elem _ aBroad bufA idx VA) by now rewrite SA.
    rewrite (GetFloat64_elem _ bBroad bufB idx VB) by now rewrite SB.
    rewrite SA, SB, DA, DB, G1, G2. split; reflexivity.
  - intros f op IN.
    assert (F : f = arith op)
      by (destruct IN as [H|[H|[H|[H|[]]]]]; injection H as <- <-; reflexivity).
    destruct (AR f op F) as (r & bufA & bufB & bufR & E & D & SH & DT & G).
    exists r, bufA, bufB, bufR. repeat (split; [assumption|]).
    intros idx I _. exact (G idx I).
  - intros f test [H|[H|[]]]; injection H as <- <-; exact (CR _ _ eq_refl).
Qed.

Lemma elementwise_operators_broadcast_witness :
  let bufa := flat_map (Enc.le_encode 2) [1; 2; 3; 4; 5; 6] in
  let bufb := flat_map (Enc.le_encode 2) [10; 20; 30] in
  let a := mkNDArray 0 [2; 3] [6; 2] Int16 6 2 in
  let b := mkNDArray 1 [1; 3] [6; 2] Int16 3 2 in
  View.backs [bufa; bufb] a bufa /\ View.backs [bufa; bufb] b bufb
  /\ broadcastShapes (shape a) (shape b) = Ok [2; 3]
  /\ exists r bufA bufB bufR,
       Mul a b [bufa; bufb] = Ok (r, [bufa; bufb] ++ [bufA; bufB; bufR])
       /\ shape r = [2; 3] /\ dtype r = Int16
       /\ GetFloat64 r [1; 2] ([bufa; bufb] ++ [bufA; bufB; bufR])
          = Ok (180%float, [bufa; bufb] ++ [bufA; bufB; bufR]).
Proof.
  intros bufa bufb a b.
  assert (Va : View.backs [bufa; bufb] a bufa).
  { repeat split; try reflexivity; repeat constructor; vm_compute; congruence. }
  assert (Vb : View.backs [bufa; bufb] b bufb).
  { repeat split; try reflexivity; repeat constructor; vm_compute; congruence. }
  assert (BS : broadcastShapes (shape a) (shape b) = Ok [2; 3]) by reflexivity.
  split; [exact Va|]. split; [exact Vb|]. split; [exact BS|].
  destruct (elementwise_operators_broadcast [bufa; bufb] a b bufa bufb [2; 3] Va Vb)
    as (_ & AR & _).
  { discriminate. }
  { exact BS. }
  { vm_compute. discriminate. }
  { vm_compute. discriminate. }
  destruct (AR Mul PrimFloat.mul) as (r & bufA & bufB & bufR & E & _ & SH & DT & G).
  { right. right. left. reflexivity. }
  exists r, bufA, bufB, bufR. split; [exact E|]. split; [exact SH|]. split; [exact DT|].
  set (x := ElementwiseSpec.lifted Int16 (Elem.get Int16 bufa) [2; 3] [2; 3]
              (Layout.ravel [2; 3] [1; 2])).
  set (y := ElementwiseSpec.lifted Int16 (Elem.get Int16 bufb) [1; 3] [2; 3]
              (Layout.ravel [2; 3] [1; 2])).
  assert (H : Elem.held Int16 (x * y) = true) by (vm_compute; reflexivity).
  assert (C : Elem.conv Int16 (x * y) = 180%float) by (vm_compute; reflexivity).
  rewrite <- C. apply (G [1; 2]); [repeat constructor; lia | exact H].
Defined.


(** ** C8: the sampling engine is a function of the seed and the calls *)

Module Reloc.

(** The array [a] with the address of its buffer moved up by [n]. *)
Definition moved (n : nat) (a : NDArray) : NDArray :=
  mkNDArray (n + data a) (shape a) (strides a) (dtype a) (size a) (ndim a).

(** [m'], run in a store [h ++ d] with [n] buffers in [h], does what [m]
    does in the store [d]: it fails as [m] does, or returns the result
    of [m] mapped by [sh] and leaves [h] in front of the store [m]
    ends in. *)
Definition sim {A} (sh : A -> A) (n : nat) (m' m : M A) : Prop :=
  forall h d : heap, length h = n ->
    m' (h ++ d) = match m d with
                  | Ok (x, d') => Ok (sh x, h ++ d')
                  | Err e => Err e
                  end.

(** What a caller can see of an array: its header without the address,
    and the bytes of its buffer. *)
Definition image (h : heap) (a : NDArray)
  : list Z * list Z * DType * Z * Z * option buffer :=
  (shape a, strides a, dtype a, size a, ndim a, nth_error h (data a)).

(** The maps of [sim] for what the sampling calls return. *)
Definition out {R} (n : nat) (p : NDArray * R) : NDArray * R :=
  (moved n (fst p), snd p).

Definition outs {R} (n : nat) (st : R * list NDArray) : R * list NDArray :=
  (fst st, map (moved n) (snd st)).

End Reloc.

Lemma sim_ret {A} (sh : A -> A) n x : Reloc.sim sh n (ret (sh x)) (ret x).
Proof. intros h d _. reflexivity. Qed.

Lemma sim_fail {A} (sh : A -> A) n e : Reloc.sim sh n (fail e) (fail e).
Proof. intros h d _. reflexivity. Qed.

Lemma sim_lift {A} n (r : result A) : Reloc.sim (fun x => x) n (lift r) (lift r).
Proof. intros h d _. destruct r; reflexivity. Qed.

Lemma sim_bind {A B} (shA : A -> A) (shB : B -> B) n m' m (f' f : A -> M B) :
  Reloc.sim shA n m' m ->
  (forall x, Reloc.sim shB n (f' (shA x)) (f x)) ->
  Reloc.sim shB n (bind m' f') (bind m f).
Proof.
  intros Hm Hf h d L. unfold bind. rewrite (Hm h d L).
  destruct (m d) as [[x d']|e]; [|reflexivity]. apply (Hf x h d' L).
Qed.

Lemma sim_for_range {St} (sh : St -> St) n (body' body : Z -> St -> M St) :
  (forall i s, Reloc.sim sh n (body' i (sh s)) (body i s)) ->
  forall count i s,
    Reloc.sim sh n (for_range i count body' (sh s)) (for_range i count body s).
Proof.
  intros Hb. induction count as [|k IH]; intros i s; cbn [for_range].
  - apply sim_ret.
  - apply (sim_bind sh sh); [apply Hb|]. intros x. apply IH.
Qed.

Lemma sim_for_upto {St} (sh : St -> St) n (body' body : Z -> St -> M St) k s :
  (forall i s, Reloc.sim sh n (body' i (sh s)) (body i s)) ->
  Reloc.sim sh n (for_upto k body' (sh s)) (for_upto k body s).
Proof. intros Hb. unfold for_upto. now apply sim_for_range. Qed.

Lemma sim_for_each n (body' body : Z -> M unit) k :
  (forall i, Reloc.sim (fun x => x) n (body' i) (body i)) ->
  Reloc.sim (fun x => x) n (for_each k body') (for_each k body).
Proof.
  intros Hb. unfold for_each.
  apply (sim_for_upto (fun x : unit => x) n (fun i _ => body' i) (fun i _ => body i) k tt).
  intros i _. apply Hb.
Qed.

Lemma sim_for_list {A} n (body' body : Z -> A -> M unit) :
  (forall i v, Reloc.sim (fun x => x) n (body' i v) (body i v)) ->
  forall l i, Reloc.sim (fun x => x) n (for_list i l body') (for_list i l body).
Proof.
  intros Hb. induction l as [|v t IH]; intros i; cbn [for_list].
  - apply (sim_ret (fun x : unit => x)).
  - apply (sim_bind (fun x : unit => x) (fun x : unit => x)); [apply Hb|].
    intros _. apply IH.
Qed.

Lemma sim_for_down {St} (sh : St -> St) n (body' body : Z -> St -> M St) :
  (forall i s, Reloc.sim sh n (body' i (sh s)) (body i s)) ->
  forall k s, Reloc.sim sh n (for_down k body' (sh s)) (for_down k body s).
Proof.
  intros Hb. induction k as [|k IH]; intros s; cbn [for_down].
  - apply sim_ret.
  - apply (sim_bind sh sh); [apply Hb|]. intros x. apply IH.
Qed.

Lemma nth_error_moved {A} (h d : list A) l :
  nth_error (h ++ d) (length h + l) = nth_error d l.
Proof. rewrite nth_error_app2 by lia. f_equal. lia. Qed.

Lemma set_nth_moved {A} (h d : list A) l x :
  set_nth (length h + l) x (h ++ d) = h ++ set_nth l x d.
Proof.
  induction h as [|y h IH]; [reflexivity|].
  cbn [length app Nat.add set_nth]. now rewrite IH.
Qed.

Lemma sim_make n k : Reloc.sim (fun l => (n + l)%nat) n (Store.make k) (Store.make k).
Proof.
  intros h d L. unfold Store.make. destruct (k <? 0); [reflexivity|].
  rewrite length_app, L, <- app_assoc. reflexivity.
Qed.

Lemma sim_load n l off w :
  Reloc.sim (fun x => x) n (Store.load (n + l) off w) (Store.load l off w).
Proof.
  intros h d L. unfold Store.load, Store.get, bind. subst n.
  rewrite nth_error_moved. destruct (nth_error d l) as [b|]; [|reflexivity].
  destruct (Store.in_bounds b off w); reflexivity.
Qed.

Lemma sim_store n l off bs :
  Reloc.sim (fun x => x) n (Store.store (n + l) off bs) (Store.store l off bs).
Proof.
  intros h d L. unfold Store.store. subst n.
  rewrite nth_error_moved. destruct (nth_error d l) as [b|]; [|reflexivity].
  destruct (Store.in_bounds b off (len bs)); [|reflexivity].
  now rewrite set_nth_moved.
Qed.

(** Closes a goal on two [ret]s whose results differ by the map only. *)
Ltac sim_done :=
  match goal with
  | |- Reloc.sim ?sh ?n _ (ret ?x) => exact (sim_ret sh n x)
  end.

Lemma flatIndex_moved n a idx : flatIndex (Reloc.moved n a) idx = flatIndex a idx.
Proof. now apply flatIndex_ext. Qed.

Lemma unravel_from_moved n a : forall count rem idx,
  unravel_from (Reloc.moved n a) count rem idx = unravel_from a count rem idx.
Proof.
  induction count as [|i IH]; intros rem idx; [reflexivity|].
  cbn [unravel_from Reloc.moved shape].
  destruct (nth_error (shape a) i) as [d|]; [|reflexivity].
  destruct (d =? 0); [reflexivity|]. apply IH.
Qed.

Lemma unravelIndex_moved n a k : unravelIndex (Reloc.moved n a) k = unravelIndex a k.
Proof.
  unfold unravelIndex. cbn [Reloc.moved ndim].
  destruct (ndim a <? 0); [reflexivity|]. apply unravel_from_moved.
Qed.

Lemma sim_GetFloat64 n a idx :
  Reloc.sim (fun x => x) n (GetFloat64 (Reloc.moved n a) idx) (GetFloat64 a idx).
Proof.
  unfold GetFloat64. rewrite flatIndex_moved. cbn [Reloc.moved dtype data].
  apply (sim_bind (fun x => x) (fun x => x)); [apply sim_lift|]. intros off.
  destruct (dtype a); try apply sim_fail;
    (apply (sim_bind (fun x => x) (fun x => x)); [apply sim_load|];
     intros bs; sim_done).
Qed.

Lemma sim_SetFloat64 n a v idx :
  Reloc.sim (fun x => x) n (SetFloat64 (Reloc.moved n a) v idx) (SetFloat64 a v idx).
Proof.
  unfold SetFloat64. rewrite flatIndex_moved. cbn [Reloc.moved dtype data].
  apply (sim_bind (fun x => x) (fun x => x)); [apply sim_lift|]. intros off.
  destruct (encode_float (dtype a) v); [apply sim_store | apply sim_fail].
Qed.

Lemma sim_FromSliceFloat64 n xs shp :
  Reloc.sim (Reloc.moved n) n (FromSliceFloat64 xs shp) (FromSliceFloat64 xs shp).
Proof.
  unfold FromSliceFloat64.
  destruct (negb (len xs =? computeSize shp)); [apply sim_fail|].
  apply (sim_bind (fun l => (n + l)%nat) (Reloc.moved n)); [apply sim_make|].
  intros l. apply (sim_bind (fun x => x) (Reloc.moved n)).
  - apply sim_for_list. intros i v. apply sim_store.
  - intros _. sim_done.
Qed.

Lemma sim_FromSliceInt64 n xs shp :
  Reloc.sim (Reloc.moved n) n (FromSliceInt64 xs shp) (FromSliceInt64 xs shp).
Proof.
  unfold FromSliceInt64.
  destruct (negb (len xs =? computeSize shp)); [apply sim_fail|].
  apply (sim_bind (fun l => (n + l)%nat) (Reloc.moved n)); [apply sim_make|].
  intros l. apply (sim_bind (fun x => x) (Reloc.moved n)).
  - apply sim_for_list. intros i v. apply sim_store.
  - intros _. sim_done.
Qed.

Lemma image_moved (h d : heap) a :
  Reloc.image (h ++ d) (Reloc.moved (length h) a) = Reloc.image d a.
Proof. unfold Reloc.image. cbn [Reloc.moved shape strides dtype size ndim data]. now rewrite nth_error_moved. Qed.

Section Determinism.

Variable Source : Type.
Variable NewSource : Z -> Source.
Variable rand_Float64 : Source -> float * Source.
Variable rand_NormFloat64 : Source -> float * Source.
Variable rand_Intn : Z -> Source -> Z * Source.
Variable math_Exp : float -> float.
Variable math_Log : float -> float.
Variable fuel : nat.

(** A call of the sampling engine.  [CallChoice] and [CallShuffle] name
    their array by its position among the arrays that the earlier calls
    of the sequence returned; a position that names no array is the call
    on a nil array. *)
Inductive call : Type :=
| CallUniform (low high : float) (shape : list Z)
| CallNormal (mean std : float) (shape : list Z)
| CallStandardNormal (shape : list Z)
| CallBinomial (n : Z) (p : float) (shape : list Z)
| CallPoisson (lambda : float) (shape : list Z)
| CallExponential (scale : float) (shape : list Z)
| CallGamma (shape scale : float) (size : list Z)
| CallBeta (alpha beta : float) (shape : list Z)
| CallRand (shape : list Z)
| CallRandint (low high : Z) (shape : list Z)
| CallChoice (arr : nat) (size : Z)
| CallPermutation (n : Z)
| CallShuffle (arr : nat)
| CallSeed (seed : Z).

(** The generator and the arrays returned so far. *)
Definition session : Type := RNG Source * list NDArray.

Definition returned (outs : list NDArray) (m : M (NDArray * RNG Source)) : M session :=
  '(a, rng) <- m ;; ret (rng, outs ++ [a]).

Definition step (st : session) (c : call) : M session :=
  let (rng, outs) := st in
  match c with
  | CallUniform low high shape =>
      returned outs (Uniform Source rand_Float64 rng low high shape)
  | CallNormal mean std shape =>
      returned outs (Normal Source rand_NormFloat64 rng mean std shape)
  | CallStandardNormal shape =>
      returned outs (StandardNormal Source rand_NormFloat64 rng shape)
  | CallBinomial n p shape =>
      returned outs (Binomial Source rand_Float64 rng n p shape)
  | CallPoisson lambda shape =>
      returned outs (Poisson Source rand_Float64 math_Exp fuel rng lambda shape)
  | CallExponential scale shape =>
      returned outs (Exponential Source rand_Float64 math_Log rng scale shape)
  | CallGamma shape scale size =>
      returned outs
        (Gamma Source rand_Float64 rand_NormFloat64 math_Log fuel rng shape scale size)
  | CallBeta alpha beta shape =>
      returned outs
        (Beta Source rand_Float64 rand_NormFloat64 math_Log fuel rng alpha beta shape)
  | CallRand shape => returned outs (Rand Source rand_Float64 rng shape)
  | CallRandint low high shape =>
      returned outs (Randint Source rand_Intn rng low high shape)
  | CallChoice k size =>
      match nth_error outs k with
      | Some arr => returned outs (Choice Source rand_Intn rng arr size)
      | None => fail RuntimePanic
      end
  | CallPermutation n => returned outs (Permutation Source rand_Intn rng n)
  | CallShuffle k =>
      match nth_error outs k with
      | Some arr => rng' <- Shuffle Source rand_Intn rng arr ;; ret (rng', outs)
      | None => fail RuntimePanic
      end
  | CallSeed seed => ret (Seed Source NewSource rng seed, outs)
  end.

Fixpoint run (calls : list call) (st : session) : M session :=
  match calls with
  | [] => ret st
  | c :: rest => st' <- step st c ;; run rest st'
  end.

(** Two runs that cannot be told apart: the same failure, or the same
    generator state and returned arrays with the same headers and the
    same bytes. *)
Definition same_outcome (x y : result (session * heap)) : Prop :=
  match x, y with
  | Ok ((rng1, outs1), h1), Ok ((rng2, outs2), h2) =>
      rng1 = rng2 /\ map (Reloc.image h1) outs1 = map (Reloc.image h2) outs2
  | Err e1, Err e2 => e1 = e2
  | _, _ => False
  end.

Lemma sim_sampled n (r : result (list float * Source)) shp :
  Reloc.sim (Reloc.out n) n
    ('(data, src) <- lift r ;;
     arr <- FromSliceFloat64 data shp ;;
     ret (arr, mkRNG Source src))
    ('(data, src) <- lift r ;;
     arr <- FromSliceFloat64 data shp ;;
     ret (arr, mkRNG Source src)).
Proof.
  apply (sim_bind (fun x => x) (Reloc.out n)); [apply sim_lift|]. intros [xs src].
  apply (sim_bind (Reloc.moved n) (Reloc.out n)); [apply sim_FromSliceFloat64|].
  intros arr. sim_done.
Qed.

Lemma sim_sampled_int n (r : result (list Z * Source)) shp :
  Reloc.sim (Reloc.out n) n
    ('(data, src) <- lift r ;;
     arr <- FromSliceInt64 data shp ;;
     ret (arr, mkRNG Source src))
    ('(data, src) <- lift r ;;
     arr <- FromSliceInt64 data shp ;;
     ret (arr, mkRNG Source src)).
Proof.
  apply (sim_bind (fun x => x) (Reloc.out n)); [apply sim_lift|]. intros [xs src].
  apply (sim_bind (Reloc.moved n) (Reloc.out n)); [apply sim_FromSliceInt64|].
  intros arr. sim_done.
Qed.

Lemma sim_Gamma n rng k theta size :
  Reloc.sim (Reloc.out n) n
    (Gamma Source rand_Float64 rand_NormFloat64 math_Log fuel rng k theta size)
    (Gamma Source rand_Float64 rand_NormFloat64 math_Log fuel rng k theta size).
Proof. unfold Gamma. apply sim_sampled. Qed.

Lemma sim_Beta n rng alpha beta shp :
  Reloc.sim (Reloc.out n) n
    (Beta Source rand_Float64 rand_NormFloat64 math_Log fuel rng alpha beta shp)
    (Beta Source rand_Float64 rand_NormFloat64 math_Log fuel rng alpha beta shp).
Proof.
  unfold Beta. destruct (shape_size shp <? 0); [apply sim_fail|].
  apply (sim_bind (Reloc.out n) (Reloc.out n)); [apply sim_Gamma|]. intros [gA rng1].
  apply (sim_bind (Reloc.out n) (Reloc.out n)); [apply sim_Gamma|]. intros [gB rng2].
  cbn [Reloc.out fst snd].
  apply (sim_bind (fun x => x) (Reloc.out n)).
  - apply (sim_for_upto (fun x : list float => x)). intros i xs.
    apply (sim_bind (fun x => x) (fun x => x)); [apply sim_GetFloat64|]. intros x.
    apply (sim_bind (fun x => x) (fun x => x)); [apply sim_GetFloat64|]. intros y.
    sim_done.
  - intros xs.
    apply (sim_bind (Reloc.moved n) (Reloc.out n)); [apply sim_FromSliceFloat64|].
    intros arr. sim_done.
Qed.

Lemma sim_Choice n rng arr size :
  Reloc.sim (Reloc.out n) n
    (Choice Source rand_Intn rng (Reloc.moved n arr) size)
    (Choice Source rand_Intn rng arr size).
Proof.
  unfold Choice. change (Size (Reloc.moved n arr)) with (Size arr).
  destruct (size <? 0); [apply sim_fail|].
  apply (sim_bind (fun x => x) (Reloc.out n)).
  - apply (sim_for_upto (fun x : list float * Source => x)). intros i [xs src].
    apply (sim_bind (fun x => x) (fun x => x)); [apply sim_lift|]. intros [idx src'].
    rewrite unravelIndex_moved.
    apply (sim_bind (fun x => x) (fun x => x)); [apply sim_lift|]. intros indices.
    apply (sim_bind (fun x => x) (fun x => x)); [apply sim_GetFloat64|]. intros v.
    sim_done.
  - intros [xs src].
    apply (sim_bind (Reloc.moved n) (Reloc.out n)); [apply sim_FromSliceFloat64|].
    intros out. sim_done.
Qed.

Lemma sim_Permutation n rng k :
  Reloc.sim (Reloc.out n) n
    (Permutation Source rand_Intn rng k) (Permutation Source rand_Intn rng k).
Proof.
  unfold Permutation. destruct (k <? 0); [apply sim_fail|].
  apply (sim_bind (fun x => x) (Reloc.out n)).
  - apply (sim_for_down (fun x : list Z * Source => x)). intros i [xs src].
    apply (sim_bind (fun x => x) (fun x => x)); [apply sim_lift|]. intros [j src'].
    sim_done.
  - intros [xs src].
    apply (sim_bind (Reloc.moved n) (Reloc.out n)); [apply sim_FromSliceInt64|].
    intros arr. sim_done.
Qed.

Lemma sim_Shuffle n rng arr :
  Reloc.sim (fun x => x) n
    (Shuffle Source rand_Intn rng (Reloc.moved n arr))
    (Shuffle Source rand_Intn rng arr).
Proof.
  unfold Shuffle. change (Size (Reloc.moved n arr)) with (Size arr).
  apply (sim_bind (fun x => x) (fun x => x)).
  - apply (sim_for_down (fun x : Source => x)). intros i src.
    apply (sim_bind (fun x => x) (fun x => x)); [apply sim_lift|]. intros [j src'].
    rewrite !unravelIndex_moved.
    apply (sim_bind (fun x => x) (fun x => x)); [apply sim_lift|]. intros indicesI.
    apply (sim_bind (fun x => x) (fun x => x)); [apply sim_lift|]. intros indicesJ.
    apply (sim_bind (fun x => x) (fun x => x)); [apply sim_GetFloat64|]. intros valI.
    apply (sim_bind (fun x => x) (fun x => x)); [apply sim_GetFloat64|]. intros valJ.
    apply (sim_bind (fun x => x) (fun x => x)); [apply sim_SetFloat64|]. intros _.
    apply (sim_bind (fun x => x) (fun x => x)); [apply sim_SetFloat64|]. intros _.
    sim_done.
  - intros src. sim_done.
Qed.

Lemma sim_returned n outs m' m :
  Reloc.sim (Reloc.out n) n m' m ->
  Reloc.sim (Reloc.outs n) n
    (returned (map (Reloc.moved n) outs) m') (returned outs m).
Proof.
  intros H. unfold returned.
  apply (sim_bind (Reloc.out n) (Reloc.outs n)); [exact H|]. intros [a rng].
  cbn [Reloc.out fst snd].
  replace (map (Reloc.moved n) outs ++ [Reloc.moved n a])
    with (map (Reloc.moved n) (outs ++ [a])) by now rewrite map_app.
  sim_done.
Qed.

Lemma sim_step n st c :
  Reloc.sim (Reloc.outs n) n (step (Reloc.outs n st) c) (step st c).
Proof.
  destruct st as [rng outs]. unfold step. cbn [Reloc.outs fst snd].
  destruct c; try (apply sim_returned).
  - unfold Uniform. apply sim_sampled.
  - unfold Normal. apply sim_sampled.
  - unfold StandardNormal, Normal. apply sim_sampled.
  - unfold Binomial. apply sim_sampled.
  - unfold Poisson. apply sim_sampled.
  - unfold Exponential. apply sim_sampled.
  - apply sim_Gamma.
  - apply sim_Beta.
  - unfold Rand, Uniform. apply sim_sampled.
  - unfold Randint. apply sim_sampled_int.
  - rewrite nth_error_map. destruct (nth_error outs arr) as [a|]; cbn [option_map].
    + apply sim_returned. apply sim_Choice.
    + apply sim_fail.
  - apply sim_Permutation.
  - rewrite nth_error_map. destruct (nth_error outs arr) as [a|]; cbn [option_map].
    + apply (sim_bind (fun x => x) (Reloc.outs n)); [apply sim_Shuffle|].
      intros rng'. sim_done.
    + apply sim_fail.
  - sim_done.
Qed.

Lemma sim_run n calls : forall st,
  Reloc.sim (Reloc.outs n) n (run calls (Reloc.outs n st)) (run calls st).
Proof.
  induction calls as [|c rest IH]; intros st; cbn [run].
  - sim_done.
  - apply (sim_bind (Reloc.outs n) (Reloc.outs n)); [apply sim_step|]. exact IH.
Qed.

Lemma run_relocated calls rng (h : heap) :
  run calls (rng, []) h
  = match run calls (rng, []) [] with
    | Ok (st, d) => Ok (Reloc.outs (length h) st, h ++ d)
    | Err e => Err e
    end.
Proof.
  pose proof (sim_run (length h) calls (rng, []) h [] eq_refl) as R.
  rewrite app_nil_r in R. exact R.
Qed.

Lemma same_outcome_relocated calls rng (h1 h2 : heap) :
  same_outcome (run calls (rng, []) h1) (run calls (rng, []) h2).
Proof.
  rewrite (run_relocated calls rng h1), (run_relocated calls rng h2).
  destruct (run calls (rng, []) []) as [[[rng' outs] d]|e]; [|reflexivity].
  cbn [same_outcome Reloc.outs fst snd]. split; [reflexivity|].
  rewrite !map_map. apply map_ext. intros a. now rewrite !image_moved.
Qed.

(** C8.  Two generators made from the same seed, by [New] or by [Seed]
    on any generator, and driven through the same sequence of calls, in
    any two stores, cannot be told apart: both runs fail with the same
    error, or both end with the same generator state and return arrays
    with equal shape, strides, dtype, size and rank and byte-identical
    buffers.  The draws of the underlying source are functions of its
    state, as those of [math/rand] are. *)
Theorem sampling_is_deterministic
    (seed : Z) (calls : list call) (g g' : RNG Source) (h1 h2 : heap) :
  same_outcome (run calls (New Source NewSource seed, []) h1)
               (run calls (New Source NewSource seed, []) h2)
  /\ same_outcome (run calls (New Source NewSource seed, []) h1)
                  (run calls (Seed Source NewSource g seed, []) h2)
  /\ same_outcome (run calls (Seed Source NewSource g seed, []) h1)
                  (run calls (Seed Source NewSource g' seed, []) h2)
  /\ same_outcome (run (CallSeed seed :: calls) (g, []) h1)
                  (run calls (New Source NewSource seed, []) h2).
Proof.
  change (Seed Source NewSource g seed) with (New Source NewSource seed).
  change (Seed Source NewSource g' seed) with (New Source NewSource seed).
  repeat split; try apply same_outcome_relocated.
  cbn [run step]. unfold bind, ret.
  change (Seed Source NewSource g seed) with (New Source NewSource seed).
  apply same_outcome_relocated.
Qed.

End Determinism.

(** A small generator whose state is a counter, to run the calls on. *)
Module Counter.

Definition next (s : Z) : float * Z := ((Enc.of_int s / 16)%float, s + 1).

Definition intn (n s : Z) : Z * Z := (s mod n, s + 1).

Definition calls : list call :=
  [CallRand [2]; CallPermutation 3; CallShuffle 1; CallChoice 0 2;
   CallSeed 5; CallRandint 0 10 [2; 2]].

Definition go : session Z -> M (session Z) :=
  run Z (fun s => s) next next intn (fun x => x) (fun x => x) 8 calls.

End Counter.

Lemma counter_run :
  exists st h,
    Counter.go (New Z (fun s => s) 3, []) [] = Ok (st, h)
    /\ length (snd st) = 4%nat.
Proof. eexists _, _. split; [vm_compute; reflexivity | reflexivity]. Qed.

Lemma sampling_is_deterministic_witness :
  same_outcome Z (Counter.go (New Z (fun s => s) 3, []) [])
                 (Counter.go (Seed Z (fun s => s) (mkRNG Z 40) 3, []) [[x01; x02]])
  /\ exists st h,
       Counter.go (New Z (fun s => s) 3, []) [] = Ok (st, h)
       /\ length (snd st) = 4%nat.
Proof.
  split; [|exact counter_run].
  destruct (sampling_is_deterministic Z (fun s => s) Counter.next Counter.next
              Counter.intn (fun x => x) (fun x => x) 8 3 Counter.calls
              (mkRNG Z 40) (mkRNG Z 40) [] [[x01; x02]]) as (_ & H & _).
  exact H.
Defined.


(** * More of the tensor engine *)

(** ** Indices and positions *)

Lemma ravel_inj shp : forall idx idx',
  Layout.in_shape shp idx -> Layout.in_shape shp idx' ->
  Layout.ravel shp idx = Layout.ravel shp idx' -> idx = idx'.
Proof.
  induction shp as [|d ds IH]; intros idx idx' H H' E.
  - apply in_shape_nil_inv in H, H'. congruence.
  - destruct (in_shape_cons_inv _ _ _ H) as (i & r & -> & Hi & Hr).
    destruct (in_shape_cons_inv _ _ _ H') as (i' & r' & -> & Hi' & Hr').
    cbn [Layout.ravel] in E.
    pose proof (ravel_bounds _ _ Hr) as B. pose proof (ravel_bounds _ _ Hr') as B'.
    assert (i = i').
    { destruct (Z.lt_trichotomy i i') as [L|[L|L]]; [exfalso|exact L|exfalso]; nia. }
    subst i'. f_equal. apply IH; auto. lia.
Qed.

Lemma unravel_ravel shp idx :
  Forall (fun d => 0 < d) shp -> Layout.in_shape shp idx ->
  Layout.unravel shp (Layout.ravel shp idx) = idx.
Proof.
  intros F H. apply (ravel_inj shp); auto.
  - now apply unravel_in_shape.
  - rewrite ravel_unravel by auto. apply Z.mod_small. now apply ravel_bounds.
Qed.

(** X1.  In a C-contiguous array, [unravelIndex] and [flatIndex] are
    inverse to each other up to the item size: position [k] below the
    size decodes to an index, one per axis and within the extents,
    whose byte offset is [k] times the item size, and the byte offset
    of such an index divided by the item size decodes back to it. *)
Theorem unravelIndex_flatIndex_inverse (h : heap) (a : NDArray) (buf : buffer) :
  View.backs h a buf ->
  (forall k, 0 <= k < size a ->
     exists idx,
       unravelIndex a k = Ok idx
       /\ Layout.in_shape (shape a) idx
       /\ flatIndex a idx = Ok (ItemSize (dtype a) * k))
  /\ (forall idx, Layout.in_shape (shape a) idx ->
        exists off,
          flatIndex a idx = Ok off
          /\ 0 <= off /\ off + ItemSize (dtype a) <= len buf
          /\ off mod ItemSize (dtype a) = 0
          /\ unravelIndex a (off / ItemSize (dtype a)) = Ok idx).
Proof.
  intros V. pose proof V as (Sup & ND & SZ & ST & F & NE & LB).
  pose proof F as (Fp & W & B). pose proof (prodZ_pos _ Fp) as PP.
  split.
  - intros k Hk. rewrite SZ in Hk.
    exists (Layout.unravel (shape a) k).
    split; [apply unravelIndex_spec; auto; nia|].
    split; [now apply unravel_in_shape|].
    rewrite (flatIndex_ravel a (ItemSize (dtype a))) by (auto; now apply unravel_in_shape).
    rewrite ravel_unravel, Z.mod_small by (auto; lia). reflexivity.
  - intros idx D. pose proof (ravel_bounds _ _ D) as RB.
    exists (ItemSize (dtype a) * Layout.ravel (shape a) idx).
    split; [now apply (flatIndex_ravel a)|].
    split; [nia|]. split; [nia|].
    split; [rewrite Z.mul_comm; apply Z.mod_mul; lia|].
    rewrite Z.mul_comm, Z.div_mul by lia.
    rewrite unravelIndex_spec by (auto; nia).
    now rewrite unravel_ravel.
Qed.

Lemma unravelIndex_flatIndex_inverse_witness :
  let a := mkNDArray 0 [2; 3] [24; 8] Float64 6 2 in
  let h := [repeat x00 48] in
  View.backs h a (repeat x00 48)
  /\ exists idx, unravelIndex a 4 = Ok idx /\ flatIndex a idx = Ok 32.
Proof.
  intros a h.
  assert (V : View.backs h a (repeat x00 48)).
  { repeat split; try reflexivity; repeat constructor; vm_compute; congruence. }
  split; [exact V|].
  destruct (unravelIndex_flatIndex_inverse h a _ V) as [U _].
  destruct (U 4) as (idx & E & _ & FI); [cbn; lia|].
  exists idx. split; [exact E | exact FI].
Defined.

(** ** Writing and reading an element *)

(** X2.  After [SetFloat64] wrote at an index of an array a value [v]
    that the dtype of the array holds, [GetFloat64] at that index
    returns [v] as stored in that dtype ([v] itself for [Float64]);
    whatever [v] is, every other element of the array reads as before,
    and no other buffer of the store changed. *)
Theorem SetFloat64_then_GetFloat64 (h : heap) (a : NDArray) (buf : buffer)
    (idx : list Z) (v : float) :
  View.backs h a buf -> Layout.in_shape (shape a) idx ->
  exists h',
    SetFloat64 a v idx h = Ok (tt, h')
    /\ (Elem.held (dtype a) v = true ->
        GetFloat64 a idx h' = Ok (Elem.conv (dtype a) v, h'))
    /\ (dtype a = Float64 -> GetFloat64 a idx h' = Ok (v, h'))
    /\ (forall idx', Layout.in_shape (shape a) idx' -> idx' <> idx ->
          exists x, GetFloat64 a idx' h = Ok (x, h)
                    /\ GetFloat64 a idx' h' = Ok (x, h'))
    /\ length h' = length h
    /\ (forall l, l <> data a -> nth_error h' l = nth_error h l).
Proof.
  intros V D. pose proof V as (Sup & _ & _ & _ & _ & NE & _).
  destruct (backs_bounds _ _ _ _ V D) as (B0 & B1 & B2).
  set (k := Layout.ravel (shape a) idx) in *.
  set (buf' := Elem.put (dtype a) buf k v).
  assert (V' : View.backs (set_nth (data a) buf' h) a buf').
  { apply (backs_set _ _ buf); auto. apply put_length; auto. }
  exists (set_nth (data a) buf' h).
  split; [now apply SetFloat64_elem|].
  assert (G : GetFloat64 a idx (set_nth (data a) buf' h)
              = Ok (Elem.conv (dtype a) v, set_nth (data a) buf' h)).
  { rewrite (GetFloat64_elem _ _ buf' idx V' D). fold k. unfold buf'.
    now rewrite get_put_same. }
  split; [intros _; exact G|].
  split; [intros E; rewrite G, E; now rewrite conv_Float64|].
  split; [|split].
  - intros idx' D' N. exists (Elem.get (dtype a) buf (Layout.ravel (shape a) idx')).
    split; [now apply GetFloat64_elem|].
    rewrite (GetFloat64_elem _ _ buf' idx' V' D'). unfold buf'.
    destruct (backs_bounds _ _ _ _ V D') as (B0' & _).
    rewrite get_put_other; auto.
    intros E. apply N. symmetry. now apply (ravel_inj (shape a)).
  - apply set_nth_length.
  - intros l N. apply set_nth_nth_error_other. congruence.
Qed.

Lemma SetFloat64_then_GetFloat64_witness :
  let a := mkNDArray 0 [2; 3] [3; 1] Int8 6 2 in
  let h := [repeat x00 6] in
  View.backs h a (repeat x00 6) /\ Layout.in_shape (shape a) [1; 2]
  /\ exists h', SetFloat64 a (-100.75) [1; 2] h = Ok (tt, h')
                /\ GetFloat64 a [1; 2] h' = Ok ((-100)%float, h').
Proof.
  intros a h.
  assert (V : View.backs h a (repeat x00 6)).
  { repeat split; try reflexivity; repeat constructor; vm_compute; congruence. }
  assert (D : Layout.in_shape (shape a) [1; 2]) by (repeat constructor; lia).
  split; [exact V|]. split; [exact D|].
  destruct (SetFloat64_then_GetFloat64 h a _ [1; 2] (-100.75) V D) as (h' & S & G & _).
  exists h'. split; [exact S|].
  assert (C : Elem.conv Int8 (-100.75) = (-100)%float) by (vm_compute; reflexivity).
  rewrite <- C. exact (G eq_refl).
Defined.

(** ** Whole arrays as slices *)

Lemma ToSliceFloat64_spec (h : heap) (a : NDArray) (buf : buffer) :
  View.backs h a buf ->
  ToSliceFloat64 a h
  = Ok (map (fun k => Elem.get (dtype a) buf (Z.of_nat k)) (seq 0 (Z.to_nat (size a))), h).
Proof.
  intros V. pose proof V as (Sup & ND & SZ & ST & F & NE & LB).
  pose proof F as (Fp & W & B). pose proof (prodZ_pos _ Fp) as PP.
  unfold ToSliceFloat64.
  destruct (for_upto_inv
    (fun j (res : list float) h' =>
       h' = h /\ length res = Z.to_nat (size a)
       /\ forall k, (k < Z.to_nat j)%nat ->
            nth k res 0%float = Elem.get (dtype a) buf (Z.of_nat k))
    (fun i result =>
       indices <- lift (unravelIndex a i) ;;
       v <- GetFloat64 a indices ;;
       ret (set_nth (Z.to_nat i) v result))
    (size a) (repeat 0%float (Z.to_nat (size a))) h) as (res & h' & E & -> & L & G).
  - lia.
  - split; [reflexivity|]. split; [apply repeat_length|]. intros k Hk. simpl in Hk. lia.
  - intros j res h0 Hj (-> & L & G).
    rewrite SZ in Hj.
    rewrite (bind_ok_intro _ _ _ (Layout.unravel (shape a) j) h)
      by (rewrite unravelIndex_spec by (auto; nia); reflexivity).
    rewrite (bind_ok_intro _ _ _ _ _
               (GetFloat64_elem _ a buf _ V (unravel_in_shape _ j Fp))).
    rewrite ravel_unravel, Z.mod_small by (auto; lia).
    eexists _, _. split; [reflexivity|]. split; [reflexivity|].
    split; [now rewrite set_nth_length|].
    intros k Hk. destruct (Nat.eq_dec k (Z.to_nat j)) as [->|N].
    + rewrite set_nth_same by lia. now rewrite Z2Nat.id by lia.
    + rewrite set_nth_other by lia. apply G. lia.
  - rewrite E. f_equal. f_equal.
    apply (nth_ext _ _ 0%float 0%float).
    + now rewrite length_map, length_seq.
    + intros k Hk. rewrite G by lia.
      rewrite nth_tabulate by lia. reflexivity.
Qed.

(** X3.  [FromSliceFloat64] fails with a [DataLengthError], allocating
    nothing, when the slice does not have as many elements as the shape
    asks for; otherwise [ToSliceFloat64] of the array it returns is the
    slice it was given, and the array is a fresh [Float64] array of that
    shape. *)
Theorem FromSliceFloat64_ToSliceFloat64 (xs : list float) (shp : list Z) (h : heap) :
  (len xs <> computeSize shp ->
   FromSliceFloat64 xs shp h = Err (DataLengthError (len xs) (computeSize shp)))
  /\ (shp <> [] -> Layout.fits shp 8 -> len xs = Layout.prodZ shp ->
      exists a h',
        FromSliceFloat64 xs shp h = Ok (a, h')
        /\ data a = length h /\ length h' = S (length h)
        /\ shape a = shp /\ dtype a = Float64
        /\ ToSliceFloat64 a h' = Ok (xs, h')).
Proof.
  split.
  - intros N. unfold FromSliceFloat64.
    destruct (Z.eqb_spec (len xs) (computeSize shp)); [contradiction|reflexivity].
  - intros NN F L.
    destruct (FromSliceFloat64_backs xs shp h NN F L) as (buf & E & V & G).
    cbv zeta in E, V. eexists _, _. split; [exact E|].
    cbn [data shape dtype]. split; [reflexivity|].
    split; [rewrite length_app; simpl; lia|].
    split; [reflexivity|]. split; [reflexivity|].
    rewrite (ToSliceFloat64_spec _ _ buf V). cbn [size dtype]. f_equal. f_equal.
    pose proof F as (Fp & _). pose proof (prodZ_pos _ Fp) as PP.
    apply (nth_ext _ _ 0%float 0%float).
    + rewrite length_map, length_seq. unfold len in L. lia.
    + intros k Hk. rewrite length_map, length_seq in Hk.
      rewrite nth_tabulate by lia. rewrite G by lia. now rewrite Nat2Z.id.
Qed.

Lemma FromSliceFloat64_ToSliceFloat64_witness :
  exists a h',
    FromSliceFloat64 [1; 2; 3; 4]%float [2; 2] [] = Ok (a, h')
    /\ ToSliceFloat64 a h' = Ok ([1; 2; 3; 4]%float, h').
Proof.
  destruct (FromSliceFloat64_ToSliceFloat64 [1; 2; 3; 4]%float [2; 2] []) as [_ R].
  destruct R as (a & h' & E & _ & _ & _ & _ & T).
  - discriminate.
  - split; [repeat constructor; lia|]. split; [lia|]. vm_compute. discriminate.
  - reflexivity.
  - exists a, h'. split; [exact E | exact T].
Defined.

(** ** Constant arrays ([creation.go]) *)

(** The bytes the loops of [Ones] write into one element of each dtype;
    the complex dtypes have no branch. *)
Definition one_bytes (dt : DType) : option (list byte) :=
  match dt with
  | Float64 => Some (Enc.le_encode 8 (Enc.Float64bits 1))
  | Float32 => Some (Enc.le_encode 4 (Enc.Float32bits 1))
  | Int64 | Uint64 => Some (Enc.le_encode 8 1)
  | Int32 | Uint32 => Some (Enc.le_encode 4 1)
  | Int16 | Uint16 => Some (Enc.le_encode 2 1)
  | Int8 | Uint8 | Bool => Some [x01]
  | Complex64 | Complex128 => None
  end.

Definition Ones (shape : list Z) (dtype : DType) : M NDArray :=
  arr <- Zeros shape dtype ;;
  match dtype with
  | Float64 =>
      for_each (size arr) (fun i =>
        let offset := GoInt.mul i 8 in
        Store.store (data arr) offset (Enc.le_encode 8 (Enc.Float64bits 1))) ;;
      ret arr
  | Float32 =>
      for_each (size arr) (fun i =>
        let offset := GoInt.mul i 4 in
        Store.store (data arr) offset (Enc.le_encode 4 (Enc.Float32bits 1))) ;;
      ret arr
  | Int64 | Uint64 =>
      for_each (size arr) (fun i =>
        let offset := GoInt.mul i 8 in
        Store.store (data arr) offset (Enc.le_encode 8 1)) ;;
      ret arr
  | Int32 | Uint32 =>
      for_each (size arr) (fun i =>
        let offset := GoInt.mul i 4 in
        Store.store (data arr) offset (Enc.le_encode 4 1)) ;;
      ret arr
  | Int16 | Uint16 =>
      for_each (size arr) (fun i =>
        let offset := GoInt.mul i 2 in
        Store.store (data arr) offset (Enc.le_encode 2 1)) ;;
      ret arr
  | Int8 | Uint8 | Bool =>
      for_each (size arr) (fun i => Store.store (data arr) i [x01]) ;;
      ret arr
  | Complex64 | Complex128 => ret arr
  end.

Definition Eye (n : Z) (dtype : DType) : M NDArray :=
  arr <- Zeros [n; n] dtype ;;
  match dtype with
  | Float64 =>
      for_each n (fun i =>
        let offset := GoInt.mul (GoInt.add (GoInt.mul i n) i) 8 in
        Store.store (data arr) offset (Enc.le_encode 8 (Enc.Float64bits 1))) ;;
      ret arr
  | Float32 =>
      for_each n (fun i =>
        let offset := GoInt.mul (GoInt.add (GoInt.mul i n) i) 4 in
        Store.store (data arr) offset (Enc.le_encode 4 (Enc.Float32bits 1))) ;;
      ret arr
  | Int64 =>
      for_each n (fun i =>
        let offset := GoInt.mul (GoInt.add (GoInt.mul i n) i) 8 in
        Store.store (data arr) offset (Enc.le_encode 8 1)) ;;
      ret arr
  | Int32 =>
      for_each n (fun i =>
        let offset := GoInt.mul (GoInt.add (GoInt.mul i n) i) 4 in
        Store.store (data arr) offset (Enc.le_encode 4 1)) ;;
      ret arr
  | _ => ret arr
  end.

(** One raw write of the encoding of [v] over element [k]. *)
Lemma store_put (h : heap) l (buf : buffer) dt k v bs :
  nth_error h l = Some buf -> encode_float dt v = Some bs ->
  0 <= k -> (k + 1) * ItemSize dt <= len buf -> len buf <= GoInt.max_int ->
  Store.store l (GoInt.mul k (ItemSize dt)) bs h
  = Ok (tt, set_nth l (Elem.put dt buf k v) h).
Proof.
  intros NE EN K B M.
  assert (W : 0 < ItemSize dt) by (destruct dt; cbn; lia).
  rewrite mul_small by nia. rewrite (Z.mul_comm k).
  rewrite (store_chunk h l buf (ItemSize dt) k bs); auto.
  - unfold Elem.put. now rewrite EN.
  - now apply encode_float_length in EN.
Qed.

Lemma one_bytes_encode dt : one_bytes dt = encode_float dt 1%float.
Proof. destruct dt; vm_compute; reflexivity. Qed.

Lemma conv_one dt : Elem.supported dt = true -> Elem.conv dt 1%float = 1%float.
Proof. destruct dt; intros S; try discriminate; vm_compute; reflexivity. Qed.

(** The filling loop of [Full] and [Ones] on a fresh array: [body]
    writes the encoding of [v] over element [i]. *)
Lemma fill_constant (h : heap) (r : NDArray) (zeros : buffer) v bs (body : Z -> M unit) :
  View.backs (h ++ [zeros]) r zeros -> data r = length h ->
  encode_float (dtype r) v = Some bs ->
  (forall i h0, 0 <= i < Layout.prodZ (shape r) ->
     body i h0 = Store.store (data r) (GoInt.mul i (ItemSize (dtype r))) bs h0) ->
  exists bufn : buffer,
    for_each (size r) body (h ++ [zeros]) = Ok (tt, h ++ [bufn])
    /\ View.backs (h ++ [bufn]) r bufn
    /\ forall k, 0 <= k < Layout.prodZ (shape r) ->
         Elem.get (dtype r) bufn k = Elem.conv (dtype r) v.
Proof.
  intros V D EN HB. pose proof V as (_ & _ & SZ & _ & (Fp & W & B) & _).
  rewrite SZ.
  destruct (fill_inv h r zeros body (fun _ => Some v) V D) as (bufn & E & VN & G).
  - intros j bufj Hj VJ. pose proof VJ as (_ & _ & _ & _ & _ & NE & LJ).
    rewrite HB by exact Hj.
    rewrite (store_put _ _ bufj (dtype r) j v bs); auto; try nia.
    now rewrite D, set_nth_last.
  - exists bufn. auto.
Qed.

Lemma fresh_reads (h : heap) (r : NDArray) (buf : buffer) (x : float) :
  View.backs h r buf ->
  (forall k, 0 <= k < Layout.prodZ (shape r) -> Elem.get (dtype r) buf k = x) ->
  forall idx, Layout.in_shape (shape r) idx -> GetFloat64 r idx h = Ok (x, h).
Proof.
  intros V G idx D. rewrite (GetFloat64_elem _ _ buf idx V D).
  now rewrite G by (apply ravel_bounds; exact D).
Qed.

(** X4.  [Full] with one of the four dtypes it has a branch for
    returns a fresh array of the shape and dtype asked for in which
    every element reads as the fill value stored in that dtype, the
    value itself for [Float64]. *)
Theorem Full_fills_every_element (shp : list Z) (v : float) (dt : DType) (h : heap) :
  In dt [Float64; Float32; Int64; Int32] ->
  shp <> [] -> Layout.fits shp (ItemSize dt) ->
  exists r buf,
    Full shp v dt h = Ok (r, h ++ [buf])
    /\ data r = length h /\ shape r = shp /\ dtype r = dt
    /\ (forall idx, Layout.in_shape shp idx ->
          GetFloat64 r idx (h ++ [buf]) = Ok (Elem.conv dt v, h ++ [buf]))
    /\ (dt = Float64 -> Elem.conv dt v = v).
Proof.
  intros IN NN F.
  assert (Sup : Elem.supported dt = true)
    by (destruct IN as [<-|[<-|[<-|[<-|[]]]]]; reflexivity).
  destruct (Zeros_backs shp dt h NN Sup F) as [ZE ZB].
  set (r := mkNDArray (length h) shp (Layout.strides_of shp (ItemSize dt)) dt
              (Layout.prodZ shp) (len shp)) in *.
  set (zeros := repeat x00 (Z.to_nat (ItemSize dt * Layout.prodZ shp))) in *.
  destruct (encode_float_supported dt v Sup) as (bs & EN).
  destruct (fill_constant h r zeros v bs
              (fun i => Store.store (data r) (GoInt.mul i (ItemSize (dtype r))) bs)
              ZB eq_refl EN) as (bufn & E & VN & G); [reflexivity|].
  exists r, bufn. unfold Full. rewrite (bind_ok_intro _ _ _ _ _ ZE).
  split.
  - destruct IN as [<-|[<-|[<-|[<-|[]]]]]; injection EN as <-;
      (rewrite (bind_ok_intro _ _ _ tt (h ++ [bufn])) by exact E); reflexivity.
  - split; [reflexivity|]. split; [reflexivity|]. split; [reflexivity|]. split.
    + intros idx D. now apply (fresh_reads _ r bufn).
    + intros ->. apply conv_Float64.
Qed.

Lemma Full_fills_every_element_witness :
  exists r buf,
    Full [2; 2] 2.5 Float64 [] = Ok (r, [buf])
    /\ GetFloat64 r [1; 0] [buf] = Ok (2.5%float, [buf]).
Proof.
  destruct (Full_fills_every_element [2; 2] 2.5 Float64 [])
    as (r & buf & E & _ & _ & _ & G & C).
  - left. reflexivity.
  - discriminate.
  - split; [repeat constructor; lia|]. split; [reflexivity|]. vm_compute. discriminate.
  - exists r, buf. split; [exact E|].
    rewrite <- (C eq_refl). apply (G [1; 0]). repeat constructor; lia.
Defined.

(** X5.  [Ones] returns a fresh array in which every element reads 1,
    for each of the eleven dtypes that are not complex; for the two
    complex dtypes, which have no branch, it returns what [Zeros]
    returns. *)
Theorem Ones_reads_one (shp : list Z) (dt : DType) (h : heap) :
  (Elem.supported dt = true -> shp <> [] -> Layout.fits shp (ItemSize dt) ->
   exists r buf,
     Ones shp dt h = Ok (r, h ++ [buf])
     /\ data r = length h /\ shape r = shp /\ dtype r = dt
     /\ forall idx, Layout.in_shape shp idx ->
          GetFloat64 r idx (h ++ [buf]) = Ok (1%float, h ++ [buf]))
  /\ (Elem.supported dt = false -> Ones shp dt h = Zeros shp dt h).
Proof.
  split.
  - intros Sup NN F. pose proof F as (Fp & W & B).
    destruct (Zeros_backs shp dt h NN Sup F) as [ZE ZB].
    set (r := mkNDArray (length h) shp (Layout.strides_of shp (ItemSize dt)) dt
                (Layout.prodZ shp) (len shp)) in *.
    set (zeros := repeat x00 (Z.to_nat (ItemSize dt * Layout.prodZ shp))) in *.
    destruct (encode_float_supported dt 1 Sup) as (bs & EN).
    assert (OB : one_bytes dt = Some bs) by now rewrite one_bytes_encode.
    destruct (fill_constant h r zeros 1 bs
                (fun i => Store.store (data r)
                            (if ItemSize dt =? 1 then i else GoInt.mul i (ItemSize dt)) bs)
                ZB eq_refl EN) as (bufn & E & VN & G).
    { intros i h0 Hi. cbn [dtype r shape] in *.
      destruct (Z.eqb_spec (ItemSize dt) 1) as [I|I]; [|reflexivity].
      rewrite I, mul_small by nia. now rewrite Z.mul_1_r. }
    exists r, bufn. unfold Ones. rewrite (bind_ok_intro _ _ _ _ _ ZE).
    split.
    + destruct dt; try discriminate Sup; injection OB as <-;
        (rewrite (bind_ok_intro _ _ _ tt (h ++ [bufn])) by exact E); reflexivity.
    + split; [reflexivity|]. split; [reflexivity|]. split; [reflexivity|].
      intros idx D. rewrite <- (conv_one dt Sup). now apply (fresh_reads _ r bufn).
  - intros Sup. unfold Ones, bind.
    destruct dt; try discriminate Sup;
      destruct (Zeros shp _ h) as [[arr h']|e]; reflexivity.
Qed.

Lemma Ones_reads_one_witness :
  exists r buf,
    Ones [3] Int16 [] = Ok (r, [buf])
    /\ GetFloat64 r [2] [buf] = Ok (1%float, [buf]).
Proof.
  destruct (Ones_reads_one [3] Int16 []) as [R _].
  destruct R as (r & buf & E & _ & _ & _ & G).
  - reflexivity.
  - discriminate.
  - split; [repeat constructor; lia|]. split; [reflexivity|]. vm_compute. discriminate.
  - exists r, buf. split; [exact E|]. apply G. repeat constructor; lia.
Defined.

Lemma diag_position n i j :
  0 <= i < n -> 0 <= j < n ->
  ((i * n + j) mod (n + 1) =? 0) && ((i * n + j) / (n + 1) <? n) = (i =? j).
Proof.
  intros Hi Hj.
  pose proof (Z.div_mod (i * n + j) (n + 1) ltac:(lia)) as DM.
  pose proof (Z.mod_pos_bound (i * n + j) (n + 1) ltac:(lia)) as MB.
  apply eq_true_iff_eq.
  rewrite andb_true_iff, !Z.eqb_eq, Z.ltb_lt.
  set (q := (i * n + j) / (n + 1)) in *. set (m := (i * n + j) mod (n + 1)) in *.
  clearbody q m. split.
  - intros [M Q]. rewrite M in DM.
    assert (q = i) by nia. nia.
  - intros ->. assert (q = j) by nia. split; nia.
Qed.

Lemma diag_step n j k :
  0 <= n -> 0 <= j -> 0 <= k ->
  (k mod (n + 1) =? 0) && (k / (n + 1) <? j + 1)
  = (k =? j * n + j) || ((k mod (n + 1) =? 0) && (k / (n + 1) <? j)).
Proof.
  intros N J K. pose proof (Z.div_mod k (n + 1) ltac:(lia)) as DM.
  pose proof (Z.mod_pos_bound k (n + 1) ltac:(lia)) as MB.
  apply eq_true_iff_eq.
  rewrite orb_true_iff, !andb_true_iff, !Z.eqb_eq, !Z.ltb_lt.
  set (q := k / (n + 1)) in *. set (m := k mod (n + 1)) in *.
  clearbody q m. split.
  - intros [M Q]. destruct (Z.eq_dec q j) as [->|NE]; [left; nia | right; lia].
  - intros [E|[M Q]]; [|lia].
    assert (q = j) by nia. split; nia.
Qed.

(** The diagonal loop of [Eye] on a fresh [n] by [n] array. *)
Lemma diagonal_loop (h : heap) (r : NDArray) (zeros : buffer) n bs (body : Z -> M unit) :
  View.backs (h ++ [zeros]) r zeros -> data r = length h -> shape r = [n; n] ->
  (forall k, 0 <= k < n * n -> Elem.get (dtype r) zeros k = 0%float) ->
  encode_float (dtype r) 1 = Some bs ->
  (forall i h0, 0 <= i < n ->
     body i h0 = Store.store (data r) (GoInt.mul (i * n + i) (ItemSize (dtype r))) bs h0) ->
  exists bufn : buffer,
    for_each n body (h ++ [zeros]) = Ok (tt, h ++ [bufn])
    /\ View.backs (h ++ [bufn]) r bufn
    /\ forall i j, 0 <= i < n -> 0 <= j < n ->
         Elem.get (dtype r) bufn (i * n + j) = if i =? j then 1%float else 0%float.
Proof.
  intros V D SH Z0 EN HB.
  pose proof V as (Sup & _ & _ & _ & (Fp & W & B) & _ & LZ).
  rewrite SH in Fp, B, LZ. cbn [Layout.prodZ fold_right] in B, LZ.
  pose proof (Forall_inv Fp) as N. cbv beta in N.
  destruct (for_each_inv
    (fun j hj => exists bufj : buffer, hj = h ++ [bufj]
       /\ View.backs (h ++ [bufj]) r bufj
       /\ forall k, 0 <= k < n * n ->
            Elem.get (dtype r) bufj k
            = if (k mod (n + 1) =? 0) && (k / (n + 1) <? j) then 1%float else 0%float)
    body n (h ++ [zeros])) as (h' & E & bufn & -> & VN & G).
  - lia.
  - exists zeros. split; [reflexivity|]. split; [exact V|]. intros k Hk.
    rewrite Z0 by exact Hk.
    replace (k / (n + 1) <? 0) with false
      by (symmetry; apply Z.ltb_ge; apply Z.div_pos; lia).
    now rewrite andb_false_r.
  - intros j hj Hj (bufj & -> & VJ & GJ).
    pose proof VJ as (_ & _ & _ & _ & _ & NE & LJ).
    rewrite SH in LJ. cbn [Layout.prodZ fold_right] in LJ.
    rewrite Z.mul_1_r in LJ, B.
    assert (K : 0 <= j * n + j /\ j * n + j + 1 <= n * n) by nia.
    assert (KW : (j * n + j + 1) * ItemSize (dtype r) <= len bufj).
    { rewrite LJ, (Z.mul_comm (ItemSize (dtype r))).
      apply Z.mul_le_mono_nonneg_r; lia. }
    rewrite HB by exact Hj.
    rewrite (store_put _ _ bufj (dtype r) (j * n + j) 1 bs) by (auto; lia).
    rewrite D, set_nth_last. eexists. split; [reflexivity|].
    eexists. split; [reflexivity|]. split.
    + rewrite <- (set_nth_last h bufj), <- D. apply (backs_set _ r bufj); auto.
      apply put_length; lia.
    + intros k Hk. rewrite diag_step by lia.
      destruct (Z.eqb_spec k (j * n + j)) as [->|NE'].
      * cbn [orb]. rewrite get_put_same by (auto; lia). now apply conv_one.
      * cbn [orb]. rewrite get_put_other by (auto; lia). now apply GJ.
  - exists bufn. split; [exact E|]. split; [exact VN|].
    intros i j Hi Hj. rewrite G by nia. now rewrite diag_position.
Qed.

(** X6.  [Eye] with dtype [Float64], [Float32], [Int64] or [Int32]
    returns a fresh [n] by [n] array whose element [(i, j)] reads 1
    when [i = j] and 0 otherwise; with any other dtype, which has no
    branch, it returns the all-zero array of [Zeros], without a
    diagonal. *)
Theorem Eye_is_identity (n : Z) (dt : DType) (h : heap) :
  (In dt [Float64; Float32; Int64; Int32] ->
   0 < n -> ItemSize dt * (n * n) <= GoInt.max_int ->
   exists r buf,
     Eye n dt h = Ok (r, h ++ [buf])
     /\ data r = length h /\ shape r = [n; n] /\ dtype r = dt
     /\ forall i j, 0 <= i < n -> 0 <= j < n ->
          GetFloat64 r [i; j] (h ++ [buf])
          = Ok (if i =? j then 1%float else 0%float, h ++ [buf]))
  /\ (~ In dt [Float64; Float32; Int64; Int32] -> Eye n dt h = Zeros [n; n] dt h).
Proof.
  split.
  - intros IN N B.
    assert (Sup : Elem.supported dt = true)
      by (destruct IN as [<-|[<-|[<-|[<-|[]]]]]; reflexivity).
    assert (W : 0 < ItemSize dt) by (destruct dt; cbn; lia).
    assert (F : Layout.fits [n; n] (ItemSize dt)).
    { split; [repeat constructor; lia|]. split; [exact W|].
      cbn [Layout.prodZ fold_right]. now rewrite Z.mul_1_r. }
    destruct (Zeros_backs [n; n] dt h ltac:(discriminate) Sup F) as [ZE ZB].
    set (r := mkNDArray (length h) [n; n] (Layout.strides_of [n; n] (ItemSize dt)) dt
                (Layout.prodZ [n; n]) (len [n; n])) in *.
    set (zeros := repeat x00 (Z.to_nat (ItemSize dt * Layout.prodZ [n; n]))) in *.
    destruct (encode_float_supported dt 1 Sup) as (bs & EN).
    assert (OB : one_bytes dt = Some bs) by now rewrite one_bytes_encode.
    destruct (diagonal_loop h r zeros n bs
                (fun i => Store.store (data r)
                            (GoInt.mul (GoInt.add (GoInt.mul i n) i) (ItemSize dt)) bs)
                ZB eq_refl eq_refl) as (bufn & E & VN & G).
    { intros k Hk. apply get_zeros; auto; try lia.
      cbn [Layout.prodZ fold_right]. rewrite Z.mul_1_r, (Z.mul_comm (k + 1)).
      apply Z.mul_le_mono_nonneg_l; lia. }
    { exact EN. }
    { intros i h0 Hi. cbn [dtype r].
      rewrite (mul_small i n) by nia. rewrite add_small by nia. reflexivity. }
    exists r, bufn. unfold Eye. rewrite (bind_ok_intro _ _ _ _ _ ZE).
    split.
    + destruct IN as [<-|[<-|[<-|[<-|[]]]]]; injection OB as <-;
        (rewrite (bind_ok_intro _ _ _ tt (h ++ [bufn])) by exact E); reflexivity.
    + split; [reflexivity|]. split; [reflexivity|]. split; [reflexivity|].
      intros i j Hi Hj.
      rewrite (GetFloat64_elem _ r bufn [i; j] VN) by (apply in_shape_2; lia).
      cbn [shape dtype r]. rewrite ravel_2. now rewrite G.
  - intros NI. unfold Eye, bind.
    destruct dt; try (exfalso; apply NI; cbn; tauto);
      destruct (Zeros [n; n] _ h) as [[arr h']|e]; reflexivity.
Qed.

Lemma Eye_is_identity_witness :
  exists r buf,
    Eye 3 Float64 [] = Ok (r, [buf])
    /\ GetFloat64 r [1; 1] [buf] = Ok (1%float, [buf])
    /\ GetFloat64 r [1; 2] [buf] = Ok (0%float, [buf]).
Proof.
  destruct (Eye_is_identity 3 Float64 []) as [R _].
  destruct R as (r & buf & E & _ & _ & _ & G).
  - left. reflexivity.
  - lia.
  - vm_compute. discriminate.
  - exists r, buf. split; [exact E|]. split.
    + apply (G 1 1); lia.
    + apply (G 1 2); lia.
Defined.

(** X7.  [Zeros] returns a fresh array in which every element reads 0.
    With the empty shape it returns an array of size 0 and rank 0 over
    an empty buffer, not a scalar: reading its only possible index
    panics. *)
Theorem Zeros_reads_zero (shp : list Z) (dt : DType) (h : heap) :
  (Elem.supported dt = true -> shp <> [] -> Layout.fits shp (ItemSize dt) ->
   exists r buf,
     Zeros shp dt h = Ok (r, h ++ [buf])
     /\ data r = length h /\ shape r = shp /\ dtype r = dt
     /\ size r = Layout.prodZ shp
     /\ forall idx, Layout.in_shape shp idx ->
          GetFloat64 r idx (h ++ [buf]) = Ok (0%float, h ++ [buf]))
  /\ (exists r,
        Zeros [] dt h = Ok (r, h ++ [[]])
        /\ size r = 0 /\ ndim r = 0
        /\ (Elem.supported dt = true ->
            GetFloat64 r [] (h ++ [[]]) = Err RuntimePanic)).
Proof.
  split.
  - intros Sup NN F. pose proof F as (Fp & W & B).
    destruct (Zeros_backs shp dt h NN Sup F) as [ZE ZB].
    eexists _, _. split; [exact ZE|]. cbn [data shape dtype size].
    repeat (split; [reflexivity|]).
    intros idx D. apply (fresh_reads _ _ _ _ ZB); [|exact D].
    intros k Hk. cbn [shape dtype] in *. apply get_zeros; auto; try lia.
    rewrite (Z.mul_comm (k + 1)). apply Z.mul_le_mono_nonneg_l; lia.
  - eexists. split; [|split; [|split]].
    + rewrite Zeros_run. cbn [computeSize]. unfold GoInt.mul.
      rewrite Z.mul_0_l. reflexivity.
    + reflexivity.
    + reflexivity.
    + intros Sup. unfold GetFloat64. cbn [flatIndex len length ndim Z.of_nat Z.eqb
        flatIndex_from lift dtype data].
      unfold bind at 1. unfold ret at 1.
      destruct dt; try discriminate Sup;
        unfold bind, Store.load, Store.get, bind; rewrite nth_error_last; reflexivity.
Qed.

Lemma Zeros_reads_zero_witness :
  exists r buf,
    Zeros [2; 3] Int32 [] = Ok (r, [buf])
    /\ GetFloat64 r [1; 2] [buf] = Ok (0%float, [buf]).
Proof.
  destruct (Zeros_reads_zero [2; 3] Int32 []) as [R _].
  destruct R as (r & buf & E & _ & _ & _ & _ & G).
  - reflexivity.
  - discriminate.
  - split; [repeat constructor; lia|]. split; [reflexivity|]. vm_compute. discriminate.
  - exists r, buf. split; [exact E|]. apply G. repeat constructor; lia.
Defined.


(** * Linear algebra *)

(** ** A [Float64] matrix in the store, seen as a function of its indices *)

Module Grid.

(** [F] with the entry at [(i, j)] replaced by [v]. *)
Definition upd (F : Z -> Z -> float) (i j : Z) (v : float) : Z -> Z -> float :=
  fun i' j' => if (i' =? i) && (j' =? j) then v else F i' j'.

(** In the store [hj], which is [h0] but for the buffer of [r], the
    [n] by [m] array [r] of dtype [Float64] holds the entries [F]. *)
Definition holds (h0 : heap) (r : NDArray) (n m : Z) (F : Z -> Z -> float)
    (hj : heap) : Prop :=
  exists bufj : buffer,
    hj = set_nth (data r) bufj h0
    /\ View.backs hj r bufj
    /\ shape r = [n; m] /\ dtype r = Float64
    /\ forall i j, 0 <= i < n -> 0 <= j < m -> Mat.entry Float64 bufj m i j = F i j.

End Grid.

Lemma set_nth_twice {A} l (x y : A) : forall h,
  set_nth l x (set_nth l y h) = set_nth l x h.
Proof.
  induction l as [|l IH]; intros [|z h]; cbn [set_nth]; auto. now rewrite IH.
Qed.

Lemma set_nth_id {A} l (x : A) : forall h,
  nth_error h l = Some x -> set_nth l x h = h.
Proof.
  induction l as [|l IH]; intros [|z h] E; cbn in *; try discriminate.
  - congruence.
  - now rewrite IH.
Qed.

Lemma holds_intro h0 r (buf : buffer) n m :
  View.backs h0 r buf -> shape r = [n; m] -> dtype r = Float64 ->
  Grid.holds h0 r n m (Mat.entry Float64 buf m) h0.
Proof.
  intros V S D. exists buf. pose proof V as (_ & _ & _ & _ & _ & NE & _).
  rewrite set_nth_id by exact NE. repeat split; auto; apply V.
Qed.

Lemma holds_ext h0 r n m F G hj :
  Grid.holds h0 r n m F hj ->
  (forall i j, 0 <= i < n -> 0 <= j < m -> F i j = G i j) ->
  Grid.holds h0 r n m G hj.
Proof.
  intros (bufj & E & V & S & D & H) X. exists bufj. repeat split; auto; try apply V.
  intros i j Hi Hj. rewrite H by auto. now apply X.
Qed.

Lemma holds_read h0 r n m F hj i j :
  Grid.holds h0 r n m F hj -> 0 <= i < n -> 0 <= j < m ->
  GetFloat64 r [i; j] hj = Ok (F i j, hj).
Proof.
  intros (bufj & E & V & S & D & H) Hi Hj.
  rewrite (GetFloat64_entry hj r bufj n m) by auto. rewrite D. now rewrite H.
Qed.

Lemma entry_position m i j i' j' :
  0 <= j < m -> 0 <= j' < m -> 0 <= i -> 0 <= i' ->
  (i' * m + j' = i * m + j) <-> (i' = i /\ j' = j).
Proof.
  intros. split; [|intros [-> ->]; reflexivity]. intros E.
  assert (i' = i) by nia. subst. lia.
Qed.

Lemma holds_write h0 r n m F hj i j v :
  Grid.holds h0 r n m F hj -> 0 <= i < n -> 0 <= j < m ->
  exists hj',
    SetFloat64 r v [i; j] hj = Ok (tt, hj')
    /\ Grid.holds h0 r n m (Grid.upd F i j v) hj'.
Proof.
  intros (bufj & E & V & S & D & H) Hi Hj.
  assert (IS : Layout.in_shape (shape r) [i; j]) by (rewrite S; now apply in_shape_2).
  destruct (backs_bounds _ _ _ _ V IS) as (B0 & B1 & B2).
  rewrite S, ravel_2 in B0, B1. rewrite D in B1. cbn [ItemSize] in B1.
  set (buf' := Elem.put Float64 bufj (i * m + j) v).
  exists (set_nth (data r) buf' hj). split.
  - rewrite (SetFloat64_elem _ _ bufj _ _ V IS). now rewrite S, ravel_2, D.
  - exists buf'. split; [rewrite E; apply set_nth_twice|].
    split; [apply (backs_set _ _ bufj); auto; apply put_length; auto|].
    split; [exact S|]. split; [exact D|].
    intros i' j' Hi' Hj'. unfold Grid.upd, Mat.entry, buf'.
    destruct (Z.eqb_spec i' i) as [->|Ni]; [destruct (Z.eqb_spec j' j) as [->|Nj]|]; cbn [andb].
    + rewrite get_put_same by auto. apply conv_Float64.
    + rewrite get_put_other; [now apply H | nia | nia | | exact B1].
      intros X. symmetry in X. apply entry_position in X; lia.
    + rewrite get_put_other; [now apply H | nia | nia | | exact B1].
      intros X. symmetry in X. apply entry_position in X; lia.
Qed.

(** Another array keeps its buffer while [r] is written. *)
Lemma holds_other h0 r n m F hj a (buf : buffer) :
  Grid.holds h0 r n m F hj -> View.backs h0 a buf -> data a <> data r ->
  View.backs hj a buf.
Proof.
  intros (bufj & -> & _) V N. apply backs_other; auto.
Qed.

(** The inner loops of [Inv]: the body writes [val j] at column [j] of
    row [k], for the columns below [cnt] in order. *)
Lemma row_loop h0 r n m (F : Z -> Z -> float) hj k (val : Z -> float)
    (body : Z -> M unit) cnt :
  Grid.holds h0 r n m F hj -> 0 <= k < n -> 0 <= cnt <= m ->
  (forall j hj' F', 0 <= j < cnt -> Grid.holds h0 r n m F' hj' ->
     (forall i c, 0 <= i < n -> 0 <= c < m ->
        F' i c = if (i =? k) && (c <? j) then val c else F i c) ->
     body j hj' = SetFloat64 r (val j) [k; j] hj') ->
  exists hj',
    for_each cnt body hj = Ok (tt, hj')
    /\ Grid.holds h0 r n m
         (fun i c => if (i =? k) && (c <? cnt) then val c else F i c) hj'.
Proof.
  intros H Hk Hc HB.
  apply (for_each_inv
    (fun j hj' => Grid.holds h0 r n m
       (fun i c => if (i =? k) && (c <? j) then val c else F i c) hj')); [lia| |].
  - apply (holds_ext _ _ _ _ F); auto. intros i c Hi Hcc.
    replace (c <? 0) with false by lia. now rewrite andb_false_r.
  - intros j hj' Hj HJ. rewrite (HB j hj' _ Hj HJ) by reflexivity.
    destruct (holds_write _ _ _ _ _ _ k j (val j) HJ) as (hj'' & W & HW); [lia|lia|].
    exists hj''. split; [exact W|]. apply (holds_ext _ _ _ _ _ _ _ HW).
    intros i c Hi Hcc. unfold Grid.upd.
    destruct (Z.eqb_spec i k), (Z.eqb_spec c j), (Z.ltb_spec c j), (Z.ltb_spec c (j + 1));
      cbn [andb]; try reflexivity; try lia. now subst.
Qed.

(** The outer loops of [Inv]: the body brings row [i] to [W i] and
    leaves the other rows. *)
Lemma rows_loop h0 r n m (F W : Z -> Z -> float) hj (body : Z -> M unit) cnt :
  Grid.holds h0 r n m F hj -> 0 <= cnt <= n ->
  (forall i hj' F', 0 <= i < cnt -> Grid.holds h0 r n m F' hj' ->
     (forall k c, 0 <= k < n -> 0 <= c < m ->
        F' k c = if k <? i then W k c else F k c) ->
     exists hj'',
       body i hj' = Ok (tt, hj'')
       /\ Grid.holds h0 r n m (fun k c => if k =? i then W i c else F' k c) hj'') ->
  exists hj',
    for_each cnt body hj = Ok (tt, hj')
    /\ Grid.holds h0 r n m (fun k c => if k <? cnt then W k c else F k c) hj'.
Proof.
  intros H Hc HB.
  apply (for_each_inv
    (fun i hj' => Grid.holds h0 r n m
       (fun k c => if k <? i then W k c else F k c) hj')); [lia| |].
  - apply (holds_ext _ _ _ _ F); auto. intros k c Hk Hcc.
    now replace (k <? 0) with false by lia.
  - intros i hj' Hi HI.
    destruct (HB i hj' _ Hi HI) as (hj'' & B & HW); [reflexivity|].
    exists hj''. split; [exact B|]. apply (holds_ext _ _ _ _ _ _ _ HW).
    intros k c Hk Hcc.
    destruct (Z.eqb_spec k i), (Z.ltb_spec k i), (Z.ltb_spec k (i + 1));
      try reflexivity; try lia. now subst.
Qed.

(** ** The inverse ([Inv]) *)

Module InvSpec.

(** The matrix of [n] rows and [m] columns with entries [f i j]. *)
Definition tab (n m : nat) (f : nat -> nat -> float) : list (list float) :=
  map (fun i => map (f i) (seq 0 m)) (seq 0 n).

(** [[A | I]], of width [2n]. *)
Definition augment (n : nat) (A : list (list float)) : list (list float) :=
  tab n (2 * n) (fun i j =>
    if (j <? n)%nat then Mat.at_ A i j
    else if (j - n =? i)%nat then 1%float else 0%float).

Definition too_small (pivot : float) : bool :=
  (abs pivot <? Linalg.pivot_eps)%float.

(** One pivot row [i]: no row is swapped in; row [i] is divided by the
    pivot, and its multiple by the entry in column [i] is taken from
    every other row. *)
Definition step (n i : nat) (M : list (list float)) : option (list (list float)) :=
  let pivot := Mat.at_ M i i in
  if too_small pivot then None
  else Some (tab n (2 * n) (fun k j =>
               let normalized := (Mat.at_ M i j / pivot)%float in
               if (k =? i)%nat then normalized
               else (Mat.at_ M k j - Mat.at_ M k i * normalized)%float)).

(** The pivot rows [i], [i + 1], ..., [i + count - 1] in order. *)
Fixpoint reduce (n i count : nat) (M : list (list float))
  : option (list (list float)) :=
  match count with
  | O => Some M
  | S c =>
      match step n i M with
      | Some M' => reduce n (S i) c M'
      | None => None
      end
  end.

Definition right_half (n : nat) (M : list (list float)) : list (list float) :=
  tab n n (fun i j => Mat.at_ M i (j + n)).

Definition inverse (n : nat) (A : list (list float)) : option (list (list float)) :=
  option_map (right_half n) (reduce n 0 n (augment n A)).

(** A matrix as a function of its indices. *)
Definition entries (M : list (list float)) : Z -> Z -> float :=
  fun i j => Mat.at_ M (Z.to_nat i) (Z.to_nat j).

End InvSpec.

Lemma at_tab n m f i j :
  (i < n)%nat -> (j < m)%nat -> Mat.at_ (InvSpec.tab n m f) i j = f i j.
Proof.
  intros Hi Hj. unfold Mat.at_, InvSpec.tab.
  rewrite (nth_tabulate (fun i => map (f i) (seq 0 m))) by exact Hi.
  now rewrite nth_tabulate.
Qed.

Lemma pivot_step_run h0 aug n hj (F : Z -> Z -> float) i :
  Grid.holds h0 aug n (2 * n) F hj -> 0 <= i < n -> 2 * n <= GoInt.max_int ->
  if InvSpec.too_small (F i i)
  then Linalg.pivot_step aug n i hj = Err SingularMatrixError
  else exists hj',
         Linalg.pivot_step aug n i hj = Ok (tt, hj')
         /\ Grid.holds h0 aug n (2 * n)
              (fun k c => if k =? i then (F i c / F i i)%float
                          else (F k c - F k i * (F i c / F i i))%float) hj'.
Proof.
  intros H Hi Big. unfold Linalg.pivot_step.
  rewrite (bind_ok_intro _ _ _ _ _ (holds_read _ _ _ _ _ _ i i H ltac:(lia) ltac:(lia))).
  unfold InvSpec.too_small. set (p := F i i).
  destruct (abs p <? Linalg.pivot_eps)%float; [reflexivity|].
  rewrite mul_small by lia.
  (* the pivot row *)
  match goal with |- context [bind (for_each ?cnt ?bd) _] =>
    destruct (row_loop h0 aug n (2 * n) F hj i (fun c => (F i c / p)%float) bd cnt H)
      as (h1 & E1 & H1); [lia | lia | |]
  end.
  { intros j hj' F' Hj HJ EF.
    rewrite (bind_ok_intro _ _ _ _ _
               (holds_read _ _ _ _ _ _ i j HJ ltac:(lia) ltac:(lia))).
    rewrite EF by lia. rewrite Z.ltb_irrefl, andb_false_r. reflexivity. }
  rewrite (bind_ok_intro _ _ _ _ _ E1).
  set (Fn := fun k c => if (k =? i) && (c <? 2 * n) then (F i c / p)%float else F k c) in *.
  (* the other rows *)
  match goal with |- context [for_each ?cnt ?bd h1] =>
    destruct (rows_loop h0 aug n (2 * n) Fn
                (fun k c => if k =? i then Fn k c
                            else (Fn k c - Fn k i * Fn i c)%float)
                h1 bd cnt H1) as (h2 & E2 & H2); [lia | |]
  end.
  { intros k hk F' Hk HK EF.
    destruct (Z.eqb_spec k i) as [->|NE].
    - exists hk. split; [reflexivity|].
      apply (holds_ext _ _ _ _ _ _ _ HK). intros k c Hk' Hc.
      destruct (Z.eqb_spec k i) as [->|]; [|reflexivity].
      rewrite EF by lia. now rewrite Z.ltb_irrefl.
    - rewrite (bind_ok_intro _ _ _ _ _
                 (holds_read _ _ _ _ _ _ k i HK ltac:(lia) ltac:(lia))).
      match goal with |- context [for_each ?cnt ?bd hk] =>
        destruct (row_loop h0 aug n (2 * n) F' hk k
                    (fun c => (Fn k c - Fn k i * Fn i c)%float) bd cnt HK)
          as (h3 & E3 & H3); [lia | lia | |]
      end.
      + intros j hj' F'' Hj HJ EF'.
        rewrite (bind_ok_intro _ _ _ _ _
                   (holds_read _ _ _ _ _ _ k j HJ ltac:(lia) ltac:(lia))).
        rewrite (bind_ok_intro _ _ _ _ _
                   (holds_read _ _ _ _ _ _ i j HJ ltac:(lia) ltac:(lia))).
        rewrite !EF' by lia. rewrite Z.ltb_irrefl, andb_false_r.
        replace (i =? k) with false by lia. cbn [andb].
        rewrite !EF by lia. rewrite Z.ltb_irrefl.
        replace (if i <? k then if i =? i then Fn i j else (Fn i j - Fn i i * Fn i j)%float
                 else Fn i j) with (Fn i j)
          by (rewrite Z.eqb_refl; now destruct (i <? k)).
        reflexivity.
      + exists h3. split; [exact E3|].
        apply (holds_ext _ _ _ _ _ _ _ H3). intros k' c Hk' Hc.
        replace (k =? i) with false by lia.
        replace (c <? 2 * n) with true by lia. now rewrite andb_true_r. }
  exists h2. split; [exact E2|].
  apply (holds_ext _ _ _ _ _ _ _ H2). intros k c Hk Hc.
  replace (k <? n) with true by lia. unfold Fn.
  rewrite Z.eqb_refl. replace (c <? 2 * n) with true by lia.
  replace (i <? 2 * n) with true by lia. cbn [andb].
  destruct (Z.eqb_spec k i) as [->|NE]; cbn [andb]; reflexivity.
Qed.

Lemma iter_reduce n (count : nat) : forall i M,
  iter_range (Z.of_nat i) count
    (fun j M => match InvSpec.step n (Z.to_nat j) M with
                | Some M' => Ok M'
                | None => Err SingularMatrixError
                end) M
  = match InvSpec.reduce n i count M with
    | Some M' => Ok M'
    | None => Err SingularMatrixError
    end.
Proof.
  induction count as [|c IH]; intros i M; [reflexivity|].
  cbn [iter_range InvSpec.reduce]. rewrite Nat2Z.id.
  destruct (InvSpec.step n i M) as [M'|]; [|reflexivity].
  replace (Z.of_nat i + 1) with (Z.of_nat (S i)) by lia. apply IH.
Qed.

(** The first pivot that is too small stops the reduction. *)
Lemma reduce_none n (count : nat) : forall i M,
  InvSpec.reduce n i count M = None
  <-> exists k M', (k < count)%nat
        /\ InvSpec.reduce n i k M = Some M'
        /\ InvSpec.too_small (Mat.at_ M' (i + k) (i + k)) = true.
Proof.
  induction count as [|c IH]; intros i M.
  - split; [discriminate|]. intros (k & _ & Hk & _). lia.
  - cbn [InvSpec.reduce].
    destruct (InvSpec.too_small (Mat.at_ M i i)) eqn:T.
    + assert (ST : InvSpec.step n i M = None) by (unfold InvSpec.step; now rewrite T).
      rewrite ST. split; [|reflexivity]. intros _. exists 0%nat, M.
      split; [lia|]. split; [reflexivity|]. now rewrite Nat.add_0_r.
    + assert (ST : InvSpec.step n i M
                   = Some (InvSpec.tab n (2 * n) (fun k j =>
                       let normalized := (Mat.at_ M i j / Mat.at_ M i i)%float in
                       if (k =? i)%nat then normalized
                       else (Mat.at_ M k j - Mat.at_ M k i * normalized)%float)))
        by (unfold InvSpec.step; now rewrite T).
      rewrite ST, IH. split.
      * intros (k & M' & Hk & R & TS). exists (S k), M'. split; [lia|].
        cbn [InvSpec.reduce]. rewrite ST. split; [exact R|].
        now replace (i + S k)%nat with (S i + k)%nat by lia.
      * intros (k & M' & Hk & R & TS). destruct k as [|k].
        -- cbn in R. injection R as <-. rewrite Nat.add_0_r in TS. congruence.
        -- cbn [InvSpec.reduce] in R. rewrite ST in R. exists k, M'.
           split; [lia|]. split; [exact R|].
           now replace (S i + k)%nat with (i + S k)%nat by lia.
Qed.

Lemma zeros_hold h r n m :
  let zeros := repeat x00 (Z.to_nat (8 * Layout.prodZ [n; m])) in
  View.backs (h ++ [zeros]) r zeros -> shape r = [n; m] -> dtype r = Float64 ->
  Grid.holds (h ++ [zeros]) r n m (fun _ _ => 0%float) (h ++ [zeros]).
Proof.
  intros zeros V S D. apply (holds_ext _ _ _ _ _ _ _ (holds_intro _ _ _ _ _ V S D)).
  intros i j Hi Hj. unfold Mat.entry, zeros.
  apply get_zeros; [reflexivity|nia|].
  cbn [ItemSize Layout.prodZ fold_right]. nia.
Qed.

Lemma Inv_run (h : heap) (a : NDArray) (buf : buffer) (n : nat) :
  View.backs h a buf -> shape a = [Z.of_nat n; Z.of_nat n] ->
  16 * (Z.of_nat n * Z.of_nat n) <= GoInt.max_int ->
  let N := Z.of_nat n in
  let A := Mat.rows (dtype a) buf N N in
  match InvSpec.reduce n 0 n (InvSpec.augment n A) with
  | Some M =>
      exists bufA bufR : buffer,
        let r := mkNDArray (length (h ++ [bufA])) [N; N] (Layout.strides_of [N; N] 8)
                   Float64 (Layout.prodZ [N; N]) (len [N; N]) in
        Linalg.Inv a h = Ok (r, (h ++ [bufA]) ++ [bufR])
        /\ View.backs ((h ++ [bufA]) ++ [bufR]) r bufR
        /\ forall i j, 0 <= i < N -> 0 <= j < N ->
             Mat.entry Float64 bufR N i j = InvSpec.entries M i (j + N)
  | None => Linalg.Inv a h = Err SingularMatrixError
  end.
Proof.
  intros V SH Big N A. fold N in SH, Big.
  pose proof V as (Sup & ND & _ & _ & (Fp & _) & NE & _).
  rewrite SH in Fp, ND. pose proof (Forall_inv Fp) as NP. cbv beta in NP.
  change (len [N; N]) with 2 in ND.
  assert (DA : (data a < length h)%nat) by (apply nth_error_Some; congruence).
  unfold Linalg.Inv. rewrite ND, SH. cbn [nth negb Z.eqb Pos.eqb].
  rewrite Z.eqb_refl. cbn [negb].
  assert (N2 : 2 * N <= GoInt.max_int) by nia.
  rewrite (mul_small 2 N) by lia.
  assert (FA : Layout.fits [N; 2 * N] 8).
  { split; [repeat constructor; lia|]. split; [lia|].
    cbn [Layout.prodZ fold_right]. nia. }
  assert (FR : Layout.fits [N; N] 8).
  { split; [repeat constructor; lia|]. split; [lia|].
    cbn [Layout.prodZ fold_right]. nia. }
  destruct (Zeros_backs [N; 2 * N] Float64 h ltac:(discriminate) eq_refl FA) as [ZE ZB].
  cbn [ItemSize] in ZE, ZB.
  set (aug := mkNDArray (length h) [N; 2 * N] (Layout.strides_of [N; 2 * N] 8)
                Float64 (Layout.prodZ [N; 2 * N]) (len [N; 2 * N])) in *.
  set (zeros := repeat x00 (Z.to_nat (8 * Layout.prodZ [N; 2 * N]))) in *.
  set (h0 := h ++ [zeros]) in *.
  rewrite (bind_ok_intro _ _ _ _ _ ZE).
  pose proof (zeros_hold h aug N (2 * N) ZB eq_refl eq_refl) as H0. fold zeros h0 in H0.
  assert (Va : View.backs h0 a buf) by (apply backs_grow; exact V).
  assert (NA : data a <> data aug) by (cbn [data aug]; lia).
  set (Aij := Mat.entry (dtype a) buf N).
  (* [A | I] *)
  match goal with |- context [bind (for_each ?cnt ?bd) _] =>
    destruct (rows_loop h0 aug N (2 * N) (fun _ _ => 0%float)
                (fun i c => if c <? N then Aij i c
                            else if c - N =? i then 1%float else 0%float)
                h0 bd cnt H0) as (h1 & E1 & H1); [lia | |]
  end.
  { intros i hi F' Hi HI EF.
    match goal with |- context [bind (for_each ?cnt ?bd) _] =>
      destruct (row_loop h0 aug N (2 * N) F' hi i (fun c => Aij i c) bd cnt HI)
        as (h2 & E2 & H2); [lia | lia | |]
    end.
    { intros j hj F'' Hj HJ _.
      rewrite (bind_ok_intro _ _ _ _ _
                 (GetFloat64_entry _ a buf N N i j
                    (holds_other _ _ _ _ _ _ _ _ HJ Va NA) SH Hi Hj)).
      reflexivity. }
    rewrite (bind_ok_intro _ _ _ _ _ E2). rewrite add_small by lia.
    destruct (holds_write _ _ _ _ _ _ i (i + N) 1 H2) as (h3 & W & H3); [lia|lia|].
    exists h3. split; [exact W|].
    apply (holds_ext _ _ _ _ _ _ _ H3). intros k c Hk Hc. unfold Grid.upd.
    destruct (Z.eqb_spec k i) as [->|NK]; cbn [andb]; [|reflexivity].
    destruct (Z.eqb_spec c (i + N)) as [->|NC].
    - replace (i + N <? N) with false by lia.
      replace (i + N - N =? i) with true by lia. reflexivity.
    - destruct (Z.ltb_spec c N); [reflexivity|].
      replace (c - N =? i) with false by lia.
      rewrite EF by lia. now rewrite Z.ltb_irrefl. }
  rewrite (bind_ok_intro _ _ _ _ _ E1).
  (* the pivot rows *)
  set (M0 := InvSpec.augment n A).
  assert (R0 : Grid.holds h0 aug N (2 * N) (InvSpec.entries M0) h1).
  { apply (holds_ext _ _ _ _ _ _ _ H1). intros i c Hi Hc.
    replace (i <? N) with true by lia.
    unfold InvSpec.entries, M0, InvSpec.augment. rewrite at_tab by lia.
    destruct (Z.ltb_spec c N); destruct (Nat.ltb_spec (Z.to_nat c) n); try lia.
    - unfold A. rewrite rows_at by lia. unfold Aij. now rewrite !Z2Nat.id by lia.
    - destruct (Z.eqb_spec (c - N) i); destruct (Nat.eqb_spec (Z.to_nat c - n) (Z.to_nat i));
        try reflexivity; lia. }
  pose proof (for_range_sim
    (fun M (_ : unit) hj => Grid.holds h0 aug N (2 * N) (InvSpec.entries M) hj)
    (fun j M => match InvSpec.step n (Z.to_nat j) M with
                | Some M' => Ok M'
                | None => Err SingularMatrixError
                end)
    (fun i (_ : unit) => Linalg.pivot_step aug N i)
    (Z.to_nat N) 0 M0 tt h1 R0) as SIM.
  pose proof (iter_reduce n (Z.to_nat N) 0 M0) as IR.
  change (Z.of_nat 0) with 0 in IR. rewrite IR in SIM. clear IR.
  replace (Z.to_nat N) with n in SIM by (unfold N; now rewrite Nat2Z.id).
  assert (FE : for_each N (fun i => Linalg.pivot_step aug N i) h1
               = for_range 0 n (fun i (_ : unit) => Linalg.pivot_step aug N i) tt h1).
  { unfold for_each, for_upto, N. now rewrite Nat2Z.id. }
  assert (STEP : forall j M (s : unit) hj, 0 <= j < 0 + Z.of_nat n ->
            Grid.holds h0 aug N (2 * N) (InvSpec.entries M) hj ->
            match match InvSpec.step n (Z.to_nat j) M with
                  | Some M' => Ok M'
                  | None => Err SingularMatrixError
                  end with
            | Ok M' => exists (s' : unit) h', Linalg.pivot_step aug N j hj = Ok (s', h')
                         /\ Grid.holds h0 aug N (2 * N) (InvSpec.entries M') h'
            | Err e => Linalg.pivot_step aug N j hj = Err e
            end).
  { intros j M s hj Hj HJ.
    pose proof (pivot_step_run h0 aug N hj _ j HJ ltac:(lia) ltac:(lia)) as P.
    unfold InvSpec.step.
    change (Mat.at_ M (Z.to_nat j) (Z.to_nat j)) with (InvSpec.entries M j j).
    destruct (InvSpec.too_small (InvSpec.entries M j j)); [exact P|].
    destruct P as (h' & E & H'). exists tt, h'. split; [exact E|].
    apply (holds_ext _ _ _ _ _ _ _ H'). intros k c Hk Hc.
    unfold InvSpec.entries. rewrite at_tab by lia. cbv zeta.
    destruct (Z.eqb_spec k j); destruct (Nat.eqb_spec (Z.to_nat k) (Z.to_nat j));
      try lia; reflexivity. }
  specialize (SIM STEP). rewrite <- FE in SIM.
  destruct (InvSpec.reduce n 0 n M0) as [M|].
  2:{ rewrite (bind_err _ _ _ SingularMatrixError); [reflexivity | exact SIM]. }
  destruct SIM as ([] & h2 & E2 & H2).
  rewrite (bind_ok_intro _ _ _ tt h2) by exact E2.
  (* the right half *)
  destruct H2 as (bufA & EH & VA & _ & _ & GA).
  assert (EH' : h2 = h ++ [bufA]).
  { rewrite EH. unfold h0. cbn [data aug]. apply set_nth_last. }
  clear EH. subst h2.
  destruct (Zeros_backs [N; N] Float64 (h ++ [bufA]) ltac:(discriminate) eq_refl FR)
    as [ZE2 ZB2].
  cbn [ItemSize] in ZE2, ZB2.
  set (res := mkNDArray (length (h ++ [bufA])) [N; N] (Layout.strides_of [N; N] 8)
                Float64 (Layout.prodZ [N; N]) (len [N; N])) in *.
  set (zeros2 := repeat x00 (Z.to_nat (8 * Layout.prodZ [N; N]))) in *.
  rewrite (bind_ok_intro _ _ _ _ _ ZE2).
  pose proof (zeros_hold (h ++ [bufA]) res N N ZB2 eq_refl eq_refl) as HR0.
  fold zeros2 in HR0.
  assert (VA' : View.backs ((h ++ [bufA]) ++ [zeros2]) aug bufA)
    by (apply backs_grow; exact VA).
  assert (NR : data aug <> data res)
    by (cbn [data aug res]; rewrite length_app; simpl; lia).
  match goal with |- context [bind (for_each ?cnt ?bd) _] =>
    destruct (rows_loop ((h ++ [bufA]) ++ [zeros2]) res N N (fun _ _ => 0%float)
                (fun i c => InvSpec.entries M i (c + N))
                ((h ++ [bufA]) ++ [zeros2]) bd cnt HR0) as (h3 & E3 & H3); [lia | |]
  end.
  { intros i hi F' Hi HI EF.
    match goal with |- context [for_each ?cnt ?bd hi] =>
      destruct (row_loop ((h ++ [bufA]) ++ [zeros2]) res N N F' hi i
                  (fun c => InvSpec.entries M i (c + N)) bd cnt HI)
        as (h4 & E4 & H4); [lia | lia | |]
    end.
    - intros j hj F'' Hj HJ _. rewrite add_small by lia.
      rewrite (bind_ok_intro _ _ _ _ _
                 (GetFloat64_entry _ aug bufA N (2 * N) i (j + N)
                    (holds_other _ _ _ _ _ _ _ _ HJ VA' NR) eq_refl Hi ltac:(lia))).
      cbn [dtype aug]. rewrite GA by lia. reflexivity.
    - exists h4. split; [exact E4|].
      apply (holds_ext _ _ _ _ _ _ _ H4). intros k c Hk Hc.
      replace (c <? N) with true by lia. now rewrite andb_true_r. }
  rewrite (bind_ok_intro _ _ _ _ _ E3).
  destruct H3 as (bufR & EH & VR & _ & _ & GR).
  assert (EH' : h3 = (h ++ [bufA]) ++ [bufR]).
  { rewrite EH. cbn [data res]. apply set_nth_last. }
  clear EH. subst h3. exists bufA, bufR. split; [reflexivity|]. split; [exact VR|].
  intros i j Hi Hj. rewrite GR by lia. now replace (i <? N) with true by lia.
Qed.

Lemma Inv_examples :
  (exists a h, FromSliceFloat64 [0; 0; 0; 0]%float [2; 2] [] = Ok (a, h)
               /\ Linalg.Inv a h = Err SingularMatrixError)
  /\ (exists a h, FromSliceFloat64 [0; 1; 1; 0]%float [2; 2] [] = Ok (a, h)
                  /\ Linalg.Inv a h = Err SingularMatrixError)
  /\ (exists a h r h',
        FromSliceFloat64 [2; 0; 0; 4]%float [2; 2] [] = Ok (a, h)
        /\ Linalg.Inv a h = Ok (r, h')
        /\ ToSliceFloat64 r h' = Ok ([0.5; 0; 0; 0.25]%float, h')).
Proof.
  split; [|split].
  - eexists _, _. split; [vm_compute; reflexivity|]. vm_compute. reflexivity.
  - eexists _, _. split; [vm_compute; reflexivity|]. vm_compute. reflexivity.
  - eexists _, _, _, _. split; [vm_compute; reflexivity|].
    split; [vm_compute; reflexivity|]. vm_compute. reflexivity.
Qed.

(** X8.  For a square matrix [a] of size [n] backed by a buffer of the
    store, [Inv] is Gauss-Jordan elimination on [[A | I]] without row
    swaps: it goes through the pivot rows in order, fails with
    [SingularMatrixError] at the first row whose diagonal entry of the
    matrix reduced so far is below [1e-10] in absolute value, and
    otherwise divides the pivot row by the pivot and takes its multiple
    by the entry of column [i] from every other row; when no pivot is
    too small it returns the right half as a fresh [Float64] array and
    changes no existing buffer.  The zero matrix fails, and so does the
    invertible [[0,1],[1,0]], whose first pivot is 0. *)
Theorem Inv_gauss_jordan (h : heap) (a : NDArray) (buf : buffer) (n : nat) :
  View.backs h a buf -> shape a = [Z.of_nat n; Z.of_nat n] ->
  16 * (Z.of_nat n * Z.of_nat n) <= GoInt.max_int ->
  let A := Mat.rows (dtype a) buf (Z.of_nat n) (Z.of_nat n) in
  match InvSpec.inverse n A with
  | Some R =>
      exists r h',
        Linalg.Inv a h = Ok (r, h')
        /\ Frame.extends h h' /\ (length h <= data r)%nat
        /\ shape r = [Z.of_nat n; Z.of_nat n] /\ dtype r = Float64
        /\ forall i j, (i < n)%nat -> (j < n)%nat ->
             GetFloat64 r [Z.of_nat i; Z.of_nat j] h' = Ok (Mat.at_ R i j, h')
  | None => Linalg.Inv a h = Err SingularMatrixError
  end
  /\ (InvSpec.inverse n A = None
      <-> exists i M, (i < n)%nat
            /\ InvSpec.reduce n 0 i (InvSpec.augment n A) = Some M
            /\ InvSpec.too_small (Mat.at_ M i i) = true)
  /\ (exists x hx, FromSliceFloat64 [0; 0; 0; 0]%float [2; 2] [] = Ok (x, hx)
                   /\ Linalg.Inv x hx = Err SingularMatrixError)
  /\ (exists x hx, FromSliceFloat64 [0; 1; 1; 0]%float [2; 2] [] = Ok (x, hx)
                   /\ Linalg.Inv x hx = Err SingularMatrixError).
Proof.
  intros V SH Big A.
  pose proof (Inv_run h a buf n V SH Big) as R. cbv zeta in R. fold A in R.
  split; [|split; [|split; [apply Inv_examples | apply Inv_examples]]].
  - unfold InvSpec.inverse.
    destruct (InvSpec.reduce n 0 n (InvSpec.augment n A)) as [M|]; [|exact R].
    destruct R as (bufA & bufR & E & VR & G). cbn [option_map].
    eexists _, _. split; [exact E|]. cbn [data shape dtype].
    split; [|split; [|split; [reflexivity|split; [reflexivity|]]]].
    + eapply extends_trans; apply extends_app.
    + rewrite length_app. lia.
    + intros i j Hi Hj.
      rewrite (GetFloat64_entry _ _ bufR (Z.of_nat n) (Z.of_nat n)) by (auto; lia).
      cbn [dtype]. rewrite G by lia. unfold InvSpec.entries, InvSpec.right_half.
      rewrite at_tab by lia. rewrite Nat2Z.id.
      replace (Z.to_nat (Z.of_nat j + Z.of_nat n)) with (j + n)%nat by lia. reflexivity.
  - unfold InvSpec.inverse.
    pose proof (reduce_none n n 0 (InvSpec.augment n A)) as RN. cbn [Nat.add] in RN.
    destruct (InvSpec.reduce n 0 n (InvSpec.augment n A)) as [M|]; cbn [option_map].
    + split; [discriminate|]. intros X. apply RN in X. discriminate.
    + split; [|reflexivity]. intros _. now apply RN.
Qed.

Lemma Inv_gauss_jordan_witness :
  let xs := [2; 0; 0; 4]%float in
  let buf := flat_map (fun v => Enc.le_encode 8 (Enc.Float64bits v)) xs in
  let a := mkNDArray 0 [2; 2] [16; 8] Float64 4 2 in
  View.backs [buf] a buf
  /\ exists r h', Linalg.Inv a [buf] = Ok (r, h')
                  /\ GetFloat64 r [1; 1] h' = Ok (0.25%float, h').
Proof.
  intros xs buf a.
  assert (V : View.backs [buf] a buf).
  { repeat split; try reflexivity; repeat constructor; vm_compute; congruence. }
  split; [exact V|].
  pose proof (Inv_gauss_jordan [buf] a buf 2 V eq_refl) as [R _];
    [vm_compute; discriminate|].
  assert (I : InvSpec.inverse 2 (Mat.rows (dtype a) buf (Z.of_nat 2) (Z.of_nat 2))
              = Some [[0.5; 0]; [0; 0.25]]%float) by (vm_compute; reflexivity).
  cbv zeta in R. rewrite I in R.
  destruct R as (r & h' & E & _ & _ & _ & _ & G).
  exists r, h'. split; [exact E|]. apply (G 1%nat 1%nat); lia.
Defined.


(** * Elementwise maps *)

(** A loop over the elements of the last array of the store that
    replaces element [j] by [f] of what it holds. *)
Lemma map_inv (h : heap) (r : NDArray) (buf0 : buffer) (body : Z -> M unit)
    (f : float -> float) :
  View.backs (h ++ [buf0]) r buf0 -> data r = length h ->
  (forall j (bufj : buffer), 0 <= j < Layout.prodZ (shape r) ->
     View.backs (h ++ [bufj]) r bufj ->
     body j (h ++ [bufj])
     = Ok (tt, h ++ [Elem.put (dtype r) bufj j (f (Elem.get (dtype r) bufj j))])) ->
  exists bufn : buffer,
    for_each (Layout.prodZ (shape r)) body (h ++ [buf0]) = Ok (tt, h ++ [bufn])
    /\ View.backs (h ++ [bufn]) r bufn
    /\ forall k, 0 <= k < Layout.prodZ (shape r) ->
         Elem.get (dtype r) bufn k = Elem.conv (dtype r) (f (Elem.get (dtype r) buf0 k)).
Proof.
  intros V D Hbody.
  pose proof V as (Sup & _ & _ & _ & (Fp & W & B) & _ & LB).
  pose proof (prodZ_pos _ Fp) as PP.
  destruct (for_each_inv
    (fun j hj => exists bufj : buffer, hj = h ++ [bufj]
       /\ View.backs (h ++ [bufj]) r bufj
       /\ (forall k, 0 <= k < j ->
             Elem.get (dtype r) bufj k
             = Elem.conv (dtype r) (f (Elem.get (dtype r) buf0 k)))
       /\ (forall k, j <= k < Layout.prodZ (shape r) ->
             Elem.get (dtype r) bufj k = Elem.get (dtype r) buf0 k))
    body (Layout.prodZ (shape r)) (h ++ [buf0])) as (h' & E & bufn & -> & VN & G & _).
  - lia.
  - exists buf0. split; [reflexivity|]. split; [exact V|]. split; [intros; lia | reflexivity].
  - intros j hj Hj (bufj & -> & VJ & Done & Rest).
    rewrite (Hbody j bufj Hj VJ).
    pose proof VJ as (_ & _ & _ & _ & _ & _ & LJ).
    eexists. split; [reflexivity|]. eexists. split; [reflexivity|].
    split; [|split].
    + rewrite <- (set_nth_last h bufj). rewrite <- D. apply (backs_set _ r bufj).
      * exact VJ.
      * apply put_length; nia.
    + intros k Hk. destruct (Z.eq_dec k j) as [->|NE].
      * rewrite get_put_same by (auto; nia). now rewrite Rest by lia.
      * rewrite get_put_other by (try nia; auto). apply Done. lia.
    + intros k Hk. rewrite get_put_other by (try nia; auto). apply Rest. lia.
  - exists bufn. split; [exact E|]. split; [exact VN|].
    intros k Hk. apply G. lia.
Qed.

(** The body of the loops of [AddScalar], [MulScalar] and [MeanAxis]. *)
Lemma update_body (h : heap) (r : NDArray) (bufj : buffer) (g : float -> float) j :
  View.backs (h ++ [bufj]) r bufj -> data r = length h ->
  0 <= j < Layout.prodZ (shape r) ->
  (indices <- lift (unravelIndex r j) ;;
   val <- GetFloat64 r indices ;;
   SetFloat64 r (g val) indices) (h ++ [bufj])
  = Ok (tt, h ++ [Elem.put (dtype r) bufj j (g (Elem.get (dtype r) bufj j))]).
Proof.
  intros VJ D Hj.
  destruct (unravel_of_fresh r _ bufj j VJ Hj) as (U & IS & RV).
  rewrite (bind_ok_intro _ _ _ (Layout.unravel (shape r) j) (h ++ [bufj]))
    by (rewrite U; reflexivity).
  rewrite (bind_ok_intro _ _ _ _ _ (GetFloat64_elem _ r bufj _ VJ IS)).
  rewrite (SetFloat64_elem _ r bufj _ _ VJ IS).
  now rewrite D, set_nth_last, RV.
Qed.

Lemma Copy_backs (h : heap) (a : NDArray) (buf : buffer) :
  View.backs h a buf ->
  let r := mkNDArray (length h) (shape a) (strides a) (dtype a) (size a) (ndim a) in
  Copy a h = Ok (r, h ++ [buf]) /\ View.backs (h ++ [buf]) r buf.
Proof.
  intros V r. pose proof V as (Sup & ND & SZ & ST & F & NE & LB).
  split.
  - unfold Copy, bind, Store.get, Store.alloc, ret. now rewrite NE.
  - unfold View.backs. cbn [dtype ndim size strides shape data r].
    repeat split; auto; try apply F. apply nth_error_last.
Qed.

Lemma scalar_op_spec (g : float -> float) (h : heap) (a : NDArray) (buf : buffer) :
  View.backs h a buf ->
  let r := mkNDArray (length h) (shape a) (strides a) (dtype a) (size a) (ndim a) in
  exists bufn : buffer,
    scalar_op g a h = Ok (r, h ++ [bufn])
    /\ View.backs (h ++ [bufn]) r bufn
    /\ forall k, 0 <= k < Layout.prodZ (shape a) ->
         Elem.get (dtype a) bufn k = Elem.conv (dtype a) (g (Elem.get (dtype a) buf k)).
Proof.
  intros V r. destruct (Copy_backs h a buf V) as [CE CB]. fold r in CE, CB.
  pose proof V as (_ & _ & SZ & _).
  destruct (map_inv h r buf
              (fun i => indices <- lift (unravelIndex r i) ;;
                        val <- GetFloat64 r indices ;;
                        SetFloat64 r (g val) indices) g CB eq_refl)
    as (bufn & E & VN & G).
  - intros j bufj Hj VJ. now apply update_body.
  - exists bufn. unfold scalar_op. rewrite (bind_ok_intro _ _ _ _ _ CE).
    cbn [size shape r dtype] in *. rewrite SZ.
    rewrite (bind_ok_intro _ _ _ _ _ E). auto.
Qed.

(** X9.  [AddScalar] and [MulScalar] return a fresh array with the
    shape, strides and dtype of their operand whose element at an index
    is the operand's element plus (times) the scalar, stored at that
    dtype, wherever that result is a value the dtype holds (always so
    for the float types); the operand reads as before. *)
Theorem scalar_operations_elementwise (h : heap) (a : NDArray) (buf : buffer)
    (scalar : float) :
  View.backs h a buf ->
  forall f op,
    In (f, op) [(AddScalar, PrimFloat.add); (MulScalar, PrimFloat.mul)] ->
    exists r bufn,
      f a scalar h = Ok (r, h ++ [bufn])
      /\ data r = length h /\ shape r = shape a /\ dtype r = dtype a
      /\ forall idx, Layout.in_shape (shape a) idx ->
           exists x,
             GetFloat64 a idx h = Ok (x, h)
             /\ GetFloat64 a idx (h ++ [bufn]) = Ok (x, h ++ [bufn])
             /\ (Elem.held (dtype a) (op x scalar) = true ->
                 GetFloat64 r idx (h ++ [bufn])
                 = Ok (Elem.conv (dtype a) (op x scalar), h ++ [bufn])).
Proof.
  intros V f op IN.
  assert (E : f a scalar = scalar_op (fun val => op val scalar) a).
  { destruct IN as [X|[X|[]]]; injection X as <- <-; reflexivity. }
  destruct (scalar_op_spec (fun val => op val scalar) h a buf V) as (bufn & R & VN & G).
  eexists _, bufn. rewrite E. split; [exact R|]. cbn [data shape dtype].
  repeat (split; [reflexivity|]).
  intros idx D. exists (Elem.get (dtype a) buf (Layout.ravel (shape a) idx)).
  split; [now apply GetFloat64_elem|].
  split; [apply GetFloat64_elem; [now apply backs_grow | exact D]|].
  intros _. rewrite (GetFloat64_elem _ _ bufn idx VN) by exact D.
  cbn [shape dtype]. now rewrite G by (apply ravel_bounds; exact D).
Qed.

Lemma scalar_operations_elementwise_witness :
  let buf := flat_map (Enc.le_encode 2) [1; 2; 3; 4] in
  let a := mkNDArray 0 [2; 2] [4; 2] Int16 4 2 in
  View.backs [buf] a buf
  /\ exists r bufn,
       MulScalar a 2.5 [buf] = Ok (r, [buf; bufn])
       /\ GetFloat64 r [1; 0] [buf; bufn] = Ok (7%float, [buf; bufn]).
Proof.
  intros buf a.
  assert (V : View.backs [buf] a buf).
  { repeat split; try reflexivity; repeat constructor; vm_compute; congruence. }
  split; [exact V|].
  destruct (scalar_operations_elementwise [buf] a buf 2.5 V MulScalar PrimFloat.mul)
    as (r & bufn & E & _ & _ & _ & G); [right; left; reflexivity|].
  exists r, bufn. split; [exact E|].
  destruct (G [1; 0]) as (x & X & _ & R); [repeat constructor; lia|].
  assert (X3 : GetFloat64 a [1; 0] [buf] = Ok (3%float, [buf])) by (vm_compute; reflexivity).
  rewrite X3 in X. injection X as <-.
  assert (C : Elem.conv Int16 (3 * 2.5) = 7%float) by (vm_compute; reflexivity).
  rewrite <- C. exact (R eq_refl).
Defined.

(** The common body of [Pow], [Sqrt], [Exp], [Log], [Sin], [Cos], [Neg]
    and [Abs], which differ in the function applied to [val] only. *)
Definition map_float (f : float -> float) (a : NDArray) : M NDArray :=
  result <- Zeros (shape a) (dtype a) ;;
  for_each (size result) (fun i =>
    indices <- lift (unravelIndex result i) ;;
    val <- GetFloat64 a indices ;;
    SetFloat64 result (f val) indices) ;;
  ret result.

Definition Neg : NDArray -> M NDArray := map_float PrimFloat.opp.
Definition Abs : NDArray -> M NDArray := map_float PrimFloat.abs.
Definition Sqrt : NDArray -> M NDArray := map_float PrimFloat.sqrt.

Section MathLibrary.

Variable math_Pow : float -> float -> float.
Variable math_Exp math_Log math_Sin math_Cos : float -> float.

Definition Pow (a : NDArray) (exponent : float) : M NDArray :=
  map_float (fun val => math_Pow val exponent) a.
Definition Exp : NDArray -> M NDArray := map_float math_Exp.
Definition Log : NDArray -> M NDArray := map_float math_Log.
Definition Sin : NDArray -> M NDArray := map_float math_Sin.
Definition Cos : NDArray -> M NDArray := map_float math_Cos.

End MathLibrary.

Lemma map_float_spec (f : float -> float) (h : heap) (a : NDArray) (buf : buffer) :
  View.backs h a buf -> shape a <> [] ->
  let r := mkNDArray (length h) (shape a)
             (Layout.strides_of (shape a) (ItemSize (dtype a))) (dtype a)
             (Layout.prodZ (shape a)) (len (shape a)) in
  exists bufn : buffer,
    map_float f a h = Ok (r, h ++ [bufn])
    /\ View.backs (h ++ [bufn]) r bufn
    /\ forall k, 0 <= k < Layout.prodZ (shape a) ->
         Elem.get (dtype a) bufn k = Elem.conv (dtype a) (f (Elem.get (dtype a) buf k)).
Proof.
  intros V NN r. pose proof V as (Sup & _ & _ & _ & F & _).
  destruct (Zeros_backs (shape a) (dtype a) h NN Sup F) as [ZE ZB]. fold r in ZE, ZB.
  set (zeros := repeat x00 (Z.to_nat (ItemSize (dtype a) * Layout.prodZ (shape a)))) in *.
  destruct (fill_inv h r zeros
              (fun i => indices <- lift (unravelIndex r i) ;;
                        val <- GetFloat64 a indices ;;
                        SetFloat64 r (f val) indices)
              (fun k => Some (f (Elem.get (dtype a) buf k))) ZB eq_refl)
    as (bufn & E & VN & G).
  - intros j bufj Hj VJ.
    destruct (unravel_of_fresh r _ bufj j VJ Hj) as (U & IS & RV).
    rewrite (bind_ok_intro _ _ _ (Layout.unravel (shape r) j) (h ++ [bufj]))
      by (rewrite U; reflexivity).
    rewrite (bind_ok_intro _ _ _ _ _
               (GetFloat64_elem _ a buf _ (backs_grow _ _ _ [bufj] V) IS)).
    rewrite (SetFloat64_elem _ r bufj _ _ VJ IS).
    cbn [data shape dtype r] in *. now rewrite set_nth_last, RV.
  - exists bufn. unfold map_float. rewrite (bind_ok_intro _ _ _ _ _ ZE).
    cbn [size shape r dtype] in *. rewrite (bind_ok_intro _ _ _ _ _ E). auto.
Qed.

(** X10.  [Neg], [Abs] and [Sqrt], and with them [Pow], [Exp], [Log],
    [Sin] and [Cos] for whatever the math library computes, return a
    fresh C-contiguous array of the operand's shape and dtype whose
    element at an index is the function applied to the operand's
    element, stored at that dtype, wherever that result is a value the
    dtype holds (always so for the float types). *)
Theorem unary_maps_elementwise (h : heap) (a : NDArray) (buf : buffer) :
  View.backs h a buf -> shape a <> [] ->
  let result_of (m : NDArray -> M NDArray) (f : float -> float) :=
    exists r bufn,
      m a h = Ok (r, h ++ [bufn])
      /\ data r = length h /\ shape r = shape a /\ dtype r = dtype a
      /\ forall idx, Layout.in_shape (shape a) idx ->
           exists x,
             GetFloat64 a idx h = Ok (x, h)
             /\ (Elem.held (dtype a) (f x) = true ->
                 GetFloat64 r idx (h ++ [bufn])
                 = Ok (Elem.conv (dtype a) (f x), h ++ [bufn])) in
  result_of Neg PrimFloat.opp /\ result_of Abs PrimFloat.abs
  /\ result_of Sqrt PrimFloat.sqrt
  /\ forall pow exp log sin cos exponent,
       result_of (fun x => Pow pow x exponent) (fun v => pow v exponent)
       /\ result_of (Exp exp) exp /\ result_of (Log log) log
       /\ result_of (Sin sin) sin /\ result_of (Cos cos) cos.
Proof.
  intros V NN result_of.
  assert (R : forall f, result_of (map_float f) f).
  { intros f. destruct (map_float_spec f h a buf V NN) as (bufn & E & VN & G).
    eexists _, bufn. split; [exact E|]. cbn [data shape dtype].
    repeat (split; [reflexivity|]).
    intros idx D. exists (Elem.get (dtype a) buf (Layout.ravel (shape a) idx)).
    split; [now apply GetFloat64_elem|].
    intros _. rewrite (GetFloat64_elem _ _ bufn idx VN) by exact D.
    cbn [shape dtype]. now rewrite G by (apply ravel_bounds; exact D). }
  split; [apply R|]. split; [apply R|]. split; [apply R|].
  intros pow exp log sin cos exponent. repeat split; apply R.
Qed.

Lemma unary_maps_elementwise_witness :
  let buf := flat_map (Enc.le_encode 1) [1; 4; 10; 16] in
  let a := mkNDArray 0 [2; 2] [2; 1] Uint8 4 2 in
  View.backs [buf] a buf
  /\ exists r bufn,
       Sqrt a [buf] = Ok (r, [buf; bufn])
       /\ GetFloat64 r [1; 0] [buf; bufn] = Ok (3%float, [buf; bufn]).
Proof.
  intros buf a.
  assert (V : View.backs [buf] a buf).
  { repeat split; try reflexivity; repeat constructor; vm_compute; congruence. }
  split; [exact V|].
  destruct (unary_maps_elementwise [buf] a buf V) as (_ & _ & S & _); [discriminate|].
  destruct S as (r & bufn & E & _ & _ & _ & G).
  exists r, bufn. split; [exact E|].
  destruct (G [1; 0]) as (x & X & R); [repeat constructor; lia|].
  assert (X10 : GetFloat64 a [1; 0] [buf] = Ok (10%float, [buf]))
    by (vm_compute; reflexivity).
  rewrite X10 in X. injection X as <-.
  assert (C : Elem.conv Uint8 (PrimFloat.sqrt 10) = 3%float) by (vm_compute; reflexivity).
  rewrite <- C. exact (R eq_refl).
Defined.

(** ** Means along an axis *)

(** [MeanAxis]: after [SumAxis] normalised its own copy of [axis], the
    divisor is read from [a.shape[axis]] with the axis as it was
    passed. *)
Definition MeanAxis (a : NDArray) (axis : Z) : M NDArray :=
  sumResult <- SumAxis a axis ;;
  if (axis <? 0) || (axis >=? len (shape a)) then fail RuntimePanic
  else
    let divisor := Enc.of_int (nth (Z.to_nat axis) (shape a) 0) in
    for_each (size sumResult) (fun i =>
      indices <- lift (unravelIndex sumResult i) ;;
      val <- GetFloat64 sumResult indices ;;
      SetFloat64 sumResult (val / divisor)%float indices) ;;
    ret sumResult.

(** X11.  [MeanAxis] never returns for a negative axis: where [SumAxis]
    accepts the axis, counting from the last one, [MeanAxis] then panics
    on reading the extent at the negative position.  For an axis from 0
    it returns a fresh array of the shape and dtype of the result of
    [SumAxis]; its element at an index is the sum of that slot divided
    by the extent of the reduced axis, stored at the dtype of the array,
    wherever every partial sum of the slot and the quotient are values
    the dtype holds (always so for the float types). *)
Theorem MeanAxis_axis (h : heap) (a : NDArray) (buf : buffer) (axis : Z) :
  View.backs h a buf ->
  2 <= ndim a <= GoInt.max_int ->
  - ndim a <= axis < ndim a ->
  let c := SumAxisSpec.axis_of (ndim a) axis in
  (axis < 0 ->
   (exists s hs, SumAxis a axis h = Ok (s, hs))
   /\ MeanAxis a axis h = Err RuntimePanic)
  /\ (0 <= axis ->
      exists r bufn,
        MeanAxis a axis h = Ok (r, h ++ [bufn])
        /\ data r = length h
        /\ shape r = SumAxisSpec.drop c (shape a) /\ dtype r = dtype a
        /\ forall dst, Layout.in_shape (shape r) dst ->
             let sum := SumAxisSpec.total (dtype a) (Elem.get (dtype a) buf) (shape a) c
                          (Layout.ravel (shape r) dst) in
             let mean := (sum / Enc.of_int (nth (Z.to_nat axis) (shape a) 0%Z))%float in
             SumAxisSpec.held (dtype a) (Elem.get (dtype a) buf) (shape a) c
               (Layout.ravel (shape r) dst) = true ->
             Elem.held (dtype a) mean = true ->
             GetFloat64 r dst (h ++ [bufn])
             = Ok (Elem.conv (dtype a) mean, h ++ [bufn])).
Proof.
  intros V N AX c.
  destruct (SumAxis_spec h a buf axis V N AX) as (buf' & E & V' & G).
  fold c in E, V', G.
  set (rshape := SumAxisSpec.drop c (shape a)) in *.
  set (r := mkNDArray (length h) rshape (Layout.strides_of rshape (ItemSize (dtype a)))
              (dtype a) (Layout.prodZ rshape) (len rshape)) in *.
  pose proof V as (_ & ND & _).
  split.
  - intros NEG. split; [eexists _, _; exact E|].
    unfold MeanAxis. rewrite (bind_ok_intro _ _ _ _ _ E).
    replace (axis <? 0) with true by lia. reflexivity.
  - intros POS.
    destruct (map_inv h r buf'
                (fun i => indices <- lift (unravelIndex r i) ;;
                          val <- GetFloat64 r indices ;;
                          SetFloat64 r (val / Enc.of_int (nth (Z.to_nat axis) (shape a) 0%Z))%float
                            indices)
                (fun val => (val / Enc.of_int (nth (Z.to_nat axis) (shape a) 0%Z))%float)
                V' eq_refl) as (bufn & EL & VN & GN).
    { intros j bufj Hj VJ.
      now apply (update_body h r bufj
                   (fun val => (val / Enc.of_int (nth (Z.to_nat axis) (shape a) 0%Z))%float)). }
    exists r, bufn. split.
    + unfold MeanAxis. rewrite (bind_ok_intro _ _ _ _ _ E).
      replace ((axis <? 0) || (axis >=? len (shape a))) with false
        by (symmetry; apply orb_false_iff; split;
            [apply Z.ltb_ge | rewrite Z.geb_leb; apply Z.leb_gt]; lia).
      cbn [size shape r dtype] in *. rewrite (bind_ok_intro _ _ _ _ _ EL). reflexivity.
    + split; [reflexivity|]. split; [reflexivity|]. split; [reflexivity|].
      intros dst D sum mean _ _. subst sum mean.
      rewrite (GetFloat64_elem _ _ bufn dst VN) by exact D.
      cbn [shape dtype r] in *.
      pose proof (ravel_bounds _ _ D) as RB.
      rewrite GN by exact RB. now rewrite G by exact RB.
Qed.

Lemma MeanAxis_axis_witness :
  let buf := flat_map (Enc.le_encode 1) [1; 2; 3; 4; 5; 6] in
  let a := mkNDArray 0 [2; 3] [3; 1] Int8 6 2 in
  View.backs [buf] a buf
  /\ MeanAxis a (-1) [buf] = Err RuntimePanic
  /\ (exists s hs, SumAxis a (-1) [buf] = Ok (s, hs))
  /\ exists r bufn,
       MeanAxis a 1 [buf] = Ok (r, [buf; bufn])
       /\ GetFloat64 r [1] [buf; bufn] = Ok (5%float, [buf; bufn]).
Proof.
  intros buf a.
  assert (V : View.backs [buf] a buf).
  { repeat split; try reflexivity; repeat constructor; vm_compute; congruence. }
  assert (N : 2 <= ndim a <= GoInt.max_int) by (vm_compute; split; discriminate).
  split; [exact V|].
  destruct (MeanAxis_axis [buf] a buf (-1) V N) as [NEG _].
  { change (- 2 <= -1 < 2). lia. }
  destruct (NEG ltac:(lia)) as [S P]. split; [exact P|]. split; [exact S|].
  destruct (MeanAxis_axis [buf] a buf 1 V N) as [_ POS].
  { change (- 2 <= 1 < 2). lia. }
  destruct (POS ltac:(lia)) as (r & bufn & E & _ & SH & _ & G).
  exists r, bufn. split; [exact E|].
  assert (SH' : shape r = [2]) by exact SH.
  rewrite SH' in G. cbv zeta in G.
  assert (H1 : SumAxisSpec.held Int8 (Elem.get Int8 buf) [2; 3] 1%nat
                 (Layout.ravel [2] [1]) = true) by (vm_compute; reflexivity).
  assert (H2 : Elem.held Int8
                 (SumAxisSpec.total Int8 (Elem.get Int8 buf) [2; 3] 1%nat
                    (Layout.ravel [2] [1]) / Enc.of_int 3) = true)
    by (vm_compute; reflexivity).
  assert (C : Elem.conv Int8
                (SumAxisSpec.total Int8 (Elem.get Int8 buf) [2; 3] 1%nat
                   (Layout.ravel [2] [1]) / Enc.of_int 3) = 5%float)
    by (vm_compute; reflexivity).
  rewrite <- C. apply (G [1]); [repeat constructor; lia | exact H1 | exact H2].
Defined.


(** ** Products and traces ([linalg.go]) *)

(** Both panics of [MatMul], for an operand that is not 2-D and for
    inner extents that differ, are dimension errors.  The shapes are
    indexed after the test of [Ndim], when they have two entries on every
    array the package builds.  Each floating-point operation is rounded
    on its own, as the compiler does on amd64; a target on which it
    fuses [sum + x * y] into one operation is not modelled. *)

Module LinalgOps.

Definition MatMul (a b : NDArray) : M NDArray :=
  if negb (Ndim a =? 2) || negb (Ndim b =? 2) then fail DimensionError
  else
    let aShape := Shape a in
    let bShape := Shape b in
    if negb (nth 1%nat aShape 0 =? nth 0%nat bShape 0) then fail DimensionError
    else
      let m := nth 0%nat aShape 0 in
      let n := nth 1%nat aShape 0 in
      let p := nth 1%nat bShape 0 in
      result <- Zeros [m; p] Float64 ;;
      for_each m (fun i =>
        for_each p (fun j =>
          sum <- for_upto n (fun k sum =>
                   x <- GetFloat64 a [i; k] ;;
                   y <- GetFloat64 b [k; j] ;;
                   ret (sum + x * y)%float) 0%float ;;
          SetFloat64 result sum [i; j])) ;;
      ret result.

Definition Trace (a : NDArray) : M float :=
  if negb (Ndim a =? 2) then fail DimensionError
  else
    let shape := Shape a in
    let n := nth 0%nat shape 0 in
    let n := if nth 1%nat shape 0 <? n then nth 1%nat shape 0 else n in
    for_upto n (fun i sum =>
      x <- GetFloat64 a [i; i] ;;
      ret (sum + x)%float) 0%float.

End LinalgOps.

Module ProductSpec.

(** The sum of [term k] for [k] from 0 below [n], added from the left
    starting at 0. *)
Definition sum_to (n : nat) (term : nat -> float) : float :=
  fold_left (fun acc k => (acc + term k)%float) (seq 0 n) 0%float.

(** Entry [(i, j)] of the product of [A] and [B], with [n] the number
    of columns of [A]. *)
Definition dot (n : nat) (A B : list (list float)) (i j : nat) : float :=
  sum_to n (fun k => (Mat.at_ A i k * Mat.at_ B k j)%float).

End ProductSpec.

(** An accumulating loop that only reads the store. *)
Lemma sum_loop (h : heap) (n : nat) (term : nat -> float) (body : Z -> float -> M float) :
  (forall k s, (k < n)%nat ->
     body (Z.of_nat k) s h = Ok ((s + term k)%float, h)) ->
  for_upto (Z.of_nat n) body 0%float h = Ok (ProductSpec.sum_to n term, h).
Proof.
  intros HB.
  destruct (for_upto_inv
    (fun k s h' => h' = h /\ s = ProductSpec.sum_to (Z.to_nat k) term)
    body (Z.of_nat n) 0%float h) as (s & h' & E & -> & ->).
  - lia.
  - split; reflexivity.
  - intros k s h0 Hk (-> & ->).
    pose proof (HB (Z.to_nat k) (ProductSpec.sum_to (Z.to_nat k) term) ltac:(lia)) as B.
    rewrite Z2Nat.id in B by lia. rewrite B. eexists _, _. split; [reflexivity|]. split; [reflexivity|].
    unfold ProductSpec.sum_to. rewrite seq_snoc_to_nat by lia.
    now rewrite fold_left_app.
  - rewrite E, Nat2Z.id. reflexivity.
Qed.

Lemma MatMul_run (h : heap) (a b : NDArray) (bufa bufb : buffer) (m n p : nat) :
  View.backs h a bufa -> View.backs h b bufb ->
  shape a = [Z.of_nat m; Z.of_nat n] -> shape b = [Z.of_nat n; Z.of_nat p] ->
  8 * (Z.of_nat m * Z.of_nat p) <= GoInt.max_int ->
  let A := Mat.rows (dtype a) bufa (Z.of_nat m) (Z.of_nat n) in
  let B := Mat.rows (dtype b) bufb (Z.of_nat n) (Z.of_nat p) in
  let r := mkNDArray (length h) [Z.of_nat m; Z.of_nat p]
             (Layout.strides_of [Z.of_nat m; Z.of_nat p] 8) Float64
             (Layout.prodZ [Z.of_nat m; Z.of_nat p]) (len [Z.of_nat m; Z.of_nat p]) in
  exists bufR : buffer,
    LinalgOps.MatMul a b h = Ok (r, h ++ [bufR])
    /\ View.backs (h ++ [bufR]) r bufR
    /\ forall i j, (i < m)%nat -> (j < p)%nat ->
         Mat.entry Float64 bufR (Z.of_nat p) (Z.of_nat i) (Z.of_nat j)
         = ProductSpec.dot n A B i j.
Proof.
  intros Va Vb SA SB Big A B r.
  set (Mz := Z.of_nat m) in *. set (Nz := Z.of_nat n) in *. set (Pz := Z.of_nat p) in *.
  pose proof Va as (_ & NDa & _ & _ & (Fa & _) & NEa & _).
  pose proof Vb as (_ & NDb & _ & _ & (Fb & _) & NEb & _).
  rewrite SA in NDa, Fa. rewrite SB in NDb, Fb.
  pose proof (Forall_inv Fa) as MP. pose proof (Forall_inv (Forall_inv_tail Fb)) as PP.
  cbv beta in MP, PP.
  assert (DA : (data a < length h)%nat) by (apply nth_error_Some; congruence).
  assert (DB : (data b < length h)%nat) by (apply nth_error_Some; congruence).
  unfold LinalgOps.MatMul, Ndim, Shape. rewrite NDa, NDb, SA, SB.
  cbn [len length Z.of_nat Pos.of_succ_nat Pos.succ Z.eqb Pos.eqb negb orb nth].
  rewrite Z.eqb_refl. cbn [negb].
  assert (FR : Layout.fits [Mz; Pz] 8).
  { split; [repeat constructor; lia|]. split; [lia|].
    cbn [Layout.prodZ fold_right]. nia. }
  destruct (Zeros_backs [Mz; Pz] Float64 h ltac:(discriminate) eq_refl FR) as [ZE ZB].
  cbn [ItemSize] in ZE, ZB. fold r in ZE, ZB.
  set (zeros := repeat x00 (Z.to_nat (8 * Layout.prodZ [Mz; Pz]))) in *.
  rewrite (bind_ok_intro _ _ _ _ _ ZE).
  pose proof (zeros_hold h r Mz Pz ZB eq_refl eq_refl) as H0. fold zeros in H0.
  assert (Va0 : View.backs (h ++ [zeros]) a bufa) by (apply backs_grow; exact Va).
  assert (Vb0 : View.backs (h ++ [zeros]) b bufb) by (apply backs_grow; exact Vb).
  assert (NA : data a <> data r) by (cbn [data r]; lia).
  assert (NB : data b <> data r) by (cbn [data r]; lia).
  set (W := fun i c => ProductSpec.dot n A B (Z.to_nat i) (Z.to_nat c)).
  match goal with |- context [bind (for_each ?cnt ?bd) _] =>
    destruct (rows_loop (h ++ [zeros]) r Mz Pz (fun _ _ => 0%float) W
                (h ++ [zeros]) bd cnt H0) as (h1 & E1 & H1); [lia | |]
  end.
  { intros i hi F' Hi HI EF.
    match goal with |- context [for_each ?cnt ?bd hi] =>
      destruct (row_loop (h ++ [zeros]) r Mz Pz F' hi i (fun c => W i c) bd cnt HI)
        as (h2 & E2 & H2); [lia | lia | |]
    end.
    - intros j hj F'' Hj HJ _.
      pose proof (holds_other _ _ _ _ _ _ _ _ HJ Va0 NA) as VaJ.
      pose proof (holds_other _ _ _ _ _ _ _ _ HJ Vb0 NB) as VbJ.
      rewrite (bind_ok_intro _ _ _ (W i j) hj); [reflexivity|].
      unfold W, ProductSpec.dot. unfold Nz.
      apply sum_loop. intros k s Hk.
      rewrite (bind_ok_intro _ _ _ _ _
                 (GetFloat64_entry _ a bufa Mz Nz i (Z.of_nat k) VaJ SA Hi ltac:(lia))).
      rewrite (bind_ok_intro _ _ _ _ _
                 (GetFloat64_entry _ b bufb Nz Pz (Z.of_nat k) j VbJ SB ltac:(lia) Hj)).
      unfold A, B. rewrite !rows_at by lia. now rewrite !Z2Nat.id by lia.
    - exists h2. split; [exact E2|].
      apply (holds_ext _ _ _ _ _ _ _ H2). intros k c Hk Hc.
      replace (c <? Pz) with true by lia. now rewrite andb_true_r. }
  rewrite (bind_ok_intro _ _ _ _ _ E1).
  destruct H1 as (bufR & EH & VR & _ & _ & GR).
  assert (EH' : h1 = h ++ [bufR]) by (rewrite EH; cbn [data r]; apply set_nth_last).
  clear EH. subst h1. exists bufR. split; [reflexivity|]. split; [exact VR|].
  intros i j Hi Hj. rewrite GR by lia.
  replace (Z.of_nat i <? Mz) with true by lia. unfold W. now rewrite !Nat2Z.id.
Qed.

(** X12.  [MatMul] of two matrices with matching inner extents returns
    a fresh [Float64] matrix, whatever the dtypes of its operands, whose
    entry [(i, j)] is the sum over [k], from 0 upwards and starting at 0,
    of [A[i,k] * B[k,j]]; it fails with a dimension error when an operand
    is not 2-D or the inner extents differ. *)
Theorem MatMul_product (h : heap) (a b : NDArray) (bufa bufb : buffer) (m n p : nat) :
  View.backs h a bufa -> View.backs h b bufb ->
  shape a = [Z.of_nat m; Z.of_nat n] -> shape b = [Z.of_nat n; Z.of_nat p] ->
  8 * (Z.of_nat m * Z.of_nat p) <= GoInt.max_int ->
  let A := Mat.rows (dtype a) bufa (Z.of_nat m) (Z.of_nat n) in
  let B := Mat.rows (dtype b) bufb (Z.of_nat n) (Z.of_nat p) in
  (exists r bufR,
     LinalgOps.MatMul a b h = Ok (r, h ++ [bufR])
     /\ data r = length h
     /\ shape r = [Z.of_nat m; Z.of_nat p] /\ dtype r = Float64
     /\ forall i j, (i < m)%nat -> (j < p)%nat ->
          GetFloat64 r [Z.of_nat i; Z.of_nat j] (h ++ [bufR])
          = Ok (ProductSpec.dot n A B i j, h ++ [bufR]))
  /\ (forall x y h0, ndim x <> 2 \/ ndim y <> 2 ->
        LinalgOps.MatMul x y h0 = Err DimensionError)
  /\ (forall x y h0, length (shape x) = 2%nat -> length (shape y) = 2%nat ->
        nth 1%nat (shape x) 0 <> nth 0%nat (shape y) 0 ->
        LinalgOps.MatMul x y h0 = Err DimensionError).
Proof.
  intros Va Vb SA SB Big A B. split; [|split].
  - destruct (MatMul_run h a b bufa bufb m n p Va Vb SA SB Big) as (bufR & E & VR & G).
    eexists _, bufR. split; [exact E|]. cbn [data shape dtype].
    repeat (split; [reflexivity|]).
    intros i j Hi Hj.
    rewrite (GetFloat64_entry _ _ bufR (Z.of_nat m) (Z.of_nat p)) by (auto; lia).
    cbn [dtype]. now rewrite G.
  - intros x y h0 N. unfold LinalgOps.MatMul, Ndim.
    destruct (Z.eqb_spec (ndim x) 2), (Z.eqb_spec (ndim y) 2);
      cbn [negb orb]; try reflexivity. lia.
  - intros x y h0 _ _ N. unfold LinalgOps.MatMul, Shape.
    destruct (negb (Ndim x =? 2) || negb (Ndim y =? 2)); [reflexivity|].
    destruct (Z.eqb_spec (nth 1%nat (shape x) 0) (nth 0%nat (shape y) 0));
      [contradiction | reflexivity].
Qed.

Lemma MatMul_product_witness :
  let enc := flat_map (fun v => Enc.le_encode 8 (Enc.Float64bits v)) in
  let bufa := enc [1; 2; 3; 4; 5; 6]%float in
  let bufb := enc [1; 0; 0; 1; 1; 1]%float in
  let a := mkNDArray 0 [2; 3] [24; 8] Float64 6 2 in
  let b := mkNDArray 1 [3; 2] [16; 8] Float64 6 2 in
  View.backs [bufa; bufb] a bufa /\ View.backs [bufa; bufb] b bufb
  /\ exists r bufR,
       LinalgOps.MatMul a b [bufa; bufb] = Ok (r, [bufa; bufb; bufR])
       /\ GetFloat64 r [1; 0] [bufa; bufb; bufR] = Ok (10%float, [bufa; bufb; bufR]).
Proof.
  intros enc bufa bufb a b.
  assert (Va : View.backs [bufa; bufb] a bufa).
  { repeat split; try reflexivity; repeat constructor; vm_compute; congruence. }
  assert (Vb : View.backs [bufa; bufb] b bufb).
  { repeat split; try reflexivity; repeat constructor; vm_compute; congruence. }
  split; [exact Va|]. split; [exact Vb|].
  destruct (MatMul_product [bufa; bufb] a b bufa bufb 2 3 2 Va Vb eq_refl eq_refl)
    as ((r & bufR & E & _ & _ & _ & G) & _); [vm_compute; discriminate|].
  exists r, bufR. split; [exact E|]. apply (G 1%nat 0%nat); lia.
Defined.

(** X13.  [Trace] of a 2-D array adds, from 0 upwards and starting at 0,
    the diagonal entries up to the smaller of the two extents, so it is
    defined for matrices that are not square, and leaves the heap as it
    was; an array that is not 2-D is a dimension error. *)
Theorem Trace_diagonal_sum (h : heap) (a : NDArray) (buf : buffer) (m n : nat) :
  View.backs h a buf ->
  shape a = [Z.of_nat m; Z.of_nat n] ->
  let A := Mat.rows (dtype a) buf (Z.of_nat m) (Z.of_nat n) in
  LinalgOps.Trace a h
  = Ok (ProductSpec.sum_to (Nat.min m n) (fun i => Mat.at_ A i i), h)
  /\ (forall x h0, ndim x <> 2 -> LinalgOps.Trace x h0 = Err DimensionError).
Proof.
  intros Va SA A. split.
  - pose proof Va as (_ & NDa & _).
    unfold LinalgOps.Trace, Ndim, Shape. rewrite NDa, SA.
    cbn [len length Z.of_nat Pos.of_succ_nat Pos.succ Z.eqb Pos.eqb negb nth].
    assert (EN : (if Z.of_nat n <? Z.of_nat m then Z.of_nat n else Z.of_nat m)
                 = Z.of_nat (Nat.min m n)).
    { destruct (Z.ltb_spec (Z.of_nat n) (Z.of_nat m)); lia. }
    rewrite EN. apply sum_loop. intros k s Hk.
    rewrite (bind_ok_intro _ _ _ _ _
               (GetFloat64_entry _ a buf (Z.of_nat m) (Z.of_nat n) (Z.of_nat k) (Z.of_nat k)
                  Va SA ltac:(lia) ltac:(lia))).
    unfold A. now rewrite rows_at by lia.
  - intros x h0 N. unfold LinalgOps.Trace, Ndim.
    destruct (Z.eqb_spec (ndim x) 2); [contradiction | reflexivity].
Qed.

Lemma Trace_diagonal_sum_witness :
  let buf := flat_map (fun v => Enc.le_encode 8 (Enc.Float64bits v)) [1; 2; 3; 4; 5; 6]%float in
  let a := mkNDArray 0 [2; 3] [24; 8] Float64 6 2 in
  View.backs [buf] a buf /\ LinalgOps.Trace a [buf] = Ok (6%float, [buf]).
Proof.
  intros buf a.
  assert (Va : View.backs [buf] a buf).
  { repeat split; try reflexivity; repeat constructor; vm_compute; congruence. }
  split; [exact Va|].
  exact (proj1 (Trace_diagonal_sum [buf] a buf 2 3 Va eq_refl)).
Defined.


(** * Reductions over all elements *)

(** ** The order of [float64]

    [<] and [<=] of Go on [float64] are those of IEEE 754: every
    comparison with a NaN is false, and the two zeros are equal. *)

Module FloatOrder.

Ltac by_cases :=
  repeat match goal with
  | H : context [(?a ?= ?b)%Z] |- _ => destruct (Z.compare_spec a b)
  | |- context [(?a ?= ?b)%Z] => destruct (Z.compare_spec a b)
  | H : context [Pos.compare_cont Eq ?a ?b] |- _ =>
      change (Pos.compare_cont Eq a b) with (Pos.compare a b) in *;
      destruct (Pos.compare_spec a b)
  | |- context [Pos.compare_cont Eq ?a ?b] =>
      change (Pos.compare_cont Eq a b) with (Pos.compare a b) in *;
      destruct (Pos.compare_spec a b)
  end;
  cbn in *; try discriminate; try reflexivity; try lia.

Ltac by_shape x :=
  destruct x as [[|]|[|]| |[|] ? ?].

Lemma SF_lt_irrefl x : SFltb x x = false.
Proof. unfold SFltb, SFcompare. by_shape x; by_cases. Qed.

Lemma SF_lt_le_trans x y z :
  SFltb x y = true -> SFleb y z = true -> SFltb x z = true.
Proof.
  unfold SFltb, SFleb, SFcompare.
  by_shape x; by_shape y; try discriminate; by_shape z; try discriminate; try reflexivity;
    intros A B; by_cases.
Qed.

Lemma SF_le_lt_trans x y z :
  SFleb x y = true -> SFltb y z = true -> SFltb x z = true.
Proof.
  unfold SFltb, SFleb, SFcompare.
  by_shape x; by_shape y; try discriminate; by_shape z; try discriminate; try reflexivity;
    intros A B; by_cases.
Qed.

Lemma SF_lt_le x y : SFltb x y = true -> SFleb x y = true.
Proof.
  unfold SFltb, SFleb, SFcompare.
  by_shape x; by_shape y; try discriminate; try reflexivity; intros A; by_cases.
Qed.

Lemma lt_irrefl (x : float) : (x <? x)%float = false.
Proof. rewrite ltb_spec. apply SF_lt_irrefl. Qed.

Lemma lt_le_trans (x y z : float) :
  (x <? y)%float = true -> (y <=? z)%float = true -> (x <? z)%float = true.
Proof. rewrite !ltb_spec, leb_spec. apply SF_lt_le_trans. Qed.

Lemma le_lt_trans (x y z : float) :
  (x <=? y)%float = true -> (y <? z)%float = true -> (x <? z)%float = true.
Proof. rewrite !ltb_spec, leb_spec. apply SF_le_lt_trans. Qed.

Lemma lt_le (x y : float) : (x <? y)%float = true -> (x <=? y)%float = true.
Proof. rewrite ltb_spec, leb_spec. apply SF_lt_le. Qed.

Lemma lt_trans (x y z : float) :
  (x <? y)%float = true -> (y <? z)%float = true -> (x <? z)%float = true.
Proof. intros A B. apply (lt_le_trans x y z A). now apply lt_le. Qed.

End FloatOrder.

(** ** The reductions ([reductions.go]) *)

(** A loop whose body may return from the enclosing function: [Some r]
    is the value returned, [None] lets the loop go on. *)
Fixpoint for_find {R} (i : Z) (count : nat) (body : Z -> M (option R)) : M (option R) :=
  match count with
  | O => ret None
  | S k =>
      r <- body i ;;
      match r with
      | Some x => ret (Some x)
      | None => for_find (i + 1) k body
      end
  end.

Module Reduce.

Definition Mean (a : NDArray) : M float :=
  if size a =? 0 then ret nan
  else s <- Sum a ;; ret (s / Enc.of_int (size a))%float.

(** The common body of [Min] and [Max], which differ in the comparison
    that replaces the running value; [better val cur] is [val < min] in
    [Min] and [val > max] in [Max]. *)
Definition extreme (better : float -> float -> bool) (a : NDArray) : M float :=
  if size a =? 0 then ret nan
  else
    indices <- lift (unravelIndex a 0) ;;
    cur <- GetFloat64 a indices ;;
    for_range 1 (Z.to_nat (size a - 1)) (fun i cur =>
      indices <- lift (unravelIndex a i) ;;
      val <- GetFloat64 a indices ;;
      if better val cur then ret val else ret cur) cur.

Definition Min : NDArray -> M float := extreme (fun val min => (val <? min)%float).
Definition Max : NDArray -> M float := extreme (fun val max => (max <? val)%float).

(** The common body of [ArgMin] and [ArgMax]. *)
Definition arg_extreme (better : float -> float -> bool) (a : NDArray) : M Z :=
  if size a =? 0 then ret (-1)
  else
    indices <- lift (unravelIndex a 0) ;;
    curVal <- GetFloat64 a indices ;;
    ' (_, curIdx) <-
      for_range 1 (Z.to_nat (size a - 1)) (fun i '(curVal, curIdx) =>
        indices <- lift (unravelIndex a i) ;;
        val <- GetFloat64 a indices ;;
        if better val curVal then ret (val, i) else ret (curVal, curIdx)) (curVal, 0) ;;
    ret curIdx.

Definition ArgMin : NDArray -> M Z := arg_extreme (fun val min => (val <? min)%float).
Definition ArgMax : NDArray -> M Z := arg_extreme (fun val max => (max <? val)%float).

Definition Prod (a : NDArray) : M float :=
  for_upto (size a) (fun i prod =>
    indices <- lift (unravelIndex a i) ;;
    v <- GetFloat64 a indices ;;
    ret (prod * v)%float) 1%float.

Definition Var (a : NDArray) : M float :=
  if size a =? 0 then ret nan
  else
    mean <- Mean a ;;
    variance <- for_upto (size a) (fun i variance =>
                  indices <- lift (unravelIndex a i) ;;
                  val <- GetFloat64 a indices ;;
                  let diff := (val - mean)%float in
                  ret (variance + diff * diff)%float) 0%float ;;
    ret (variance / Enc.of_int (size a))%float.

Definition Std (a : NDArray) : M float :=
  v <- Var a ;; ret (PrimFloat.sqrt v).

Definition All (a : NDArray) : M bool :=
  r <- for_find 0 (Z.to_nat (size a)) (fun i =>
         indices <- lift (unravelIndex a i) ;;
         val <- GetFloat64 a indices ;;
         if (val =? 0)%float then ret (Some false) else ret None) ;;
  match r with
  | Some b => ret b
  | None => ret true
  end.

Definition Any (a : NDArray) : M bool :=
  r <- for_find 0 (Z.to_nat (size a)) (fun i =>
         indices <- lift (unravelIndex a i) ;;
         val <- GetFloat64 a indices ;;
         if negb (val =? 0)%float then ret (Some true) else ret None) ;;
  match r with
  | Some b => ret b
  | None => ret false
  end.

End Reduce.

(** Reading the element at a flat index, as every reduction does. *)
Lemma read_flat {B} (h : heap) (a : NDArray) (buf : buffer) (i : Z) (k : float -> M B) :
  View.backs h a buf -> 0 <= i < size a ->
  (indices <- lift (unravelIndex a i) ;; v <- GetFloat64 a indices ;; k v) h
  = k (Elem.get (dtype a) buf i) h.
Proof.
  intros V Hi. pose proof V as (Sup & ND & SZ & ST & F & NE & LB).
  pose proof F as (Fp & W & B0). rewrite SZ in Hi.
  rewrite (bind_ok_intro _ _ _ (Layout.unravel (shape a) i) h)
    by (rewrite unravelIndex_spec by (auto; nia); reflexivity).
  rewrite (bind_ok_intro _ _ _ _ _
             (GetFloat64_elem _ a buf _ V (unravel_in_shape _ i Fp))).
  now rewrite ravel_unravel, Z.mod_small by (auto; lia).
Qed.

Lemma size_positive (h : heap) (a : NDArray) (buf : buffer) :
  View.backs h a buf -> 0 < size a.
Proof.
  intros (_ & _ & SZ & _ & (Fp & _) & _). rewrite SZ. now apply prodZ_pos.
Qed.

(** A loop over all elements that folds them into a value. *)
Lemma fold_loop {St} (h : heap) (a : NDArray) (buf : buffer) (f : St -> float -> St)
    (body : Z -> St -> M St) (s0 : St) :
  View.backs h a buf ->
  (forall i s, 0 <= i < size a -> body i s h = Ok (f s (Elem.get (dtype a) buf i), h)) ->
  for_upto (size a) body s0 h
  = Ok (fold_left f (Elem.all (dtype a) buf (size a)) s0, h).
Proof.
  intros V HB. pose proof (size_positive _ _ _ V) as P.
  destruct (for_upto_inv
    (fun k s h' => h' = h /\ s = fold_left f (Elem.all (dtype a) buf k) s0)
    body (size a) s0 h) as (s & h' & E & -> & ->).
  - lia.
  - split; reflexivity.
  - intros k s h0 Hk (-> & ->). rewrite HB by lia.
    eexists _, _. split; [reflexivity|]. split; [reflexivity|].
    unfold Elem.all. rewrite seq_snoc_to_nat by lia.
    rewrite map_app, fold_left_app. cbn [map fold_left].
    now rewrite Z2Nat.id by lia.
  - exact E.
Qed.

(** X14.  On a backed array [Sum] and [Prod] fold [+] and [*] over the
    elements in row-major order, from 0 and from 1; [Mean] divides the
    sum by the number of elements, [Var] divides by it the sum of the
    squared differences to the mean, and [Std] is its square root.  None
    of them changes the store.  On an array of size 0 [Mean] and [Var]
    are NaN, [Sum] is 0 and [Prod] is 1. *)
Theorem reductions_fold_elements (h : heap) (a : NDArray) (buf : buffer) :
  View.backs h a buf ->
  let xs := Elem.all (dtype a) buf (size a) in
  let n := Enc.of_int (size a) in
  let mean := (fold_left PrimFloat.add xs 0 / n)%float in
  let var := (fold_left (fun acc v => acc + (v - mean) * (v - mean)) xs 0 / n)%float in
  (Sum a h = Ok (fold_left PrimFloat.add xs 0%float, h)
   /\ Reduce.Prod a h = Ok (fold_left PrimFloat.mul xs 1%float, h)
   /\ Reduce.Mean a h = Ok (mean, h)
   /\ Reduce.Var a h = Ok (var, h)
   /\ Reduce.Std a h = Ok (PrimFloat.sqrt var, h))
  /\ (forall x h0, size x = 0 ->
        Sum x h0 = Ok (0%float, h0) /\ Reduce.Prod x h0 = Ok (1%float, h0)
        /\ Reduce.Mean x h0 = Ok (nan, h0) /\ Reduce.Var x h0 = Ok (nan, h0)).
Proof.
  intros V xs n mean var. pose proof (size_positive _ _ _ V) as P.
  assert (ES : Sum a h = Ok (fold_left PrimFloat.add xs 0%float, h)).
  { unfold Sum. apply (fold_loop h a buf PrimFloat.add); [exact V|].
    intros i s Hi. now rewrite (read_flat h a buf i) by auto. }
  assert (EM : Reduce.Mean a h = Ok (mean, h)).
  { unfold Reduce.Mean. rewrite (proj2 (Z.eqb_neq _ _)) by lia.
    now rewrite (bind_ok_intro _ _ _ _ _ ES). }
  assert (EV : Reduce.Var a h = Ok (var, h)).
  { unfold Reduce.Var. rewrite (proj2 (Z.eqb_neq _ _)) by lia.
    rewrite (bind_ok_intro _ _ _ _ _ EM).
    rewrite (bind_ok_intro _ _ _
               (fold_left (fun acc v => acc + (v - mean) * (v - mean))%float xs 0%float) h);
      [reflexivity|].
    apply (fold_loop h a buf (fun acc v => acc + (v - mean) * (v - mean))%float);
      [exact V|].
    intros i s Hi. now rewrite (read_flat h a buf i) by auto. }
  split; [split; [exact ES|]; split; [|split; [exact EM|]; split; [exact EV|]]|].
  - unfold Reduce.Prod. apply (fold_loop h a buf PrimFloat.mul); [exact V|].
    intros i s Hi. now rewrite (read_flat h a buf i) by auto.
  - unfold Reduce.Std. now rewrite (bind_ok_intro _ _ _ _ _ EV).
  - intros x h0 Z0. unfold Sum, Reduce.Prod, Reduce.Mean, Reduce.Var, for_upto.
    rewrite Z0. repeat split; reflexivity.
Qed.

Lemma reductions_fold_elements_witness :
  let buf := flat_map (fun v => Enc.le_encode 8 (Enc.Float64bits v)) [1; 2; 3; 6]%float in
  let a := mkNDArray 0 [2; 2] [16; 8] Float64 4 2 in
  View.backs [buf] a buf
  /\ Sum a [buf] = Ok (12%float, [buf])
  /\ Reduce.Mean a [buf] = Ok (3%float, [buf]).
Proof.
  intros buf a.
  assert (V : View.backs [buf] a buf).
  { repeat split; try reflexivity; repeat constructor; vm_compute; congruence. }
  split; [exact V|].
  destruct (reductions_fold_elements [buf] a buf V) as ((S & _ & M & _) & _).
  split; [exact S | exact M].
Defined.

(** ** Extremes *)

Module ExtremeSpec.

(** The running value and its index after [count] more elements from
    index [i], read through [e]. *)
Fixpoint scan (better : float -> float -> bool) (e : Z -> float)
    (i : Z) (count : nat) (cur : float) (idx : Z) : float * Z :=
  match count with
  | O => (cur, idx)
  | S k =>
      if better (e i) cur then scan better e (i + 1) k (e i) i
      else scan better e (i + 1) k cur idx
  end.

End ExtremeSpec.

Section Extremes.

Variable better weak : float -> float -> bool.
Hypothesis better_irrefl : forall x, better x x = false.
Hypothesis better_trans :
  forall x y z, better x y = true -> better y z = true -> better x z = true.
Hypothesis weak_better :
  forall x y z, weak x y = true -> better y z = true -> better x z = true.

Variable e : Z -> float.

Lemma scan_best (count : nat) : forall i cur idx,
  0 <= idx < i -> cur = e idx ->
  (forall j, 0 <= j < i -> better (e j) cur = false) ->
  (forall j, 0 <= j < idx -> weak (e j) cur = false) ->
  let r := ExtremeSpec.scan better e i count cur idx in
  0 <= snd r < i + Z.of_nat count
  /\ fst r = e (snd r)
  /\ (forall j, 0 <= j < i + Z.of_nat count -> better (e j) (fst r) = false)
  /\ (forall j, 0 <= j < snd r -> weak (e j) (fst r) = false).
Proof.
  induction count as [|k IH]; intros i cur idx Hi Hc Ha Hb.
  - cbn. rewrite Z.add_0_r. repeat split; auto; lia.
  - cbn [ExtremeSpec.scan]. destruct (better (e i) cur) eqn:B.
    + replace (i + Z.of_nat (S k)) with (i + 1 + Z.of_nat k) by lia.
      apply IH; [lia | reflexivity | |].
      * intros j Hj. destruct (Z.eq_dec j i) as [->|N]; [apply better_irrefl|].
        destruct (better (e j) (e i)) eqn:C; [|reflexivity].
        rewrite <- (Ha j ltac:(lia)). symmetry.
        exact (better_trans _ _ _ C B).
      * intros j Hj. destruct (weak (e j) (e i)) eqn:C; [|reflexivity].
        rewrite <- (Ha j ltac:(lia)). symmetry.
        exact (weak_better _ _ _ C B).
    + replace (i + Z.of_nat (S k)) with (i + 1 + Z.of_nat k) by lia.
      apply IH; [lia | exact Hc | | exact Hb].
      intros j Hj. destruct (Z.eq_dec j i) as [->|N]; [exact B | apply Ha; lia].
Qed.

Lemma arg_loop (h : heap) (a : NDArray) (buf : buffer) (count : nat) :
  View.backs h a buf -> (forall k, e k = Elem.get (dtype a) buf k) ->
  forall i cur idx, 0 <= i -> i + Z.of_nat count <= size a ->
  for_range i count (fun i '(curVal, curIdx) =>
    indices <- lift (unravelIndex a i) ;;
    val <- GetFloat64 a indices ;;
    if better val curVal then ret (val, i) else ret (curVal, curIdx)) (cur, idx) h
  = Ok (ExtremeSpec.scan better e i count cur idx, h).
Proof.
  intros V He. induction count as [|k IH]; intros i cur idx Hi Hn; [reflexivity|].
  cbn [for_range ExtremeSpec.scan].
  match goal with |- bind ?m ?f h = _ =>
    rewrite (bind_ok_intro m f h
               (if better (e i) cur then (e i, i) else (cur, idx)) h)
  end.
  - destruct (better (e i) cur); apply IH; lia.
  - rewrite (read_flat h a buf i) by (auto; lia). rewrite <- He.
    destruct (better (e i) cur); reflexivity.
Qed.

Lemma value_loop (h : heap) (a : NDArray) (buf : buffer) (count : nat) :
  View.backs h a buf -> (forall k, e k = Elem.get (dtype a) buf k) ->
  forall i cur idx, 0 <= i -> i + Z.of_nat count <= size a ->
  for_range i count (fun i cur =>
    indices <- lift (unravelIndex a i) ;;
    val <- GetFloat64 a indices ;;
    if better val cur then ret val else ret cur) cur h
  = Ok (fst (ExtremeSpec.scan better e i count cur idx), h).
Proof.
  intros V He. induction count as [|k IH]; intros i cur idx Hi Hn; [reflexivity|].
  cbn [for_range ExtremeSpec.scan].
  match goal with |- bind ?m ?f h = _ =>
    rewrite (bind_ok_intro m f h (if better (e i) cur then e i else cur) h)
  end.
  - destruct (better (e i) cur); apply IH; lia.
  - rewrite (read_flat h a buf i) by (auto; lia). rewrite <- He.
    destruct (better (e i) cur); reflexivity.
Qed.

Lemma extreme_spec (h : heap) (a : NDArray) (buf : buffer) :
  View.backs h a buf -> (forall k, e k = Elem.get (dtype a) buf k) ->
  exists k,
    Reduce.arg_extreme better a h = Ok (k, h)
    /\ 0 <= k < size a
    /\ Reduce.extreme better a h = Ok (e k, h)
    /\ (forall j, 0 <= j < size a -> better (e j) (e k) = false)
    /\ (forall j, 0 <= j < k -> weak (e j) (e k) = false).
Proof.
  intros V He. pose proof (size_positive _ _ _ V) as P.
  pose proof (scan_best (Z.to_nat (size a - 1)) 1 (e 0) 0 ltac:(lia) eq_refl) as SB.
  cbv zeta in SB. replace (1 + Z.of_nat (Z.to_nat (size a - 1))) with (size a) in SB by lia.
  destruct SB as (R1 & R2 & R3 & R4).
  { intros j Hj. replace j with 0 by lia. apply better_irrefl. }
  { intros j Hj. lia. }
  set (r := ExtremeSpec.scan better e 1 (Z.to_nat (size a - 1)) (e 0) 0) in *.
  exists (snd r). split; [|split; [exact R1|split; [|split]]].
  - unfold Reduce.arg_extreme. rewrite (proj2 (Z.eqb_neq _ _)) by lia.
    rewrite (read_flat h a buf 0) by (auto; lia). rewrite <- He.
    rewrite (bind_ok_intro _ _ _ _ _
               (arg_loop h a buf (Z.to_nat (size a - 1)) V He 1 (e 0) 0 ltac:(lia) ltac:(lia))).
    fold r. destruct r; reflexivity.
  - unfold Reduce.extreme. rewrite (proj2 (Z.eqb_neq _ _)) by lia.
    rewrite (read_flat h a buf 0) by (auto; lia). rewrite <- He.
    rewrite (value_loop h a buf (Z.to_nat (size a - 1)) V He 1 (e 0) 0) by lia. fold r. now rewrite R2.
  - intros j Hj. rewrite <- R2. now apply R3.
  - intros j Hj. rewrite <- R2. now apply R4.
Qed.

End Extremes.

(** X15.  On a backed array [ArgMax] returns a flat index [k] inside the
    array and [Max] the element at [k]; no element is greater than it,
    and no element before [k] is greater than or equal to it, so [k] is
    the first position of the maximum.  The store is left as it was.
    On an array of size 0 [ArgMax] is -1 and [Max] is NaN. *)
Theorem Max_is_element_at_ArgMax (h : heap) (a : NDArray) (buf : buffer) :
  View.backs h a buf ->
  let e := Elem.get (dtype a) buf in
  (exists k,
     Reduce.ArgMax a h = Ok (k, h)
     /\ 0 <= k < size a
     /\ Reduce.Max a h = Ok (e k, h)
     /\ (forall j, 0 <= j < size a -> (e k <? e j)%float = false)
     /\ (forall j, 0 <= j < k -> (e k <=? e j)%float = false))
  /\ (forall x h0, size x = 0 ->
        Reduce.ArgMax x h0 = Ok (-1, h0) /\ Reduce.Max x h0 = Ok (nan, h0)).
Proof.
  intros V e. split.
  - apply (fun p1 p2 p3 =>
             extreme_spec (fun val max => (max <? val)%float)
                          (fun val max => (max <=? val)%float)
                          p1 p2 p3 e h a buf V (fun _ => eq_refl)).
    + intros x. apply FloatOrder.lt_irrefl.
    + intros x y z A B. exact (FloatOrder.lt_trans _ _ _ B A).
    + intros x y z A B. exact (FloatOrder.lt_le_trans _ _ _ B A).
  - intros x h0 Z0.
    unfold Reduce.ArgMax, Reduce.Max, Reduce.arg_extreme, Reduce.extreme.
    rewrite Z0. split; reflexivity.
Qed.

Lemma Max_is_element_at_ArgMax_witness :
  let buf := flat_map (fun v => Enc.le_encode 8 (Enc.Float64bits v)) [1; 7; 3; 7]%float in
  let a := mkNDArray 0 [2; 2] [16; 8] Float64 4 2 in
  View.backs [buf] a buf
  /\ exists k, Reduce.ArgMax a [buf] = Ok (k, [buf])
               /\ Reduce.Max a [buf] = Ok (Elem.get Float64 buf k, [buf]).
Proof.
  intros buf a.
  assert (V : View.backs [buf] a buf).
  { repeat split; try reflexivity; repeat constructor; vm_compute; congruence. }
  split; [exact V|].
  destruct (Max_is_element_at_ArgMax [buf] a buf V) as ((k & A & _ & M & _) & _).
  exists k. split; [exact A | exact M].
Defined.

(** X16.  On a backed array [ArgMin] returns a flat index [k] inside the
    array and [Min] the element at [k]; no element is less than it, and
    no element before [k] is less than or equal to it, so [k] is the
    first position of the minimum.  The store is left as it was.  On an
    array of size 0 [ArgMin] is -1 and [Min] is NaN. *)
Theorem Min_is_element_at_ArgMin (h : heap) (a : NDArray) (buf : buffer) :
  View.backs h a buf ->
  let e := Elem.get (dtype a) buf in
  (exists k,
     Reduce.ArgMin a h = Ok (k, h)
     /\ 0 <= k < size a
     /\ Reduce.Min a h = Ok (e k, h)
     /\ (forall j, 0 <= j < size a -> (e j <? e k)%float = false)
     /\ (forall j, 0 <= j < k -> (e j <=? e k)%float = false))
  /\ (forall x h0, size x = 0 ->
        Reduce.ArgMin x h0 = Ok (-1, h0) /\ Reduce.Min x h0 = Ok (nan, h0)).
Proof.
  intros V e. split.
  - apply (fun p1 p2 p3 =>
             extreme_spec (fun val min => (val <? min)%float)
                          (fun val min => (val <=? min)%float)
                          p1 p2 p3 e h a buf V (fun _ => eq_refl)).
    + intros x. apply FloatOrder.lt_irrefl.
    + intros x y z. apply FloatOrder.lt_trans.
    + intros x y z. apply FloatOrder.le_lt_trans.
  - intros x h0 Z0.
    unfold Reduce.ArgMin, Reduce.Min, Reduce.arg_extreme, Reduce.extreme.
    rewrite Z0. split; reflexivity.
Qed.

Lemma Min_is_element_at_ArgMin_witness :
  let buf := flat_map (fun v => Enc.le_encode 8 (Enc.Float64bits v)) [4; 2; 3; 2]%float in
  let a := mkNDArray 0 [2; 2] [16; 8] Float64 4 2 in
  View.backs [buf] a buf
  /\ exists k, Reduce.ArgMin a [buf] = Ok (k, [buf])
               /\ Reduce.Min a [buf] = Ok (Elem.get Float64 buf k, [buf]).
Proof.
  intros buf a.
  assert (V : View.backs [buf] a buf).
  { repeat split; try reflexivity; repeat constructor; vm_compute; congruence. }
  split; [exact V|].
  destruct (Min_is_element_at_ArgMin [buf] a buf V) as ((k & A & _ & M & _) & _).
  exists k. split; [exact A | exact M].
Defined.

(** ** [All] and [Any] *)

Lemma find_loop {R} (h : heap) (a : NDArray) (buf : buffer) (stop : float -> option R)
    (body : Z -> M (option R)) (count : nat) :
  View.backs h a buf ->
  forall start : nat,
    Z.of_nat start + Z.of_nat count <= size a ->
    (forall i, Z.of_nat start <= i < size a ->
       body i h = Ok (stop (Elem.get (dtype a) buf i), h)) ->
    for_find (Z.of_nat start) count body h
    = Ok (fold_right (fun k rest => match stop (Elem.get (dtype a) buf (Z.of_nat k)) with
                                    | Some r => Some r
                                    | None => rest
                                    end) None (seq start count), h).
Proof.
  intros V. induction count as [|k IH]; intros start Hn HB; [reflexivity|].
  cbn [for_find seq fold_right].
  rewrite (bind_ok_intro _ _ _ _ _ (HB (Z.of_nat start) ltac:(lia))).
  destruct (stop _); [reflexivity|].
  replace (Z.of_nat start + 1) with (Z.of_nat (S start)) by lia.
  apply IH; [lia|]. intros i Hi. apply HB. lia.
Qed.

(** X17.  On a backed array [All] is true exactly when no element
    compares equal to zero and [Any] exactly when some element does not,
    so a NaN counts as non-zero and a negative zero as zero; neither
    changes the store.  On an array of size 0 [All] is true and [Any] is
    false. *)
Theorem All_Any_test_nonzero (h : heap) (a : NDArray) (buf : buffer) :
  View.backs h a buf ->
  let xs := Elem.all (dtype a) buf (size a) in
  let nonzero := fun v : float => negb (v =? 0)%float in
  (Reduce.All a h = Ok (forallb nonzero xs, h)
   /\ Reduce.Any a h = Ok (existsb nonzero xs, h))
  /\ (forall x h0, size x = 0 ->
        Reduce.All x h0 = Ok (true, h0) /\ Reduce.Any x h0 = Ok (false, h0)).
Proof.
  intros V xs nonzero. split; [split|].
  - unfold Reduce.All.
    match goal with |- bind (for_find 0 ?n ?bd) _ h = _ =>
      pose proof (find_loop h a buf (fun v => if (v =? 0)%float then Some false else None)
                    bd n V 0%nat ltac:(pose proof (size_positive _ _ _ V); lia)) as FL
    end.
    change (Z.of_nat 0) with 0 in FL. rewrite (bind_ok_intro _ _ _ _ _ (FL ltac:(
      intros i Hi; cbv beta; rewrite (read_flat h a buf i) by (auto; lia);
      destruct (_ =? 0)%float; reflexivity))).
    unfold xs, Elem.all. generalize (seq 0 (Z.to_nat (size a))).
    induction l as [|k l IH]; [reflexivity|]. cbn [fold_right map forallb].
    unfold nonzero at 1. destruct (_ =? 0)%float; [reflexivity|exact IH].
  - unfold Reduce.Any.
    match goal with |- bind (for_find 0 ?n ?bd) _ h = _ =>
      pose proof (find_loop h a buf (fun v => if negb (v =? 0)%float then Some true else None)
                    bd n V 0%nat ltac:(pose proof (size_positive _ _ _ V); lia)) as FL
    end.
    change (Z.of_nat 0) with 0 in FL. rewrite (bind_ok_intro _ _ _ _ _ (FL ltac:(
      intros i Hi; cbv beta; rewrite (read_flat h a buf i) by (auto; lia);
      destruct (_ =? 0)%float; reflexivity))).
    unfold xs, Elem.all. generalize (seq 0 (Z.to_nat (size a))).
    induction l as [|k l IH]; [reflexivity|]. cbn [fold_right map existsb].
    unfold nonzero at 1. destruct (_ =? 0)%float; [exact IH|reflexivity].
  - intros x h0 Z0. unfold Reduce.All, Reduce.Any. rewrite Z0. split; reflexivity.
Qed.

Lemma All_Any_test_nonzero_witness :
  let buf := flat_map (fun v => Enc.le_encode 8 (Enc.Float64bits v)) [1; nan; -0; 2]%float in
  let a := mkNDArray 0 [2; 2] [16; 8] Float64 4 2 in
  View.backs [buf] a buf
  /\ Reduce.All a [buf] = Ok (false, [buf])
  /\ Reduce.Any a [buf] = Ok (true, [buf]).
Proof.
  intros buf a.
  assert (V : View.backs [buf] a buf).
  { repeat split; try reflexivity; repeat constructor; vm_compute; congruence. }
  split; [exact V|].
  destruct (All_Any_test_nonzero [buf] a buf V) as ((A & B) & _).
  split; [exact A | exact B].
Defined.


(** ** Vectors ([linalg.go])

    The panics of [Dot], [Inner] and [Outer] for operands of the wrong
    number of axes or of lengths that do not match are dimension
    errors.  [Norm] unravels a flat index of an array that is not 1-D
    with the loop of [unravelIndex], written out in its body. *)

Module Vectors.

Definition Dot (a b : NDArray) : M NDArray :=
  if (Ndim a =? 1) && (Ndim b =? 1) then
    if negb (Size a =? Size b) then fail DimensionError
    else
      sum <- for_upto (Size a) (fun i sum =>
               x <- GetFloat64 a [i] ;;
               y <- GetFloat64 b [i] ;;
               ret (sum + x * y)%float) 0%float ;;
      FromSliceFloat64 [sum] [1]
  else if (Ndim a =? 2) && (Ndim b =? 2) then LinalgOps.MatMul a b
  else if (Ndim a =? 2) && (Ndim b =? 1) then
    let aShape := Shape a in
    if negb (nth 1%nat aShape 0 =? Size b) then fail DimensionError
    else
      result <- Zeros [nth 0%nat aShape 0] Float64 ;;
      for_each (nth 0%nat aShape 0) (fun i =>
        sum <- for_upto (nth 1%nat aShape 0) (fun j sum =>
                 x <- GetFloat64 a [i; j] ;;
                 y <- GetFloat64 b [j] ;;
                 ret (sum + x * y)%float) 0%float ;;
        SetFloat64 result sum [i]) ;;
      ret result
  else fail DimensionError.

Definition Outer (a b : NDArray) : M NDArray :=
  if negb (Ndim a =? 1) || negb (Ndim b =? 1) then fail DimensionError
  else
    let m := Size a in
    let n := Size b in
    result <- Zeros [m; n] Float64 ;;
    for_each m (fun i =>
      for_each n (fun j =>
        x <- GetFloat64 a [i] ;;
        y <- GetFloat64 b [j] ;;
        SetFloat64 result (x * y)%float [i; j])) ;;
    ret result.

Definition Inner (a b : NDArray) : M float :=
  if negb (Ndim a =? 1) || negb (Ndim b =? 1) then fail DimensionError
  else if negb (Size a =? Size b) then fail DimensionError
  else
    for_upto (Size a) (fun i sum =>
      x <- GetFloat64 a [i] ;;
      y <- GetFloat64 b [i] ;;
      ret (sum + x * y)%float) 0%float.

Definition Norm (a : NDArray) : M float :=
  sum <- for_upto (Size a) (fun i sum =>
           let indices := Shape a in
           if len indices =? 1 then
             val <- GetFloat64 a [i] ;;
             ret (sum + val * val)%float
           else
             idx <- lift (unravelIndex a i) ;;
             val <- GetFloat64 a idx ;;
             ret (sum + val * val)%float) 0%float ;;
  ret (PrimFloat.sqrt sum).

End Vectors.

(** Reading an element of a backed vector. *)
Lemma GetFloat64_item h a buf n i :
  View.backs h a buf -> shape a = [n] -> 0 <= i < n ->
  GetFloat64 a [i] h = Ok (Elem.get (dtype a) buf i, h).
Proof.
  intros V S Hi.
  rewrite (GetFloat64_elem h a buf) by (auto; rewrite S; repeat constructor; lia).
  rewrite S. cbn [Layout.ravel]. change (Layout.prodZ []) with 1.
  now replace (i * 1 + 0) with i by lia.
Qed.

Lemma vector_meta h a buf n :
  View.backs h a buf -> shape a = [n] -> ndim a = 1 /\ size a = n /\ 0 < n.
Proof.
  intros (_ & ND & SZ & _ & (Fp & _) & _) S. rewrite S in *.
  pose proof (Forall_inv Fp) as P. cbv beta in P.
  split; [exact ND|]. split; [|exact P].
  rewrite SZ. change (Layout.prodZ [n]) with (n * 1). lia.
Qed.

Module VectorSpec.

(** The inner product of the first [n] elements read through [x] and
    [y], added from index 0 upwards starting at 0. *)
Definition inner (n : nat) (x y : Z -> float) : float :=
  ProductSpec.sum_to n (fun k => (x (Z.of_nat k) * y (Z.of_nat k))%float).

End VectorSpec.

Lemma inner_loop h a b bufa bufb (n : nat) :
  View.backs h a bufa -> View.backs h b bufb ->
  shape a = [Z.of_nat n] -> shape b = [Z.of_nat n] ->
  for_upto (Z.of_nat n) (fun i sum =>
    x <- GetFloat64 a [i] ;;
    y <- GetFloat64 b [i] ;;
    ret (sum + x * y)%float) 0%float h
  = Ok (VectorSpec.inner n (Elem.get (dtype a) bufa) (Elem.get (dtype b) bufb), h).
Proof.
  intros Va Vb SA SB. apply sum_loop. intros k s Hk.
  rewrite (bind_ok_intro _ _ _ _ _
             (GetFloat64_item _ a bufa _ (Z.of_nat k) Va SA ltac:(lia))).
  rewrite (bind_ok_intro _ _ _ _ _
             (GetFloat64_item _ b bufb _ (Z.of_nat k) Vb SB ltac:(lia))).
  reflexivity.
Qed.

(** X18.  On two backed vectors of the same length [Inner] is the sum of
    the products of their elements, added from index 0 upwards starting
    at 0, and [Dot] returns that number in a fresh [Float64] array of
    shape [[1]].  Vectors of different lengths are a dimension error for
    both, and so is a pair of operands that [Dot] has no branch for. *)
Theorem Dot_of_vectors_is_Inner h a b bufa bufb (n : nat) :
  View.backs h a bufa -> View.backs h b bufb ->
  shape a = [Z.of_nat n] -> shape b = [Z.of_nat n] ->
  let s := VectorSpec.inner n (Elem.get (dtype a) bufa) (Elem.get (dtype b) bufb) in
  (Vectors.Inner a b h = Ok (s, h)
   /\ exists r bufR,
        Vectors.Dot a b h = Ok (r, h ++ [bufR])
        /\ data r = length h /\ shape r = [1] /\ dtype r = Float64
        /\ GetFloat64 r [0] (h ++ [bufR]) = Ok (s, h ++ [bufR]))
  /\ (forall x y h0, ndim x = 1 -> ndim y = 1 -> size x <> size y ->
        Vectors.Inner x y h0 = Err DimensionError
        /\ Vectors.Dot x y h0 = Err DimensionError)
  /\ (forall x y h0,
        ~ (ndim x = 1 /\ ndim y = 1) -> ~ (ndim x = 2 /\ (ndim y = 2 \/ ndim y = 1)) ->
        Vectors.Dot x y h0 = Err DimensionError).
Proof.
  intros Va Vb SA SB s.
  destruct (vector_meta _ _ _ _ Va SA) as (NA & ZA & PA).
  destruct (vector_meta _ _ _ _ Vb SB) as (NB & ZB & PB).
  pose proof (inner_loop h a b bufa bufb n Va Vb SA SB) as L. fold s in L.
  split; [split|split].
  - unfold Vectors.Inner, Ndim, Size. rewrite NA, NB, ZA, ZB, !Z.eqb_refl. exact L.
  - unfold Vectors.Dot, Ndim, Size. rewrite NA, NB, ZA, ZB, !Z.eqb_refl.
    cbn [andb negb]. rewrite (bind_ok_intro _ _ _ _ _ L).
    destruct (FromSliceFloat64_backs [s] [1] h) as (bufR & E & VR & G).
    { discriminate. }
    { split; [repeat constructor; lia|]. split; [lia|]. vm_compute. discriminate. }
    { reflexivity. }
    cbv zeta in E, VR. eexists _, bufR. split; [exact E|]. cbn [data shape dtype].
    repeat (split; [reflexivity|]).
    rewrite (GetFloat64_item _ _ bufR 1 0 VR eq_refl ltac:(lia)). cbn [dtype].
    rewrite (G 0) by (cbn; lia). reflexivity.
  - intros x y h0 Nx Ny D. unfold Vectors.Inner, Vectors.Dot, Ndim, Size.
    rewrite Nx, Ny. cbn [Z.eqb Pos.eqb andb orb negb].
    destruct (Z.eqb_spec (size x) (size y)); [contradiction|]. split; reflexivity.
  - intros x y h0 N1 N2. unfold Vectors.Dot, Ndim.
    destruct (Z.eqb_spec (ndim x) 1), (Z.eqb_spec (ndim y) 1),
             (Z.eqb_spec (ndim x) 2), (Z.eqb_spec (ndim y) 2);
      cbn [andb]; try reflexivity; exfalso; tauto.
Qed.

Lemma Dot_of_vectors_is_Inner_witness :
  let enc := flat_map (fun v => Enc.le_encode 8 (Enc.Float64bits v)) in
  let bufa := enc [1; 2; 3]%float in
  let bufb := enc [4; 5; 6]%float in
  let a := mkNDArray 0 [3] [8] Float64 3 1 in
  let b := mkNDArray 1 [3] [8] Float64 3 1 in
  View.backs [bufa; bufb] a bufa /\ View.backs [bufa; bufb] b bufb
  /\ Vectors.Inner a b [bufa; bufb] = Ok (32%float, [bufa; bufb]).
Proof.
  intros enc bufa bufb a b.
  assert (Va : View.backs [bufa; bufb] a bufa).
  { repeat split; try reflexivity; repeat constructor; vm_compute; congruence. }
  assert (Vb : View.backs [bufa; bufb] b bufb).
  { repeat split; try reflexivity; repeat constructor; vm_compute; congruence. }
  split; [exact Va|]. split; [exact Vb|].
  exact (proj1 (proj1 (Dot_of_vectors_is_Inner [bufa; bufb] a b bufa bufb 3
                         Va Vb eq_refl eq_refl))).
Defined.

Lemma Dot_matrix_vector_run h a b bufa bufb (m n : nat) :
  View.backs h a bufa -> View.backs h b bufb ->
  shape a = [Z.of_nat m; Z.of_nat n] -> shape b = [Z.of_nat n] ->
  8 * Z.of_nat m <= GoInt.max_int ->
  let r := mkNDArray (length h) [Z.of_nat m] (Layout.strides_of [Z.of_nat m] 8) Float64
             (Layout.prodZ [Z.of_nat m]) (len [Z.of_nat m]) in
  exists bufR : buffer,
    Vectors.Dot a b h = Ok (r, h ++ [bufR])
    /\ View.backs (h ++ [bufR]) r bufR
    /\ forall i, 0 <= i < Z.of_nat m ->
         Elem.get Float64 bufR i
         = VectorSpec.inner n (Mat.entry (dtype a) bufa (Z.of_nat n) i)
             (Elem.get (dtype b) bufb).
Proof.
  intros Va Vb SA SB Big r.
  set (Mz := Z.of_nat m) in *. set (Nz := Z.of_nat n) in *.
  pose proof Va as (_ & NDa & _ & _ & (Fa & _) & _).
  destruct (vector_meta _ _ _ _ Vb SB) as (NDb & ZB & PB).
  rewrite SA in NDa, Fa.
  pose proof (Forall_inv Fa) as MP. cbv beta in MP.
  unfold Vectors.Dot, Ndim, Size, Shape. rewrite NDa, NDb, SA, ZB.
  cbn [len length Z.of_nat Pos.of_succ_nat Pos.succ Z.eqb Pos.eqb andb nth].
  rewrite Z.eqb_refl. cbn [negb].
  assert (FR : Layout.fits [Mz] 8).
  { split; [repeat constructor; lia|]. split; [lia|].
    change (Layout.prodZ [Mz]) with (Mz * 1). lia. }
  destruct (Zeros_backs [Mz] Float64 h ltac:(discriminate) eq_refl FR) as [ZE ZV].
  cbn [ItemSize] in ZE, ZV. fold r in ZE, ZV.
  set (zeros := repeat x00 (Z.to_nat (8 * Layout.prodZ [Mz]))) in *.
  rewrite (bind_ok_intro _ _ _ _ _ ZE).
  set (val := fun i => VectorSpec.inner n (Mat.entry (dtype a) bufa Nz i)
                         (Elem.get (dtype b) bufb)).
  match goal with |- context [bind (for_each Mz ?bd) _] =>
    destruct (fill_inv h r zeros bd (fun i => Some (val i)) ZV eq_refl) as (bufR & E & VR & G)
  end.
  { intros j bufj Hj VJ. cbn [shape r] in Hj.
    change (Layout.prodZ [Mz]) with (Mz * 1) in Hj.
    assert (VaJ : View.backs (h ++ [bufj]) a bufa) by (apply backs_grow; exact Va).
    assert (VbJ : View.backs (h ++ [bufj]) b bufb) by (apply backs_grow; exact Vb).
    rewrite (bind_ok_intro _ _ _ (val j) (h ++ [bufj])).
    - rewrite (SetFloat64_elem _ r bufj [j] (val j) VJ)
        by (cbn [shape r]; repeat constructor; lia).
      cbn [data shape r Layout.ravel dtype]. change (Layout.prodZ []) with 1.
      replace (j * 1 + 0) with j by lia. now rewrite set_nth_last.
    - unfold val, VectorSpec.inner, Nz. apply sum_loop. intros k s Hk.
      rewrite (bind_ok_intro _ _ _ _ _
                 (GetFloat64_entry _ a bufa Mz Nz j (Z.of_nat k) VaJ SA
                    ltac:(lia) ltac:(lia))).
      rewrite (bind_ok_intro _ _ _ _ _
                 (GetFloat64_item _ b bufb Nz (Z.of_nat k) VbJ SB ltac:(lia))).
      reflexivity. }
  cbn [shape r dtype] in E, G. change (Layout.prodZ [Mz]) with (Mz * 1) in E, G.
  rewrite Z.mul_1_r in E, G.
  rewrite (bind_ok_intro _ _ _ _ _ E).
  exists bufR. split; [reflexivity|]. split; [exact VR|].
  intros i Hi. rewrite G by lia. apply conv_Float64.
Qed.

(** X19.  [Dot] of a backed [m] by [n] matrix and a backed vector of
    length [n] returns a fresh [Float64] vector of length [m] whose
    element [i] is the inner product of row [i] with the vector; on two
    2-D arrays [Dot] is [MatMul], and a vector whose length is not the
    number of columns is a dimension error. *)
Theorem Dot_matrix_vector h a b bufa bufb (m n : nat) :
  View.backs h a bufa -> View.backs h b bufb ->
  shape a = [Z.of_nat m; Z.of_nat n] -> shape b = [Z.of_nat n] ->
  8 * Z.of_nat m <= GoInt.max_int ->
  (exists r bufR,
     Vectors.Dot a b h = Ok (r, h ++ [bufR])
     /\ data r = length h /\ shape r = [Z.of_nat m] /\ dtype r = Float64
     /\ forall i, 0 <= i < Z.of_nat m ->
          GetFloat64 r [i] (h ++ [bufR])
          = Ok (VectorSpec.inner n (Mat.entry (dtype a) bufa (Z.of_nat n) i)
                  (Elem.get (dtype b) bufb), h ++ [bufR]))
  /\ (forall x y h0, ndim x = 2 -> ndim y = 2 ->
        Vectors.Dot x y h0 = LinalgOps.MatMul x y h0)
  /\ (forall x y h0, ndim x = 2 -> ndim y = 1 -> length (shape x) = 2%nat ->
        nth 1%nat (shape x) 0 <> size y ->
        Vectors.Dot x y h0 = Err DimensionError).
Proof.
  intros Va Vb SA SB Big. split; [|split].
  - destruct (Dot_matrix_vector_run h a b bufa bufb m n Va Vb SA SB Big)
      as (bufR & E & VR & G).
    eexists _, bufR. split; [exact E|]. cbn [data shape dtype].
    repeat (split; [reflexivity|]).
    intros i Hi.
    rewrite (GetFloat64_item _ _ bufR (Z.of_nat m) i VR eq_refl Hi).
    cbn [dtype]. now rewrite G.
  - intros x y h0 Nx Ny. unfold Vectors.Dot, Ndim. rewrite Nx, Ny. reflexivity.
  - intros x y h0 Nx Ny _ D. unfold Vectors.Dot, Ndim, Size, Shape. rewrite Nx, Ny.
    cbn [Z.eqb Pos.eqb andb].
    destruct (Z.eqb_spec (nth 1%nat (shape x) 0) (size y)); [contradiction|reflexivity].
Qed.

Lemma Dot_matrix_vector_witness :
  let enc := flat_map (fun v => Enc.le_encode 8 (Enc.Float64bits v)) in
  let bufa := enc [1; 2; 3; 4; 5; 6]%float in
  let bufb := enc [1; 0; 2]%float in
  let a := mkNDArray 0 [2; 3] [24; 8] Float64 6 2 in
  let b := mkNDArray 1 [3] [8] Float64 3 1 in
  View.backs [bufa; bufb] a bufa /\ View.backs [bufa; bufb] b bufb
  /\ exists r bufR,
       Vectors.Dot a b [bufa; bufb] = Ok (r, [bufa; bufb; bufR])
       /\ GetFloat64 r [1] [bufa; bufb; bufR] = Ok (16%float, [bufa; bufb; bufR]).
Proof.
  intros enc bufa bufb a b.
  assert (Va : View.backs [bufa; bufb] a bufa).
  { repeat split; try reflexivity; repeat constructor; vm_compute; congruence. }
  assert (Vb : View.backs [bufa; bufb] b bufb).
  { repeat split; try reflexivity; repeat constructor; vm_compute; congruence. }
  split; [exact Va|]. split; [exact Vb|].
  destruct (Dot_matrix_vector [bufa; bufb] a b bufa bufb 2 3 Va Vb eq_refl eq_refl)
    as ((r & bufR & E & _ & _ & _ & G) & _); [vm_compute; discriminate|].
  exists r, bufR. split; [exact E|]. apply (G 1). lia.
Defined.

Lemma Outer_run h a b bufa bufb (m n : nat) :
  View.backs h a bufa -> View.backs h b bufb ->
  shape a = [Z.of_nat m] -> shape b = [Z.of_nat n] ->
  8 * (Z.of_nat m * Z.of_nat n) <= GoInt.max_int ->
  let r := mkNDArray (length h) [Z.of_nat m; Z.of_nat n]
             (Layout.strides_of [Z.of_nat m; Z.of_nat n] 8) Float64
             (Layout.prodZ [Z.of_nat m; Z.of_nat n]) (len [Z.of_nat m; Z.of_nat n]) in
  exists bufR : buffer,
    Vectors.Outer a b h = Ok (r, h ++ [bufR])
    /\ View.backs (h ++ [bufR]) r bufR
    /\ forall i j, 0 <= i < Z.of_nat m -> 0 <= j < Z.of_nat n ->
         Mat.entry Float64 bufR (Z.of_nat n) i j
         = (Elem.get (dtype a) bufa i * Elem.get (dtype b) bufb j)%float.
Proof.
  intros Va Vb SA SB Big r.
  set (Mz := Z.of_nat m) in *. set (Nz := Z.of_nat n) in *.
  destruct (vector_meta _ _ _ _ Va SA) as (NDa & ZA & PA).
  destruct (vector_meta _ _ _ _ Vb SB) as (NDb & ZB & PB).
  pose proof Va as (_ & _ & _ & _ & _ & NEa & _).
  pose proof Vb as (_ & _ & _ & _ & _ & NEb & _).
  assert (DA : (data a < length h)%nat) by (apply nth_error_Some; congruence).
  assert (DB : (data b < length h)%nat) by (apply nth_error_Some; congruence).
  unfold Vectors.Outer, Ndim, Size. rewrite NDa, NDb, ZA, ZB.
  cbn [Z.eqb Pos.eqb negb orb].
  assert (FR : Layout.fits [Mz; Nz] 8).
  { split; [repeat constructor; lia|]. split; [lia|].
    cbn [Layout.prodZ fold_right]. nia. }
  destruct (Zeros_backs [Mz; Nz] Float64 h ltac:(discriminate) eq_refl FR) as [ZE ZV].
  cbn [ItemSize] in ZE, ZV. fold r in ZE, ZV.
  set (zeros := repeat x00 (Z.to_nat (8 * Layout.prodZ [Mz; Nz]))) in *.
  rewrite (bind_ok_intro _ _ _ _ _ ZE).
  pose proof (zeros_hold h r Mz Nz ZV eq_refl eq_refl) as H0. fold zeros in H0.
  assert (Va0 : View.backs (h ++ [zeros]) a bufa) by (apply backs_grow; exact Va).
  assert (Vb0 : View.backs (h ++ [zeros]) b bufb) by (apply backs_grow; exact Vb).
  assert (NA : data a <> data r) by (cbn [data r]; lia).
  assert (NB : data b <> data r) by (cbn [data r]; lia).
  set (W := fun i c => (Elem.get (dtype a) bufa i * Elem.get (dtype b) bufb c)%float).
  match goal with |- context [bind (for_each ?cnt ?bd) _] =>
    destruct (rows_loop (h ++ [zeros]) r Mz Nz (fun _ _ => 0%float) W
                (h ++ [zeros]) bd cnt H0) as (h1 & E1 & H1); [lia | |]
  end.
  { intros i hi F' Hi HI EF.
    match goal with |- context [for_each ?cnt ?bd hi] =>
      destruct (row_loop (h ++ [zeros]) r Mz Nz F' hi i (fun c => W i c) bd cnt HI)
        as (h2 & E2 & H2); [lia | lia | |]
    end.
    - intros j hj F'' Hj HJ _.
      pose proof (holds_other _ _ _ _ _ _ _ _ HJ Va0 NA) as VaJ.
      pose proof (holds_other _ _ _ _ _ _ _ _ HJ Vb0 NB) as VbJ.
      rewrite (bind_ok_intro _ _ _ _ _ (GetFloat64_item _ a bufa Mz i VaJ SA Hi)).
      rewrite (bind_ok_intro _ _ _ _ _ (GetFloat64_item _ b bufb Nz j VbJ SB Hj)).
      reflexivity.
    - exists h2. split; [exact E2|].
      apply (holds_ext _ _ _ _ _ _ _ H2). intros k c Hk Hc.
      replace (c <? Nz) with true by lia. now rewrite andb_true_r. }
  rewrite (bind_ok_intro _ _ _ _ _ E1).
  destruct H1 as (bufR & EH & VR & _ & _ & GR).
  assert (EH' : h1 = h ++ [bufR]) by (rewrite EH; cbn [data r]; apply set_nth_last).
  clear EH. subst h1. exists bufR. split; [reflexivity|]. split; [exact VR|].
  intros i j Hi Hj. rewrite GR by lia.
  now replace (i <? Mz) with true by lia.
Qed.

(** X20.  [Outer] of two backed vectors of lengths [m] and [n] returns a
    fresh [Float64] matrix of shape [[m; n]] whose entry [(i, j)] is the
    product of element [i] of the first and element [j] of the second;
    an operand that is not 1-D is a dimension error. *)
Theorem Outer_entries_are_products h a b bufa bufb (m n : nat) :
  View.backs h a bufa -> View.backs h b bufb ->
  shape a = [Z.of_nat m] -> shape b = [Z.of_nat n] ->
  8 * (Z.of_nat m * Z.of_nat n) <= GoInt.max_int ->
  (exists r bufR,
     Vectors.Outer a b h = Ok (r, h ++ [bufR])
     /\ data r = length h /\ shape r = [Z.of_nat m; Z.of_nat n] /\ dtype r = Float64
     /\ forall i j, 0 <= i < Z.of_nat m -> 0 <= j < Z.of_nat n ->
          GetFloat64 r [i; j] (h ++ [bufR])
          = Ok ((Elem.get (dtype a) bufa i * Elem.get (dtype b) bufb j)%float,
                h ++ [bufR]))
  /\ (forall x y h0, ndim x <> 1 \/ ndim y <> 1 ->
        Vectors.Outer x y h0 = Err DimensionError).
Proof.
  intros Va Vb SA SB Big. split.
  - destruct (Outer_run h a b bufa bufb m n Va Vb SA SB Big) as (bufR & E & VR & G).
    eexists _, bufR. split; [exact E|]. cbn [data shape dtype].
    repeat (split; [reflexivity|]).
    intros i j Hi Hj.
    rewrite (GetFloat64_entry _ _ bufR (Z.of_nat m) (Z.of_nat n)) by auto.
    cbn [dtype]. now rewrite G.
  - intros x y h0 N. unfold Vectors.Outer, Ndim.
    destruct (Z.eqb_spec (ndim x) 1), (Z.eqb_spec (ndim y) 1);
      cbn [negb orb]; try reflexivity. lia.
Qed.

Lemma Outer_entries_are_products_witness :
  let enc := flat_map (fun v => Enc.le_encode 8 (Enc.Float64bits v)) in
  let bufa := enc [1; 2; 3]%float in
  let bufb := enc [4; 5]%float in
  let a := mkNDArray 0 [3] [8] Float64 3 1 in
  let b := mkNDArray 1 [2] [8] Float64 2 1 in
  View.backs [bufa; bufb] a bufa /\ View.backs [bufa; bufb] b bufb
  /\ exists r bufR,
       Vectors.Outer a b [bufa; bufb] = Ok (r, [bufa; bufb; bufR])
       /\ GetFloat64 r [2; 1] [bufa; bufb; bufR] = Ok (15%float, [bufa; bufb; bufR]).
Proof.
  intros enc bufa bufb a b.
  assert (Va : View.backs [bufa; bufb] a bufa).
  { repeat split; try reflexivity; repeat constructor; vm_compute; congruence. }
  assert (Vb : View.backs [bufa; bufb] b bufb).
  { repeat split; try reflexivity; repeat constructor; vm_compute; congruence. }
  split; [exact Va|]. split; [exact Vb|].
  destruct (Outer_entries_are_products [bufa; bufb] a b bufa bufb 3 2 Va Vb eq_refl eq_refl)
    as ((r & bufR & E & _ & _ & _ & G) & _); [vm_compute; discriminate|].
  exists r, bufR. split; [exact E|]. apply (G 2 1); lia.
Defined.

(** X21.  [Norm] of a backed array of any number of axes is the square
    root of the sum of the squares of all its elements, added in
    row-major order starting at 0: the branch for vectors and the branch
    for other arrays read the same elements.  It leaves the store as it
    was, and is 0 on an array of size 0. *)
Theorem Norm_is_root_of_squares h a buf :
  View.backs h a buf ->
  Vectors.Norm a h
  = Ok (PrimFloat.sqrt
          (fold_left (fun s v => s + v * v)%float (Elem.all (dtype a) buf (size a)) 0%float),
        h)
  /\ (forall x h0, size x = 0 -> Vectors.Norm x h0 = Ok (0%float, h0)).
Proof.
  intros V. split.
  - unfold Vectors.Norm, Size, Shape.
    rewrite (bind_ok_intro _ _ _
      (fold_left (fun s v => s + v * v)%float (Elem.all (dtype a) buf (size a)) 0%float) h);
      [reflexivity|].
    apply (fold_loop h a buf (fun s v => s + v * v)%float); [exact V|].
    intros i s Hi. destruct (Z.eqb_spec (len (shape a)) 1) as [L1|L1].
    + assert (SA : exists n, shape a = [n]).
      { unfold len in L1. destruct (shape a) as [|n [|? ?]]; cbn in L1; try lia.
        now exists n. }
      destruct SA as [n SA]. destruct (vector_meta _ _ _ _ V SA) as (_ & ZA & _).
      now rewrite (bind_ok_intro _ _ _ _ _
                     (GetFloat64_item _ a buf n i V SA ltac:(lia))).
    + now rewrite (read_flat h a buf i) by auto.
  - intros x h0 Z0. unfold Vectors.Norm, Size, for_upto. rewrite Z0. reflexivity.
Qed.

Lemma Norm_is_root_of_squares_witness :
  let buf := flat_map (fun v => Enc.le_encode 8 (Enc.Float64bits v)) [1; 2; 2; 4]%float in
  let a := mkNDArray 0 [2; 2] [16; 8] Float64 4 2 in
  View.backs [buf] a buf /\ Vectors.Norm a [buf] = Ok (5%float, [buf]).
Proof.
  intros buf a.
  assert (V : View.backs [buf] a buf).
  { repeat split; try reflexivity; repeat constructor; vm_compute; congruence. }
  split; [exact V|].
  exact (proj1 (Norm_is_root_of_squares [buf] a buf V)).
Defined.


(** ** Copies do not share their elements *)

(** X22.  [Copy] of a backed array returns an array with its own buffer
    and the same shape, dtype and elements; a later [SetFloat64] on the
    copy leaves every element of the original as it was, and a later
    [SetFloat64] on the original leaves every element of the copy. *)
Theorem Copy_is_independent (h : heap) (a : NDArray) (buf : buffer) :
  View.backs h a buf ->
  exists r,
    Copy a h = Ok (r, h ++ [buf])
    /\ data r = length h /\ data r <> data a
    /\ shape r = shape a /\ dtype r = dtype a
    /\ (forall idx, Layout.in_shape (shape a) idx ->
          GetFloat64 r idx (h ++ [buf])
          = Ok (Elem.get (dtype a) buf (Layout.ravel (shape a) idx), h ++ [buf]))
    /\ (forall idx v, Layout.in_shape (shape a) idx ->
          exists h',
            SetFloat64 r v idx (h ++ [buf]) = Ok (tt, h')
            /\ forall jdx, Layout.in_shape (shape a) jdx ->
                 GetFloat64 a jdx h'
                 = Ok (Elem.get (dtype a) buf (Layout.ravel (shape a) jdx), h'))
    /\ (forall idx v, Layout.in_shape (shape a) idx ->
          exists h',
            SetFloat64 a v idx (h ++ [buf]) = Ok (tt, h')
            /\ forall jdx, Layout.in_shape (shape a) jdx ->
                 GetFloat64 r jdx h'
                 = Ok (Elem.get (dtype a) buf (Layout.ravel (shape a) jdx), h')).
Proof.
  intros V. destruct (Copy_backs h a buf V) as [CE CB].
  set (r := mkNDArray (length h) (shape a) (strides a) (dtype a) (size a) (ndim a)) in *.
  pose proof V as (_ & _ & _ & _ & _ & NE & _).
  assert (DA : (data a < length h)%nat) by (apply nth_error_Some; congruence).
  assert (VA : View.backs (h ++ [buf]) a buf) by (apply backs_grow; exact V).
  exists r. split; [exact CE|]. split; [reflexivity|].
  split; [cbn [data r]; lia|]. split; [reflexivity|]. split; [reflexivity|].
  split; [|split].
  - intros idx I. now rewrite (GetFloat64_elem _ r buf idx CB I).
  - intros idx v I. rewrite (SetFloat64_elem _ r buf idx v CB I).
    eexists. split; [reflexivity|]. intros jdx J.
    apply GetFloat64_elem; [|exact J].
    apply backs_other; [exact VA|]. cbn [data r]. lia.
  - intros idx v I. rewrite (SetFloat64_elem _ a buf idx v VA I).
    eexists. split; [reflexivity|]. intros jdx J.
    rewrite (GetFloat64_elem _ r buf jdx); [reflexivity| |exact J].
    apply backs_other; [exact CB|]. cbn [data r]. lia.
Qed.

Lemma Copy_is_independent_witness :
  let buf := flat_map (fun v => Enc.le_encode 8 (Enc.Float64bits v)) [1; 2; 3; 4]%float in
  let a := mkNDArray 0 [2; 2] [16; 8] Float64 4 2 in
  View.backs [buf] a buf
  /\ exists r, Copy a [buf] = Ok (r, [buf; buf]) /\ data r <> data a.
Proof.
  intros buf a.
  assert (V : View.backs [buf] a buf).
  { repeat split; try reflexivity; repeat constructor; vm_compute; congruence. }
  split; [exact V|].
  destruct (Copy_is_independent [buf] a buf V) as (r & E & _ & N & _).
  exists r. split; [exact E | exact N].
Defined.

(** ** Sampled arrays ([random.go]) *)

(** An array made from a slice gives the slice back. *)
Lemma FromSliceFloat64_slice (xs : list float) (shp : list Z) (h : heap) :
  shp <> [] -> Layout.fits shp 8 -> len xs = Layout.prodZ shp ->
  exists buf,
    let r := mkNDArray (length h) shp (Layout.strides_of shp 8) Float64
               (Layout.prodZ shp) (len shp) in
    FromSliceFloat64 xs shp h = Ok (r, h ++ [buf])
    /\ ToSliceFloat64 r (h ++ [buf]) = Ok (xs, h ++ [buf]).
Proof.
  intros NN F L.
  destruct (FromSliceFloat64_backs xs shp h NN F L) as (buf & E & V & G).
  cbv zeta in E, V. exists buf. cbv zeta. split; [exact E|].
  rewrite (ToSliceFloat64_spec _ _ buf V). cbn [size dtype]. f_equal. f_equal.
  pose proof F as (Fp & _). pose proof (prodZ_pos _ Fp) as PP.
  apply (nth_ext _ _ 0%float 0%float).
  - rewrite length_map, length_seq. unfold len in L. lia.
  - intros k Hk. rewrite length_map, length_seq in Hk.
    rewrite nth_tabulate by lia. rewrite G by lia. now rewrite Nat2Z.id.
Qed.

Module SampleSpec.

(** [n] successive draws of [gen] from [src], and the source after
    them. *)
Fixpoint draws {Source : Type} (gen : Source -> float * Source) (n : nat) (src : Source)
  : list float * Source :=
  match n with
  | O => ([], src)
  | S k =>
      let (u, src1) := gen src in
      let (us, src2) := draws gen k src1 in
      (u :: us, src2)
  end.

End SampleSpec.

Section Sampling.

Variable Source : Type.
Variable rand_Float64 rand_NormFloat64 : Source -> float * Source.
Variable math_Log : float -> float.

Lemma sample_draws (gen : Source -> float * Source) (f : float -> float) (n : nat) :
  forall src,
    sample Source n (fun s => let (u, s') := gen s in Ok (f u, s')) src
    = Ok (map f (fst (SampleSpec.draws gen n src)), snd (SampleSpec.draws gen n src)).
Proof.
  induction n as [|k IH]; intros src; [reflexivity|].
  cbn [sample SampleSpec.draws]. destruct (gen src) as [u src1]. rewrite IH.
  destruct (SampleSpec.draws gen k src1) as [us src2]. reflexivity.
Qed.

Lemma draws_length (gen : Source -> float * Source) (n : nat) :
  forall src, length (fst (SampleSpec.draws gen n src)) = n.
Proof.
  induction n as [|k IH]; intros src; [reflexivity|].
  cbn [SampleSpec.draws]. destruct (gen src) as [u src1]. specialize (IH src1).
  destruct (SampleSpec.draws gen k src1) as [us src2]. cbn in *. now rewrite IH.
Qed.

Lemma shape_size_fits (shp : list Z) (w : Z) :
  Layout.fits shp w -> shape_size shp = Layout.prodZ shp.
Proof.
  intros (F & W & B). unfold shape_size.
  pose proof (prodZ_pos shp F). rewrite fold_left_mul_fits; auto; try lia. nia.
Qed.

(** The arrays of [Uniform] and [Normal]: [size] draws, each mapped by
    [f], in a fresh array. *)
Lemma sampled_spec (gen : Source -> float * Source) (f : float -> float)
    (rng : RNG Source) (shp : list Z) (h : heap) :
  shp <> [] -> Layout.fits shp 8 ->
  let d := SampleSpec.draws gen (Z.to_nat (Layout.prodZ shp)) (source Source rng) in
  exists arr h',
    ('(data, src) <- lift (fill Source (shape_size shp)
                             (fun s => let (u, s') := gen s in Ok (f u, s'))
                             (source Source rng)) ;;
     arr <- FromSliceFloat64 data shp ;;
     ret (arr, mkRNG Source src)) h
    = Ok ((arr, mkRNG Source (snd d)), h')
    /\ data arr = length h /\ shape arr = shp /\ dtype arr = Float64
    /\ ToSliceFloat64 arr h' = Ok (map f (fst d), h').
Proof.
  intros NN F d. pose proof F as (Fp & _). pose proof (prodZ_pos _ Fp) as PP.
  rewrite (shape_size_fits shp 8 F). unfold fill.
  rewrite (proj2 (Z.ltb_ge _ _)) by lia. rewrite sample_draws. fold d.
  destruct (FromSliceFloat64_slice (map f (fst d)) shp h NN F) as (buf & E & T).
  { unfold len, d. rewrite length_map, draws_length. lia. }
  cbv zeta in E, T. eexists _, _. split.
  - rewrite (bind_ok_intro _ _ _ (map f (fst d), snd d) h) by reflexivity.
    cbv beta iota. rewrite (bind_ok_intro _ _ _ _ _ E). reflexivity.
  - cbn [data shape dtype]. repeat (split; [reflexivity|]). exact T.
Qed.

(** X23.  [Uniform] and [Normal] with a shape that is not empty return a
    fresh [Float64] array of that shape whose elements in row-major
    order are [low + (high - low) * u] and [mean + std * z] for the
    successive draws [u] of [Float64] and [z] of [NormFloat64], and
    leave the generator after those draws.  Called without a shape they
    panic like [Rand], [StandardNormal], [Binomial] and [Exponential],
    because the one element they draw does not match the size 0 that
    [FromSliceFloat64] computes for an empty shape. *)
Theorem samples_follow_the_draws (rng : RNG Source) (shp : list Z) (h : heap) :
  shp <> [] -> Layout.fits shp 8 ->
  let n := Z.to_nat (Layout.prodZ shp) in
  (forall low high,
     let d := SampleSpec.draws rand_Float64 n (source Source rng) in
     exists arr h',
       Uniform Source rand_Float64 rng low high shp h
       = Ok ((arr, mkRNG Source (snd d)), h')
       /\ data arr = length h /\ shape arr = shp /\ dtype arr = Float64
       /\ ToSliceFloat64 arr h'
          = Ok (map (fun u => (low + (high - low) * u)%float) (fst d), h'))
  /\ (forall mean std,
        let d := SampleSpec.draws rand_NormFloat64 n (source Source rng) in
        exists arr h',
          Normal Source rand_NormFloat64 rng mean std shp h
          = Ok ((arr, mkRNG Source (snd d)), h')
          /\ data arr = length h /\ shape arr = shp /\ dtype arr = Float64
          /\ ToSliceFloat64 arr h'
             = Ok (map (fun z => (mean + std * z)%float) (fst d), h'))
  /\ (forall g h0 low high mean std k p scale,
        Uniform Source rand_Float64 g low high [] h0 = Err (DataLengthError 1 0)
        /\ Rand Source rand_Float64 g [] h0 = Err (DataLengthError 1 0)
        /\ Normal Source rand_NormFloat64 g mean std [] h0 = Err (DataLengthError 1 0)
        /\ StandardNormal Source rand_NormFloat64 g [] h0 = Err (DataLengthError 1 0)
        /\ Binomial Source rand_Float64 g k p [] h0 = Err (DataLengthError 1 0)
        /\ Exponential Source rand_Float64 math_Log g scale [] h0
           = Err (DataLengthError 1 0)).
Proof.
  intros NN F n. split; [|split].
  - intros low high. apply (sampled_spec rand_Float64); assumption.
  - intros mean std. apply (sampled_spec rand_NormFloat64); assumption.
  - intros g h0 low high mean std k p scale.
    unfold Rand, StandardNormal, Uniform, Normal, Binomial, Exponential, fill, shape_size.
    cbn [fold_left]. change (1 <? 0) with false. change (Z.to_nat 1) with 1%nat.
    cbn [sample]. unfold bind, lift.
    destruct (rand_Float64 (source Source g)) as [u s1].
    destruct (rand_NormFloat64 (source Source g)) as [z s2].
    destruct (bernoulli_count Source rand_Float64 (Z.to_nat k) p 0 (source Source g))
      as [c s3].
    repeat split; reflexivity.
Qed.

End Sampling.

Lemma samples_follow_the_draws_witness :
  exists arr h',
    Uniform Z Counter.next (mkRNG Z 4) 1 3 [2] [] = Ok ((arr, mkRNG Z 6), h')
    /\ ToSliceFloat64 arr h' = Ok ([1.5; 1.625]%float, h').
Proof.
  destruct (samples_follow_the_draws Z Counter.next Counter.next (fun x => x)
              (mkRNG Z 4) [2] []) as (U & _).
  - discriminate.
  - split; [repeat constructor; lia|]. split; [lia|]. vm_compute. discriminate.
  - destruct (U 1%float 3%float) as (arr & h' & E & _ & _ & _ & T).
    exists arr, h'. split; [exact E | exact T].
Defined.

(** ** Reshaping without reordering ([Flatten], [Squeeze], [ExpandDims]) *)

Module Shaping.

Definition Flatten (a : NDArray) : M NDArray := Reshape a [size a].

Definition Ravel (a : NDArray) : M NDArray := Flatten a.

Definition Squeeze (a : NDArray) : M NDArray :=
  let newShape := filter (fun dim => negb (dim =? 1)) (shape a) in
  let newShape := if len newShape =? 0 then [1] else newShape in
  Reshape a newShape.

(** The slice expressions [a.shape[:axis]] and [a.shape[axis:]] panic
    for an [axis] beyond the slice, whose capacity is taken to be its
    length. *)
Definition ExpandDims (a : NDArray) (axis : Z) : M NDArray :=
  let axis := if axis <? 0 then GoInt.add (GoInt.add (ndim a) axis) 1 else axis in
  if (axis <? 0) || (ndim a <? axis) then fail AxisError
  else if len (shape a) <? axis then fail RuntimePanic
  else
    let newShape := repeat 0 (Z.to_nat (GoInt.add (ndim a) 1)) in
    let newShape := copy_at 0 newShape (firstn (Z.to_nat axis) (shape a)) in
    let newShape := set_nth (Z.to_nat axis) 1 newShape in
    let newShape := copy_at (Z.to_nat axis + 1) newShape (skipn (Z.to_nat axis) (shape a)) in
    Reshape a newShape.

End Shaping.

Module ShapingSpec.

(** The shape without its extents equal to 1, or [[1]] when none is
    left. *)
Definition squeezed (s : list Z) : list Z :=
  match filter (fun dim => negb (dim =? 1)) s with
  | [] => [1]
  | l => l
  end.

(** The shape with an extent 1 put in at position [k]. *)
Definition expanded (k : nat) (s : list Z) : list Z :=
  firstn k s ++ 1 :: skipn k s.

(** [r] in [h'] is a fresh array of shape [S] over a copy of the buffer
    of [a], with the elements of [a] in the same row-major order. *)
Definition reshaped (h : heap) (a : NDArray) (buf : buffer) (S : list Z)
    (r : NDArray) (h' : heap) : Prop :=
  h' = h ++ [buf] /\ data r = length h /\ shape r = S /\ dtype r = dtype a
  /\ size r = size a
  /\ ToSliceFloat64 r h' = Ok (Elem.all (dtype a) buf (size a), h').

End ShapingSpec.

Lemma Reshape_backs (h : heap) (a : NDArray) (buf : buffer) (S : list Z) :
  View.backs h a buf -> S <> [] -> Forall (fun d => 0 < d) S ->
  Layout.prodZ S = Layout.prodZ (shape a) ->
  exists r,
    Reshape a S h = Ok (r, h ++ [buf])
    /\ View.backs (h ++ [buf]) r buf
    /\ ShapingSpec.reshaped h a buf S r (h ++ [buf]).
Proof.
  intros V NN FS PS. pose proof V as (Sup & ND & SZ & ST & (Fp & W & B) & NE & LB).
  assert (FT : Layout.fits S (ItemSize (dtype a))).
  { split; [exact FS|]. split; [exact W|]. now rewrite PS. }
  set (r := mkNDArray (length h) S (Layout.strides_of S (ItemSize (dtype a))) (dtype a)
              (size a) (len S)).
  assert (E : Reshape a S h = Ok (r, h ++ [buf])).
  { unfold Reshape.
    rewrite (bind_ok_intro _ _ _ (-1, fold_left GoInt.mul S 1) h)
      by (rewrite scan_nonneg by (eapply Forall_impl; [|exact FS]; cbv beta; intros; lia);
          reflexivity).
    simpl (negb (-1 =? -1)). cbv iota.
    rewrite (bind_ok_intro _ _ _ (S, computeSize S) h) by reflexivity.
    rewrite (computeSize_fits S _ NN FT), PS, <- SZ, Z.eqb_refl. cbn [negb].
    rewrite (bind_ok_intro _ _ _ buf h) by (unfold Store.get; now rewrite NE).
    unfold bind, Store.alloc, ret. rewrite computeStrides_fits by exact FT. reflexivity. }
  assert (VR : View.backs (h ++ [buf]) r buf).
  { unfold View.backs. cbn [dtype ndim size strides shape data r].
    repeat split; auto; try apply FT; try congruence. apply nth_error_last. }
  exists r. split; [exact E|]. split; [exact VR|].
  repeat (split; [reflexivity|]). now rewrite (ToSliceFloat64_spec _ _ buf VR).
Qed.

Lemma prodZ_filter_ones (s : list Z) :
  Layout.prodZ (filter (fun dim => negb (dim =? 1)) s) = Layout.prodZ s.
Proof.
  induction s as [|d t IH]; [reflexivity|]. cbn [filter].
  destruct (Z.eqb_spec d 1) as [->|N]; cbn [negb]; rewrite !prodZ_cons, ?IH; lia.
Qed.

Lemma squeezed_spec (s : list Z) :
  Forall (fun d => 0 < d) s ->
  ShapingSpec.squeezed s <> [] /\ Forall (fun d => 0 < d) (ShapingSpec.squeezed s)
  /\ Layout.prodZ (ShapingSpec.squeezed s) = Layout.prodZ s.
Proof.
  intros F. unfold ShapingSpec.squeezed.
  pose proof (prodZ_filter_ones s) as P.
  assert (FF : Forall (fun d => 0 < d) (filter (fun dim => negb (dim =? 1)) s)).
  { apply Forall_forall. intros x Hx. apply filter_In in Hx.
    rewrite Forall_forall in F. now apply F. }
  destruct (filter _ s) as [|d t].
  - split; [discriminate|]. split; [repeat constructor; lia|]. now rewrite <- P.
  - split; [discriminate|]. split; [exact FF | exact P].
Qed.

Lemma expanded_spec (k : nat) (s : list Z) :
  Forall (fun d => 0 < d) s ->
  ShapingSpec.expanded k s <> [] /\ Forall (fun d => 0 < d) (ShapingSpec.expanded k s)
  /\ Layout.prodZ (ShapingSpec.expanded k s) = Layout.prodZ s.
Proof.
  intros F. unfold ShapingSpec.expanded. split; [|split].
  - destruct (firstn k s); discriminate.
  - rewrite <- (firstn_skipn k s) in F. apply Forall_app in F. destruct F as [F1 F2].
    apply Forall_app. split; [exact F1|]. constructor; [lia | exact F2].
  - rewrite prodZ_app, prodZ_cons. rewrite <- (firstn_skipn k s) at 3.
    rewrite prodZ_app. lia.
Qed.

(** The three slice statements of [ExpandDims]. *)
Lemma expand_copies (k : nat) (s : list Z) :
  (k <= length s)%nat ->
  copy_at (k + 1)
    (set_nth k 1 (copy_at 0 (repeat 0 (S (length s))) (firstn k s)))
    (skipn k s)
  = ShapingSpec.expanded k s.
Proof.
  intros K. unfold ShapingSpec.expanded.
  assert (L1 : length (copy_at 0 (repeat 0 (S (length s))) (firstn k s)) = S (length s)).
  { rewrite copy_at_length; rewrite ?repeat_length, ?length_firstn; lia. }
  apply nth_error_ext. intros i.
  rewrite nth_error_copy_at
    by (rewrite set_nth_length, L1, length_skipn; lia).
  rewrite length_skipn.
  destruct (Nat.leb_spec (k + 1) i) as [A|A]; cbn [andb].
  - destruct (Nat.ltb_spec i (k + 1 + (length s - k))) as [B|B].
    + rewrite nth_error_skipn, nth_error_app2 by (rewrite length_firstn; lia).
      rewrite length_firstn, Nat.min_l by lia.
      replace (i - k)%nat with (S (i - (k + 1))) by lia. cbn [nth_error].
      rewrite nth_error_skipn. reflexivity.
    + rewrite (proj2 (nth_error_None _ _)) by (rewrite set_nth_length, L1; lia).
      symmetry. apply nth_error_None.
      rewrite length_app, length_firstn. cbn [length]. rewrite length_skipn. lia.
  - destruct (Nat.eq_dec i k) as [->|N].
    + rewrite set_nth_nth_error_same by (rewrite L1; lia).
      rewrite nth_error_app2 by (rewrite length_firstn; lia).
      rewrite length_firstn, Nat.min_l, Nat.sub_diag by lia. reflexivity.
    + rewrite set_nth_nth_error_other by lia.
      rewrite nth_error_copy_at by (rewrite repeat_length, length_firstn; lia).
      rewrite length_firstn, Nat.min_l by lia.
      replace (0 <=? i)%nat with true by reflexivity.
      replace (i <? 0 + k)%nat with true by (symmetry; apply Nat.ltb_lt; lia).
      cbn [andb]. rewrite Nat.sub_0_r.
      rewrite nth_error_app1 by (rewrite length_firstn; lia). reflexivity.
Qed.

(** X24.  [Flatten], [Ravel], [Squeeze] and [ExpandDims] of a backed
    array return a fresh array over a copy of its buffer, with the same
    dtype and the same elements in the same row-major order, of shape
    [[size]], the shape without its extents 1 (or [[1]] when all are 1),
    and the shape with a 1 put in at the axis, which counts from the end
    when it is negative; an axis outside [-(ndim+1), ndim] is an axis
    error. *)
Theorem reshaping_keeps_the_elements (h : heap) (a : NDArray) (buf : buffer) :
  View.backs h a buf -> ndim a < GoInt.max_int ->
  (exists r h',
     Shaping.Flatten a h = Ok (r, h')
     /\ Shaping.Ravel a h = Ok (r, h')
     /\ ShapingSpec.reshaped h a buf [size a] r h')
  /\ (exists r h',
        Shaping.Squeeze a h = Ok (r, h')
        /\ ShapingSpec.reshaped h a buf (ShapingSpec.squeezed (shape a)) r h')
  /\ (forall axis, - (ndim a + 1) <= axis <= ndim a ->
        let k := Z.to_nat (if axis <? 0 then ndim a + axis + 1 else axis) in
        exists r h',
          Shaping.ExpandDims a axis h = Ok (r, h')
          /\ ShapingSpec.reshaped h a buf (ShapingSpec.expanded k (shape a)) r h')
  /\ (forall axis, GoInt.in_range axis -> axis < - (ndim a + 1) \/ ndim a < axis ->
        Shaping.ExpandDims a axis h = Err AxisError).
Proof.
  intros V NB. pose proof V as (Sup & ND & SZ & ST & (Fp & W & B) & NE & LB).
  pose proof (prodZ_pos _ Fp) as PP.
  assert (N0 : 0 <= ndim a) by (rewrite ND; unfold len; lia).
  split; [|split; [|split]].
  - destruct (Reshape_backs h a buf [size a] V) as (r & E & _ & R).
    { discriminate. }
    { repeat constructor. lia. }
    { rewrite SZ. change (Layout.prodZ [Layout.prodZ (shape a)])
        with (Layout.prodZ (shape a) * 1). lia. }
    exists r, (h ++ [buf]). split; [exact E|]. split; [exact E | exact R].
  - destruct (squeezed_spec (shape a) Fp) as (Q1 & Q2 & Q3).
    destruct (Reshape_backs h a buf (ShapingSpec.squeezed (shape a)) V Q1 Q2 Q3)
      as (r & E & _ & R).
    exists r, (h ++ [buf]). split; [|exact R].
    unfold Shaping.Squeeze. etransitivity; [|exact E]. f_equal.
    unfold ShapingSpec.squeezed, len.
    destruct (filter _ (shape a)); reflexivity.
  - intros axis HA k.
    set (ax := if axis <? 0 then ndim a + axis + 1 else axis) in *.
    assert (AX : 0 <= ax <= ndim a) by (unfold ax; destruct (Z.ltb_spec axis 0); lia).
    destruct (expanded_spec k (shape a) Fp) as (Q1 & Q2 & Q3).
    destruct (Reshape_backs h a buf (ShapingSpec.expanded k (shape a)) V Q1 Q2 Q3)
      as (r & E & _ & R).
    exists r, (h ++ [buf]). split; [|exact R].
    unfold Shaping.ExpandDims.
    assert (EA : (if axis <? 0 then GoInt.add (GoInt.add (ndim a) axis) 1 else axis) = ax).
    { unfold ax. destruct (Z.ltb_spec axis 0); [|reflexivity].
      unfold GoInt.add. rewrite (wrap_small (ndim a + axis)).
      - apply wrap_small. unfold GoInt.in_range, GoInt.min_int, GoInt.max_int in *. lia.
      - unfold GoInt.in_range, GoInt.min_int, GoInt.max_int in *. lia. }
    rewrite EA.
    replace (ax <? 0) with false by lia. replace (ndim a <? ax) with false by lia.
    cbn [orb]. replace (len (shape a) <? ax) with false by lia.
    rewrite add_small by (unfold GoInt.max_int in *; lia).
    replace (Z.to_nat (ndim a + 1)) with (S (length (shape a)))
      by (rewrite ND; unfold len; lia).
    fold k. rewrite expand_copies by (unfold k; rewrite ND in AX; unfold len in AX; lia).
    exact E.
  - intros axis IR HA. unfold Shaping.ExpandDims.
    destruct (Z.ltb_spec axis 0) as [NEG|POS].
    + unfold GoInt.add. rewrite (wrap_small (ndim a + axis))
        by (unfold GoInt.in_range, GoInt.min_int, GoInt.max_int in *; lia).
      rewrite wrap_small
        by (unfold GoInt.in_range, GoInt.min_int, GoInt.max_int in *; lia).
      replace (ndim a + axis + 1 <? 0) with true by lia. reflexivity.
    + replace (axis <? 0) with false by lia. replace (ndim a <? axis) with true by lia.
      reflexivity.
Qed.

Lemma reshaping_keeps_the_elements_witness :
  let buf := flat_map (fun v => Enc.le_encode 8 (Enc.Float64bits v)) [1; 2; 3; 4]%float in
  let a := mkNDArray 0 [1; 4] [32; 8] Float64 4 2 in
  View.backs [buf] a buf
  /\ (exists r h', Shaping.Squeeze a [buf] = Ok (r, h') /\ shape r = [4])
  /\ (exists r h', Shaping.ExpandDims a (-1) [buf] = Ok (r, h') /\ shape r = [1; 4; 1]).
Proof.
  intros buf a.
  assert (V : View.backs [buf] a buf).
  { repeat split; try reflexivity; repeat constructor; vm_compute; congruence. }
  split; [exact V|].
  destruct (reshaping_keeps_the_elements [buf] a buf V) as (_ & S & X & _).
  { vm_compute. reflexivity. }
  split.
  - destruct S as (r & h' & E & _ & _ & SH & _). exists r, h'. split; [exact E | exact SH].
  - destruct (X (-1)) as (r & h' & E & _ & _ & SH & _); [cbn; lia|].
    exists r, h'. split; [exact E | exact SH].
Defined.


(** ** Transposition ([Transpose], [T]) *)

From Stdlib Require Sorting.Permutation.

Module Shaping2.

(** [T]: the panic for an array that is not 2-D is a dimension error. *)
Definition T (a : NDArray) : M NDArray :=
  if negb (ndim a =? 2) then fail DimensionError
  else Transpose a [].

End Shaping2.

Module TransposeSpec.

(** The entries of [l] at the positions [p], in the order of [p]. *)
Definition pick (p : list nat) (l : list Z) : list Z :=
  map (fun k => nth k l 0) p.

(** The position in the result of the element at flat position [k] of
    an array of shape [shp]. *)
Definition target (p : list nat) (shp : list Z) (k : Z) : Z :=
  Layout.ravel (pick p shp) (pick p (Layout.unravel shp k)).

End TransposeSpec.

(** Raw copies of one element. *)
Lemma chunk_copy_same w (buf : buffer) k (bs : list byte) :
  0 < w -> 0 <= k -> len bs = w -> (k + 1) * w <= len buf ->
  Elem.chunk w (copy_at (Z.to_nat (k * w)) buf bs) k = bs.
Proof.
  intros W K L B. unfold Elem.chunk, len in *.
  apply nth_error_ext. intros i. rewrite nth_error_slice.
  rewrite nth_error_copy_at by nia.
  destruct (Nat.ltb_spec i (Z.to_nat w)) as [I|I].
  - replace (Z.to_nat (k * w) <=? Z.to_nat (k * w) + i)%nat with true
      by (symmetry; apply Nat.leb_le; lia).
    replace (Z.to_nat (k * w) + i <? Z.to_nat (k * w) + length bs)%nat
      with true by (symmetry; apply Nat.ltb_lt; lia).
    cbn [andb]. f_equal. lia.
  - symmetry. apply nth_error_None. lia.
Qed.

Lemma chunk_copy_other w (buf : buffer) k k' (bs : list byte) :
  0 < w -> 0 <= k -> 0 <= k' -> k <> k' -> len bs = w -> (k + 1) * w <= len buf ->
  Elem.chunk w (copy_at (Z.to_nat (k * w)) buf bs) k' = Elem.chunk w buf k'.
Proof.
  intros W K K' N L B. unfold Elem.chunk, len in *.
  apply nth_error_ext. intros i. rewrite !nth_error_slice.
  destruct (Nat.ltb_spec i (Z.to_nat w)) as [I|I]; auto.
  rewrite nth_error_copy_at by nia.
  assert (X : ((Z.to_nat (k * w) <=? Z.to_nat (k' * w) + i)%nat
               && (Z.to_nat (k' * w) + i <? Z.to_nat (k * w) + length bs)%nat) = false).
  { apply andb_false_iff.
    destruct (Z.lt_ge_cases k' k) as [C|C].
    - left. apply Nat.leb_gt. nia.
    - right. apply Nat.ltb_ge. nia. }
  now rewrite X.
Qed.

Lemma chunk_length w (buf : buffer) k :
  0 < w -> 0 <= k -> (k + 1) * w <= len buf -> len (Elem.chunk w buf k) = w.
Proof.
  intros W K B. unfold Elem.chunk, len in *.
  rewrite length_firstn, length_skipn. nia.
Qed.

(** Shapes under a permutation of the axes. *)
Lemma prodZ_perm (l l' : list Z) :
  Permutation.Permutation l l' -> Layout.prodZ l = Layout.prodZ l'.
Proof.
  induction 1 as [|x l l' _ IH|x y l|l l' l'' _ IH1 _ IH2].
  - reflexivity.
  - rewrite !prodZ_cons. now rewrite IH.
  - rewrite !prodZ_cons. lia.
  - congruence.
Qed.

Section Axes.

Variable p : list nat.
Variable nd : nat.
Hypothesis perm : Permutation.Permutation p (seq 0 nd).

Lemma axes_length : length p = nd.
Proof. rewrite (Permutation.Permutation_length perm). apply length_seq. Qed.

Lemma axes_range k : In k p <-> (k < nd)%nat.
Proof.
  split; intros H.
  - apply (Permutation.Permutation_in _ perm) in H. apply in_seq in H. lia.
  - apply (Permutation.Permutation_in _ (Permutation.Permutation_sym perm)).
    apply in_seq. lia.
Qed.

Lemma axes_nodup : NoDup p.
Proof.
  apply (Permutation.Permutation_NoDup (Permutation.Permutation_sym perm)).
  apply seq_NoDup.
Qed.

Lemma pick_perm (l : list Z) :
  length l = nd -> Permutation.Permutation (TransposeSpec.pick p l) l.
Proof.
  intros L. unfold TransposeSpec.pick.
  apply Permutation.Permutation_trans with (map (fun k => nth k l 0) (seq 0 nd)).
  - now apply Permutation.Permutation_map.
  - rewrite <- L, map_nth_seq. apply Permutation.Permutation_refl.
Qed.

Lemma pick_length (l : list Z) : length (TransposeSpec.pick p l) = nd.
Proof. unfold TransposeSpec.pick. rewrite length_map. apply axes_length. Qed.

Lemma pick_in_shape (shp idx : list Z) :
  length shp = nd -> Layout.in_shape shp idx ->
  Layout.in_shape (TransposeSpec.pick p shp) (TransposeSpec.pick p idx).
Proof.
  intros L H. unfold Layout.in_shape, TransposeSpec.pick.
  assert (G : forall q, (forall k, In k q -> (k < nd)%nat) ->
                Forall2 (fun d i => 0 <= i < d)
                  (map (fun k => nth k shp 0) q) (map (fun k => nth k idx 0) q)).
  { induction q as [|k q IH]; intros Hq; [constructor|]. cbn [map]. constructor.
    - apply (Forall2_nth_elim _ 0 0 _ _ H). rewrite L. apply Hq. now left.
    - apply IH. intros k' Hk'. apply Hq. now right. }
  apply G. intros k Hk. now apply axes_range.
Qed.

Lemma pick_inj (l l' : list Z) :
  length l = nd -> length l' = nd ->
  TransposeSpec.pick p l = TransposeSpec.pick p l' -> l = l'.
Proof.
  intros L L' E. apply (nth_ext _ _ 0 0); [congruence|].
  intros k Hk. rewrite L in Hk. apply axes_range in Hk.
  unfold TransposeSpec.pick in E.
  assert (G : forall q, map (fun k => nth k l 0) q = map (fun k => nth k l' 0) q ->
                forall k, In k q -> nth k l 0 = nth k l' 0).
  { induction q as [|x q IH]; intros Eq k0 H0; [contradiction|].
    cbn [map] in Eq. injection Eq as E1 E2.
    destruct H0 as [->|H0]; [exact E1 | now apply IH]. }
  now apply (G p).
Qed.

Lemma validate_axes : forall q seen,
  NoDup q -> (forall k, In k q -> (k < nd)%nat) ->
  (forall k, In k q -> ~ In (Z.of_nat k) seen) ->
  TransposeLoop.validate (Z.of_nat nd) (map Z.of_nat q) seen = Ok tt.
Proof.
  induction q as [|k q IH]; intros seen ND R D; [reflexivity|].
  cbn [map TransposeLoop.validate].
  pose proof (R k (or_introl eq_refl)) as Rk.
  replace (Z.of_nat k <? 0) with false by lia.
  replace (Z.of_nat k >=? Z.of_nat nd) with false by lia. cbn [orb].
  assert (X : existsb (Z.eqb (Z.of_nat k)) seen = false).
  { destruct (existsb _ seen) eqn:X; [|reflexivity].
    apply existsb_exists in X. destruct X as (x & Hx & Ex).
    apply Z.eqb_eq in Ex. subst x. exfalso. exact (D k (or_introl eq_refl) Hx). }
  rewrite X. inversion ND as [|? ? NI ND']; subst.
  apply IH; [exact ND'| |].
  - intros k' Hk'. apply R. now right.
  - intros k' Hk' [E|S].
    + apply Nat2Z.inj in E. subst k'. contradiction.
    + exact (D k' (or_intror Hk') S).
Qed.

End Axes.

Lemma Transpose_run (h : heap) (a : NDArray) (buf : buffer) (p : list nat) :
  View.backs h a buf ->
  Permutation.Permutation p (seq 0 (length (shape a))) ->
  let nshp := TransposeSpec.pick p (shape a) in
  let r := mkNDArray (length h) nshp (Layout.strides_of nshp (ItemSize (dtype a)))
             (dtype a) (size a) (ndim a) in
  exists bufR : buffer,
    Transpose a (map Z.of_nat p) h = Ok (r, h ++ [bufR])
    /\ View.backs (h ++ [bufR]) r bufR
    /\ forall idx, Layout.in_shape (shape a) idx ->
         Elem.get (dtype a) bufR (Layout.ravel nshp (TransposeSpec.pick p idx))
         = Elem.get (dtype a) buf (Layout.ravel (shape a) idx).
Proof.
  intros V P nshp r.
  pose proof V as (Sup & ND & SZ & ST & (Fp & W & B) & NE & LB).
  pose proof (prodZ_pos _ Fp) as PP.
  set (nd := length (shape a)) in *. set (w := ItemSize (dtype a)) in *.
  pose proof (pick_perm p nd P (shape a) eq_refl) as PS. fold nshp in PS.
  assert (PN : Layout.prodZ nshp = Layout.prodZ (shape a)) by now apply prodZ_perm.
  assert (FN : Layout.fits nshp w).
  { split; [|split; [exact W | now rewrite PN]].
    apply (Permutation.Permutation_Forall (Permutation.Permutation_sym PS) Fp). }
  assert (LN : length nshp = nd) by apply (pick_length p nd P).
  assert (BL : 0 <= len buf <= GoInt.max_int) by (rewrite LB; nia).
  (* the axes *)
  assert (EA : match map Z.of_nat p with
               | [] => tabulate (ndim a)
                         (fun i => GoInt.sub (GoInt.sub (ndim a) 1) (Z.of_nat i))
               | _ => map Z.of_nat p
               end = map Z.of_nat p).
  { destruct p as [|k q]; [|reflexivity].
    pose proof (axes_length [] nd P) as L0. cbn in L0.
    rewrite ND. unfold len. fold nd. rewrite <- L0. reflexivity. }
  unfold Transpose. rewrite EA.
  assert (LA : len (map Z.of_nat p) = ndim a).
  { unfold len. rewrite length_map, (axes_length p nd P). now rewrite ND. }
  rewrite LA, Z.eqb_refl. cbn [negb].
  rewrite (bind_ok_intro _ _ _ tt h).
  2:{ rewrite ND. unfold len. fold nd.
      rewrite (validate_axes nd p []); [reflexivity|now apply (axes_nodup p nd)| |].
      - intros k Hk. now apply (axes_range p nd P).
      - intros k _ []. }
  assert (ES : map (fun axis => nth (Z.to_nat axis) (shape a) 0) (map Z.of_nat p) = nshp).
  { rewrite map_map. unfold nshp, TransposeSpec.pick. apply map_ext.
    intros k. now rewrite Nat2Z.id. }
  rewrite ES.
  rewrite (bind_ok_intro _ _ _ buf h) by (unfold Store.get; now rewrite NE).
  set (zeros := repeat x00 (Z.to_nat (len buf))).
  rewrite (bind_ok_intro _ _ _ (length h) (h ++ [zeros]))
    by (unfold Store.make; replace (len buf <? 0) with false by lia; reflexivity).
  rewrite computeStrides_fits by exact FN. fold w. fold r.
  assert (DA : (data a < length h)%nat) by (apply nth_error_Some; congruence).
  destruct (for_each_inv
    (fun j hj => exists bufj : buffer, hj = h ++ [bufj] /\ len bufj = len buf
       /\ forall k, 0 <= k < j ->
            Elem.chunk w bufj (TransposeSpec.target p (shape a) k) = Elem.chunk w buf k)
    (fun i =>
       srcIndices <- lift (unravelIndex a i) ;;
       let dstIndices := map (fun axis => nth (Z.to_nat axis) srcIndices 0)
                             (map Z.of_nat p) in
       srcOffset <- lift (flatIndex a srcIndices) ;;
       dstOffset <- lift (flatIndex r dstIndices) ;;
       let itemsize := ItemSize (dtype a) in
       src <- Store.load (data a) srcOffset itemsize ;;
       Store.store (data r) dstOffset src)
    (size a) (h ++ [zeros])) as (h' & E & bufR & -> & LR & G).
  - lia.
  - exists zeros. split; [reflexivity|]. split; [|intros; lia].
    unfold zeros, len. rewrite repeat_length. lia.
  - intros j hj Hj (bufj & -> & LJ & Done). rewrite SZ in Hj.
    pose proof (unravel_in_shape (shape a) j Fp) as IS.
    pose proof (pick_in_shape p nd P (shape a) _ eq_refl IS) as ID. fold nshp in ID.
    pose proof (ravel_bounds _ _ ID) as RB. rewrite PN in RB.
    assert (RJ : Layout.ravel (shape a) (Layout.unravel (shape a) j) = j)
      by (rewrite ravel_unravel by auto; apply Z.mod_small; lia).
    rewrite (bind_ok_intro _ _ _ (Layout.unravel (shape a) j) (h ++ [bufj]))
      by (rewrite unravelIndex_spec by (auto; nia); reflexivity).
    cbv zeta.
    rewrite (bind_ok_intro _ _ _ (w * j) (h ++ [bufj]))
      by (rewrite (flatIndex_ravel a w) by (auto; repeat split; auto);
          rewrite RJ; reflexivity).
    assert (ED : map (fun axis => nth (Z.to_nat axis) (Layout.unravel (shape a) j) 0)
                   (map Z.of_nat p)
                 = TransposeSpec.pick p (Layout.unravel (shape a) j)).
    { rewrite map_map. unfold TransposeSpec.pick. apply map_ext.
      intros k. now rewrite Nat2Z.id. }
    rewrite ED.
    rewrite (bind_ok_intro _ _ _ (w * TransposeSpec.target p (shape a) j) (h ++ [bufj])).
    2:{ rewrite (flatIndex_ravel r w); [reflexivity| | reflexivity | exact FN | exact ID].
        cbn [ndim shape r]. rewrite ND. unfold len. now rewrite LN. }
    fold w.
    rewrite (bind_ok_intro _ _ _ (Elem.chunk w buf j) (h ++ [bufj])).
    2:{ apply load_chunk; try lia; try nia.
        rewrite nth_error_app1 by exact DA. exact NE. }
    unfold TransposeSpec.target in Done |- *. fold nshp in Done |- *.
    set (t := Layout.ravel nshp (TransposeSpec.pick p (Layout.unravel (shape a) j))) in *.
    rewrite (store_chunk (h ++ [bufj]) (data r) bufj w t (Elem.chunk w buf j)).
    2:{ cbn [data r]. apply nth_error_last. }
    2:{ apply chunk_length; try lia; nia. }
    2:{ exact W. }
    2:{ lia. }
    2:{ rewrite LJ, LB. nia. }
    2:{ rewrite LJ. lia. }
    cbn [data r]. rewrite set_nth_last.
    eexists. split; [reflexivity|]. eexists. split; [reflexivity|].
    assert (CL : len (Elem.chunk w buf j) = w) by (apply chunk_length; try lia; nia).
    split.
    + unfold len in *. rewrite copy_at_length; [exact LJ|]. nia.
    + intros k Hk. destruct (Z.eq_dec k j) as [->|NK].
      * fold t. apply chunk_copy_same; try lia. rewrite LJ, LB. nia.
      * pose proof (unravel_in_shape (shape a) k Fp) as ISk.
        pose proof (pick_in_shape p nd P (shape a) _ eq_refl ISk) as IDk.
        fold nshp in IDk. pose proof (ravel_bounds _ _ IDk) as RBk.
        rewrite chunk_copy_other; try lia.
        -- apply Done. lia.
        -- intros ET. apply NK. symmetry.
           apply (ravel_inj nshp) in ET; [|exact ID|exact IDk].
           apply (pick_inj p nd P) in ET.
           ++ assert (RK : Layout.ravel (shape a) (Layout.unravel (shape a) k) = k)
                by (rewrite ravel_unravel by auto; apply Z.mod_small; lia).
              rewrite <- RJ, <- RK. now rewrite ET.
           ++ symmetry. apply in_shape_length. exact IS.
           ++ symmetry. apply in_shape_length. exact ISk.
        -- rewrite LJ, LB. nia.
  - exists bufR. rewrite (bind_ok_intro _ _ _ _ _ E). split; [reflexivity|].
    assert (VR : View.backs (h ++ [bufR]) r bufR).
    { unfold View.backs. cbn [dtype ndim size strides shape data r]. fold w.
      split; [exact Sup|]. split; [rewrite ND; unfold len; now rewrite LN|].
      split; [now rewrite PN|]. split; [reflexivity|]. split; [exact FN|].
      split; [apply nth_error_last|]. rewrite LR, LB. now rewrite PN. }
    split; [exact VR|].
    intros idx I. unfold Elem.get. fold w.
    pose proof (ravel_bounds _ _ I) as RI.
    specialize (G (Layout.ravel (shape a) idx) ltac:(lia)).
    unfold TransposeSpec.target in G. rewrite unravel_ravel in G by auto.
    fold nshp in G. now rewrite G.
Qed.

Lemma validate_sound nd : forall axes seen,
  TransposeLoop.validate nd axes seen = Ok tt ->
  NoDup axes /\ Forall (fun x => 0 <= x < nd) axes.
Proof.
  induction axes as [|x rest IH]; intros seen H; [split; constructor|].
  cbn [TransposeLoop.validate] in H.
  destruct ((x <? 0) || (x >=? nd)) eqn:R; [discriminate|].
  destruct (existsb (Z.eqb x) seen) eqn:X; [discriminate|].
  apply orb_false_iff in R. destruct R as [R1 R2].
  assert (IHs : forall s, TransposeLoop.validate nd rest s = Ok tt ->
                  forall y, In y rest -> ~ In y s).
  { clear. induction rest as [|z rest IH]; intros s H y Hy; [contradiction|].
    cbn [TransposeLoop.validate] in H.
    destruct ((z <? 0) || (z >=? nd)); [discriminate|].
    destruct (existsb (Z.eqb z) s) eqn:X; [discriminate|].
    destruct Hy as [->|Hy].
    - intros I. assert (T : existsb (Z.eqb y) s = true)
        by (apply existsb_exists; exists y; split; [exact I | apply Z.eqb_refl]).
      congruence.
    - intros I. apply (IH _ H y Hy). now right. }
  destruct (IH _ H) as [N F]. split.
  - constructor; [|exact N]. intros I. apply (IHs _ H x I). now left.
  - constructor; [lia | exact F].
Qed.

Lemma validate_outcome nd : forall axes seen,
  TransposeLoop.validate nd axes seen = Ok tt
  \/ TransposeLoop.validate nd axes seen = Err AxisError.
Proof.
  induction axes as [|x rest IH]; intros seen; [now left|].
  cbn [TransposeLoop.validate].
  destruct ((x <? 0) || (x >=? nd)); [now right|].
  destruct (existsb (Z.eqb x) seen); [now right|]. apply IH.
Qed.

(** X25.  [Transpose] of a backed array with a permutation [p] of its
    axes returns a fresh array of the same dtype whose axis [i] is axis
    [p i] of the operand: its shape is the shape picked in the order of
    [p], and the element at the picked multi-index is the element of the
    operand at the multi-index.  Axes that are given and are not as many
    as the array has, are out of range or repeat one are an axis
    error. *)
Theorem Transpose_permutes_axes (h : heap) (a : NDArray) (buf : buffer) (p : list nat) :
  View.backs h a buf ->
  Permutation.Permutation p (seq 0 (length (shape a))) ->
  (exists r bufR,
     Transpose a (map Z.of_nat p) h = Ok (r, h ++ [bufR])
     /\ data r = length h
     /\ shape r = TransposeSpec.pick p (shape a) /\ dtype r = dtype a
     /\ forall idx, Layout.in_shape (shape a) idx ->
          GetFloat64 r (TransposeSpec.pick p idx) (h ++ [bufR])
          = Ok (Elem.get (dtype a) buf (Layout.ravel (shape a) idx), h ++ [bufR]))
  /\ (forall axes, axes <> [] ->
        len axes <> ndim a \/ ~ NoDup axes \/ ~ Forall (fun x => 0 <= x < ndim a) axes ->
        Transpose a axes h = Err AxisError).
Proof.
  intros V P. split.
  - destruct (Transpose_run h a buf p V P) as (bufR & E & VR & G).
    eexists _, bufR. split; [exact E|]. cbn [data shape dtype].
    repeat (split; [reflexivity|]).
    intros idx I.
    pose proof (pick_in_shape p _ P (shape a) idx eq_refl I) as ID.
    rewrite (GetFloat64_elem _ _ bufR _ VR ID). cbn [shape dtype]. now rewrite G.
  - intros axes NN Bad. unfold Transpose.
    destruct axes as [|x rest]; [congruence|].
    destruct (Z.eqb_spec (len (x :: rest)) (ndim a)) as [L|L]; [|reflexivity].
    cbn [negb]. destruct (validate_outcome (ndim a) (x :: rest) []) as [OK|ER].
    + apply validate_sound in OK. exfalso. destruct Bad as [B|[B|B]]; tauto.
    + now rewrite (bind_err _ _ _ AxisError) by (unfold lift; now rewrite ER).
Qed.

Lemma Transpose_permutes_axes_witness :
  let buf := flat_map (fun v => Enc.le_encode 8 (Enc.Float64bits v))
               [1; 2; 3; 4; 5; 6]%float in
  let a := mkNDArray 0 [1; 2; 3] [48; 24; 8] Float64 6 3 in
  View.backs [buf] a buf
  /\ exists r bufR,
       Transpose a [2; 0; 1] [buf] = Ok (r, [buf; bufR])
       /\ shape r = [3; 1; 2]
       /\ GetFloat64 r [2; 0; 1] [buf; bufR] = Ok (6%float, [buf; bufR]).
Proof.
  intros buf a.
  assert (V : View.backs [buf] a buf).
  { repeat split; try reflexivity; repeat constructor; vm_compute; congruence. }
  split; [exact V|].
  destruct (Transpose_permutes_axes [buf] a buf [2; 0; 1]%nat V) as ((r & bufR & E & _ & S & _ & G) & _).
  { apply (Permutation.Permutation_cons_app [0%nat; 1%nat] [] 2%nat).
    apply Permutation.Permutation_refl. }
  exists r, bufR. split; [exact E|]. split; [exact S|].
  apply (G [0; 1; 2]). repeat constructor; lia.
Defined.

(** X26.  [T] of a backed [n] by [m] matrix returns a fresh [m] by [n]
    matrix of the same dtype whose entry [(j, i)] is entry [(i, j)] of
    the operand; an array that is not 2-D is a dimension error. *)
Theorem T_swaps_rows_and_columns (h : heap) (a : NDArray) (buf : buffer) (n m : Z) :
  View.backs h a buf -> shape a = [n; m] ->
  (exists r bufR,
     Shaping2.T a h = Ok (r, h ++ [bufR])
     /\ data r = length h /\ shape r = [m; n] /\ dtype r = dtype a
     /\ forall i j, 0 <= i < n -> 0 <= j < m ->
          GetFloat64 r [j; i] (h ++ [bufR])
          = Ok (Mat.entry (dtype a) buf m i j, h ++ [bufR]))
  /\ (forall x h0, ndim x <> 2 -> Shaping2.T x h0 = Err DimensionError).
Proof.
  intros V SA. split.
  - pose proof V as (_ & ND & _). rewrite SA in ND.
    assert (P : Permutation.Permutation [1%nat; 0%nat] (seq 0 (length (shape a)))).
    { rewrite SA. apply Permutation.perm_swap. }
    destruct (Transpose_run h a buf [1%nat; 0%nat] V P) as (bufR & E & VR & G).
    assert (ET : Shaping2.T a h = Transpose a (map Z.of_nat [1%nat; 0%nat]) h).
    { unfold Shaping2.T, Transpose. rewrite ND. reflexivity. }
    rewrite SA in E, VR, G. cbn [TransposeSpec.pick map nth] in E, VR, G.
    eexists _, bufR. split; [rewrite ET; exact E|]. cbn [data shape dtype].
    repeat (split; [reflexivity|]).
    intros i j Hi Hj.
    rewrite (GetFloat64_elem _ _ bufR [j; i] VR)
      by (cbn [shape]; repeat constructor; lia).
    cbn [shape dtype].
    specialize (G [i; j] ltac:(repeat constructor; lia)). cbn [map nth] in G.
    rewrite G, ravel_2. reflexivity.
  - intros x h0 N. unfold Shaping2.T.
    destruct (Z.eqb_spec (ndim x) 2); [contradiction | reflexivity].
Qed.

Lemma T_swaps_rows_and_columns_witness :
  let buf := flat_map (fun v => Enc.le_encode 8 (Enc.Float64bits v))
               [1; 2; 3; 4; 5; 6]%float in
  let a := mkNDArray 0 [2; 3] [24; 8] Float64 6 2 in
  View.backs [buf] a buf
  /\ exists r bufR,
       Shaping2.T a [buf] = Ok (r, [buf; bufR])
       /\ GetFloat64 r [2; 0] [buf; bufR] = Ok (3%float, [buf; bufR]).
Proof.
  intros buf a.
  assert (V : View.backs [buf] a buf).
  { repeat split; try reflexivity; repeat constructor; vm_compute; congruence. }
  split; [exact V|].
  destruct (T_swaps_rows_and_columns [buf] a buf 2 3 V eq_refl)
    as ((r & bufR & E & _ & _ & _ & G) & _).
  exists r, bufR. split; [exact E|]. apply (G 0 2); lia.
Defined.


(** ** Integer arrays and random permutations *)

(** Exchanging two entries of a slice permutes it. *)
Lemma exchange_head {A} (d x : A) : forall (t : list A) (j : nat),
  (j < length t)%nat ->
  Permutation.Permutation (nth j t d :: set_nth j x t) (x :: t).
Proof.
  induction t as [|y t IH]; intros j Hj; [simpl in Hj; lia|].
  destruct j as [|j]; cbn [nth set_nth].
  - apply Permutation.perm_swap.
  - apply Permutation.Permutation_trans with (y :: nth j t d :: set_nth j x t);
      [apply Permutation.perm_swap|].
    apply Permutation.Permutation_trans with (y :: x :: t);
      [|apply Permutation.perm_swap].
    apply Permutation.perm_skip. apply IH. simpl in Hj. lia.
Qed.

Lemma exchange_perm {A} (d : A) : forall (l : list A) (i j : nat),
  (j <= i < length l)%nat ->
  Permutation.Permutation (set_nth j (nth i l d) (set_nth i (nth j l d) l)) l.
Proof.
  induction l as [|x t IH]; intros i j H; [simpl in H; lia|].
  destruct j as [|j], i as [|i]; try lia; cbn [nth set_nth].
  - apply Permutation.Permutation_refl.
  - apply exchange_head. simpl in H. lia.
  - apply Permutation.perm_skip. apply IH. simpl in H. lia.
Qed.

Lemma signed_encode (v : Z) :
  GoInt.in_range v -> Enc.signed 64 (Enc.le_decode (Enc.le_encode 8 v)) = v.
Proof.
  unfold GoInt.in_range, GoInt.min_int, GoInt.max_int. intros R.
  rewrite le_decode_encode. change (8 * Z.of_nat 8) with 64. unfold Enc.signed.
  change (64 - 1) with 63.
  destruct (Z_lt_le_dec v 0) as [N|N].
  - replace (v mod 2 ^ 64) with (v + 2 ^ 64)
      by (apply Z.mod_unique with (-1); lia).
    destruct (Z.ltb_spec (v + 2 ^ 64) (2 ^ 63)); lia.
  - rewrite Z.mod_small by lia. destruct (Z.ltb_spec v (2 ^ 63)); lia.
Qed.

Lemma FromSliceInt64_backs (xs : list Z) (shp : list Z) (h : heap) :
  shp <> [] -> Layout.fits shp 8 -> len xs = Layout.prodZ shp ->
  exists buf,
    let r := mkNDArray (length h) shp (Layout.strides_of shp 8) Int64
               (Layout.prodZ shp) (len shp) in
    FromSliceInt64 xs shp h = Ok (r, h ++ [buf])
    /\ View.backs (h ++ [buf]) r buf
    /\ forall k, 0 <= k < len xs ->
         Elem.chunk 8 buf k = Enc.le_encode 8 (nth (Z.to_nat k) xs 0).
Proof.
  intros N F L. pose proof F as (Fp & W & B).
  pose proof (prodZ_pos shp Fp) as P.
  unfold FromSliceInt64.
  rewrite (computeSize_fits shp 8), computeStrides_fits by auto.
  rewrite L, Z.eqb_refl. cbn [negb ItemSize].
  rewrite mul_small by nia.
  unfold bind at 1. unfold Store.make.
  replace (Layout.prodZ shp * 8 <? 0) with false by nia.
  set (z := repeat x00 (Z.to_nat (Layout.prodZ shp * 8))).
  destruct (for_list_inv
              (fun i h' => exists buf, h' = h ++ [buf] /\ len buf = 8 * Layout.prodZ shp
                 /\ forall k, 0 <= k < i ->
                      Elem.chunk 8 buf k = Enc.le_encode 8 (nth (Z.to_nat k) xs 0))
              (fun i val => Store.store (length h) (GoInt.mul i 8) (Enc.le_encode 8 val))
              xs 0 (h ++ [z])) as (h' & E & buf & -> & LB & G).
  - exists z. split; [reflexivity|]. split; [|intros k Hk; lia].
    unfold z, len. rewrite repeat_length. lia.
  - intros k v h0 Hk Hv (buf & -> & LB & G). rewrite Z.add_0_l.
    assert (K : Z.of_nat k < Layout.prodZ shp) by (unfold len in L; lia).
    rewrite mul_small by nia. rewrite (Z.mul_comm (Z.of_nat k) 8).
    assert (EL : len (Enc.le_encode 8 v) = 8) by (unfold len; now rewrite le_encode_length).
    rewrite (store_chunk (h ++ [buf]) (length h) buf 8 (Z.of_nat k))
      by (try apply nth_error_last; auto; lia).
    rewrite set_nth_last. eexists. split; [reflexivity|].
    eexists. split; [reflexivity|]. split.
    + unfold len in *. rewrite copy_at_length; [exact LB|]. nia.
    + intros j Hj. destruct (Z.eq_dec j (Z.of_nat k)) as [->|D].
      * rewrite chunk_copy_same by (auto; lia).
        rewrite Nat2Z.id. f_equal. symmetry. now apply nth_error_nth.
      * rewrite chunk_copy_other by (auto; lia). apply G. lia.
  - rewrite Z.add_0_l in G. exists buf. cbv zeta.
    unfold bind. rewrite E. unfold ret. split; [reflexivity|].
    split; [|intros k Hk; apply G; lia].
    unfold View.backs. cbn [dtype ndim size strides shape data ItemSize].
    repeat split; auto; try apply nth_error_last.
Qed.

(** Reading an element of a backed [Int64] vector as an integer. *)
Lemma GetInt64_item (h : heap) (a : NDArray) (buf : buffer) (n i : Z) :
  View.backs h a buf -> dtype a = Int64 -> shape a = [n] -> 0 <= i < n ->
  GetInt64 a [i] h = Ok (Enc.signed 64 (Enc.le_decode (Elem.chunk 8 buf i)), h).
Proof.
  intros V D S Hi. pose proof V as (Sup & ND & SZ & ST & F & NE & LB).
  assert (IS : Layout.in_shape (shape a) [i]) by (rewrite S; repeat constructor; lia).
  destruct (backs_bounds h a buf [i] V IS) as (K & B & M).
  assert (RV : Layout.ravel (shape a) [i] = i).
  { rewrite S. cbn [Layout.ravel]. change (Layout.prodZ []) with 1. lia. }
  rewrite RV, D in *. cbn [ItemSize] in *.
  unfold GetInt64. rewrite (flatIndex_ravel a 8) by (auto; rewrite D in *; auto).
  rewrite RV, D. cbn [lift]. unfold bind at 1. cbn [ret].
  now rewrite (bind_ok_intro _ _ _ _ _ (load_chunk h (data a) buf 8 i NE ltac:(lia) K B M)).
Qed.

Section Shuffling.

Variable Source : Type.
Variable rand_Intn : Z -> Source -> Z * Source.

(** [Intn(n)] of [math/rand] returns a number in [[0, n)]. *)
Hypothesis Intn_range : forall n src, 0 < n -> 0 <= fst (rand_Intn n src) < n.

Lemma permutation_loop (h : heap) : forall (k : nat) (data : list Z) (src : Source),
  (k < length data)%nat -> len data <= GoInt.max_int ->
  exists data' src',
    for_down k (fun i '(data, src) =>
      '(j, src') <- lift (Intn Source rand_Intn (GoInt.add i 1) src) ;;
      ret (swap (Z.to_nat i) (Z.to_nat j) data, src')) (data, src) h
    = Ok ((data', src'), h)
    /\ Permutation.Permutation data' data.
Proof.
  induction k as [|k IH]; intros data src Hk HL.
  - exists data, src. split; [reflexivity | apply Permutation.Permutation_refl].
  - cbn [for_down]. unfold len in HL.
    rewrite add_small by lia.
    pose proof (Intn_range (Z.of_nat (S k) + 1) src ltac:(lia)) as R.
    unfold Intn. rewrite (proj2 (Z.leb_gt _ _)) by lia.
    destruct (rand_Intn (Z.of_nat (S k) + 1) src) as [j src1]. cbn [fst] in R.
    unfold bind at 1. unfold bind at 1. cbn [lift ret].
    set (data1 := swap (Z.to_nat (Z.of_nat (S k))) (Z.to_nat j) data).
    assert (P1 : Permutation.Permutation data1 data).
    { unfold data1, swap. apply exchange_perm. lia. }
    destruct (IH data1 src1) as (data' & src' & E & P).
    + rewrite (Permutation.Permutation_length P1). lia.
    + unfold len. rewrite (Permutation.Permutation_length P1). lia.
    + exists data', src'. split; [exact E|].
      now apply Permutation.Permutation_trans with data1.
Qed.

(** X27.  For a positive [n], [Permutation] returns a fresh [Int64]
    array of shape [[n]] whose elements, read with [GetInt64], are a
    permutation of the integers from 0 to [n - 1], whatever numbers
    [Intn] draws inside its range; a negative [n] panics. *)
Theorem Permutation_is_a_permutation (rng : RNG Source) (n : Z) (h : heap) :
  0 < n -> 8 * n <= GoInt.max_int ->
  (exists arr rng' h' xs,
     Permutation Source rand_Intn rng n h = Ok ((arr, rng'), h')
     /\ data arr = length h /\ shape arr = [n] /\ dtype arr = Int64
     /\ Permutation.Permutation xs (map Z.of_nat (seq 0 (Z.to_nat n)))
     /\ forall i, 0 <= i < n -> GetInt64 arr [i] h' = Ok (nth (Z.to_nat i) xs 0, h'))
  /\ (forall g m h0, m < 0 -> Permutation Source rand_Intn g m h0 = Err RuntimePanic).
Proof.
  intros N B. split.
  - unfold Permutation. replace (n <? 0) with false by lia.
    set (data0 := tabulate n (fun i => Z.of_nat i)).
    assert (L0 : length data0 = Z.to_nat n)
      by (unfold data0, tabulate; now rewrite length_map, length_seq).
    unfold GoInt.sub. rewrite (wrap_small (n - 1))
      by (unfold GoInt.in_range, GoInt.min_int, GoInt.max_int in *; lia).
    destruct (permutation_loop h (Z.to_nat (n - 1)) data0 (source Source rng))
      as (xs & src' & E & P).
    { rewrite L0. lia. }
    { unfold len. rewrite L0. unfold GoInt.max_int in *. lia. }
    rewrite (bind_ok_intro _ _ _ _ _ E). cbv beta iota.
    pose proof (Permutation.Permutation_length P) as LX. rewrite L0 in LX.
    destruct (FromSliceInt64_backs xs [n] h) as (buf & EF & V & G).
    { discriminate. }
    { split; [repeat constructor; lia|]. split; [lia|].
      change (Layout.prodZ [n]) with (n * 1). lia. }
    { unfold len. rewrite LX. change (Layout.prodZ [n]) with (n * 1). lia. }
    cbv zeta in EF, V. rewrite (bind_ok_intro _ _ _ _ _ EF).
    eexists _, _, _, xs. split; [reflexivity|]. cbn [data shape dtype].
    repeat (split; [reflexivity|]). split; [exact P|].
    intros i Hi.
    rewrite (GetInt64_item _ _ buf n i V eq_refl eq_refl Hi).
    rewrite G by (unfold len; lia). rewrite signed_encode; [reflexivity|].
    assert (IN : In (nth (Z.to_nat i) xs 0) data0).
    { apply (Permutation.Permutation_in _ P). apply nth_In. lia. }
    unfold data0, tabulate in IN. apply in_map_iff in IN.
    destruct IN as (k & <- & Hk). apply in_seq in Hk.
    unfold GoInt.in_range, GoInt.min_int, GoInt.max_int in *. lia.
  - intros g m h0 M. unfold Permutation. now replace (m <? 0) with true by lia.
Qed.

End Shuffling.

Lemma Permutation_is_a_permutation_witness :
  exists arr rng' h' xs,
    Permutation Z Counter.intn (mkRNG Z 7) 4 [] = Ok ((arr, rng'), h')
    /\ Permutation.Permutation xs [0; 1; 2; 3]
    /\ GetInt64 arr [0] h' = Ok (nth 0%nat xs 0, h').
Proof.
  destruct (Permutation_is_a_permutation Z Counter.intn) with (rng := mkRNG Z 7) (n := 4)
    (h := @nil buffer) as ((arr & rng' & h' & xs & E & _ & _ & _ & P & G) & _).
  - intros n src Hn. unfold Counter.intn. cbn [fst]. apply Z.mod_pos_bound. exact Hn.
  - lia.
  - vm_compute. discriminate.
  - exists arr, rng', h', xs. split; [exact E|]. split; [exact P|].
    apply (G 0). lia.
Defined.

Section ShufflingInPlace.

Variable Source : Type.
Variable rand_Intn : Z -> Source -> Z * Source.
Hypothesis Intn_range : forall n src, 0 < n -> 0 <= fst (rand_Intn n src) < n.

(** One exchange of [Shuffle] on the elements of a [Float64] buffer. *)
Lemma exchange_elements (buf : buffer) (n i j : Z) :
  0 <= j <= i -> i < n -> 8 * n <= len buf ->
  let vi := Elem.get Float64 buf i in
  let vj := Elem.get Float64 buf j in
  Permutation.Permutation
    (Elem.all Float64 (Elem.put Float64 (Elem.put Float64 buf i vj) j vi) n)
    (Elem.all Float64 buf n).
Proof.
  intros Hj Hi HL vi vj.
  set (L := Elem.all Float64 buf n).
  assert (LL : length L = Z.to_nat n)
    by (unfold L, Elem.all; now rewrite length_map, length_seq).
  assert (NL : forall k, (k < Z.to_nat n)%nat ->
                 nth k L 0%float = Elem.get Float64 buf (Z.of_nat k))
    by (intros k Hk; unfold L, Elem.all; now rewrite nth_tabulate).
  assert (E : Elem.all Float64 (Elem.put Float64 (Elem.put Float64 buf i vj) j vi) n
              = set_nth (Z.to_nat j) (nth (Z.to_nat i) L 0%float)
                  (set_nth (Z.to_nat i) (nth (Z.to_nat j) L 0%float) L)).
  { apply (nth_ext _ _ 0%float 0%float).
    - unfold Elem.all. rewrite length_map, length_seq, !set_nth_length. lia.
    - intros k Hk. unfold Elem.all in Hk. rewrite length_map, length_seq in Hk.
      unfold Elem.all at 1. rewrite nth_tabulate by exact Hk.
      assert (P1 : len (Elem.put Float64 buf i vj) = len buf)
        by (apply put_length; cbn [ItemSize]; lia).
      destruct (Nat.eq_dec k (Z.to_nat j)) as [->|NJ].
      + rewrite set_nth_same by (rewrite set_nth_length; lia).
        rewrite Z2Nat.id by lia.
        rewrite get_put_same by (auto; cbn [ItemSize]; lia).
        rewrite conv_Float64, NL by lia. unfold vi. now rewrite Z2Nat.id by lia.
      + rewrite set_nth_other by lia.
        rewrite get_put_other by (cbn [ItemSize]; lia).
        destruct (Nat.eq_dec k (Z.to_nat i)) as [->|NI].
        * rewrite set_nth_same by lia. rewrite Z2Nat.id by lia.
          rewrite get_put_same by (auto; cbn [ItemSize]; lia).
          rewrite conv_Float64, NL by lia. unfold vj. now rewrite Z2Nat.id by lia.
        * rewrite set_nth_other by lia.
          rewrite get_put_other by (cbn [ItemSize]; lia). now rewrite NL. }
  rewrite E. apply exchange_perm. lia.
Qed.

Lemma shuffle_loop (h : heap) (a : NDArray) :
  dtype a = Float64 ->
  forall (k : nat) (src : Source) (bufj : buffer),
    View.backs (set_nth (data a) bufj h) a bufj -> Z.of_nat k < size a ->
    exists src' bufR,
      for_down k (fun i src =>
        '(j, src') <- lift (Intn Source rand_Intn (GoInt.add i 1) src) ;;
        indicesI <- lift (unravelIndex a i) ;;
        indicesJ <- lift (unravelIndex a j) ;;
        valI <- GetFloat64 a indicesI ;;
        valJ <- GetFloat64 a indicesJ ;;
        SetFloat64 a valJ indicesI ;;
        SetFloat64 a valI indicesJ ;;
        ret src') src (set_nth (data a) bufj h)
      = Ok (src', set_nth (data a) bufR h)
      /\ View.backs (set_nth (data a) bufR h) a bufR
      /\ Permutation.Permutation (Elem.all Float64 bufR (size a))
           (Elem.all Float64 bufj (size a)).
Proof.
  intros DT. induction k as [|k IH]; intros src bufj V Hk.
  - exists src, bufj. split; [reflexivity|]. split; [exact V|].
    apply Permutation.Permutation_refl.
  - match goal with |- context [for_down (S k) ?bd] => set (body := bd) in * end.
    cbn [for_down].
    pose proof V as (Sup & ND & SZ & ST & (Fp & W & B) & NE & LB).
    pose proof (prodZ_pos _ Fp) as PP. rewrite DT in W, B, LB. cbn [ItemSize] in W, B, LB.
    set (i := Z.of_nat (S k)) in *.
    pose proof (Intn_range (i + 1) src ltac:(lia)) as R.
    destruct (rand_Intn (i + 1) src) as [j src1] eqn:EJ. cbn [fst] in R.
    set (hj := set_nth (data a) bufj h) in *.
    destruct (unravel_of_fresh a hj bufj i V ltac:(lia)) as (UI & ISI & RI).
    destruct (unravel_of_fresh a hj bufj j V ltac:(lia)) as (UJ & ISJ & RJ).
    set (vi := Elem.get Float64 bufj i). set (vj := Elem.get Float64 bufj j).
    set (buf1 := Elem.put Float64 bufj i vj).
    set (buf2 := Elem.put Float64 buf1 j vi).
    assert (L1 : len buf1 = len bufj) by (apply put_length; cbn [ItemSize]; lia).
    assert (L2 : len buf2 = len buf1) by (apply put_length; cbn [ItemSize]; lia).
    assert (V1 : View.backs (set_nth (data a) buf1 h) a buf1).
    { rewrite <- (set_nth_twice (data a) buf1 bufj h). fold hj.
      apply (backs_set hj a bufj buf1 V L1). }
    assert (V2 : View.backs (set_nth (data a) buf2 h) a buf2).
    { rewrite <- (set_nth_twice (data a) buf2 buf1 h).
      apply (backs_set _ a buf1 buf2 V1 L2). }
    assert (BODY : body i src hj = Ok (src1, set_nth (data a) buf2 h)).
    { unfold body.
      rewrite (bind_ok_intro _ _ _ (j, src1) hj).
      2:{ unfold Intn. rewrite add_small by (unfold GoInt.max_int in *; lia).
          rewrite (proj2 (Z.leb_gt _ _)) by lia. now rewrite EJ. }
      cbv beta iota.
      rewrite (bind_ok_intro _ _ _ (Layout.unravel (shape a) i) hj)
        by (rewrite UI; reflexivity).
      rewrite (bind_ok_intro _ _ _ (Layout.unravel (shape a) j) hj)
        by (rewrite UJ; reflexivity).
      rewrite (bind_ok_intro _ _ _ _ _ (GetFloat64_elem _ a bufj _ V ISI)).
      rewrite (bind_ok_intro _ _ _ _ _ (GetFloat64_elem _ a bufj _ V ISJ)).
      rewrite RI, RJ, DT. fold vi vj.
      rewrite (bind_ok_intro _ _ _ _ _ (SetFloat64_elem _ a bufj _ vj V ISI)).
      rewrite RI, DT. unfold hj. rewrite set_nth_twice. fold buf1.
      rewrite (bind_ok_intro _ _ _ _ _ (SetFloat64_elem _ a buf1 _ vi V1 ISJ)).
      rewrite RJ, DT, set_nth_twice. reflexivity. }
    rewrite (bind_ok_intro _ _ _ _ _ BODY).
    destruct (IH src1 buf2 V2 ltac:(lia)) as (src' & bufR & E & VR & P).
    exists src', bufR. split; [exact E|]. split; [exact VR|].
    apply Permutation.Permutation_trans with (Elem.all Float64 buf2 (size a)); [exact P|].
    unfold buf2, buf1, vi, vj. apply exchange_elements; lia.
Qed.

(** X28.  [Shuffle] of a backed [Float64] array changes the buffer of
    that array only, and the elements after it are a permutation of the
    elements before it, whatever numbers [Intn] draws inside its
    range. *)
Theorem Shuffle_permutes_the_elements (rng : RNG Source) (a : NDArray)
    (h : heap) (buf : buffer) :
  View.backs h a buf -> dtype a = Float64 ->
  exists rng' bufR,
    Shuffle Source rand_Intn rng a h = Ok (rng', set_nth (data a) bufR h)
    /\ View.backs (set_nth (data a) bufR h) a bufR
    /\ Permutation.Permutation (Elem.all Float64 bufR (size a))
         (Elem.all Float64 buf (size a)).
Proof.
  intros V DT. pose proof V as (_ & _ & _ & _ & _ & NE & _).
  pose proof (size_positive _ _ _ V) as SP.
  assert (V0 : View.backs (set_nth (data a) buf h) a buf)
    by (rewrite set_nth_id by exact NE; exact V).
  unfold Shuffle, Size.
  unfold GoInt.sub. rewrite (wrap_small (size a - 1)).
  2:{ destruct V as (_ & _ & SZ & _ & (_ & W & B) & _).
      pose proof (ItemSize_pos (dtype a)).
      unfold GoInt.in_range, GoInt.min_int, GoInt.max_int in *. nia. }
  destruct (shuffle_loop h a DT (Z.to_nat (size a - 1)) (source Source rng) buf V0
              ltac:(lia)) as (src' & bufR & E & VR & P).
  rewrite (set_nth_id _ _ _ NE) in E.
  rewrite (bind_ok_intro _ _ _ _ _ E).
  eexists _, bufR. split; [reflexivity|]. split; [exact VR | exact P].
Qed.

End ShufflingInPlace.

Lemma Shuffle_permutes_the_elements_witness :
  let buf := flat_map (fun v => Enc.le_encode 8 (Enc.Float64bits v)) [1; 2; 3; 4]%float in
  let a := mkNDArray 0 [4] [8] Float64 4 1 in
  View.backs [buf] a buf
  /\ exists rng' bufR,
       Shuffle Z Counter.intn (mkRNG Z 7) a [buf] = Ok (rng', [bufR])
       /\ Permutation.Permutation (Elem.all Float64 bufR 4) (Elem.all Float64 buf 4).
Proof.
  intros buf a.
  assert (V : View.backs [buf] a buf).
  { repeat split; try reflexivity; repeat constructor; vm_compute; congruence. }
  split; [exact V|].
  destruct (Shuffle_permutes_the_elements Z Counter.intn) with (rng := mkRNG Z 7)
    (a := a) (h := [buf]) (buf := buf) as (rng' & bufR & E & _ & P).
  - intros n src Hn. unfold Counter.intn. cbn [fst]. apply Z.mod_pos_bound. exact Hn.
  - exact V.
  - reflexivity.
  - exists rng', bufR. split; [exact E | exact P].
Defined.

(** ** Integer access ([GetInt64], [SetInt64]) and [Range] *)

Module IntSpec.

(** The dtypes that hold integers or truth values. *)
Definition integral (dt : DType) : bool :=
  match dt with
  | Int8 | Int16 | Int32 | Int64 | Uint8 | Uint16 | Uint32 | Uint64 | Bool => true
  | _ => false
  end.

(** The value [GetInt64] decodes from the bytes of one element of an
    integral dtype. *)
Definition dec (dt : DType) (bs : list byte) : Z :=
  match dt with
  | Int64 | Uint64 => Enc.signed 64 (Enc.le_decode bs)
  | Int32 => Enc.signed 32 (Enc.le_decode bs)
  | Int16 => Enc.signed 16 (Enc.le_decode bs)
  | Int8 => Enc.signed 8 (Enc.le_decode bs)
  | Uint32 | Uint16 | Uint8 => Enc.le_decode bs
  | Bool => if Enc.le_decode bs =? 0 then 0 else 1
  | _ => 0
  end.

(** The value read back after [v] was written. *)
Definition conv (dt : DType) (v : Z) : Z :=
  match encode_int dt v with
  | Some bs => dec dt bs
  | None => 0
  end.

(** The integers an element of the dtype holds; [GetInt64] returns an
    [int64], so [Uint64] is read as [Int64]. *)
Definition holds (dt : DType) (v : Z) : Prop :=
  match dt with
  | Int64 | Uint64 => - 2 ^ 63 <= v < 2 ^ 63
  | Int32 => - 2 ^ 31 <= v < 2 ^ 31
  | Int16 => - 2 ^ 15 <= v < 2 ^ 15
  | Int8 => - 2 ^ 7 <= v < 2 ^ 7
  | Uint32 => 0 <= v < 2 ^ 32
  | Uint16 => 0 <= v < 2 ^ 16
  | Uint8 => 0 <= v < 2 ^ 8
  | Bool => v = 0 \/ v = 1
  | _ => False
  end.

End IntSpec.

Lemma signed_mod (w v : Z) :
  0 < w -> - 2 ^ (w - 1) <= v < 2 ^ (w - 1) -> Enc.signed w (v mod 2 ^ w) = v.
Proof.
  intros W R. unfold Enc.signed.
  assert (P : 2 ^ w = 2 * 2 ^ (w - 1))
    by (replace w with (1 + (w - 1)) at 1 by lia; rewrite Z.pow_add_r by lia; reflexivity).
  destruct (Z_lt_le_dec v 0) as [N|N].
  - replace (v mod 2 ^ w) with (v + 2 ^ w) by (apply Z.mod_unique with (-1); lia).
    destruct (Z.ltb_spec (v + 2 ^ w) (2 ^ (w - 1))); lia.
  - rewrite Z.mod_small by lia. destruct (Z.ltb_spec v (2 ^ (w - 1))); lia.
Qed.

Lemma conv_holds (dt : DType) (v : Z) : IntSpec.holds dt v -> IntSpec.conv dt v = v.
Proof.
  unfold IntSpec.conv, IntSpec.holds.
  destruct dt; cbn [encode_int IntSpec.dec]; intros H; try contradiction;
    rewrite ?le_decode_encode;
    try (apply signed_mod; [reflexivity | exact H]);
    try (apply Z.mod_small; exact H).
  destruct H as [-> | ->]; reflexivity.
Qed.

(** *** Stored floats of the integer dtypes *)

Lemma cvt_fits (W : Z) (v : float) (z : Z) :
  Enc.trunc v = Some z -> - 2 ^ (W - 1) <= z < 2 ^ (W - 1) -> Enc.cvt W v = z.
Proof.
  intros T R. unfold Enc.cvt. rewrite T.
  destruct (Z.leb_spec (- 2 ^ (W - 1)) z); [|lia].
  destruct (Z.ltb_spec z (2 ^ (W - 1))); [reflexivity|lia].
Qed.

Lemma to_signed_fits (w : Z) (v : float) (z : Z) :
  0 < w <= 64 -> Enc.trunc v = Some z -> - 2 ^ (w - 1) <= z < 2 ^ (w - 1) ->
  Enc.to_signed w v = z.
Proof.
  intros W T R. unfold Enc.to_signed. destruct (Z.ltb_spec w 32) as [L|L].
  - rewrite (cvt_fits 32 v z T).
    + now apply signed_mod.
    + assert (2 ^ (w - 1) <= 2 ^ (32 - 1)) by (apply Z.pow_le_mono_r; lia). lia.
  - now apply cvt_fits.
Qed.

Lemma to_unsigned_fits (w : Z) (v : float) (z : Z) :
  0 < w < 64 -> Enc.trunc v = Some z -> 0 <= z < 2 ^ w -> Enc.to_unsigned w v = z.
Proof.
  intros W T R. unfold Enc.to_unsigned.
  destruct (Z.ltb_spec w 32) as [L|L].
  - rewrite (cvt_fits 32 v z T).
    + now apply Z.mod_small.
    + assert (2 ^ w <= 2 ^ (32 - 1)) by (apply Z.pow_le_mono_r; lia).
      pose proof (Z.pow_pos_nonneg 2 (32 - 1)). lia.
  - destruct (Z.ltb_spec w 64) as [L'|L']; [|lia].
    rewrite (cvt_fits 64 v z T).
    + now apply Z.mod_small.
    + assert (2 ^ w <= 2 ^ (64 - 1)) by (apply Z.pow_le_mono_r; lia).
      pose proof (Z.pow_pos_nonneg 2 (64 - 1)). lia.
Qed.

(** A value an integer dtype holds is stored as its truncation toward
    zero, whatever the conversion makes of the values outside the type.
    ([Uint64] is left out: there the compiled conversion chooses between
    two instructions by a comparison of floats.) *)
Lemma conv_held (dt : DType) (v : float) (z : Z) :
  In dt [Int64; Int32; Int16; Int8; Uint32; Uint16; Uint8] ->
  Elem.held dt v = true -> Enc.trunc v = Some z -> Elem.conv dt v = Enc.of_int z.
Proof.
  intros IN H T.
  assert (S : forall w, 0 < w <= 64 -> Enc.in_signed w v = true -> Enc.to_signed w v = z).
  { intros w W I. unfold Enc.in_signed in I. rewrite T in I.
    apply andb_true_iff in I. destruct I as [I1 I2].
    apply Z.leb_le in I1. apply Z.ltb_lt in I2. now apply to_signed_fits. }
  assert (U : forall w, 0 < w < 64 -> Enc.in_unsigned w v = true ->
                        Enc.to_unsigned w v = z /\ 0 <= z < 2 ^ w).
  { intros w W I. unfold Enc.in_unsigned in I. rewrite T in I.
    apply andb_true_iff in I. destruct I as [I1 I2].
    apply Z.leb_le in I1. apply Z.ltb_lt in I2. split; [now apply to_unsigned_fits | lia]. }
  unfold Elem.conv.
  destruct IN as [<-|[<-|[<-|[<-|[<-|[<-|[<-|[]]]]]]]];
    cbn [encode_float Elem.dec Elem.held] in *; rewrite le_decode_encode; f_equal.
  - rewrite (S 64) by (auto; lia). unfold Enc.in_signed in H. rewrite T in H.
    apply andb_true_iff in H. destruct H as [I1 I2].
    apply Z.leb_le in I1. apply Z.ltb_lt in I2. now apply (signed_mod 64).
  - rewrite (S 32) by (auto; lia). unfold Enc.in_signed in H. rewrite T in H.
    apply andb_true_iff in H. destruct H as [I1 I2].
    apply Z.leb_le in I1. apply Z.ltb_lt in I2. now apply (signed_mod 32).
  - rewrite (S 16) by (auto; lia). unfold Enc.in_signed in H. rewrite T in H.
    apply andb_true_iff in H. destruct H as [I1 I2].
    apply Z.leb_le in I1. apply Z.ltb_lt in I2. now apply (signed_mod 16).
  - rewrite (S 8) by (auto; lia). unfold Enc.in_signed in H. rewrite T in H.
    apply andb_true_iff in H. destruct H as [I1 I2].
    apply Z.leb_le in I1. apply Z.ltb_lt in I2. now apply (signed_mod 8).
  - destruct (U 32) as [-> R]; [lia | exact H |]. now apply Z.mod_small.
  - destruct (U 16) as [-> R]; [lia | exact H |]. now apply Z.mod_small.
  - destruct (U 8) as [-> R]; [lia | exact H |]. now apply Z.mod_small.
Qed.

Lemma encode_int_length dt v bs : encode_int dt v = Some bs -> len bs = ItemSize dt.
Proof.
  unfold len. destruct dt; cbn; intros [= <-]; rewrite ?le_encode_length; reflexivity.
Qed.

(** Reading an element of a backed array of an integral dtype. *)
Lemma GetInt64_elem (h : heap) (a : NDArray) (buf : buffer) (idx : list Z) :
  View.backs h a buf -> IntSpec.integral (dtype a) = true ->
  Layout.in_shape (shape a) idx ->
  GetInt64 a idx h
  = Ok (IntSpec.dec (dtype a)
          (Elem.chunk (ItemSize (dtype a)) buf (Layout.ravel (shape a) idx)), h).
Proof.
  intros V I IS. destruct (backs_bounds h a buf idx V IS) as (K & B & M).
  destruct V as (S & N & Z & T & F & G & L).
  pose proof (load_chunk h (data a) buf (ItemSize (dtype a)) _ G (ItemSize_pos _) K B M)
    as LD.
  unfold GetInt64. rewrite (flatIndex_ravel a (ItemSize (dtype a))) by auto.
  cbn [lift]. unfold bind at 1. cbn [ret].
  destruct (dtype a); try discriminate; cbn [ItemSize IntSpec.dec] in *;
    rewrite (bind_ok_intro _ _ _ _ _ LD); reflexivity.
Qed.

(** Writing an element of a backed array of an integral dtype. *)
Lemma SetInt64_elem (h : heap) (a : NDArray) (buf : buffer) (idx : list Z) (v : Z) :
  View.backs h a buf -> IntSpec.integral (dtype a) = true ->
  Layout.in_shape (shape a) idx ->
  exists bs,
    encode_int (dtype a) v = Some bs
    /\ SetInt64 a v idx h
       = Ok (tt, set_nth (data a)
                   (copy_at (Z.to_nat (Layout.ravel (shape a) idx * ItemSize (dtype a)))
                      buf bs) h).
Proof.
  intros V I IS. destruct (backs_bounds h a buf idx V IS) as (K & B & M).
  destruct V as (S & N & Z & T & F & G & L).
  assert (EB : exists bs, encode_int (dtype a) v = Some bs)
    by (destruct (dtype a); try discriminate; cbn; eauto).
  destruct EB as [bs EB]. exists bs. split; [exact EB|].
  unfold SetInt64. rewrite (flatIndex_ravel a (ItemSize (dtype a))) by auto.
  cbn [lift]. unfold bind. cbn [ret]. rewrite EB.
  apply store_chunk; auto.
  - eapply encode_int_length; eauto.
  - apply ItemSize_pos.
Qed.

(** X30.  On a backed array of an integer dtype or [Bool], [GetInt64]
    after [SetInt64] at the same index returns the value as the dtype
    stores it, which is the value itself when the dtype holds it (an
    [int64] for [Int64] and [Uint64], 0 or 1 for [Bool]); the elements
    at the other indices read as before. *)
Theorem SetInt64_then_GetInt64 (h : heap) (a : NDArray) (buf : buffer)
    (idx : list Z) (v : Z) :
  View.backs h a buf -> IntSpec.integral (dtype a) = true ->
  Layout.in_shape (shape a) idx ->
  exists h',
    SetInt64 a v idx h = Ok (tt, h')
    /\ GetInt64 a idx h' = Ok (IntSpec.conv (dtype a) v, h')
    /\ (IntSpec.holds (dtype a) v -> GetInt64 a idx h' = Ok (v, h'))
    /\ (forall jdx, Layout.in_shape (shape a) jdx -> jdx <> idx ->
          get_value (GetInt64 a jdx h') = get_value (GetInt64 a jdx h)).
Proof.
  intros V I IS. destruct (backs_bounds h a buf idx V IS) as (K & B & M).
  destruct (SetInt64_elem h a buf idx v V I IS) as (bs & EB & ES).
  pose proof (encode_int_length _ _ _ EB) as LBS.
  pose proof (ItemSize_pos (dtype a)) as W.
  set (w := ItemSize (dtype a)) in *. set (k := Layout.ravel (shape a) idx) in *.
  set (buf' := copy_at (Z.to_nat (k * w)) buf bs) in *.
  assert (L' : len buf' = len buf).
  { unfold buf', len in *. rewrite copy_at_length; [reflexivity|]. nia. }
  pose proof (backs_set h a buf buf' V L') as V'.
  assert (G : GetInt64 a idx (set_nth (data a) buf' h)
              = Ok (IntSpec.conv (dtype a) v, set_nth (data a) buf' h)).
  { rewrite (GetInt64_elem _ a buf' idx V' I IS). fold w k. unfold buf'.
    rewrite chunk_copy_same by (auto; lia). unfold IntSpec.conv. now rewrite EB. }
  eexists. split; [exact ES|]. split; [exact G|]. split.
  - intros H. rewrite G. now rewrite conv_holds.
  - intros jdx J NE.
    rewrite (GetInt64_elem _ a buf' jdx V' I J), (GetInt64_elem _ a buf jdx V I J).
    cbn [get_value]. fold w. unfold buf'.
    pose proof (ravel_bounds _ _ J) as RJ.
    rewrite chunk_copy_other; auto; try lia.
    intros E. apply NE. apply (ravel_inj (shape a)); auto.
Qed.

Lemma SetInt64_then_GetInt64_witness :
  let buf := repeat x00 6 in
  let a := mkNDArray 0 [3] [2] Int16 3 1 in
  View.backs [buf] a buf
  /\ exists h', SetInt64 a (-5) [1] [buf] = Ok (tt, h')
                /\ GetInt64 a [1] h' = Ok (-5, h').
Proof.
  intros buf a.
  assert (V : View.backs [buf] a buf).
  { repeat split; try reflexivity; repeat constructor; vm_compute; congruence. }
  split; [exact V|].
  destruct (SetInt64_then_GetInt64 [buf] a buf [1] (-5) V eq_refl)
    as (h' & S & _ & G & _).
  { repeat constructor; lia. }
  exists h'. split; [exact S|]. apply G. cbn. lia.
Defined.

Module Creation.

(** [Range]: [make([]int64, n)] panics for a negative [n], which
    [stop - start] is only after it wrapped around. *)
Definition Range (start stop : Z) : M NDArray :=
  if stop <? start then FromSliceInt64 [] [0]
  else
    let n := GoInt.sub stop start in
    if n <? 0 then fail RuntimePanic
    else
      let data := tabulate n (fun i => GoInt.add start (Z.of_nat i)) in
      FromSliceInt64 data [n].

End Creation.

Lemma FromSliceInt64_empty (h : heap) :
  FromSliceInt64 [] [0] h = Ok (mkNDArray (length h) [0] [8] Int64 0 1, h ++ [[]]).
Proof. reflexivity. Qed.

(** X29.  [Range] from [start] to a larger [stop] returns a fresh
    [Int64] array of shape [[stop - start]] whose element [i] is
    [start + i], read with [GetInt64], and that integer as a [float64],
    read with [GetFloat64].  When [stop] is not larger than [start] the
    array has shape [[0]] and no element. *)
Theorem Range_counts_from_start (start stop : Z) (h : heap) :
  GoInt.in_range start -> GoInt.in_range stop ->
  (start < stop -> 8 * (stop - start) <= GoInt.max_int ->
   exists r h',
     Creation.Range start stop h = Ok (r, h')
     /\ data r = length h /\ shape r = [stop - start] /\ dtype r = Int64
     /\ forall i, 0 <= i < stop - start ->
          GetInt64 r [i] h' = Ok (start + i, h')
          /\ GetFloat64 r [i] h' = Ok (Enc.of_int (start + i), h'))
  /\ (stop <= start ->
      exists r h',
        Creation.Range start stop h = Ok (r, h')
        /\ shape r = [0] /\ size r = 0 /\ dtype r = Int64).
Proof.
  intros RS RT. unfold GoInt.in_range, GoInt.min_int, GoInt.max_int in RS, RT. split.
  - intros LT B. set (n := stop - start) in *.
    unfold Creation.Range. replace (stop <? start) with false by lia.
    unfold GoInt.sub. rewrite (wrap_small (stop - start))
      by (unfold GoInt.in_range, GoInt.min_int, GoInt.max_int in *; lia).
    fold n. replace (n <? 0) with false by lia.
    set (xs := tabulate n (fun i => GoInt.add start (Z.of_nat i))).
    assert (LX : length xs = Z.to_nat n)
      by (unfold xs, tabulate; now rewrite length_map, length_seq).
    destruct (FromSliceInt64_backs xs [n] h) as (buf & EF & V & G).
    { discriminate. }
    { split; [repeat constructor; lia|]. split; [lia|].
      change (Layout.prodZ [n]) with (n * 1). lia. }
    { unfold len. rewrite LX. change (Layout.prodZ [n]) with (n * 1). lia. }
    cbv zeta in EF, V. eexists _, _. split; [exact EF|]. cbn [data shape dtype].
    repeat (split; [reflexivity|]).
    intros i Hi.
    assert (EX : nth (Z.to_nat i) xs 0 = start + i).
    { unfold xs, tabulate. rewrite nth_tabulate by lia. rewrite Z2Nat.id by lia.
      unfold GoInt.add. apply wrap_small.
      unfold GoInt.in_range, GoInt.min_int, GoInt.max_int in *. lia. }
    assert (EC : Enc.signed 64 (Enc.le_decode (Elem.chunk 8 buf i))
                 = start + i).
    { rewrite G by (unfold len; lia). rewrite EX. apply signed_encode.
      unfold GoInt.in_range, GoInt.min_int, GoInt.max_int in *. lia. }
    split.
    + rewrite (GetInt64_item _ _ buf n i V eq_refl eq_refl Hi). now rewrite EC.
    + rewrite (GetFloat64_item _ _ buf n i V eq_refl Hi).
      cbn [dtype]. unfold Elem.get. cbn [ItemSize Elem.dec]. now rewrite EC.
  - intros LE. unfold Creation.Range.
    destruct (Z.ltb_spec stop start) as [LT|GE].
    + eexists _, _. split; [apply FromSliceInt64_empty|]. repeat split; reflexivity.
    + assert (stop = start) as -> by lia.
      unfold GoInt.sub. rewrite Z.sub_diag. change (GoInt.wrap 0) with 0.
      change (0 <? 0) with false. change (tabulate 0 _) with (@nil Z).
      eexists _, _. split; [apply FromSliceInt64_empty|]. repeat split; reflexivity.
Qed.

Lemma Range_counts_from_start_witness :
  exists r h',
    Creation.Range (-2) 3 [] = Ok (r, h')
    /\ shape r = [5]
    /\ GetInt64 r [0] h' = Ok (-2, h')
    /\ GetInt64 r [4] h' = Ok (2, h').
Proof.
  destruct (Range_counts_from_start (-2) 3 []) as (R & _).
  - vm_compute. split; discriminate.
  - vm_compute. split; discriminate.
  - destruct R as (r & h' & E & _ & S & _ & G); [lia | vm_compute; discriminate|].
    exists r, h'. split; [exact E|]. split; [exact S|].
    split; [apply (G 0) | apply (G 4)]; lia.
Defined.
